(** * PDF-Compare: the text-difference localisation engine and the aggregator

    A shallow embedding of [pdf_comparer.py] (class [PDFComparer]) together
    with the parts of Python's [difflib] it calls ([SequenceMatcher],
    [unified_diff]), and the properties of the design document proved or
    refuted over it.

    Conventions of the embedding:
    - a Python [str] is a list of Unicode code points ([text]); file paths,
      dictionary keys and the messages of error results are Rocq strings;
    - indices into sequences are [nat]; the two cursors of
      [_extract_detailed_positions] and the argument of
      [_find_page_for_line] are [Z], because the source can make them [-1];
    - Python floats are modelled by exact rationals ([Q]);
    - collaborators (PyMuPDF, pdf2image, numpy, pdfplumber, the file system)
      are a record of functions, and every call to one is written to a trace. *)

From Stdlib Require Import ZArith QArith Lia Ascii String DecimalString DecimalNat.
From stdpp Require Import gmap strings list fin_maps sorting.

Local Open Scope Z_scope.

(** ** Text *)

Definition char := N.
Definition text := list char.

(** A literal: the code points of an ASCII string. *)
Definition str (s : string) : text :=
  (λ c, N_of_ascii c) <$> list_ascii_of_string s.
Arguments str : simpl never.

Definition NL : char := 10%N.
Definition CR : char := 13%N.

(** The line boundaries of [str.splitlines]. *)
Definition is_linebreak (c : char) : bool :=
  bool_decide (c ∈ [10; 11; 12; 13; 28; 29; 30; 133; 8232; 8233]%N).

(** [s.splitlines()]: [cr] tells that the previous character was a carriage
    return, so that a line feed right after it belongs to the same boundary;
    a last line is produced only when it is not empty. *)
Fixpoint splitlines_from (cr : bool) (cur : text) (s : text) : list text :=
  match s with
  | [] => match cur with [] => [] | _ => [cur] end
  | c :: s' =>
      if cr && bool_decide (c = NL) then splitlines_from false cur s'
      else if is_linebreak c then cur :: splitlines_from (bool_decide (c = CR)) [] s'
      else splitlines_from false (cur ++ [c]) s'
  end.

Definition splitlines (s : text) : list text := splitlines_from false [] s.

(** [sep.join(l)] *)
Fixpoint join (sep : text) (l : list text) : text :=
  match l with
  | [] => []
  | [x] => x
  | x :: l' => x ++ sep ++ join sep l'
  end.

(** [s.startswith(p)] *)
Fixpoint startswith (p s : text) : bool :=
  match p, s with
  | [], _ => true
  | c :: p', d :: s' => bool_decide (c = d) && startswith p' s'
  | _ :: _, [] => false
  end.

(** [len(l)] as a Python integer. *)
Definition len {A} (l : list A) : Z := Z.of_nat (length l).

(** Python's slice [l[i:j]] for indices that are not negative. *)
Definition slice {A} (l : list A) (i j : nat) : list A := take (j - i) (drop i l).

(** ** Page and line resolution *)

(** The [for] loop of [_find_page_for_line]; [None] when the loop ends
    without returning. *)
Fixpoint find_page_loop (line_num : Z) (pages : list text)
    (page_idx : nat) (current_line : Z) : option (Z * Z) :=
  match pages with
  | [] => None
  | page_text :: rest =>
      let page_lines := splitlines page_text in
      if line_num <=? current_line + len page_lines
      then Some (Z.of_nat page_idx + 1, line_num - current_line)
      else find_page_loop line_num rest (S page_idx) (current_line + len page_lines)
  end.

Definition _find_page_for_line (line_num : Z) (pages : list text) : Z * Z :=
  default (len pages, 0) (find_page_loop line_num pages 0 0).

(** The page-span table of a document and its cumulative sums: [span_upto
    pages k] is the number of lines of the first [k] pages. *)
Definition page_spans (pages : list text) : list nat :=
  (λ p, length (splitlines p)) <$> pages.

Definition span_upto (pages : list text) (k : nat) : Z :=
  Z.of_nat (sum_list (take k (page_spans pages))).

Definition span_total (pages : list text) : Z :=
  Z.of_nat (sum_list (page_spans pages)).

(** ** Decimal numerals

    [dec z] is ['{}'.format(z)] for a Python integer, [int_of_digits] is
    [int] on a string of ASCII digits. *)

Definition digit_char (d : N) : char := (48 + d)%N.

Fixpoint uint_digits (d : Decimal.uint) : text :=
  match d with
  | Decimal.Nil => []
  | Decimal.D0 d => digit_char 0 :: uint_digits d
  | Decimal.D1 d => digit_char 1 :: uint_digits d
  | Decimal.D2 d => digit_char 2 :: uint_digits d
  | Decimal.D3 d => digit_char 3 :: uint_digits d
  | Decimal.D4 d => digit_char 4 :: uint_digits d
  | Decimal.D5 d => digit_char 5 :: uint_digits d
  | Decimal.D6 d => digit_char 6 :: uint_digits d
  | Decimal.D7 d => digit_char 7 :: uint_digits d
  | Decimal.D8 d => digit_char 8 :: uint_digits d
  | Decimal.D9 d => digit_char 9 :: uint_digits d
  end.

Definition dec_nat (n : nat) : text := uint_digits (Nat.to_uint n).

Definition dec (z : Z) : text :=
  if z <? 0 then str "-" ++ dec_nat (Z.to_nat (- z)) else dec_nat (Z.to_nat z).

Definition is_digit (c : char) : bool := ((48 <=? c) && (c <=? 57))%N.

Definition int_of_digits (ds : text) : Z :=
  foldl (λ acc c, 10 * acc + Z.of_N (c - 48)) 0 ds.

(** ** difflib *)

Module Difflib.

Inductive tag := Replace | Delete | Insert | Equal.

(** An opcode [(tag, i1, i2, j1, j2)] and a matching block [Match(a, b, size)]. *)
Definition opcode : Type := tag * nat * nat * nat * nat.
Definition Match : Type := nat * nat * nat.

Global Instance tag_eq_dec : EqDecision tag.
Proof. solve_decision. Defined.

(** The order of tuples of integers, by which [list.sort] orders matching
    blocks. *)
Definition Match_le (x y : Match) : Prop :=
  let '(i1, j1, k1) := x in
  let '(i2, j2, k2) := y in
  (i1 < i2 ∨ (i1 = i2 ∧ (j1 < j2 ∨ (j1 = j2 ∧ k1 ≤ k2))))%nat.

Global Instance Match_le_dec x y : Decision (Match_le x y).
Proof. destruct x as [[??]?], y as [[??]?]; simpl; apply _. Defined.

Section SequenceMatcher.
Local Open Scope nat_scope.
Context {A : Type} `{Countable A}.

(** [SequenceMatcher(None, a, b)]: no junk predicate, [autojunk] on. *)
Variables a b : list A.

(** *** [__chain_b] *)

(** [for i, elt in enumerate(b): b2j.setdefault(elt, []).append(i)] *)
Fixpoint chain_loop (i : nat) (l : list A) (b2j : gmap A (list nat))
    : gmap A (list nat) :=
  match l with
  | [] => b2j
  | elt :: l' =>
      chain_loop (S i) l' (<[elt := default [] (b2j !! elt) ++ [i]]> b2j)
  end.

(** [isjunk] is [None]: the junk set stays empty. *)
Definition bjunk : gset A := ∅.
Definition isbjunk (x : A) : bool := bool_decide (x ∈ bjunk).

(** The popular elements: with 200 elements or more, those that occur
    more than [n // 100 + 1] times. *)
Definition bpopular : gset A :=
  let n := length b in
  if bool_decide (200 ≤ n)
  then dom (filter (λ kv, n / 100 + 1 < length kv.2) (chain_loop 0 b ∅))
  else ∅.

(** [b2j] once the popular elements are deleted from it. *)
Definition b2j : gmap A (list nat) :=
  filter (λ kv, kv.1 ∉ bpopular) (chain_loop 0 b ∅).

(** *** [find_longest_match] *)

(** [j2len.get(j-1, 0)]: no key of [j2len] is negative. *)
Definition j2lenget (j2len : gmap nat nat) (j : nat) : nat :=
  match j with
  | 0 => 0
  | S j' => default 0 (j2len !! j')
  end.

(** The loop [for j in b2j.get(a[i], nothing)]; the state is [newj2len]
    and the best match so far. [i-k+1] is written [i + 1 - k]. *)
Fixpoint flm_inner (i blo bhi : nat) (j2len : gmap nat nat) (js : list nat)
    (newj2len : gmap nat nat) (best : Match) : gmap nat nat * Match :=
  match js with
  | [] => (newj2len, best)
  | j :: js' =>
      if j <? blo then flm_inner i blo bhi j2len js' newj2len best
      else if bhi <=? j then (newj2len, best)
      else
        let k := j2lenget j2len j + 1 in
        let best' := if best.2 <? k then (i + 1 - k, j + 1 - k, k) else best in
        flm_inner i blo bhi j2len js' (<[j := k]> newj2len) best'
  end.

(** [b2j.get(a[i], nothing)] *)
Definition b2j_get (i : nat) : list nat :=
  match a !! i with
  | Some x => default [] (b2j !! x)
  | None => []
  end.

(** The loop [for i in range(alo, ahi)], over the list of its indices. *)
Fixpoint flm_outer (blo bhi : nat) (range : list nat) (j2len : gmap nat nat)
    (best : Match) : Match :=
  match range with
  | [] => best
  | i :: range' =>
      let '(newj2len, best') := flm_inner i blo bhi j2len (b2j_get i) ∅ best in
      flm_outer blo bhi range' newj2len best'
  end.

(** [x == y] for two elements read from the sequences. *)
Definition elem_eqb (x y : option A) : bool :=
  match x, y with
  | Some x, Some y => bool_decide (x = y)
  | _, _ => false
  end.

Definition elem_junk (x : option A) : bool :=
  match x with Some x => isbjunk x | None => false end.

(** The two backward [while] loops: [junk = false] extends over elements
    that are not junk, [junk = true] over junk. *)
Fixpoint extend_back (junk : bool) (alo blo : nat) (besti bestj bestsize : nat)
    : Match :=
  match besti with
  | 0 => (besti, bestj, bestsize)
  | S i' =>
      match bestj with
      | 0 => (besti, bestj, bestsize)
      | S j' =>
          if (alo <? besti) && (blo <? bestj)
             && bool_decide (elem_junk (b !! j') = junk)
             && elem_eqb (a !! i') (b !! j')
          then extend_back junk alo blo i' j' (bestsize + 1)
          else (besti, bestj, bestsize)
      end
  end.

(** The two forward [while] loops; [fuel] is [ahi - (besti + bestsize)],
    the number of iterations after which the first test of the loop fails. *)
Fixpoint extend_fwd (junk : bool) (fuel : nat) (ahi bhi : nat)
    (besti bestj bestsize : nat) : Match :=
  match fuel with
  | 0 => (besti, bestj, bestsize)
  | S fuel' =>
      if (besti + bestsize <? ahi) && (bestj + bestsize <? bhi)
         && bool_decide (elem_junk (b !! (bestj + bestsize)) = junk)
         && elem_eqb (a !! (besti + bestsize)) (b !! (bestj + bestsize))
      then extend_fwd junk fuel' ahi bhi besti bestj (bestsize + 1)
      else (besti, bestj, bestsize)
  end.

Definition extend (junk : bool) (alo ahi blo bhi : nat) (m : Match) : Match :=
  let '(besti, bestj, bestsize) := m in
  let '(besti, bestj, bestsize) := extend_back junk alo blo besti bestj bestsize in
  extend_fwd junk (ahi - (besti + bestsize)) ahi bhi besti bestj bestsize.

Definition find_longest_match (alo ahi blo bhi : nat) : Match :=
  let best := flm_outer blo bhi (seq alo (ahi - alo)) ∅ (alo, blo, 0) in
  extend true alo ahi blo bhi (extend false alo ahi blo bhi best).

(** *** [get_matching_blocks] *)

(** The [while queue] loop. The head of [queue] is the last element of the
    Python list, so [queue.pop()] takes the head and [queue.append] is a
    cons. When [fuel] runs out the state is returned as it is;
    [len(a) + len(b) + 1] iterations empty the queue. *)
Fixpoint matching_loop (fuel : nat) (queue : list (nat * nat * nat * nat))
    (matching_blocks : list Match) : list (nat * nat * nat * nat) * list Match :=
  match fuel with
  | 0 => (queue, matching_blocks)
  | S fuel' =>
      match queue with
      | [] => (queue, matching_blocks)
      | (alo, ahi, blo, bhi) :: queue' =>
          let '(i, j, k) := find_longest_match alo ahi blo bhi in
          if k =? 0 then matching_loop fuel' queue' matching_blocks
          else
            let q1 := if (alo <? i) && (blo <? j)
                      then (alo, i, blo, j) :: queue' else queue' in
            let q2 := if (i + k <? ahi) && (j + k <? bhi)
                      then (i + k, ahi, j + k, bhi) :: q1 else q1 in
            matching_loop fuel' q2 (matching_blocks ++ [(i, j, k)])
      end
  end.

(** The loop that collapses adjacent blocks, with what it appends to
    [non_adjacent] in front of the rest. *)
Fixpoint collapse (blocks : list Match) (i1 j1 k1 : nat) : list Match :=
  match blocks with
  | [] => if k1 =? 0 then [] else [(i1, j1, k1)]
  | (i2, j2, k2) :: rest =>
      if (i1 + k1 =? i2) && (j1 + k1 =? j2)
      then collapse rest i1 j1 (k1 + k2)
      else (if k1 =? 0 then [] else [(i1, j1, k1)]) ++ collapse rest i2 j2 k2
  end.

Definition get_matching_blocks : list Match :=
  let la := length a in
  let lb := length b in
  let matching_blocks := (matching_loop (la + lb + 1) [(0, la, 0, lb)] []).2 in
  collapse (merge_sort Match_le matching_blocks) 0 0 0 ++ [(la, lb, 0)].

(** *** [get_opcodes] *)

Fixpoint opcodes_loop (blocks : list Match) (i j : nat) : list opcode :=
  match blocks with
  | [] => []
  | (ai, bj, size) :: rest =>
      (if (i <? ai) && (j <? bj) then [(Replace, i, ai, j, bj)]
       else if i <? ai then [(Delete, i, ai, j, bj)]
       else if j <? bj then [(Insert, i, ai, j, bj)]
       else [])
      ++ (if size =? 0 then [] else [(Equal, ai, ai + size, bj, bj + size)])
      ++ opcodes_loop rest (ai + size) (bj + size)
  end.

Definition get_opcodes : list opcode := opcodes_loop get_matching_blocks 0 0.

(** *** [get_grouped_opcodes] *)

(** [codes[0] = ...] when the first opcode is an [equal]. *)
Definition fix_first (n : nat) (codes : list opcode) : list opcode :=
  match codes with
  | (Equal, i1, i2, j1, j2) :: rest =>
      (Equal, i1 `max` (i2 - n), i2, j1 `max` (j2 - n), j2) :: rest
  | _ => codes
  end.

(** [codes[-1] = ...] when the last opcode is an [equal]. *)
Fixpoint fix_last (n : nat) (codes : list opcode) : list opcode :=
  match codes with
  | [] => []
  | [(Equal, i1, i2, j1, j2)] =>
      [(Equal, i1, i2 `min` (i1 + n), j1, j2 `min` (j1 + n))]
  | c :: rest => c :: fix_last n rest
  end.

(** The test at the end of the generator: [group and not (len(group)==1
    and group[0][0] == 'equal')]. *)
Definition group_shown (group : list opcode) : bool :=
  match group with
  | [] => false
  | [(Equal, _, _, _, _)] => false
  | _ => true
  end.

Fixpoint group_loop (n : nat) (codes : list opcode) (group : list opcode)
    : list (list opcode) :=
  match codes with
  | [] => if group_shown group then [group] else []
  | (tag, i1, i2, j1, j2) :: rest =>
      if bool_decide (tag = Equal) && (n + n <? i2 - i1)
      then (group ++ [(tag, i1, i2 `min` (i1 + n), j1, j2 `min` (j1 + n))])
           :: group_loop n rest [(tag, i1 `max` (i2 - n), i2, j1 `max` (j2 - n), j2)]
      else group_loop n rest (group ++ [(tag, i1, i2, j1, j2)])
  end.

Definition get_grouped_opcodes (n : nat) : list (list opcode) :=
  let codes := get_opcodes in
  let codes := match codes with [] => [(Equal, 0, 1, 0, 1)] | _ => codes end in
  group_loop n (fix_last n (fix_first n codes)) [].

(** *** [ratio] *)

(** [_calculate_ratio(matches, length)] *)
Definition _calculate_ratio (matches length : nat) : Q :=
  if length =? 0 then 1%Q
  else (2 * inject_Z (Z.of_nat matches) / inject_Z (Z.of_nat length))%Q.

Definition ratio : Q :=
  let matches := sum_list ((λ triple : Match, triple.2) <$> get_matching_blocks) in
  _calculate_ratio matches (length a + length b).

End SequenceMatcher.

(** *** [unified_diff] *)

(** [_format_range_unified(start, stop)] *)
Definition _format_range_unified (start stop : Z) : text :=
  let beginning := (start + 1)%Z in
  let length := (stop - start)%Z in
  if (length =? 1)%Z then dec beginning
  else
    let beginning := if (length =? 0)%Z then (beginning - 1)%Z else beginning in
    dec beginning ++ str "," ++ dec length.

(** [prefix + line] *)
Definition prefix_line (prefix line : text) : text := prefix ++ line.

(** The lines one opcode of a group contributes. *)
Definition dump_opcode (a b : list text) (op : opcode) : list text :=
  let '(tag, i1, i2, j1, j2) := op in
  match tag with
  | Equal => prefix_line (str " ") <$> slice a i1 i2
  | _ =>
      (if bool_decide (tag ∈ [Replace; Delete])
       then prefix_line (str "-") <$> slice a i1 i2 else [])
      ++
      (if bool_decide (tag ∈ [Replace; Insert])
       then prefix_line (str "+") <$> slice b j1 j2 else [])
  end.

(** The range line of a group and the lines of its opcodes. A group that the
    generator yields is never empty; the default stands for [group[0]] and
    [group[-1]] of an empty one. *)
Definition dump_group (a b : list text) (lineterm : text) (group : list opcode)
    : list text :=
  let first := default (Equal, 0, 0, 0, 0)%nat (head group) in
  let last := default (Equal, 0, 0, 0, 0)%nat (last group) in
  let file1_range := _format_range_unified (Z.of_nat first.1.1.1.2) (Z.of_nat last.1.1.2) in
  let file2_range := _format_range_unified (Z.of_nat first.1.2) (Z.of_nat last.2) in
  (str "@@ -" ++ file1_range ++ str " +" ++ file2_range ++ str " @@" ++ lineterm)
  :: concat (dump_opcode a b <$> group).

Definition TAB : char := 9%N.

Definition unified_diff (a b : list text)
    (fromfile tofile fromfiledate tofiledate : text) (n : nat) (lineterm : text)
    : list text :=
  match get_grouped_opcodes a b n with
  | [] => []
  | groups =>
      let fromdate := match fromfiledate with [] => [] | _ => TAB :: fromfiledate end in
      let todate := match tofiledate with [] => [] | _ => TAB :: tofiledate end in
      (str "--- " ++ fromfile ++ fromdate ++ lineterm)
      :: (str "+++ " ++ tofile ++ todate ++ lineterm)
      :: concat (dump_group a b lineterm <$> groups)
  end.

End Difflib.

(** ** Detailed positions of the differences *)

(** Python's [l[i:j]] for any two integers. *)
Definition clamp_index {A} (l : list A) (i : Z) : nat :=
  Z.to_nat (0 `max` (len l `min` (if i <? 0 then i + len l else i))).

Definition pyslice {A} (l : list A) (i j : Z) : list A :=
  slice l (clamp_index l i) (clamp_index l j).

(** The regular expression [@@ -(\d+)(?:,(\d+))? \+(\d+)(?:,(\d+))? @@] of
    [_extract_detailed_positions], matched at the start of a line as
    [re.match] does. [\d] is an ASCII digit: no other digit occurs in a range
    line written by [unified_diff]. A run of digits is followed by a
    character that is not a digit, so the longest run is the only one with
    which the rest of the expression can match. *)
Fixpoint take_digits (s : text) : text :=
  match s with
  | c :: s' => if is_digit c then c :: take_digits s' else []
  | [] => []
  end.

(** [(\d+)]: the digits and what follows them. *)
Definition re_digits (s : text) : option (text * text) :=
  match take_digits s with
  | [] => None
  | ds => Some (ds, drop (length ds) s)
  end.

(** A literal piece of the expression. *)
Definition re_lit (p s : text) : option text :=
  if startswith p s then Some (drop (length p) s) else None.

(** [(?:,(\d+))?] *)
Definition re_opt_count (s : text) : text :=
  match re_lit (str ",") s ≫= re_digits with
  | Some (_, s') => s'
  | None => s
  end.

(** Groups 1 and 3 of the match, if the line matches. *)
Definition match_range_line (line : text) : option (text * text) :=
  s ← re_lit (str "@@ -") line;
  '(g1, s) ← re_digits s;
  s ← re_lit (str " +") (re_opt_count s);
  '(g3, s) ← re_digits s;
  _ ← re_lit (str " @@") (re_opt_count s);
  Some (g1, g3).

Inductive diff_type := removed | added.
Inductive diff_file := pdf1 | pdf2.

(** The dictionary [_get_context] returns. *)
Record diff_context := {
  before : list text;
  after : list text
}.

(** One element of [detailed_differences]; the fields are the keys of the
    dictionary, [d_line] for ['line'] and so on. *)
Record difference := {
  d_type : diff_type;
  d_content : text;
  d_page : Z;
  d_line : Z;
  d_line_in_page : Z;
  d_file : diff_file;
  d_context : diff_context
}.

Definition _get_context (lines : list text) (line_num : Z) (context_size : Z)
    : diff_context :=
  {| before := pyslice lines (0 `max` (line_num - context_size)) line_num;
     after := pyslice lines (line_num + 1)
                (len lines `min` (line_num + 1 + context_size)) |}.

(** The loop of [_extract_detailed_positions], with what it appends to
    [differences] in front of the rest. *)
Fixpoint extract_loop (diff_lines : list text) (lines1 lines2 : list text)
    (pages1 pages2 : list text) (current_line1 current_line2 : Z)
    : list difference :=
  match diff_lines with
  | [] => []
  | line :: rest =>
      if startswith (str "@@") line then
        match match_range_line line with
        | Some (g1, g3) =>
            extract_loop rest lines1 lines2 pages1 pages2
              (int_of_digits g1 - 1) (int_of_digits g3 - 1)
        | None =>
            extract_loop rest lines1 lines2 pages1 pages2 current_line1 current_line2
        end
      else if startswith (str "---") line || startswith (str "+++") line then
        extract_loop rest lines1 lines2 pages1 pages2 current_line1 current_line2
      else if startswith (str "-") line then
        let '(page_num, line_in_page) := _find_page_for_line current_line1 pages1 in
        {| d_type := removed;
           d_content := drop 1 line;
           d_page := page_num;
           d_line := current_line1 + 1;
           d_line_in_page := line_in_page;
           d_file := pdf1;
           d_context := _get_context lines1 current_line1 2 |}
        :: extract_loop rest lines1 lines2 pages1 pages2 (current_line1 + 1) current_line2
      else if startswith (str "+") line then
        let '(page_num, line_in_page) := _find_page_for_line current_line2 pages2 in
        {| d_type := added;
           d_content := drop 1 line;
           d_page := page_num;
           d_line := current_line2 + 1;
           d_line_in_page := line_in_page;
           d_file := pdf2;
           d_context := _get_context lines2 current_line2 2 |}
        :: extract_loop rest lines1 lines2 pages1 pages2 current_line1 (current_line2 + 1)
      else
        extract_loop rest lines1 lines2 pages1 pages2 (current_line1 + 1) (current_line2 + 1)
  end.

Definition _extract_detailed_positions (diff_lines : list text)
    (lines1 lines2 : list text) (pages1 pages2 : list text) : list difference :=
  extract_loop diff_lines lines1 lines2 pages1 pages2 0 0.

(** ** Results of the comparison methods *)

Record statistics := {
  lines_added : nat;
  lines_removed : nat;
  total_changes : nat;
  char_count1 : nat;
  char_count2 : nat;
  line_count1 : nat;
  line_count2 : nat
}.

(** Either ['detailed_differences'] or ['diff_preview'] is in the result of
    the text comparison. *)
Inductive text_detail :=
| detailed_differences (ds : list difference)
| diff_preview (ls : list text).

(** [{'pdf1': x, 'pdf2': y, 'identical': x == y}] *)
Record compared (V : Type) := {
  of_pdf1 : V;
  of_pdf2 : V;
  same : bool
}.
Arguments of_pdf1 {V}.
Arguments of_pdf2 {V}.
Arguments same {V}.

Definition compare_values {V} `{EqDecision V} (x y : V) : compared V :=
  {| of_pdf1 := x; of_pdf2 := y; same := bool_decide (x = y) |}.

Record page_similarity := {
  ps_page : Z;
  ps_similarity : Q;
  ps_different_pixels : Z;
  ps_total_pixels : Z
}.

Record table_info := {
  ti_page : Z;
  ti_tables_pdf1 : nat;
  ti_tables_pdf2 : nat;
  ti_identical : bool
}.

(** The dictionaries the comparison methods return, one constructor for each
    dictionary display of the source. The key ['method'] is left out. *)
Inductive result :=
| ErrorResult (error : string)
| TextResult (identical : bool) (similarity : Q) (stats : statistics)
    (detail : text_detail)
| VisualPageMismatch (identical : bool) (error : string)
| VisualResult (identical : bool) (overall_similarity : Q) (page_count : nat)
    (page_similarities : list page_similarity)
| StructureResult (page_count : compared nat) (tables : list table_info)
    (identical : bool)
| MetadataResult (file_hash : compared string)
    (metadata : gmap string (compared (option string))) (identical : bool)
| BasicInfoResult (file_size : compared Z) (page_count : option (compared nat)).

(** ['error' in result] *)
Definition has_error (r : result) : bool :=
  match r with
  | ErrorResult _ | VisualPageMismatch _ _ => true
  | _ => false
  end.

(** [result['identical']] when ['identical' in result]. *)
Definition get_identical (r : result) : option bool :=
  match r with
  | TextResult i _ _ _ | VisualPageMismatch i _ | VisualResult i _ _ _
  | StructureResult _ _ i | MetadataResult _ _ i => Some i
  | ErrorResult _ | BasicInfoResult _ _ => None
  end.

(** ** The text comparison on extracted pages *)

Definition count_prefixed (p pp : text) (diff_lines : list text) : nat :=
  length (filter (λ l, startswith p l = true ∧ startswith pp l = false) diff_lines).

Definition text_result (pages1 pages2 : list text) (fromfile tofile : text)
    (detailed : bool) : result :=
  let text1 := join [NL] pages1 in
  let text2 := join [NL] pages2 in
  let lines1 := splitlines text1 in
  let lines2 := splitlines text2 in
  let diff_lines := Difflib.unified_diff lines1 lines2 fromfile tofile [] [] 3 [] in
  let added := count_prefixed (str "+") (str "+++") diff_lines in
  let removed := count_prefixed (str "-") (str "---") diff_lines in
  let similarity := Difflib.ratio text1 text2 in
  TextResult (bool_decide (text1 = text2)) similarity
    {| lines_added := added;
       lines_removed := removed;
       total_changes := added + removed;
       char_count1 := length text1;
       char_count2 := length text2;
       line_count1 := length lines1;
       line_count2 := length lines2 |}
    (if detailed && bool_decide (diff_lines ≠ [])
     then detailed_differences
            (_extract_detailed_positions diff_lines lines1 lines2 pages1 pages2)
     else diff_preview (take 20 diff_lines)).

(** The differences a result of the text comparison lists. *)
Definition differences_of (r : result) : list difference :=
  match r with
  | TextResult _ _ _ (detailed_differences ds) => ds
  | _ => []
  end.

(** ** Collaborators, exceptions and the trace of calls *)

(** An exception, as the text [str(e)] the handlers put in their message. *)
Definition exn := string.

(** What [fitz.open] gives: the text of each page ([page.get_text()]) and the
    metadata dictionary, whose values are strings or [None]. *)
Record document := {
  doc_pages : list text;
  doc_metadata : gmap string (option string)
}.

(** The calls to collaborators. *)
Inductive call :=
| call_pdftoppm
| call_exists (path : string)
| call_getsize (path : string)
| call_fitz_open (path : string)
| call_convert_from_path (path : string) (dpi : Z)
| call_resize
| call_np_array
| call_np_compare
| call_pdfplumber_open (path : string)
| call_extract_tables (path : string) (page : nat)
| call_md5 (path : string).

Section Comparer.

(** A page image of pdf2image and a numpy array. *)
Context {image array : Type}.

(** [os.path.basename] *)
Variable basename : string → text.

(** The flags set when the module is imported, and the collaborators. A
    [pdfplumber] document is the list of its pages, a page the number of
    tables [extract_tables] finds on it (0 for [None]). *)
Record backend := {
  HAS_PYMUPDF : bool;
  HAS_PDF2IMAGE : bool;
  HAS_PDFPLUMBER : bool;
  pdftoppm_runs : bool;
  os_path_exists : string → bool;
  os_path_getsize : string → exn + Z;
  fitz_open : string → exn + document;
  convert_from_path : string → Z → exn + list image;
  image_size : image → Z * Z;
  image_resize : image → Z * Z → image;
  np_array : image → array;
  np_count_nonzero_ne : array → array → exn + Z;
  np_size : array → Z;
  pdfplumber_open : string → exn + list (exn + nat);
  file_md5 : string → exn + string
}.

Variable sys : backend.

(** A computation that calls collaborators: it extends the trace and ends
    with an exception or a value. *)
Definition M (X : Type) : Type := list call → (exn + X) * list call.

Global Instance M_ret : MRet M := λ X x tr, (inr x, tr).

Global Instance M_bind : MBind M := λ X Y f m tr,
  match m tr with
  | (inl e, tr') => (inl e, tr')
  | (inr x, tr') => f x tr'
  end.

Definition raise {X} (e : exn) : M X := λ tr, (inl e, tr).

(** One call, with its outcome. *)
Definition invoke {X} (c : call) (outcome : exn + X) : M X :=
  λ tr, (outcome, tr ++ [c]).

(** [try: m except Exception as e: return handler(e)] *)
Definition try_except {X} (m : M X) (handler : exn → X) : M X := λ tr,
  match m tr with
  | (inl e, tr') => (inr (handler e), tr')
  | r => r
  end.

(** A name that the failed import left unbound. *)
Definition name_error (name : string) : exn :=
  "name '" +:+ name +:+ "' is not defined".

Definition use_fitz_open (path : string) : M document :=
  if HAS_PYMUPDF sys then invoke (call_fitz_open path) (fitz_open sys path)
  else raise (name_error "fitz").

Definition use_convert_from_path (path : string) (dpi : Z) : M (list image) :=
  if HAS_PDF2IMAGE sys
  then invoke (call_convert_from_path path dpi) (convert_from_path sys path dpi)
  else raise (name_error "convert_from_path").

Definition use_pdfplumber_open (path : string) : M (list (exn + nat)) :=
  if HAS_PDFPLUMBER sys
  then invoke (call_pdfplumber_open path) (pdfplumber_open sys path)
  else raise (name_error "pdfplumber").

(** *** The comparer *)

(** [self.capabilities], a dictionary with these four keys in this order. *)
Record capabilities := {
  text_comparison : bool;
  visual_comparison : bool;
  structure_analysis : bool;
  metadata_comparison : bool
}.

Definition items (caps : capabilities) : list (string * bool) :=
  [("text_comparison", text_comparison caps);
   ("visual_comparison", visual_comparison caps);
   ("structure_analysis", structure_analysis caps);
   ("metadata_comparison", metadata_comparison caps)].

Record PDFComparer := {
  verbose : bool;
  self_capabilities : capabilities
}.

(** [_check_poppler]: any exception of the subprocess gives [False]. *)
Definition _check_poppler : M bool :=
  invoke call_pdftoppm (inr (pdftoppm_runs sys)).

Definition _check_capabilities : M capabilities :=
  visual ← (if HAS_PDF2IMAGE sys then _check_poppler else mret false);
  mret {| text_comparison := HAS_PYMUPDF sys;
          visual_comparison := visual;
          structure_analysis := HAS_PDFPLUMBER sys;
          metadata_comparison := HAS_PYMUPDF sys |}.

(** [PDFComparer(verbose)] *)
Definition init (verbose : bool) : M PDFComparer :=
  caps ← _check_capabilities;
  mret {| verbose := verbose; self_capabilities := caps |}.

Variable self : PDFComparer.

(** *** Text *)

Definition _extract_text_by_page (pdf_path : string) : M (list text) :=
  doc ← use_fitz_open pdf_path;
  mret (doc_pages doc).

Definition compare_text (pdf1_path pdf2_path : string) (detailed : bool)
    : M result :=
  if negb (text_comparison (self_capabilities self))
  then mret (ErrorResult "文本比较功能不可用，需要安装PyMuPDF")
  else
    try_except
      (pages1 ← _extract_text_by_page pdf1_path;
       pages2 ← _extract_text_by_page pdf2_path;
       mret (text_result pages1 pages2
               (basename pdf1_path) (basename pdf2_path) detailed))
      (λ e, ErrorResult ("文本比较失败: " +:+ e)).

(** *** Visual *)

(** ['{}'.format(n)] in a message. *)
Definition dec_string (n : nat) : string :=
  DecimalString.NilEmpty.string_of_uint (Nat.to_uint n).

(** [x / y] on numbers. *)
Definition divide (x y : Q) : M Q :=
  if Qeq_bool y 0 then raise "division by zero" else mret (x / y)%Q.

(** The body of the loop over [zip(images1, images2)]. *)
Definition compare_page (i : nat) (img1 img2 : image) : M page_similarity :=
  img2 ← (if bool_decide (image_size sys img1 ≠ image_size sys img2)
          then invoke call_resize (inr (image_resize sys img2 (image_size sys img1)))
          else mret img2);
  arr1 ← invoke call_np_array (inr (np_array sys img1));
  arr2 ← invoke call_np_array (inr (np_array sys img2));
  diff_pixels ← invoke call_np_compare (np_count_nonzero_ne sys arr1 arr2);
  let total_pixels := np_size sys arr1 in
  ratio ← divide (inject_Z diff_pixels) (inject_Z total_pixels);
  mret {| ps_page := Z.of_nat i + 1;
          ps_similarity := 1 - ratio;
          ps_different_pixels := diff_pixels;
          ps_total_pixels := total_pixels |}.

Fixpoint compare_pages (i : nat) (pairs : list (image * image))
    : M (list page_similarity) :=
  match pairs with
  | [] => mret []
  | (img1, img2) :: rest =>
      p ← compare_page i img1 img2;
      ps ← compare_pages (S i) rest;
      mret (p :: ps)
  end.

Definition Qsum (l : list Q) : Q := foldl Qplus 0%Q l.

Definition compare_visual (pdf1_path pdf2_path : string) (dpi : Z) : M result :=
  if negb (visual_comparison (self_capabilities self))
  then mret (ErrorResult "视觉比较不可用，需要安装pdf2image和poppler")
  else
    try_except
      (images1 ← use_convert_from_path pdf1_path dpi;
       images2 ← use_convert_from_path pdf2_path dpi;
       if bool_decide (length images1 ≠ length images2)
       then mret (VisualPageMismatch false
                    ("页数不同: " +:+ dec_string (length images1)
                     +:+ " vs " +:+ dec_string (length images2)))
       else
         page_similarities ← compare_pages 0 (zip images1 images2);
         overall_similarity ←
           divide (Qsum (ps_similarity <$> page_similarities))
                  (inject_Z (len page_similarities));
         mret (VisualResult (negb (Qle_bool overall_similarity (999 # 1000)))
                 overall_similarity (length images1) page_similarities))
      (λ e, ErrorResult ("视觉比较失败: " +:+ e)).

(** *** Structure *)

(** [pdf.pages[i].extract_tables()], as the number of tables. *)
Definition extract_tables (path : string) (pages : list (exn + nat)) (i : nat)
    : M nat :=
  invoke (call_extract_tables path i)
    (default (inl "list index out of range") (pages !! i)).

Fixpoint tables_loop (pdf1_path pdf2_path : string)
    (pages1 pages2 : list (exn + nat)) (range : list nat) : M (list table_info) :=
  match range with
  | [] => mret []
  | i :: range' =>
      tables1 ← extract_tables pdf1_path pages1 i;
      tables2 ← extract_tables pdf2_path pages2 i;
      rest ← tables_loop pdf1_path pdf2_path pages1 pages2 range';
      mret ({| ti_page := Z.of_nat i + 1;
               ti_tables_pdf1 := tables1;
               ti_tables_pdf2 := tables2;
               ti_identical := bool_decide (tables1 = tables2) |} :: rest)
  end.

Definition compare_structure (pdf1_path pdf2_path : string) : M result :=
  if negb (structure_analysis (self_capabilities self))
  then mret (ErrorResult "结构分析不可用，需要安装pdfplumber")
  else
    try_except
      (pages1 ← use_pdfplumber_open pdf1_path;
       pages2 ← use_pdfplumber_open pdf2_path;
       let page_count := compare_values (length pages1) (length pages2) in
       let max_pages := (length pages1 `min` length pages2)%nat in
       tables_info ← tables_loop pdf1_path pdf2_path pages1 pages2 (seq 0 max_pages);
       mret (StructureResult page_count tables_info
               (same page_count && forallb ti_identical tables_info)))
      (λ e, ErrorResult ("结构分析失败: " +:+ e)).

(** *** Metadata *)

Definition _calculate_hash (filepath : string) : M string :=
  invoke (call_md5 filepath) (file_md5 sys filepath).

Definition compare_metadata (pdf1_path pdf2_path : string) : M result :=
  if negb (metadata_comparison (self_capabilities self))
  then mret (ErrorResult "元数据比较不可用，需要安装PyMuPDF")
  else
    try_except
      (doc1 ← use_fitz_open pdf1_path;
       doc2 ← use_fitz_open pdf2_path;
       hash1 ← _calculate_hash pdf1_path;
       hash2 ← _calculate_hash pdf2_path;
       let metadata1 := doc_metadata doc1 in
       let metadata2 := doc_metadata doc2 in
       let all_keys : gset string := dom metadata1 ∪ dom metadata2 in
       let metadata_comparison : gmap string (compared (option string)) :=
         set_to_map
           (λ key, (key, compare_values (default (Some "") (metadata1 !! key))
                                        (default (Some "") (metadata2 !! key))))
           all_keys in
       mret (MetadataResult (compare_values hash1 hash2) metadata_comparison
               (bool_decide (map_Forall (λ _ m, same m = true) metadata_comparison))))
      (λ e, ErrorResult ("元数据比较失败: " +:+ e)).

(** *** Basic information *)

Definition compare_basic_info (pdf1_path pdf2_path : string) : M result :=
  try_except
    (size1 ← invoke (call_getsize pdf1_path) (os_path_getsize sys pdf1_path);
     size2 ← invoke (call_getsize pdf2_path) (os_path_getsize sys pdf2_path);
     let file_size := compare_values size1 size2 in
     if HAS_PYMUPDF sys then
       doc1 ← use_fitz_open pdf1_path;
       doc2 ← use_fitz_open pdf2_path;
       mret (BasicInfoResult file_size
               (Some (compare_values (length (doc_pages doc1))
                                     (length (doc_pages doc2)))))
     else mret (BasicInfoResult file_size None))
    (λ e, ErrorResult ("基本信息比较失败: " +:+ e)).

(** *** The comprehensive comparison *)

Record summary := {
  overall_identical : bool;
  checks_passed : nat;
  checks_total : nat;
  has_errors : bool
}.

(** The dictionary [comprehensive_compare] returns: the error of a missing
    file, or the report. [results] lists the dictionary [results['results']]
    in the order of insertion; the time stamp is left out. *)
Inductive comparison :=
| MissingFile (error : string)
| Report (files : string * string) (methods_used : list string)
    (results : list (string * result)) (summary : summary).

(** The loop that collects [identical_checks]. *)
Fixpoint collect_identical (results : list result) : list bool :=
  match results with
  | [] => []
  | result :: rest =>
      match has_error result, get_identical result with
      | false, Some identical => identical :: collect_identical rest
      | _, _ => collect_identical rest
      end
  end.

Definition summarize (results : list (string * result)) : summary :=
  let identical_checks := collect_identical (results.*2) in
  {| overall_identical :=
       match identical_checks with [] => false | _ => forallb id identical_checks end;
     checks_passed :=
       match identical_checks with
       | [] => 0%nat
       | _ => length (filter (λ c, c = true) identical_checks)
       end;
     checks_total := length identical_checks;
     has_errors := existsb has_error (results.*2) |}.

(** [if name in methods: results['results'][name] = run] *)
Definition run_if_selected (name : string) (methods : list string)
    (run : M result) (results : list (string * result))
    : M (list (string * result)) :=
  if bool_decide (name ∈ methods)
  then r ← run; mret (results ++ [(name, r)])
  else mret results.

Definition comprehensive_compare (pdf1_path pdf2_path : string)
    (methods : option (list string)) : M comparison :=
  found1 ← invoke (call_exists pdf1_path) (inr (os_path_exists sys pdf1_path));
  if negb found1 then mret (MissingFile ("文件不存在: " +:+ pdf1_path))
  else
    found2 ← invoke (call_exists pdf2_path) (inr (os_path_exists sys pdf2_path));
    if negb found2 then mret (MissingFile ("文件不存在: " +:+ pdf2_path))
    else
      let methods :=
        match methods with
        | None => (filter (λ kv, kv.2 = true) (items (self_capabilities self))).*1
        | Some methods => methods
        end in
      basic ← compare_basic_info pdf1_path pdf2_path;
      results ← run_if_selected "text_comparison" methods
                  (compare_text pdf1_path pdf2_path true) [("basic_info", basic)];
      results ← run_if_selected "visual_comparison" methods
                  (compare_visual pdf1_path pdf2_path 150) results;
      results ← run_if_selected "structure_analysis" methods
                  (compare_structure pdf1_path pdf2_path) results;
      results ← run_if_selected "metadata_comparison" methods
                  (compare_metadata pdf1_path pdf2_path) results;
      mret (Report (pdf1_path, pdf2_path) methods results (summarize results)).

End Comparer.

(** ** Vocabulary of the statements *)

(** Every value the computation [m] can end with satisfies [P]. *)
Definition returns {X} (m : M X) (P : X → Prop) : Prop :=
  ∀ tr x tr', m tr = (inr x, tr') → P x.

(** The computation [m] ends with a value, whatever the trace before it. *)
Definition total {X} (m : M X) (P : X → Prop) : Prop :=
  ∀ tr, ∃ x tr', m tr = (inr x, tr') ∧ P x.

(** A method result that did not fail, and one that failed. *)
Definition failed (r : result) : Prop := has_error r = true.

(** The names of the four methods a caller can select. *)
Definition selectable : list string :=
  ["text_comparison"; "visual_comparison"; "structure_analysis";
   "metadata_comparison"].

(** A result of one of the four selectable methods carries a verdict unless
    it failed. *)
Definition verdict_or_error (r : result) : Prop :=
  has_error r = true ∨ ∃ b, get_identical r = Some b.

(** A result of the basic information carries no verdict. *)
Definition no_verdict (r : result) : Prop := get_identical r = None.

(** The methods that are run: those the caller gives, or else the
    capabilities that are available. *)
Definition methods_used_of (self : PDFComparer) (methods : option (list string))
    : list string :=
  match methods with
  | None => (filter (λ kv : string * bool, kv.2 = true) (items (self_capabilities self))).*1
  | Some methods => methods
  end.

(** The entries the selectable methods add after the basic information. *)
Definition method_entries (used : list string) (rest : list (string * result)) : Prop :=
  Forall (λ nr : string * result,
            nr.1 ∈ selectable ∧ nr.1 ∈ used ∧ verdict_or_error nr.2) rest
  ∧ rest.*1 = filter (λ name, name ∈ used) selectable.

(** The claim about [checks_total] as the design document words it: the
    number of methods that were run minus the number of those that failed. *)
Definition checks_total_is_run_minus_failed (results : list (string * result))
    (s : summary) : Prop :=
  checks_total s
  = (length results - length (filter (λ nr : string * result, failed nr.2) results))%nat.

(** ** A system to run the comparer on

    Two files: [a.pdf] with the page [A B C] and [b.pdf] with the page
    [A X C]; the first renders to two images and the second to one. An
    image is a number, and so is an array. *)

Definition lines_text (lines : list string) : text := join [NL] (str <$> lines).

Definition demo_document (path : string) : document :=
  {| doc_pages := if bool_decide (path = "a.pdf")
                  then [lines_text ["A"; "B"; "C"]] else [lines_text ["A"; "X"; "C"]];
     doc_metadata := {[ "title" := Some path ]} |}.

Definition demo (pymupdf pdf2image pdfplumber : bool) : @backend nat nat :=
  {| HAS_PYMUPDF := pymupdf;
     HAS_PDF2IMAGE := pdf2image;
     HAS_PDFPLUMBER := pdfplumber;
     pdftoppm_runs := true;
     os_path_exists := λ path, bool_decide (path ∈ ["a.pdf"; "b.pdf"]);
     os_path_getsize := λ path,
       if bool_decide (path ∈ ["a.pdf"; "b.pdf"]) then inr 2048
       else inl "No such file or directory";
     fitz_open := λ path, inr (demo_document path);
     convert_from_path := λ path _,
       if bool_decide (path = "a.pdf") then inr [1; 2]%nat else inr [1]%nat;
     image_size := λ _, (100, 100);
     image_resize := λ img _, img;
     np_array := λ img, img;
     np_count_nonzero_ne := λ x y, inr (if bool_decide (x = y) then 0 else 1);
     np_size := λ _, 30000;
     pdfplumber_open := λ _, inr [inr 0%nat];
     file_md5 := λ path, inr path |}.

Definition demo_basename (path : string) : text := str path.

(** A comparer with the given capabilities. *)
Definition comparer (text visual structure metadata : bool) : PDFComparer :=
  {| verbose := false;
     self_capabilities :=
       {| text_comparison := text;
          visual_comparison := visual;
          structure_analysis := structure;
          metadata_comparison := metadata |} |}.

(** ** Vocabulary for difflib *)

Import Difflib.

Local Open Scope nat_scope.

(** The positions of [x] in [l], counted from [s]. *)
Fixpoint indices_from {A} `{EqDecision A} (s : nat) (l : list A) (x : A) : list nat :=
  match l with
  | [] => []
  | y :: l' =>
      if decide (x = y) then s :: indices_from (S s) l' x
      else indices_from (S s) l' x
  end.

(** A match that lies in [a[alo:u]] and [b[blo:bhi]]. *)
Definition best_within (alo blo u bhi : nat) (best : Match) : Prop :=
  (alo ≤ best.1.1 ∧ blo ≤ best.1.2
   ∧ best.1.1 + best.2 ≤ u ∧ best.1.2 + best.2 ≤ bhi)%nat.

(** A range pair [(alo, ahi, blo, bhi)] as a box of the table, and the box
    a matching block covers. *)
Definition box : Type := nat * nat * nat * nat.

Definition block_box (m : Match) : box :=
  (m.1.1, m.1.1 + m.2, m.1.2, m.1.2 + m.2)%nat.

(** [x] ends before [y] starts, in both sequences. *)
Definition box_before (x y : box) : Prop :=
  (x.1.1.2 ≤ y.1.1.1 ∧ x.2 ≤ y.1.2)%nat.

Definition box_apart (x y : box) : Prop := box_before x y ∨ box_before y x.

Definition box_inside (x q : box) : Prop :=
  (q.1.1.1 ≤ x.1.1.1 ∧ x.1.1.2 ≤ q.1.1.2 ∧ q.1.2 ≤ x.1.2 ∧ x.2 ≤ q.2)%nat.

(** Any two elements of the list are related. *)
Fixpoint pairwise {X} (R : relation X) (l : list X) : Prop :=
  match l with
  | [] => True
  | x :: l' => Forall (R x) l' ∧ pairwise R l'
  end.

(** The invariant of the [while queue] loop for sequences of lengths [la]
    and [lb]: the ranges still to do are well formed, the blocks found are
    not empty, and all of them lie in the table apart from one another. *)
Definition loop_inv (la lb : nat) (queue : list box) (blocks : list Match) : Prop :=
  Forall (λ q : box, q.1.1.1 ≤ q.1.1.2 ∧ q.1.2 ≤ q.2
                     ∧ q.1.1.2 ≤ la ∧ q.2 ≤ lb)%nat queue
  ∧ Forall (λ m : Match, 0 < m.2 ∧ m.1.1 + m.2 ≤ la ∧ m.1.2 + m.2 ≤ lb)%nat blocks
  ∧ pairwise box_apart (queue ++ (block_box <$> blocks)).

(** Matching blocks in increasing order, from [(i0, j0)] up to the lengths
    of the sequences. *)
Fixpoint chain (i0 j0 la lb : nat) (blocks : list Match) : Prop :=
  match blocks with
  | [] => (i0 ≤ la ∧ j0 ≤ lb)%nat
  | (i, j, k) :: rest => (i0 ≤ i ∧ j0 ≤ j)%nat ∧ chain (i + k) (j + k) la lb rest
  end.

(** [x] ends, in both sequences, where [y] starts or before. *)
Definition block_before (x y : Match) : Prop :=
  (x.1.1 + x.2 ≤ y.1.1 ∧ x.1.2 + x.2 ≤ y.1.2)%nat.

(** The number of iterations a range of the queue can still cause. *)
Definition box_weight (q : box) : nat :=
  ((q.1.1.2 - q.1.1.1) + (q.2 - q.1.2) + 1)%nat.

Definition queue_weight (queue : list box) : nat := sum_list (box_weight <$> queue).

(** Opcodes in increasing order, from [(i0, j0)] on. *)
Fixpoint ops_chain (i0 j0 : nat) (ops : list opcode) : Prop :=
  match ops with
  | [] => True
  | (_, i1, i2, j1, j2) :: rest =>
      (i0 ≤ i1 ∧ i1 ≤ i2 ∧ j0 ≤ j1 ∧ j1 ≤ j2)%nat ∧ ops_chain i2 j2 rest
  end.

(** A group as [unified_diff] needs it: not empty and in increasing order. *)
Definition group_ok (group : list opcode) : Prop :=
  group ≠ [] ∧ ∃ i0 j0, ops_chain i0 j0 group.

(** [kept_at l i]: the element at [i] is a key of [b2j], that is, it is not
    popular. *)
Definition kept_at {A} `{Countable A} (l : list A) (i : nat) : bool :=
  match l !! i with
  | Some x => bool_decide (is_Some (b2j l !! x))
  | None => false
  end.

(** The length of the run of kept elements of [l] that ends at [i]. *)
Fixpoint diag {A} `{Countable A} (l : list A) (i : nat) : nat :=
  match i with
  | 0 => if kept_at l 0 then 1 else 0
  | S i' => if kept_at l (S i') then diag l i' + 1 else 0
  end%nat.

Definition diag_prev {A} `{Countable A} (l : list A) (i : nat) : nat :=
  match i with
  | 0 => 0%nat
  | S i' => diag l i'
  end.

(** What row [i] of the table can hold: matches that end in row [i] and
    start in the ranges. *)
Definition row_within (alo blo i : nat) (j2len : gmap nat nat) : Prop :=
  ∀ j k, j2len !! j = Some k → k ≤ i + 1 - alo ∧ k ≤ j + 1 - blo.

(** Row [i] of the table, while its positions [js] are still to do: the
    values are bounded by the runs, the best match is on the diagonal and
    at least as long as the runs that ended before, and the diagonal of row
    [i] is done once [i] is no longer among [js]. *)
Definition row_state {A} `{Countable A} (l : list A) (i : nat) (js : list nat)
    (newj2len : gmap nat nat) (best : Match) : Prop :=
  (∀ j k, newj2len !! j = Some k → k ≤ diag l j ∧ k ≤ diag l i)
  ∧ (i ∉ js → newj2len !! i = Some (diag l i) ∧ diag l i ≤ best.2)
  ∧ best.1.1 = best.1.2
  ∧ (∀ t, t < i → diag l t ≤ best.2).

Local Close Scope nat_scope.

(** ** Vocabulary for the differences *)

(** The entry the loop appends for a removed line [x] at cursor [c], and for
    an added one. *)
Definition removed_entry (lines1 pages1 : list text) (x : text) (c : Z) : difference :=
  {| d_type := removed;
     d_content := x;
     d_page := (_find_page_for_line c pages1).1;
     d_line := c + 1;
     d_line_in_page := (_find_page_for_line c pages1).2;
     d_file := pdf1;
     d_context := _get_context lines1 c 2 |}.

Definition added_entry (lines2 pages2 : list text) (x : text) (c : Z) : difference :=
  {| d_type := added;
     d_content := x;
     d_page := (_find_page_for_line c pages2).1;
     d_line := c + 1;
     d_line_in_page := (_find_page_for_line c pages2).2;
     d_file := pdf2;
     d_context := _get_context lines2 c 2 |}.

(** An entry on a line of its document: lines are numbered from 1. *)
Definition positioned (e : difference) : Prop := 1 ≤ d_line e.

(** The first number [_format_range_unified] writes. *)
Definition range_begin (start stop : Z) : Z :=
  if stop - start =? 0 then start else start + 1.

(** The pages of the document a difference belongs to. *)
Definition pages_of (pages1 pages2 : list text) (e : difference) : list text :=
  match d_file e with pdf1 => pages1 | pdf2 => pages2 end.

(** The invariant of page and line resolution as the design document words
    it: the in-page line is not negative and the spans up to the resolved
    page, that page included, reach the line number of the entry. *)
Definition resolution_invariant (pages1 pages2 : list text) (e : difference) : Prop :=
  0 ≤ d_line_in_page e
  ∧ d_line e ≤ span_upto (pages_of pages1 pages2 e) (Z.to_nat (d_page e)).

(** Three pages that end with a line break, the last of which differs. *)
Definition three_pages (last : string) : list text :=
  [str "A" ++ [NL]; str "B" ++ [NL]; str last ++ [NL]].

(** The line numbers that come right after the end of a page: one more than
    the number of lines of the first [k] pages, for [k] from 1 to the
    number of pages. *)
Definition lines_after_a_page (pages : list text) : list Z :=
  (λ k, span_upto pages k + 1) <$> seq 1 (length pages).

(** Two pages of two lines, the first line of the second page being [x]. *)
Definition two_pages (x : string) : list text :=
  [lines_text ["A"; "B"]; lines_text [x; "E"]].

(** ** Vocabulary for the exchange of the two documents *)

Definition exchange (k : diff_type) : diff_type :=
  match k with removed => added | added => removed end.

Definition other_file (f : diff_file) : diff_file :=
  match f with pdf1 => pdf2 | pdf2 => pdf1 end.

(** An entry with the kind and the file exchanged, and all else kept. *)
Definition mirrored (e : difference) : difference :=
  {| d_type := exchange (d_type e);
     d_content := d_content e;
     d_page := d_page e;
     d_line := d_line e;
     d_line_in_page := d_line_in_page e;
     d_file := other_file (d_file e);
     d_context := d_context e |}.

(** The detailed differences of two documents, in the detailed mode. *)
Definition detailed_diff (pages1 pages2 : list text) (fromfile tofile : text)
    : list difference :=
  differences_of (text_result pages1 pages2 fromfile tofile true).

(** The property of swapping as the design document words it: the entries
    of the swapped run are those of the run with the kinds exchanged and
    the contents kept. *)
Definition swap_mirrors (pages1 pages2 : list text) (fromfile tofile : text) : Prop :=
  ∀ (k : diff_type) (c : text),
    (∃ e, e ∈ detailed_diff pages2 pages1 tofile fromfile
          ∧ d_type e = k ∧ d_content e = c)
    ↔ (∃ e, e ∈ detailed_diff pages1 pages2 fromfile tofile
            ∧ d_type e = exchange k ∧ d_content e = c).

(** The entries of a run of removed lines from cursor [c] on, when none is
    skipped, and of a run of added lines. *)
Definition removed_run (lines1 pages1 : list text) (c : Z) (xs : list text)
    : list difference :=
  imap (λ i x, removed_entry lines1 pages1 x (c + Z.of_nat i)) xs.

Definition added_run (lines2 pages2 : list text) (c : Z) (xs : list text)
    : list difference :=
  imap (λ i x, added_entry lines2 pages2 x (c + Z.of_nat i)) xs.

(** No line starts with two minus signs or two plus signs. *)
Definition plain_lines (lines : list text) : Prop :=
  Forall (λ x, startswith (str "--") x = false ∧ startswith (str "++") x = false) lines.

(** The lines a unified diff of [a] and [b] is made of: the lines of the
    file names, the range lines, and the lines of the two sequences behind
    their signs. *)
Definition diff_line_of (a b : list text) (line : text) : Prop :=
  startswith (str "---") line = true
  ∨ startswith (str "+++") line = true
  ∨ startswith (str "@@") line = true
  ∨ (∃ x, line = prefix_line (str " ") x)
  ∨ (∃ x, x ∈ a ∧ line = prefix_line (str "-") x)
  ∨ (∃ x, x ∈ b ∧ line = prefix_line (str "+") x).

(** A removed entry holds a line of [a] and is of the first file; an added
    entry holds a line of [b] and is of the second file. *)
Definition drawn_from (a b : list text) (e : difference) : Prop :=
  (d_type e = removed ∧ d_file e = pdf1 ∧ d_content e ∈ a)
  ∨ (d_type e = added ∧ d_file e = pdf2 ∧ d_content e ∈ b).

(** The lines of the joined text of a document. *)
Definition lines_of (pages : list text) : list text := splitlines (join [NL] pages).

(** ** Vocabulary for the statistics *)

(** [result['statistics']] of a result of the text comparison. *)
Definition statistics_of (r : result) : option statistics :=
  match r with
  | TextResult _ _ stats _ => Some stats
  | _ => None
  end.

Global Instance diff_type_eq_dec : EqDecision diff_type.
Proof. solve_decision. Defined.

(** The number of entries of a kind. *)
Definition count_kind (k : diff_type) (ds : list difference) : nat :=
  length (filter (λ e, d_type e = k) ds).

(** ** Vocabulary for the calls to collaborators *)

(** The calls [m] adds to the trace all satisfy [P], and the trace it was
    given is kept in front of them. *)
Definition appends {X} (m : M X) (P : call → Prop) : Prop :=
  ∀ tr, ∃ calls, (m tr).2 = tr ++ calls ∧ Forall P calls.

(** The comparison method a call belongs to, for the calls that only one
    method makes. *)
Definition call_owner (c : call) : option string :=
  match c with
  | call_convert_from_path _ _ | call_resize | call_np_array | call_np_compare =>
      Some "visual_comparison"
  | call_pdfplumber_open _ | call_extract_tables _ _ => Some "structure_analysis"
  | call_md5 _ => Some "metadata_comparison"
  | call_pdftoppm | call_exists _ | call_getsize _ | call_fitz_open _ => None
  end.

(** A call a run with the methods [used] can make: a call that belongs to a
    method belongs to one of [used], and pages are rendered at [dpi]. *)
Definition call_of (used : list string) (dpi : Z) (c : call) : Prop :=
  (∀ name, call_owner c = Some name → name ∈ used)
  ∧ (∀ path d, c = call_convert_from_path path d → d = dpi).

(** ** Vocabulary for the visual comparison *)

(** The second image of a page as the loop compares it: resized to the size
    of the first when the sizes differ. *)
Definition second_image {image array : Type} (sys : @backend image array)
    (img1 img2 : image) : image :=
  if bool_decide (image_size sys img1 ≠ image_size sys img2)
  then image_resize sys img2 (image_size sys img1) else img2.

(** Two pages of which numpy finds no element that differs, the first not
    being empty. *)
Definition same_pixels {image array : Type} (sys : @backend image array)
    (img1 img2 : image) : Prop :=
  np_count_nonzero_ne sys (np_array sys img1) (np_array sys (second_image sys img1 img2))
  = inr 0
  ∧ np_size sys (np_array sys img1) ≠ 0.

(** The page numbers [1 .. n]. *)
Definition page_numbers (n : nat) : list Z := (λ i : nat, Z.of_nat i + 1) <$> seq 0 n.

(** The system [demo] with another renderer. *)
Definition demo_rendering (render : string → list nat) : @backend nat nat :=
  let sys := demo true true true in
  {| HAS_PYMUPDF := HAS_PYMUPDF sys;
     HAS_PDF2IMAGE := HAS_PDF2IMAGE sys;
     HAS_PDFPLUMBER := HAS_PDFPLUMBER sys;
     pdftoppm_runs := pdftoppm_runs sys;
     os_path_exists := os_path_exists sys;
     os_path_getsize := os_path_getsize sys;
     fitz_open := fitz_open sys;
     convert_from_path := λ path _, inr (render path);
     image_size := image_size sys;
     image_resize := image_resize sys;
     np_array := np_array sys;
     np_count_nonzero_ne := np_count_nonzero_ne sys;
     np_size := np_size sys;
     pdfplumber_open := pdfplumber_open sys;
     file_md5 := file_md5 sys |}.

(** ** Vocabulary for the metadata comparison *)

(** [metadata.get(key, '')] *)
Definition metadata_get (metadata : gmap string (option string)) (key : string)
    : option string :=
  default (Some "") (metadata !! key).

(** ** Vocabulary for the selection of methods *)

(** A comparison without its list ['methods_used']. *)
Definition forget_methods_used (c : comparison) : comparison :=
  match c with
  | Report files _ results summary => Report files [] results summary
  | MissingFile error => MissingFile error
  end.

(** A result that only says that its method is not available. *)
Definition unavailable (r : result) : Prop :=
  r ∈ [ErrorResult "文本比较功能不可用，需要安装PyMuPDF";
       ErrorResult "视觉比较不可用，需要安装pdf2image和poppler";
       ErrorResult "结构分析不可用，需要安装pdfplumber";
       ErrorResult "元数据比较不可用，需要安装PyMuPDF"].

(** The names of the capabilities that are available, in the order of the
    dictionary. *)
Definition available_methods (caps : capabilities) : list string :=
  (filter (λ kv : string * bool, kv.2 = true) (items caps)).*1.

(** ** Vocabulary for the similarity and the place of the differences *)

(** [result['similarity']] of a result of the text comparison. *)
Definition similarity_of (r : result) : option Q :=
  match r with
  | TextResult _ similarity _ _ => Some similarity
  | _ => None
  end.

(** [result['identical']] of a result of the text comparison. *)
Definition text_identical_of (r : result) : option bool :=
  match r with
  | TextResult identical _ _ _ => Some identical
  | _ => None
  end.

(** No line begins with [p]. *)
Definition no_prefix (p : text) (lines : list text) : Prop :=
  Forall (λ x, startswith p x = false) lines.

(** An entry that is where it says: its line number, counted from 1, is
    that of a line of its document, and its content is that line. *)
Definition located (lines1 lines2 : list text) (e : difference) : Prop :=
  1 ≤ d_line e
  ∧ match d_type e with
    | removed => lines1 !! Z.to_nat (d_line e - 1) = Some (d_content e)
    | added => lines2 !! Z.to_nat (d_line e - 1) = Some (d_content e)
    end.

(** Opcodes that tile the two sequences from [(i0, j0)] to [(i9, j9)]: each
    starts where the one before it ends, an [equal] covers as much of both
    sequences, a [delete] nothing of the second and an [insert] nothing of
    the first. *)
Fixpoint ops_tile (i0 j0 i9 j9 : nat) (ops : list opcode) : Prop :=
  match ops with
  | [] => i0 = i9 ∧ j0 = j9
  | (tag, i1, i2, j1, j2) :: rest =>
      (i1 = i0 ∧ j1 = j0 ∧ i1 ≤ i2 ∧ j1 ≤ j2)%nat
      ∧ match tag with
        | Equal => (i2 - i1 = j2 - j1)%nat
        | Delete => j1 = j2
        | Insert => i1 = i2
        | Replace => True
        end
      ∧ ops_tile i2 j2 i9 j9 rest
  end.

(** A group of opcodes that tiles a part of the two sequences. *)
Definition group_tiles (la lb : nat) (group : list opcode) : Prop :=
  group ≠ [] ∧ ∃ i0 j0 i9 j9, ops_tile i0 j0 i9 j9 group ∧ (i9 ≤ la ∧ j9 ≤ lb)%nat.

(** A matching block that is a match: the elements it pairs are equal. *)
Definition genuine {A} (a b : list A) (m : Match) : Prop :=
  ∀ t : nat, (t < m.2)%nat →
    ∃ x, a !! (m.1.1 + t)%nat = Some x ∧ b !! (m.1.2 + t)%nat = Some x.

(** A row of the table of [find_longest_match]: the value at [j] is the
    length of a match that ends at [(i, j)], the end included. *)
Definition row_genuine {A} (a b : list A) (i : nat) (j2len : gmap nat nat) : Prop :=
  ∀ j k : nat, j2len !! j = Some k →
    (k ≤ i + 1 ∧ k ≤ j + 1)%nat ∧ genuine a b (i + 1 - k, j + 1 - k, k)%nat.

(** ** The table of the differences in the HTML report *)

(** The code points of a literal of the source, which is written in UTF-8:
    sequences of one to four bytes. *)
Fixpoint utf8_decode (bytes : list N) : text :=
  match bytes with
  | [] => []
  | b0 :: rest =>
      if (b0 <? 128)%N then b0 :: utf8_decode rest
      else if (b0 <? 224)%N then
        match rest with
        | b1 :: rest => ((b0 - 192) * 64 + (b1 - 128))%N :: utf8_decode rest
        | _ => []
        end
      else if (b0 <? 240)%N then
        match rest with
        | b1 :: b2 :: rest =>
            ((b0 - 224) * 4096 + (b1 - 128) * 64 + (b2 - 128))%N :: utf8_decode rest
        | _ => []
        end
      else
        match rest with
        | b1 :: b2 :: b3 :: rest =>
            ((b0 - 240) * 262144 + (b1 - 128) * 4096 + (b2 - 128) * 64 + (b3 - 128))%N
            :: utf8_decode rest
        | _ => []
        end
  end.

Definition ustr (s : string) : text :=
  utf8_decode ((λ c, N_of_ascii c) <$> list_ascii_of_string s).
Arguments ustr : simpl never.

(** The double quote. *)
Definition DQ : char := 34%N.

(** A literal that spans lines, from its lines. *)
Definition literal (lines : list text) : text := join [NL] lines.

(** [s.replace(old, new)] for an [old] of one character. *)
Definition replace (old : char) (new : text) (s : text) : text :=
  s ≫= λ c, if bool_decide (c = old) then new else [c].

(** [diff['file'].upper()] *)
Definition upper (f : diff_file) : text :=
  match f with pdf1 => str "PDF1" | pdf2 => str "PDF2" end.

(** The value of [content] in a row of the table. *)
Definition row_content (diff : difference) : text :=
  let content := take 100 (d_content diff) in
  let content :=
    if (100 <? length (d_content diff))%nat then content ++ str "..." else content in
  replace 62%N (str "&gt;") (replace 60%N (str "&lt;") (replace 38%N (str "&amp;") content)).

(** One turn of the loop over [enumerate(differences[:50], 1)]. *)
Definition table_row (idx : nat) (diff : difference) : text :=
  let row_class :=
    match d_type diff with removed => str "removed" | added => str "added" end in
  let diff_type :=
    match d_type diff with removed => ustr "删除" | added => ustr "添加" end in
  literal
    [ [];
      str "                <tr class=" ++ [DQ] ++ row_class ++ [DQ] ++ str ">";
      str "                    <td>" ++ dec (Z.of_nat idx) ++ str "</td>";
      str "                    <td><strong>" ++ diff_type ++ str "</strong></td>";
      str "                    <td>" ++ upper (d_file diff) ++ str "</td>";
      str "                    <td>" ++ dec (d_page diff) ++ str "</td>";
      str "                    <td>" ++ dec (d_line diff) ++ str "</td>";
      str "                    <td style=" ++ [DQ] ++ str "font-family: monospace;"
        ++ [DQ] ++ str ">" ++ row_content diff ++ str "</td>";
      str "                </tr>";
      [] ].

Definition _format_differences_table (differences : list difference) : text :=
  literal
    [ [];
      ustr "            <h3>详细差异位置</h3>";
      str "            <table>";
      str "                <tr>";
      ustr "                    <th>序号</th>";
      ustr "                    <th>类型</th>";
      ustr "                    <th>文件</th>";
      ustr "                    <th>页码</th>";
      ustr "                    <th>行号</th>";
      ustr "                    <th>内容</th>";
      str "                </tr>";
      [] ]
  ++ concat (imap (λ i diff, table_row (S i) diff) (take 50 differences))
  ++ (if (50 <? length differences)%nat
      then literal
             [ [];
               str "                <tr>";
               str "                    <td colspan=" ++ [DQ] ++ str "6" ++ [DQ]
                 ++ str " style=" ++ [DQ] ++ str "text-align: center; color: #999;"
                 ++ [DQ] ++ str ">";
               ustr "                        还有 "
                 ++ dec (len differences - 50) ++ ustr " 处差异未显示";
               str "                    </td>";
               str "                </tr>";
               [] ]
      else [])
  ++ literal [ []; str "            </table>"; [] ].

(** ** Vocabulary for the table *)

(** The entity that stands for a character in HTML text. *)
Definition escape_char (c : char) : text :=
  if bool_decide (c = 38%N) then str "&amp;"
  else if bool_decide (c = 60%N) then str "&lt;"
  else if bool_decide (c = 62%N) then str "&gt;"
  else [c].

(** The number of occurrences of a character. *)
Definition count_char (c : char) (s : list char) : nat :=
  length (filter (λ d, d = c) s).

(** ** The command line *)

(** The choices of the option [-m]. *)
Inductive method_choice :=
| choice_text
| choice_visual
| choice_structure
| choice_metadata.

(** [method_map[m]] *)
Definition method_map (m : method_choice) : string :=
  match m with
  | choice_text => "text_comparison"
  | choice_visual => "visual_comparison"
  | choice_structure => "structure_analysis"
  | choice_metadata => "metadata_comparison"
  end.

(** The name space [parse_args] returns. *)
Record arguments := {
  args_pdf1 : string;
  args_pdf2 : string;
  args_methods : option (list method_choice);
  args_all : bool;
  args_detailed : bool;
  args_html : option string;
  args_json : option string;
  args_dpi : Z;
  args_quiet : bool
}.

(** The truth value of an option that is [None] or a string. *)
Definition given (o : option string) : option string :=
  match o with
  | Some "" | None => None
  | Some path => Some path
  end.

Section Main.

Context {image array : Type}.
Variable basename : string → text.
Variable sys : @backend image array.

(** The three methods that write the results out. They format floats, dates
    and JSON, and they print and write files; here they are computations
    that may call collaborators and may raise. *)
Variable print_results : PDFComparer → comparison → bool → M ().
Variable generate_html_report : PDFComparer → comparison → string → M ().
Variable save_json : PDFComparer → comparison → string → M ().

(** The value of [methods] in [main]. *)
Definition main_methods (args : arguments) (comparer : PDFComparer)
    : option (list string) :=
  match args_methods args with
  | Some (m :: ms) => Some (method_map <$> m :: ms)
  | _ =>
      if args_all args then None
      else if text_comparison (self_capabilities comparer)
           then Some ["text_comparison"] else None
  end.

(** The exit code at the end of [main]. *)
Definition exit_code (results : comparison) : Z :=
  match results with
  | MissingFile _ => 1
  | Report _ _ _ summary => if overall_identical summary then 0 else 2
  end.

(** [main()] once the arguments are parsed. *)
Definition main (args : arguments) : M Z :=
  comparer ← init sys (negb (args_quiet args));
  let methods := main_methods args comparer in
  results ← comprehensive_compare basename sys comparer
               (args_pdf1 args) (args_pdf2 args) methods;
  _ ← print_results comparer results (args_detailed args);
  _ ← match given (args_html args) with
      | Some path => generate_html_report comparer results path
      | None => mret ()
      end;
  _ ← match given (args_json args) with
      | Some path => save_json comparer results path
      | None => mret ()
      end;
  mret (exit_code results).

End Main.

(** ** Vocabulary for the command line *)

(** A computation that returns, whatever the trace. *)
Definition succeeds {X} (m : M X) : Prop := ∀ tr, ∃ x tr', m tr = (inr x, tr').

(** The arguments of [pdf_comparer.py a.pdf b.pdf]. *)
Definition plain_arguments (pdf1 pdf2 : string) : arguments :=
  {| args_pdf1 := pdf1; args_pdf2 := pdf2; args_methods := None; args_all := false;
     args_detailed := false; args_html := None; args_json := None; args_dpi := 150;
     args_quiet := false |}.

(** The capability [main]'s comparer has for a choice of [-m]:
    [comparer.capabilities[method_map[m]]]. *)
Definition installed {image array : Type} (sys : @backend image array)
    (m : method_choice) : bool :=
  match m with
  | choice_text | choice_metadata => HAS_PYMUPDF sys
  | choice_visual => HAS_PDF2IMAGE sys && pdftoppm_runs sys
  | choice_structure => HAS_PDFPLUMBER sys
  end.

(** ** Vocabulary for the two orders of a comparison *)

(** A matching block, a tag and an opcode as they read when the second
    sequence is taken for the first. *)
Definition flip_match (m : Match) : Match := (m.1.2, m.1.1, m.2).

Definition flip_tag (t : tag) : tag :=
  match t with
  | Replace => Replace
  | Delete => Insert
  | Insert => Delete
  | Equal => Equal
  end.

Definition flip_opcode (op : opcode) : opcode :=
  let '(tag, i1, i2, j1, j2) := op in (flip_tag tag, j1, j2, i1, i2).

Definition flip_group (group : list opcode) : list opcode := flip_opcode <$> group.

(** [SequenceMatcher] pairs the same elements in both orders of the two
    sequences: the matching blocks of [b] and [a] are those of [a] and [b]
    with the two sides exchanged. *)
Definition same_matching {A} `{Countable A} (a b : list A) : Prop :=
  get_matching_blocks b a = flip_match <$> get_matching_blocks a b.

(** The entries the lines of an opcode give: a removed entry for each line
    of the first sequence in a [replace] or a [delete], then an added entry
    for each line of the second sequence in a [replace] or an [insert]. *)
Definition opcode_entries (a b lines1 lines2 pages1 pages2 : list text) (op : opcode)
    : list difference :=
  let '(tag, i1, i2, j1, j2) := op in
  (if bool_decide (tag ∈ [Replace; Delete])
   then removed_run lines1 pages1 (Z.of_nat i1) (slice a i1 i2) else [])
  ++ (if bool_decide (tag ∈ [Replace; Insert])
      then added_run lines2 pages2 (Z.of_nat j1) (slice b j1 j2) else []).

(** A difference whose line is not a line of the other document. *)
Definition on_one_side (lines1 lines2 : list text) (e : difference) : Prop :=
  match d_type e with
  | removed => d_content e ∉ lines2
  | added => d_content e ∉ lines1
  end.

(** An [equal] opcode covers as much of both sequences. *)
Definition equal_sized (op : opcode) : Prop :=
  let '(tag, i1, i2, j1, j2) := op in tag = Equal → (i2 - i1 = j2 - j1)%nat.

(** The element at [i] of the first sequence is the element at [j] of the
    second. *)
Definition common_at {A} (a b : list A) (i j : nat) : Prop :=
  ∃ x, a !! i = Some x ∧ b !! j = Some x.

(** The elements the two sequences have in common come in the same order in
    both; in particular none of them occurs twice in a sequence. *)
Definition order_alike {A} (a b : list A) : Prop :=
  ∀ i j i' j', common_at a b i j → common_at a b i' j' → (i < i' ↔ j < j')%nat.

(** The same, as a test on the two sequences: the elements of the first
    that are in the second are no element twice, and they are the elements
    of the second that are in the first, in the same order. *)
Definition common_lines_alike {A} `{EqDecision A} (a b : list A) : Prop :=
  NoDup (filter (λ x, x ∈ b) a)
  ∧ filter (λ x, x ∈ b) a = filter (λ x, x ∈ a) b.

(** The pair of positions [(i, j)] is in one of the blocks. *)
Definition covered (blocks : list Match) (i j : nat) : Prop :=
  ∃ (m : Match) (t : nat), m ∈ blocks ∧ (t < m.2 ∧ i = m.1.1 + t ∧ j = m.1.2 + t)%nat.

(** The pair of positions [(i, j)] is in the ranges [(alo, ahi, blo, bhi)]. *)
Definition in_box (q : box) (i j : nat) : Prop :=
  (q.1.1.1 ≤ i < q.1.1.2 ∧ q.1.2 ≤ j < q.2)%nat.

(** Every pair of equal elements is in a block or in a range still to do. *)
Definition covers {A} (a b : list A) (queue : list box) (blocks : list Match) : Prop :=
  ∀ i j, common_at a b i j → covered blocks i j ∨ ∃ q, q ∈ queue ∧ in_box q i j.

(** Blocks that are not empty, in increasing order, no block starting
    where the block before it ends in both sequences. *)
Fixpoint separated (blocks : list Match) : Prop :=
  match blocks with
  | [] => True
  | (i, j, k) :: rest =>
      (0 < k)%nat
      ∧ match rest with
        | [] => True
        | (i2, j2, _) :: _ => (i + k ≤ i2 ∧ j + k ≤ j2 ∧ ¬ (i + k = i2 ∧ j + k = j2))%nat
        end
      ∧ separated rest
  end.

(** * Properties *)

(** ** Page and line resolution *)

Lemma span_upto_0 pages : span_upto pages 0 = 0.
Proof. reflexivity. Qed.

Lemma span_upto_cons p pages k :
  span_upto (p :: pages) (S k) = len (splitlines p) + span_upto pages k.
Proof. unfold span_upto, len. simpl. lia. Qed.

Lemma span_total_cons p pages :
  span_total (p :: pages) = len (splitlines p) + span_total pages.
Proof. unfold span_total, len. simpl. lia. Qed.

Lemma span_total_nonneg pages : 0 ≤ span_total pages.
Proof. unfold span_total. lia. Qed.

Lemma span_upto_nonneg pages k : 0 ≤ span_upto pages k.
Proof. unfold span_upto. lia. Qed.

Lemma span_upto_all pages k :
  (length pages ≤ k)%nat → span_upto pages k = span_total pages.
Proof.
  intros Hk. unfold span_upto, span_total.
  rewrite take_ge; [done|]. unfold page_spans. by rewrite length_fmap.
Qed.

(** The loop finds page [k] when the spans up to it reach the line and the
    spans before it do not. *)
Lemma find_page_loop_found line_num pages : ∀ (idx : nat) (cur : Z) (k : nat),
  (k < length pages)%nat →
  line_num ≤ cur + span_upto pages (S k) →
  (∀ k', (k' < k)%nat → cur + span_upto pages (S k') < line_num) →
  find_page_loop line_num pages idx cur
  = Some (Z.of_nat idx + Z.of_nat k + 1, line_num - (cur + span_upto pages k)).
Proof.
  induction pages as [|p pages IH]; intros idx cur k Hk Hle Hlt; simpl in *; [lia|].
  destruct k as [|k].
  - rewrite span_upto_cons, span_upto_0 in Hle.
    rewrite span_upto_0.
    destruct (Z.leb_spec line_num (cur + len (splitlines p))); [|lia].
    do 2 f_equal; lia.
  - specialize (Hlt 0%nat ltac:(lia)) as H0.
    rewrite span_upto_cons, span_upto_0 in H0.
    destruct (Z.leb_spec line_num (cur + len (splitlines p))); [lia|].
    rewrite (IH (S idx) (cur + len (splitlines p)) k).
    + rewrite span_upto_cons. do 2 f_equal; lia.
    + lia.
    + rewrite span_upto_cons in Hle. lia.
    + intros k' Hk'. specialize (Hlt (S k') ltac:(lia)).
      rewrite span_upto_cons in Hlt. lia.
Qed.

Lemma find_page_loop_beyond line_num pages : ∀ (idx : nat) (cur : Z),
  cur + span_total pages < line_num →
  find_page_loop line_num pages idx cur = None.
Proof.
  induction pages as [|p pages IH]; intros idx cur Hlt; simpl; [done|].
  rewrite span_total_cons in Hlt. pose proof (span_total_nonneg pages).
  destruct (Z.leb_spec line_num (cur + len (splitlines p))); [lia|].
  apply IH. lia.
Qed.

(** What the loop returns, whenever it returns. *)
Lemma find_page_loop_Some line_num pages : ∀ (idx : nat) (cur : Z) page lip,
  find_page_loop line_num pages idx cur = Some (page, lip) →
  ∃ k : nat, (k < length pages)%nat ∧ page = Z.of_nat idx + Z.of_nat k + 1
    ∧ lip = line_num - (cur + span_upto pages k)
    ∧ line_num ≤ cur + span_upto pages (S k)
    ∧ (k ≠ 0%nat → cur + span_upto pages k < line_num).
Proof.
  induction pages as [|p pages IH]; intros idx cur page lip Hf; simpl in *; [done|].
  destruct (Z.leb_spec line_num (cur + len (splitlines p))).
  - injection Hf as <- <-. exists 0%nat.
    rewrite span_upto_cons, !span_upto_0. repeat split; lia.
  - apply IH in Hf as (k & Hk & -> & -> & Hle & Hlt).
    exists (S k). rewrite !span_upto_cons. repeat split; try lia.
    intros _. destruct k as [|k]; [rewrite span_upto_0; lia|].
    specialize (Hlt ltac:(done)). lia.
Qed.

(** C3. For a global line number and a document with at least one page,
    [_find_page_for_line] returns the first page whose cumulative span,
    that page included, is greater than or equal to the line number,
    together with the line number minus the cumulative span of the pages
    before it; when the line number is greater than the total span it
    returns the last page and in-page line 0. *)
Theorem find_page_for_line_resolution (line_num : Z) (pages : list text) :
  pages ≠ [] →
  (∀ k : nat, (k < length pages)%nat →
     line_num ≤ span_upto pages (S k) →
     (∀ k', (k' < k)%nat → span_upto pages (S k') < line_num) →
     _find_page_for_line line_num pages
     = (Z.of_nat k + 1, line_num - span_upto pages k))
  ∧ (span_total pages < line_num →
     _find_page_for_line line_num pages = (len pages, 0)).
Proof.
  intros _. unfold _find_page_for_line. split.
  - intros k Hk Hle Hlt.
    by rewrite (find_page_loop_found line_num pages 0 0 k).
  - intros Hlt. rewrite find_page_loop_beyond; [done|lia].
Qed.

Lemma find_page_for_line_resolution_witness :
  let pages := [str "a" ++ [NL] ++ str "b"; str "c"; str "d" ++ [NL] ++ str "e"] in
  _find_page_for_line 3 pages = (2, 1) ∧ _find_page_for_line 6 pages = (3, 0).
Proof.
  intros pages.
  destruct (find_page_for_line_resolution 3 pages ltac:(done)) as [Hfound _].
  destruct (find_page_for_line_resolution 6 pages ltac:(done)) as [_ Hbeyond].
  split.
  - apply (Hfound 1%nat); [vm_compute; lia | vm_compute; discriminate |].
    intros k' Hk'. assert (k' = 0%nat) as -> by lia. vm_compute. done.
  - apply Hbeyond. vm_compute. done.
Defined.

(** ** Computations with collaborators *)

Lemma returns_mret {X} (x : X) (P : X → Prop) : P x → returns (mret x) P.
Proof. intros HP tr y tr' [= <- <-]. done. Qed.

Lemma returns_raise {X} (e : exn) (P : X → Prop) : returns (raise e) P.
Proof. intros tr y tr' [=]. Qed.

Lemma returns_bind {X Y} (m : M X) (f : X → M Y) (P : Y → Prop) :
  (∀ x, returns (f x) P) → returns (m ≫= f) P.
Proof.
  intros Hf tr y tr'. unfold mbind, M_bind.
  destruct (m tr) as [[e|x] tr1]; [done|]. apply Hf.
Qed.

Lemma returns_any {X} (m : M X) : returns m (λ _, True).
Proof. intros tr y tr' _. done. Qed.

Lemma try_except_total {X} (m : M X) (handler : exn → X) (P : X → Prop) :
  returns m P → (∀ e, P (handler e)) → total (try_except m handler) P.
Proof.
  intros Hm Hh tr. unfold try_except.
  destruct (m tr) as [[e|x] tr1] eqn:Hrun; eauto.
Qed.

Lemma total_mret {X} (x : X) (P : X → Prop) : P x → total (mret x) P.
Proof. intros HP tr. by exists x, tr. Qed.

Lemma total_bind {X Y} (m : M X) (f : X → M Y) (P : X → Prop) (Q : Y → Prop) :
  total m P → (∀ x, P x → total (f x) Q) → total (m ≫= f) Q.
Proof.
  intros Hm Hf tr. destruct (Hm tr) as (x & tr1 & Hrun & HP).
  unfold mbind, M_bind. rewrite Hrun. by apply Hf.
Qed.

Lemma total_weaken {X} (m : M X) (P Q : X → Prop) :
  total m P → (∀ x, P x → Q x) → total m Q.
Proof. intros Hm HPQ tr. destruct (Hm tr) as (x & tr1 & ? & ?). eauto. Qed.

(** ** The shape of the method results *)

Section ComparerFacts.

Context {image array : Type}.
Variable basename : string → text.
Variable sys : @backend image array.
Variable self : PDFComparer.

Lemma compare_text_total p1 p2 detailed :
  total (compare_text basename sys self p1 p2 detailed) verdict_or_error.
Proof.
  unfold compare_text. destruct (negb _).
  - apply total_mret. by left.
  - apply try_except_total; [|by left].
    do 2 (apply returns_bind; intros ?). apply returns_mret. right. by eexists.
Qed.

Lemma compare_visual_total p1 p2 dpi :
  total (compare_visual sys self p1 p2 dpi) verdict_or_error.
Proof.
  unfold compare_visual. destruct (negb _).
  - apply total_mret. by left.
  - apply try_except_total; [|by left].
    do 2 (apply returns_bind; intros ?). case_bool_decide.
    + apply returns_mret. by left.
    + do 2 (apply returns_bind; intros ?). apply returns_mret. right. by eexists.
Qed.

Lemma compare_structure_total p1 p2 :
  total (compare_structure sys self p1 p2) verdict_or_error.
Proof.
  unfold compare_structure. destruct (negb _).
  - apply total_mret. by left.
  - apply try_except_total; [|by left].
    do 3 (apply returns_bind; intros ?). apply returns_mret. right. by eexists.
Qed.

Lemma compare_metadata_total p1 p2 :
  total (compare_metadata sys self p1 p2) verdict_or_error.
Proof.
  unfold compare_metadata. destruct (negb _).
  - apply total_mret. by left.
  - apply try_except_total; [|by left].
    do 4 (apply returns_bind; intros ?). apply returns_mret. right. by eexists.
Qed.

Lemma compare_basic_info_total p1 p2 :
  total (compare_basic_info sys p1 p2) no_verdict.
Proof.
  unfold compare_basic_info. apply try_except_total; [|done].
  do 2 (apply returns_bind; intros ?). destruct (HAS_PYMUPDF sys).
  - do 2 (apply returns_bind; intros ?). by apply returns_mret.
  - by apply returns_mret.
Qed.

Lemma total_invoke_inr {X} (c : call) (v : X) : total (invoke c (inr v)) (λ x, x = v).
Proof. intros tr. by exists v, (tr ++ [c]). Qed.

Lemma run_if_selected_total name methods run results (P : result → Prop) :
  total run P →
  total (run_if_selected name methods run results)
    (λ rs, ((name ∉ methods) ∧ rs = results)
           ∨ ((name ∈ methods) ∧ ∃ r, P r ∧ rs = results ++ [(name, r)])).
Proof.
  intros Hrun. unfold run_if_selected. case_bool_decide.
  - eapply total_bind; [exact Hrun|]. intros r Hr. apply total_mret. right. eauto.
  - apply total_mret. by left.
Qed.

Lemma comprehensive_compare_total p1 p2 methods :
  os_path_exists sys p1 = true →
  os_path_exists sys p2 = true →
  total (comprehensive_compare basename sys self p1 p2 methods)
    (λ out, ∃ basic rest,
       out = Report (p1, p2) (methods_used_of self methods)
               (("basic_info", basic) :: rest)
               (summarize (("basic_info", basic) :: rest))
       ∧ no_verdict basic
       ∧ method_entries (methods_used_of self methods) rest).
Proof.
  intros He1 He2. unfold comprehensive_compare.
  fold (methods_used_of self methods). set (used := methods_used_of self methods).
  eapply total_bind; [apply total_invoke_inr|]. intros ? ->. rewrite He1. simpl negb. cbv iota.
  eapply total_bind; [apply total_invoke_inr|]. intros ? ->. rewrite He2. simpl negb. cbv iota.
  eapply total_bind; [apply compare_basic_info_total|]. intros basic Hbasic.
  eapply total_bind; [apply run_if_selected_total, compare_text_total|]. intros rs1 H1.
  eapply total_bind; [apply run_if_selected_total, compare_visual_total|]. intros rs2 H2.
  eapply total_bind; [apply run_if_selected_total, compare_structure_total|]. intros rs3 H3.
  eapply total_bind; [apply run_if_selected_total, compare_metadata_total|]. intros rs4 H4.
  apply total_mret.
  assert (∃ rest, rs4 = ("basic_info", basic) :: rest ∧ method_entries used rest)
    as (rest & -> & Hrest); [|by exists basic, rest].
  unfold method_entries, selectable. simpl filter.
  destruct H1 as [[Hn1 ->]|(Hy1 & r1 & Hr1 & ->)];
  destruct H2 as [[Hn2 ->]|(Hy2 & r2 & Hr2 & ->)];
  destruct H3 as [[Hn3 ->]|(Hy3 & r3 & Hr3 & ->)];
  destruct H4 as [[Hn4 ->]|(Hy4 & r4 & Hr4 & ->)];
  simpl; eexists; (split; [reflexivity|]);
  rewrite !filter_cons, filter_nil;
  repeat first [rewrite decide_True by done | rewrite decide_False by done];
  (split; [|done]).
  all: repeat (apply Forall_cons; split); try apply Forall_nil_2; simpl.
  all: split; [set_solver|by split].
Qed.

(** *** The aggregate *)

Lemma elem_of_collect_identical (b : bool) (rs : list result) :
  b ∈ collect_identical rs
  ↔ ∃ r, r ∈ rs ∧ has_error r = false ∧ get_identical r = Some b.
Proof.
  induction rs as [|r rs IH]; simpl.
  - split; [by intros ?%elem_of_nil|]. by intros (? & ?%elem_of_nil & _).
  - destruct (has_error r) eqn:He, (get_identical r) as [i|] eqn:Hi;
      rewrite ?elem_of_cons, IH; split.
    all: try (intros (r' & Hr' & ? & ?); exists r'; rewrite elem_of_cons; by auto).
    all: try (intros (r' & [->|Hr']%elem_of_cons & ? & ?); [congruence|by eauto]).
    + intros [->|(r' & Hr' & ? & ?)]; [exists r|exists r'];
        rewrite elem_of_cons; by auto.
    + intros (r' & [->|Hr']%elem_of_cons & ? & ?); [left; congruence|by eauto].
Qed.

Lemma collect_identical_app (rs1 rs2 : list result) :
  collect_identical (rs1 ++ rs2) = collect_identical rs1 ++ collect_identical rs2.
Proof.
  induction rs1 as [|r rs1 IH]; simpl; [done|].
  destruct (has_error r), (get_identical r); simpl; by rewrite ?IH.
Qed.

Lemma forallb_id_true (l : list bool) : forallb id l = true ↔ ∀ b, b ∈ l → b = true.
Proof.
  induction l as [|x l IH]; simpl.
  - split; [by intros _ ? ?%elem_of_nil|done].
  - rewrite andb_true_iff, IH. unfold id. split.
    + intros [-> Hl] b [->|?]%elem_of_cons; auto.
    + intros Hl. split; [apply Hl; left|intros b ?; apply Hl; by right].
Qed.

Lemma overall_identical_summarize (results : list (string * result)) :
  overall_identical (summarize results) = true
  ↔ (∃ nr b, nr ∈ results ∧ ¬ failed nr.2 ∧ get_identical nr.2 = Some b)
    ∧ (∀ nr b, nr ∈ results → ¬ failed nr.2 → get_identical nr.2 = Some b → b = true).
Proof.
  unfold summarize, failed. simpl.
  assert (∀ b, b ∈ collect_identical results.*2
            ↔ ∃ nr, nr ∈ results ∧ ¬ has_error nr.2 = true ∧ get_identical nr.2 = Some b)
    as Hmem.
  { intros b. rewrite elem_of_collect_identical. split.
    - intros (r & [nr [-> Hnr]]%list_elem_of_fmap & He & Hi). exists nr.
      rewrite He. by auto.
    - intros (nr & Hnr & He & Hi). exists nr.2. repeat split; [|by destruct (has_error _)|done].
      apply list_elem_of_fmap. eauto. }
  destruct (collect_identical results.*2) as [|c cs] eqn:Hc.
  - split; [done|]. intros [(nr & b & Hnr & He & Hi) _].
    assert (b ∈ @nil bool) as ?%elem_of_nil; [|done]. apply Hmem. eauto.
  - rewrite forallb_id_true. split.
    + intros Hall. split.
      * destruct (proj1 (Hmem c)) as (nr & ? & ? & ?); [left|]. eauto.
      * intros nr b Hnr He Hi. apply Hall, Hmem. eauto.
    + intros [_ Hall] b (nr & ? & ? & ?)%Hmem. eauto.
Qed.

Lemma has_errors_summarize (results : list (string * result)) :
  has_errors (summarize results) = true ↔ ∃ nr, nr ∈ results ∧ failed nr.2.
Proof.
  unfold summarize, failed. simpl. rewrite existsb_exists. split.
  - intros (r & [nr [-> Hnr]]%list_elem_of_In%list_elem_of_fmap & He). eauto.
  - intros (nr & Hnr & He). exists nr.2. split; [|done].
    apply list_elem_of_In, list_elem_of_fmap. eauto.
Qed.

Lemma checks_passed_le_total (results : list (string * result)) :
  (checks_passed (summarize results) ≤ checks_total (summarize results))%nat.
Proof.
  unfold summarize. simpl. destruct (collect_identical _) as [|c cs]; [done|].
  apply length_filter.
Qed.

(** The results that carry a verdict unless they failed are counted when
    they did not fail. *)
Lemma length_collect_identical (rs : list result) :
  Forall verdict_or_error rs →
  length (collect_identical rs)
  = (length rs - length (filter (λ r, failed r) rs))%nat.
Proof.
  unfold failed. induction 1 as [|r rs Hr Hrs IH]; simpl; [done|].
  rewrite filter_cons. pose proof (length_filter (λ r, has_error r = true) rs).
  destruct Hr as [He|[b Hb]].
  - rewrite He. rewrite decide_True by done. simpl. lia.
  - rewrite Hb. destruct (has_error r) eqn:He.
    + rewrite decide_True by done. simpl. lia.
    + rewrite decide_False by done. simpl. lia.
Qed.

(** C6. With both files present, [overall_identical] is the conjunction of
    the [identical] values of the method results that did not fail, and is
    false when there is no such value; [has_errors] is true exactly when a
    method result failed. *)
Theorem aggregate_overall_identical_and_errors p1 p2 methods tr :
  os_path_exists sys p1 = true →
  os_path_exists sys p2 = true →
  ∃ used results s tr',
    comprehensive_compare basename sys self p1 p2 methods tr
    = (inr (Report (p1, p2) used results s), tr')
    ∧ (overall_identical s = true
       ↔ (∃ nr b, nr ∈ results ∧ ¬ failed nr.2 ∧ get_identical nr.2 = Some b)
         ∧ (∀ nr b, nr ∈ results → ¬ failed nr.2 →
                    get_identical nr.2 = Some b → b = true))
    ∧ (has_errors s = true ↔ ∃ nr, nr ∈ results ∧ failed nr.2).
Proof.
  intros He1 He2.
  destruct (comprehensive_compare_total p1 p2 methods He1 He2 tr)
    as (out & tr' & Hrun & basic & rest & -> & _ & _).
  eexists _, _, _, tr'. split; [exact Hrun|]. split.
  - apply overall_identical_summarize.
  - apply has_errors_summarize.
Qed.

(** C7, as amended. With both files present, the methods that run besides
    the basic information are the selected ones: those of the four methods
    that are among the methods used ([methods], or the available
    capabilities when it is [None]), one result each, in the order of the
    four. [checks_passed] is at most [checks_total]; [checks_total] is the
    number of the selected methods minus the number of those that failed;
    and the result of the basic information, which has no [identical]
    value, is not counted. *)
Theorem checks_total_counts_selected_methods p1 p2 methods tr :
  os_path_exists sys p1 = true →
  os_path_exists sys p2 = true →
  let selected :=
    filter (λ name, name ∈ methods_used_of self methods) selectable in
  ∃ basic rest s tr',
    comprehensive_compare basename sys self p1 p2 methods tr
    = (inr (Report (p1, p2) (methods_used_of self methods)
              (("basic_info", basic) :: rest) s), tr')
    ∧ get_identical basic = None
    ∧ rest.*1 = selected
    ∧ (checks_passed s ≤ checks_total s)%nat
    ∧ checks_total s
      = (length selected
         - length (filter (λ nr : string * result, failed nr.2) rest))%nat.
Proof.
  intros He1 He2 selected.
  destruct (comprehensive_compare_total p1 p2 methods He1 He2 tr)
    as (out & tr' & Hrun & basic & rest & -> & Hbasic & Hrest & Hnames).
  eexists basic, rest, _, tr'. split; [exact Hrun|].
  split; [exact Hbasic|]. split; [exact Hnames|]. split.
  - apply checks_passed_le_total.
  - unfold selected. rewrite <- Hnames, length_fmap. simpl.
    unfold no_verdict in Hbasic. rewrite Hbasic.
    assert (length (filter (λ nr : string * result, failed nr.2) rest)
            = length (filter (λ r, failed r) rest.*2)) as ->.
    { clear. induction rest as [|nr rest IH]; [done|].
      rewrite fmap_cons, !filter_cons. simpl.
      destruct (decide (failed nr.2)); simpl; by rewrite IH. }
    rewrite <- (length_fmap snd rest), <- length_collect_identical.
    + by destruct (has_error basic).
    + apply Forall_fmap. eapply Forall_impl; [exact Hrest|]. by intros nr (_ & _ & ?).
Qed.

(** C10. The result of the basic information carries no [identical] value;
    when no selectable method is among the methods used, the basic
    information is the only result, [checks_total] is 0 and
    [overall_identical] is false. *)
Theorem basic_info_alone_gives_no_checks p1 p2 methods tr :
  os_path_exists sys p1 = true →
  os_path_exists sys p2 = true →
  (∀ name, name ∈ selectable → name ∉ methods_used_of self methods) →
  ∃ used basic s tr',
    comprehensive_compare basename sys self p1 p2 methods tr
    = (inr (Report (p1, p2) used [("basic_info", basic)] s), tr')
    ∧ get_identical basic = None
    ∧ checks_total s = 0%nat
    ∧ overall_identical s = false.
Proof.
  intros He1 He2 Hnone.
  destruct (comprehensive_compare_total p1 p2 methods He1 He2 tr)
    as (out & tr' & Hrun & basic & rest & -> & Hbasic & _ & Hrest).
  assert (rest = []) as ->.
  { apply (fmap_nil_inv fst). rewrite Hrest. unfold selectable in *.
    rewrite !filter_cons, filter_nil.
    repeat rewrite decide_False by (apply Hnone; set_solver). done. }
  eexists _, basic, _, tr'. split; [exact Hrun|].
  unfold no_verdict in Hbasic. unfold summarize. simpl. rewrite Hbasic.
  by destruct (has_error basic).
Qed.

(** C8. A comparison method whose capability flag is false returns the
    error result that says the method is unavailable (不可用), and calls no
    collaborator: the trace is left as it was. *)
Theorem unavailable_method_fails_without_backend p1 p2 detailed dpi tr :
  (text_comparison (self_capabilities self) = false →
   compare_text basename sys self p1 p2 detailed tr
   = (inr (ErrorResult "文本比较功能不可用，需要安装PyMuPDF"), tr))
  ∧ (visual_comparison (self_capabilities self) = false →
     compare_visual sys self p1 p2 dpi tr
     = (inr (ErrorResult "视觉比较不可用，需要安装pdf2image和poppler"), tr))
  ∧ (structure_analysis (self_capabilities self) = false →
     compare_structure sys self p1 p2 tr
     = (inr (ErrorResult "结构分析不可用，需要安装pdfplumber"), tr))
  ∧ (metadata_comparison (self_capabilities self) = false →
     compare_metadata sys self p1 p2 tr
     = (inr (ErrorResult "元数据比较不可用，需要安装PyMuPDF"), tr)).
Proof.
  unfold compare_text, compare_visual, compare_structure, compare_metadata.
  repeat split; intros ->; reflexivity.
Qed.

(** C9. When the two documents render to different numbers of pages, the
    visual comparison returns the result that reports the page counts
    (页数不同), after the two calls that render the documents and no other
    call; that result has an error, so the summary of any results with it
    has [has_errors] and takes its other fields from the remaining results. *)
Theorem visual_page_count_mismatch p1 p2 dpi tr images1 images2 :
  visual_comparison (self_capabilities self) = true →
  HAS_PDF2IMAGE sys = true →
  convert_from_path sys p1 dpi = inr images1 →
  convert_from_path sys p2 dpi = inr images2 →
  length images1 ≠ length images2 →
  let mismatch :=
    VisualPageMismatch false
      ("页数不同: " +:+ dec_string (length images1)
       +:+ " vs " +:+ dec_string (length images2)) in
  compare_visual sys self p1 p2 dpi tr
  = (inr mismatch,
     tr ++ [call_convert_from_path p1 dpi; call_convert_from_path p2 dpi])
  ∧ failed mismatch
  ∧ ∀ earlier later : list (string * result),
      let results := earlier ++ ("visual_comparison", mismatch) :: later in
      let others := earlier ++ later in
      has_errors (summarize results) = true
      ∧ overall_identical (summarize results) = overall_identical (summarize others)
      ∧ checks_passed (summarize results) = checks_passed (summarize others)
      ∧ checks_total (summarize results) = checks_total (summarize others).
Proof.
  intros Hcap Hlib Himg1 Himg2 Hlen mismatch. split; [|split; [done|]].
  - unfold compare_visual, use_convert_from_path, try_except, invoke, mbind, M_bind.
    rewrite Hcap, Hlib, Himg1, Himg2. simpl.
    rewrite bool_decide_true by done. simpl. by rewrite <- app_assoc.
  - intros earlier later results others.
    assert (collect_identical results.*2 = collect_identical others.*2) as Hsame.
    { unfold results, others. by rewrite !fmap_app, fmap_cons, !collect_identical_app. }
    split.
    + apply has_errors_summarize. exists ("visual_comparison", mismatch).
      split; [|done]. unfold results. apply elem_of_app. right. left.
    + unfold summarize. simpl. by rewrite Hsame.
Qed.

End ComparerFacts.

Lemma aggregate_overall_identical_and_errors_witness :
  ∃ used results s tr',
    comprehensive_compare demo_basename (demo true true true)
      (comparer true true true true) "a.pdf" "b.pdf" None []
    = (inr (Report ("a.pdf", "b.pdf") used results s), tr')
    ∧ (overall_identical s = true
       ↔ (∃ nr b, nr ∈ results ∧ ¬ failed nr.2 ∧ get_identical nr.2 = Some b)
         ∧ (∀ nr b, nr ∈ results → ¬ failed nr.2 →
                    get_identical nr.2 = Some b → b = true))
    ∧ (has_errors s = true ↔ ∃ nr, nr ∈ results ∧ failed nr.2).
Proof.
  apply (aggregate_overall_identical_and_errors demo_basename (demo true true true)
           (comparer true true true true) "a.pdf" "b.pdf" None []); reflexivity.
Defined.

(** C7, as the design document words it, fails: with the text comparison
    selected, two methods run and none fails, but [checks_total] is 1. *)
Lemma checks_total_is_run_minus_failed_counterexample :
  ∃ results s tr',
    comprehensive_compare demo_basename (demo true true true)
      (comparer true true true true) "a.pdf" "b.pdf" (Some ["text_comparison"]) []
    = (inr (Report ("a.pdf", "b.pdf") ["text_comparison"] results s), tr')
    ∧ length results = 2%nat
    ∧ Forall (λ nr : string * result, ¬ failed nr.2) results
    ∧ checks_total s = 1%nat
    ∧ ¬ checks_total_is_run_minus_failed results s.
Proof.
  eexists _, _, _. split; [vm_compute; reflexivity|].
  split; [done|]. split; [repeat constructor; by intros [=]|].
  split; [done|]. vm_compute. by intros [=].
Qed.

Lemma checks_total_counts_selected_methods_witness :
  let self := comparer true true true true in
  let methods := Some ["metadata_comparison"; "visual_comparison"; "ocr"] in
  let selected := ["visual_comparison"; "metadata_comparison"] in
  ∃ basic rest s tr',
    comprehensive_compare demo_basename (demo true true true) self
      "a.pdf" "b.pdf" methods []
    = (inr (Report ("a.pdf", "b.pdf") (methods_used_of self methods)
              (("basic_info", basic) :: rest) s), tr')
    ∧ get_identical basic = None
    ∧ rest.*1 = selected
    ∧ (checks_passed s ≤ checks_total s)%nat
    ∧ checks_total s
      = (length selected
         - length (filter (λ nr : string * result, failed nr.2) rest))%nat.
Proof.
  intros self methods selected.
  apply (checks_total_counts_selected_methods demo_basename (demo true true true)
           self "a.pdf" "b.pdf" methods []); reflexivity.
Defined.

Lemma unavailable_method_fails_without_backend_witness :
  let sys := demo false false false in
  let self := comparer false false false false in
  compare_text demo_basename sys self "a.pdf" "b.pdf" true []
  = (inr (ErrorResult "文本比较功能不可用，需要安装PyMuPDF"), [])
  ∧ compare_visual sys self "a.pdf" "b.pdf" 150 []
    = (inr (ErrorResult "视觉比较不可用，需要安装pdf2image和poppler"), [])
  ∧ compare_structure sys self "a.pdf" "b.pdf" []
    = (inr (ErrorResult "结构分析不可用，需要安装pdfplumber"), [])
  ∧ compare_metadata sys self "a.pdf" "b.pdf" []
    = (inr (ErrorResult "元数据比较不可用，需要安装PyMuPDF"), []).
Proof.
  intros sys self.
  destruct (unavailable_method_fails_without_backend demo_basename sys self
              "a.pdf" "b.pdf" true 150 []) as (Ht & Hv & Hs & Hm).
  exact (conj (Ht eq_refl) (conj (Hv eq_refl) (conj (Hs eq_refl) (Hm eq_refl)))).
Defined.

Lemma visual_page_count_mismatch_witness :
  let sys := demo true true true in
  let self := comparer true true true true in
  let mismatch := VisualPageMismatch false "页数不同: 2 vs 1" in
  compare_visual sys self "a.pdf" "b.pdf" 150 []
  = (inr mismatch,
     [call_convert_from_path "a.pdf" 150; call_convert_from_path "b.pdf" 150])
  ∧ failed mismatch
  ∧ ∀ earlier later : list (string * result),
      let results := earlier ++ ("visual_comparison", mismatch) :: later in
      let others := earlier ++ later in
      has_errors (summarize results) = true
      ∧ overall_identical (summarize results) = overall_identical (summarize others)
      ∧ checks_passed (summarize results) = checks_passed (summarize others)
      ∧ checks_total (summarize results) = checks_total (summarize others).
Proof.
  intros sys self mismatch.
  apply (visual_page_count_mismatch sys self "a.pdf" "b.pdf" 150 []
           [1; 2]%nat [1]%nat); done.
Defined.

Lemma basic_info_alone_gives_no_checks_witness :
  ∃ used basic s tr',
    comprehensive_compare demo_basename (demo true true true)
      (comparer true true true true) "a.pdf" "a.pdf" (Some []) []
    = (inr (Report ("a.pdf", "a.pdf") used [("basic_info", basic)] s), tr')
    ∧ get_identical basic = None
    ∧ checks_total s = 0%nat
    ∧ overall_identical s = false.
Proof.
  apply (basic_info_alone_gives_no_checks demo_basename (demo true true true)
           (comparer true true true true) "a.pdf" "a.pdf" (Some []) []);
    [reflexivity|reflexivity|].
  intros name _. apply not_elem_of_nil.
Defined.

(** ** difflib *)

Section DifflibFacts.
Local Open Scope nat_scope.
Context {A : Type} `{Countable A}.

(** *** [b2j] *)

Lemma elem_of_indices_from (l : list A) (x : A) : ∀ s j,
  j ∈ indices_from s l x ↔ s ≤ j ∧ l !! (j - s) = Some x.
Proof.
  induction l as [|y l IH]; intros s j; simpl.
  - split; [by intros ?%elem_of_nil|by intros [_ ?]].
  - destruct (decide (x = y)) as [->|Hne]; rewrite ?elem_of_cons, IH.
    + split.
      * intros [->|[Hs Hl]]; [by rewrite Nat.sub_diag|].
        split; [lia|]. by replace (j - s) with (S (j - S s)) by lia.
      * intros [Hs Hl]. destruct (decide (j = s)) as [|Hjs]; [by left|right].
        split; [lia|]. by replace (j - s) with (S (j - S s)) in Hl by lia.
    + split.
      * intros [Hs Hl]. split; [lia|]. by replace (j - s) with (S (j - S s)) by lia.
      * intros [Hs Hl]. destruct (decide (j = s)) as [->|Hjs].
        { rewrite Nat.sub_diag in Hl. simpl in Hl. congruence. }
        split; [lia|]. by replace (j - s) with (S (j - S s)) in Hl by lia.
Qed.

Lemma indices_from_sorted (l : list A) (x : A) : ∀ s,
  StronglySorted lt (indices_from s l x).
Proof.
  induction l as [|y l IH]; intros s; simpl; [constructor|].
  destruct (decide (x = y)); [|apply IH].
  constructor; [apply IH|]. apply Forall_forall. intros j Hj.
  apply elem_of_indices_from in Hj. lia.
Qed.

Lemma chain_loop_lookup (l : list A) (x : A) : ∀ s (m : gmap A (list nat)),
  chain_loop s l m !! x
  = match indices_from s l x with
    | [] => m !! x
    | js => Some (default [] (m !! x) ++ js)
    end.
Proof.
  induction l as [|y l IH]; intros s m; simpl; [done|].
  rewrite IH. destruct (decide (x = y)) as [->|Hne].
  - rewrite lookup_insert_eq. simpl.
    destruct (indices_from (S s) l y); [done|]. by rewrite <- app_assoc.
  - by rewrite lookup_insert_ne.
Qed.

(** The list [b2j] keeps for an element is the list of its positions in [b]. *)
Lemma b2j_lookup_Some (b : list A) (x : A) (js : list nat) :
  b2j b !! x = Some js → js = indices_from 0 b x.
Proof.
  unfold b2j. intros [Hl _]%map_lookup_filter_Some.
  rewrite chain_loop_lookup, lookup_empty in Hl.
  destruct (indices_from 0 b x); [done|]. by injection Hl as <-.
Qed.

Lemma b2j_lookup_not_elem (b : list A) (x : A) : x ∉ b → b2j b !! x = None.
Proof.
  intros Hx. destruct (b2j b !! x) as [js|] eqn:Hjs; [|done].
  pose proof (b2j_lookup_Some _ _ _ Hjs) as ->.
  unfold b2j in Hjs. apply map_lookup_filter_Some in Hjs as [Hl _].
  rewrite chain_loop_lookup, lookup_empty in Hl.
  destruct (indices_from 0 b x) as [|j js] eqn:Hi; [done|].
  assert (j ∈ indices_from 0 b x) as [_ Hj]%elem_of_indices_from
    by (rewrite Hi; left).
  exfalso. apply Hx. eapply list_elem_of_lookup_2, Hj.
Qed.

(** *** [find_longest_match] stays inside the two ranges *)

Section bounds.
Variables a b : list A.
Variables alo blo bhi : nat.

Lemma flm_inner_bounds i j2len js : ∀ newj2len best,
  alo ≤ i →
  (∀ j k, j2len !! j = Some k → k ≤ i - alo ∧ k ≤ j + 1 - blo) →
  row_within alo blo i newj2len →
  best_within alo blo (i + 1) bhi best →
  row_within alo blo i (flm_inner i blo bhi j2len js newj2len best).1
  ∧ best_within alo blo (i + 1) bhi (flm_inner i blo bhi j2len js newj2len best).2.
Proof.
  induction js as [|j js IH]; intros newj2len best Hi Hprev Hnew Hbest; simpl; [done|].
  destruct (Nat.ltb_spec j blo); [by apply IH|].
  destruct (Nat.leb_spec bhi j); [done|].
  assert (j2lenget j2len j ≤ i - alo ∧ j2lenget j2len j ≤ j - blo) as [Hk1 Hk2].
  { unfold j2lenget. destruct j as [|j']; [lia|].
    destruct (j2len !! j') as [k'|] eqn:Hk'; simpl; [|lia].
    apply Hprev in Hk'. lia. }
  apply IH; [done|done| |].
  - intros j0 k0. destruct (decide (j = j0)) as [<-|Hne].
    + rewrite lookup_insert_eq. intros [= <-]. lia.
    + rewrite lookup_insert_ne by done. apply Hnew.
  - destruct (Nat.ltb_spec best.2 (j2lenget j2len j + 1)); [|done].
    unfold best_within. simpl. lia.
Qed.

Lemma flm_outer_bounds n : ∀ i j2len best,
  alo ≤ i →
  (∀ j k, j2len !! j = Some k → k ≤ i - alo ∧ k ≤ j + 1 - blo) →
  best_within alo blo i bhi best →
  best_within alo blo (i + n) bhi (flm_outer a b blo bhi (seq i n) j2len best).
Proof.
  induction n as [|n IH]; intros i j2len best Hi Hprev Hbest; simpl.
  - by rewrite Nat.add_0_r.
  - pose proof (flm_inner_bounds i j2len (b2j_get a b i) ∅ best Hi Hprev) as Hin.
    destruct (flm_inner i blo bhi j2len (b2j_get a b i) ∅ best) as [new best'].
    destruct Hin as [Hnew Hbest'].
    { intros j k. by rewrite lookup_empty. }
    { unfold best_within in *. lia. }
    replace (i + S n) with (S i + n) by lia. apply IH; [lia| |].
    + intros j k Hjk. apply Hnew in Hjk. simpl in Hjk. lia.
    + by replace (S i) with (i + 1) by lia.
Qed.

Lemma extend_back_bounds junk u : ∀ besti bestj bestsize,
  best_within alo blo u bhi (besti, bestj, bestsize) →
  best_within alo blo u bhi (extend_back a b junk alo blo besti bestj bestsize).
Proof.
  induction besti as [|i' IH]; intros bestj bestsize Hbest; simpl; [done|].
  destruct bestj as [|j']; [done|].
  destruct (_ && _) eqn:Hc; [|done].
  apply andb_true_iff in Hc as [[[Hi Hj]%andb_true_iff _]%andb_true_iff _].
  apply Nat.ltb_lt in Hi, Hj.
  apply IH. unfold best_within in *. simpl in *. lia.
Qed.

Lemma extend_fwd_bounds junk ahi fuel : ∀ besti bestj bestsize,
  best_within alo blo ahi bhi (besti, bestj, bestsize) →
  best_within alo blo ahi bhi (extend_fwd a b junk fuel ahi bhi besti bestj bestsize).
Proof.
  induction fuel as [|fuel IH]; intros besti bestj bestsize Hbest; simpl; [done|].
  destruct (_ && _) eqn:Hc; [|done].
  apply andb_true_iff in Hc as [[[Hi Hj]%andb_true_iff _]%andb_true_iff _].
  apply Nat.ltb_lt in Hi, Hj.
  apply IH. unfold best_within in *. simpl in *. lia.
Qed.

Lemma extend_bounds junk ahi best :
  best_within alo blo ahi bhi best →
  best_within alo blo ahi bhi (extend a b junk alo ahi blo bhi best).
Proof.
  intros Hbest. unfold extend. destruct best as [[besti bestj] bestsize].
  pose proof (extend_back_bounds junk ahi besti bestj bestsize Hbest) as Hback.
  destruct (extend_back a b junk alo blo besti bestj bestsize) as [[i j] k].
  by apply extend_fwd_bounds.
Qed.

(** The match [find_longest_match] returns lies in the two ranges. *)
Lemma find_longest_match_bounds ahi :
  alo ≤ ahi → blo ≤ bhi →
  best_within alo blo ahi bhi (find_longest_match a b alo ahi blo bhi).
Proof.
  intros Ha Hb. unfold find_longest_match. do 2 apply extend_bounds.
  replace ahi with (alo + (ahi - alo)) at 1 by lia.
  apply flm_outer_bounds; [done| |].
  - intros j k. by rewrite lookup_empty.
  - unfold best_within. simpl. lia.
Qed.

End bounds.
(** *** The loop of [get_matching_blocks] *)

Lemma pairwise_Permutation {X} (R : relation X) `{!Symmetric R} (l1 l2 : list X) :
  l1 ≡ₚ l2 → pairwise R l1 → pairwise R l2.
Proof.
  induction 1 as [|x l1 l2 Hp IH|x y l|l1 l2 l3 _ IH1 _ IH2]; simpl; [done|..].
  - intros [Hx Hl]. split; [by rewrite <- Hp|auto].
  - intros [[Hyx Hy]%Forall_cons [Hx Hl]]. repeat split; try done.
    constructor; [by symmetry|done].
  - auto.
Qed.

Lemma pairwise_app_r {X} (R : relation X) (l1 l2 : list X) :
  pairwise R (l1 ++ l2) → pairwise R l2.
Proof. induction l1 as [|x l1 IH]; simpl; [done|]. intros [_ ?]. auto. Qed.

Global Instance box_apart_sym : Symmetric box_apart.
Proof. intros x y [?|?]; [right|left]; done. Qed.

Lemma box_apart_inside (x q y : box) :
  box_inside x q → box_apart q y → box_apart x y.
Proof. unfold box_inside, box_apart, box_before. lia. Qed.

Lemma loop_inv_step (a b : list A) (alo ahi blo bhi : nat) queue blocks :
  loop_inv (length a) (length b) ((alo, ahi, blo, bhi) :: queue) blocks →
  match find_longest_match a b alo ahi blo bhi with
  | (i, j, k) =>
      if k =? 0 then loop_inv (length a) (length b) queue blocks
      else
        let q1 := if (alo <? i) && (blo <? j) then (alo, i, blo, j) :: queue else queue in
        let q2 := if (i + k <? ahi) && (j + k <? bhi)
                  then (i + k, ahi, j + k, bhi) :: q1 else q1 in
        loop_inv (length a) (length b) q2 (blocks ++ [(i, j, k)])
  end.
Proof.
  intros ([(Ha & Hb & Hla & Hlb) Hq]%Forall_cons & Hblocks & [Hhead Hrest]).
  simpl in Ha, Hb, Hla, Hlb.
  pose proof (find_longest_match_bounds a b alo blo bhi ahi Ha Hb) as Hin.
  destruct (find_longest_match a b alo ahi blo bhi) as [[i j] k].
  unfold best_within in Hin. simpl in Hin. destruct Hin as (Hi & Hj & Hik & Hjk).
  destruct (Nat.eqb_spec k 0) as [->|Hk]; [done|].
  set (L := (alo, i, blo, j) : box). set (R := (i + k, ahi, j + k, bhi) : box).
  set (B := block_box (i, j, k)).
  set (rest := queue ++ (block_box <$> blocks)) in *.
  assert (Forall (box_apart B) rest) as HB.
  { eapply Forall_impl; [exact Hhead|]. intros y. apply box_apart_inside.
    unfold box_inside, B, block_box. simpl. lia. }
  assert (Forall (box_apart L) rest) as HL.
  { eapply Forall_impl; [exact Hhead|]. intros y. apply box_apart_inside.
    unfold box_inside, L. simpl. lia. }
  assert (Forall (box_apart R) rest) as HR.
  { eapply Forall_impl; [exact Hhead|]. intros y. apply box_apart_inside.
    unfold box_inside, R. simpl. lia. }
  assert (box_apart L B) as HLB by (left; unfold box_before, L, B, block_box; simpl; lia).
  assert (box_apart R B) as HRB by (right; unfold box_before, R, B, block_box; simpl; lia).
  assert (box_apart R L) as HRL by (right; unfold box_before, R, L; simpl; lia).
  assert (Forall (λ m : Match, 0 < m.2 ∧ m.1.1 + m.2 ≤ length a ∧ m.1.2 + m.2 ≤ length b)
            (blocks ++ [(i, j, k)])) as Hblocks'.
  { apply Forall_app. split; [done|]. repeat constructor; simpl; lia. }
  assert (pairwise box_apart (rest ++ [B])) as HpB.
  { apply (pairwise_Permutation box_apart (B :: rest)); [|done].
    by rewrite Permutation_cons_append. }
  assert (Forall (box_apart L) (rest ++ [B])) as HL'.
  { apply Forall_app. split; [done|]. by repeat constructor. }
  assert (Forall (box_apart R) (rest ++ [B])) as HR'.
  { apply Forall_app. split; [done|]. by repeat constructor. }
  unfold rest in HpB, HL', HR'. rewrite <- app_assoc in HpB, HL', HR'.
  destruct (Nat.ltb_spec alo i), (Nat.ltb_spec blo j),
    (Nat.ltb_spec (i + k) ahi), (Nat.ltb_spec (j + k) bhi); simpl;
    (split; [repeat (constructor; [simpl; lia|]); exact Hq|]);
    (split; [exact Hblocks'|]); rewrite fmap_app; simpl; fold B;
    repeat split; try done; by constructor.
Qed.

Lemma matching_loop_inv (a b : list A) fuel : ∀ queue blocks,
  loop_inv (length a) (length b) queue blocks →
  loop_inv (length a) (length b)
    (matching_loop a b fuel queue blocks).1 (matching_loop a b fuel queue blocks).2.
Proof.
  induction fuel as [|fuel IH]; intros queue blocks Hinv; simpl; [done|].
  destruct queue as [|[[[alo ahi] blo] bhi] queue]; [done|].
  apply loop_inv_step in Hinv.
  destruct (find_longest_match a b alo ahi blo bhi) as [[i j] k].
  destruct (Nat.eqb k 0); by apply IH.
Qed.

(** The fuel [get_matching_blocks] gives the loop empties the queue. *)
Lemma matching_loop_ends (a b : list A) fuel : ∀ queue blocks,
  loop_inv (length a) (length b) queue blocks →
  queue_weight queue ≤ fuel →
  (matching_loop a b fuel queue blocks).1 = [].
Proof.
  induction fuel as [|fuel IH]; intros queue blocks Hinv Hw; simpl.
  - destruct queue as [|q queue]; [done|].
    unfold queue_weight, box_weight in Hw. simpl in Hw. lia.
  - destruct queue as [|[[[alo ahi] blo] bhi] queue]; [done|].
    pose proof (loop_inv_step _ _ _ _ _ _ _ _ Hinv) as Hstep.
    destruct Hinv as ([(Ha & Hb & _) _]%Forall_cons & _). simpl in Ha, Hb.
    pose proof (find_longest_match_bounds a b alo blo bhi ahi Ha Hb) as Hin.
    destruct (find_longest_match a b alo ahi blo bhi) as [[i j] k].
    unfold best_within in Hin. simpl in Hin.
    assert (∀ q qs, queue_weight (q :: qs) = box_weight q + queue_weight qs)
      as Hcons by done.
    rewrite Hcons in Hw. unfold box_weight in Hw. simpl in Hw.
    destruct (Nat.eqb_spec k 0) as [Hk|Hk]; [apply IH; [done|lia]|].
    apply IH; [done|]. clear IH Hstep.
    destruct (Nat.ltb_spec alo i), (Nat.ltb_spec blo j),
      (Nat.ltb_spec (i + k) ahi), (Nat.ltb_spec (j + k) bhi); simpl;
      rewrite ?Hcons; unfold box_weight; simpl; lia.
Qed.

Lemma loop_inv_init (a b : list A) :
  loop_inv (length a) (length b) [(0, length a, 0, length b)] [].
Proof.
  repeat split; simpl; try done. repeat constructor; simpl; lia.
Qed.

Lemma get_matching_blocks_queue_empty (a b : list A) :
  (matching_loop a b (length a + length b + 1) [(0, length a, 0, length b)] []).1 = [].
Proof.
  apply matching_loop_ends; [apply loop_inv_init|].
  unfold queue_weight, box_weight. simpl. lia.
Qed.

(** *** The matching blocks are in increasing order *)

Global Instance Match_le_trans : Transitive Match_le.
Proof. intros [[??]?] [[??]?] [[??]?]. unfold Match_le. lia. Qed.

Global Instance Match_le_total : Total Match_le.
Proof. intros [[??]?] [[??]?]. unfold Match_le. lia. Qed.

Lemma sorted_blocks_before (blocks : list Match) :
  StronglySorted Match_le blocks →
  Forall (λ m : Match, 0 < m.2) blocks →
  pairwise box_apart (block_box <$> blocks) →
  StronglySorted block_before blocks.
Proof.
  induction 1 as [|m blocks Hs IH Hm]; intros Hpos Hp; [constructor|].
  apply Forall_cons in Hpos as [Hk Hpos].
  rewrite fmap_cons in Hp. cbn [pairwise] in Hp. destruct Hp as [Hmp Hp].
  constructor; [by apply IH|].
  apply Forall_forall. intros m' Hm'.
  rewrite Forall_forall in Hm. rewrite Forall_forall in Hpos.
  rewrite Forall_forall in Hmp.
  specialize (Hm m' Hm'). specialize (Hpos m' Hm').
  specialize (Hmp (block_box m') ltac:(by apply list_elem_of_fmap_2)).
  destruct m as [[i j] k], m' as [[i' j'] k'].
  unfold Match_le, block_before, box_apart, box_before, block_box in *.
  simpl in *. lia.
Qed.

Lemma chain_of_sorted la lb (blocks : list Match) : ∀ i0 j0,
  StronglySorted block_before blocks →
  Forall (λ m : Match, i0 ≤ m.1.1 ∧ j0 ≤ m.1.2
                       ∧ m.1.1 + m.2 ≤ la ∧ m.1.2 + m.2 ≤ lb) blocks →
  i0 ≤ la → j0 ≤ lb →
  chain i0 j0 la lb blocks.
Proof.
  induction blocks as [|[[i j] k] blocks IH]; intros i0 j0 Hs Hall Hi Hj; simpl; [done|].
  apply StronglySorted_inv in Hs as [Hs Hm].
  apply Forall_cons in Hall as [(? & ? & ? & ?) Hall]. simpl in *.
  split; [done|]. apply IH; try done.
  rewrite Forall_forall in Hm. rewrite Forall_forall in Hall.
  apply Forall_forall. intros m' Hm'.
  specialize (Hm m' Hm'). specialize (Hall m' Hm').
  unfold block_before in Hm. simpl in Hm. lia.
Qed.

Lemma collapse_chain la lb (blocks : list Match) : ∀ i0 j0 i1 j1 k1,
  chain (i1 + k1) (j1 + k1) la lb blocks →
  i0 ≤ i1 → j0 ≤ j1 →
  chain i0 j0 la lb (collapse blocks i1 j1 k1 ++ [(la, lb, 0)]).
Proof.
  induction blocks as [|[[i2 j2] k2] blocks IH]; intros i0 j0 i1 j1 k1 Hc Hi Hj; simpl in *.
  - destruct (Nat.eqb_spec k1 0); simpl; lia.
  - destruct Hc as [[Hi2 Hj2] Hc].
    destruct (Nat.eqb_spec (i1 + k1) i2) as [Hei|Hni]; simpl.
    + destruct (Nat.eqb_spec (j1 + k1) j2) as [Hej|Hnj]; simpl.
      * apply IH; [|done|done].
        by replace (i1 + (k1 + k2)) with (i2 + k2) by lia;
           replace (j1 + (k1 + k2)) with (j2 + k2) by lia.
      * destruct (Nat.eqb_spec k1 0); simpl.
        -- apply IH; [done|lia|lia].
        -- split; [done|]. apply IH; [done|lia|lia].
    + destruct (Nat.eqb_spec k1 0); simpl.
      * apply IH; [done|lia|lia].
      * split; [done|]. apply IH; [done|lia|lia].
Qed.

(** The matching blocks, with the block that ends them, are in increasing
    order and inside the two sequences. *)
Lemma get_matching_blocks_chain (a b : list A) :
  chain 0 0 (length a) (length b) (get_matching_blocks a b).
Proof.
  unfold get_matching_blocks.
  pose proof (matching_loop_inv a b (length a + length b + 1) _ _ (loop_inv_init a b))
    as (_ & Hblocks & Hp).
  set (blocks := (matching_loop a b _ _ _).2) in *.
  apply pairwise_app_r in Hp.
  pose proof (merge_sort_Permutation Match_le blocks) as Hperm.
  apply collapse_chain; [|done|done]. simpl.
  apply chain_of_sorted; [|  | lia | lia].
  - apply sorted_blocks_before.
    + apply StronglySorted_merge_sort; apply _.
    + rewrite Hperm. eapply Forall_impl; [exact Hblocks|]. by intros m (? & _).
    + eapply (pairwise_Permutation box_apart); [|exact Hp]. by rewrite Hperm.
  - rewrite Hperm. eapply Forall_impl; [exact Hblocks|]. intros m (? & ? & ?). lia.
Qed.

(** *** The opcodes and their groups are in increasing order *)

Lemma opcodes_loop_chain la lb (blocks : list Match) : ∀ i j,
  chain i j la lb blocks → ops_chain i j (opcodes_loop blocks i j).
Proof.
  induction blocks as [|[[ai bj] size] blocks IH]; intros i j Hc; simpl; [done|].
  destruct Hc as [[Hi Hj] Hc]. apply IH in Hc.
  destruct (Nat.ltb_spec i ai), (Nat.ltb_spec j bj), (Nat.eqb_spec size 0);
    simpl; repeat split; try lia; try done.
  all: try (replace ai with i in * by lia); try (replace bj with j in * by lia).
  all: subst; rewrite ?Nat.add_0_r in *; done.
Qed.

Lemma get_opcodes_chain (a b : list A) : ops_chain 0 0 (get_opcodes a b).
Proof.
  unfold get_opcodes. eapply opcodes_loop_chain, get_matching_blocks_chain.
Qed.

Lemma ops_chain_weaken (ops : list opcode) i0 j0 i0' j0' :
  i0' ≤ i0 → j0' ≤ j0 → ops_chain i0 j0 ops → ops_chain i0' j0' ops.
Proof.
  destruct ops as [|[[[[tag i1] i2] j1] j2] ops]; simpl; [done|].
  intros ? ? [? ?]. split; [lia|done].
Qed.

(** The last opcode of a chain can end earlier, and what follows an opcode
    of a chain is a chain. *)
Lemma ops_chain_snoc (group rest : list opcode) tag tag' i1 i2 i2' j1 j2 j2' : ∀ i0 j0,
  ops_chain i0 j0 (group ++ (tag, i1, i2, j1, j2) :: rest) →
  i1 ≤ i2' → j1 ≤ j2' →
  ops_chain i0 j0 (group ++ [(tag', i1, i2', j1, j2')]).
Proof.
  induction group as [|[[[[t k1] k2] l1] l2] group IH]; intros i0 j0; simpl.
  - intros [? _] ? ?. split; [lia|done].
  - intros [? Hc] ? ?. split; [done|]. by apply IH.
Qed.

Lemma ops_chain_tail (group rest : list opcode) tag i1 i2 j1 j2 : ∀ i0 j0,
  ops_chain i0 j0 (group ++ (tag, i1, i2, j1, j2) :: rest) →
  i1 ≤ i2 ∧ j1 ≤ j2 ∧ ops_chain i2 j2 rest.
Proof.
  induction group as [|[[[[t k1] k2] l1] l2] group IH]; intros i0 j0; simpl.
  - intros [? ?]. repeat split; [lia|lia|done].
  - intros [_ Hc]. by eapply IH.
Qed.

Lemma group_loop_ok n (codes : list opcode) : ∀ group i0 j0,
  ops_chain i0 j0 (group ++ codes) →
  Forall group_ok (group_loop n codes group).
Proof.
  induction codes as [|[[[[tag i1] i2] j1] j2] codes IH]; intros group i0 j0 Hc; simpl.
  - rewrite app_nil_r in Hc. destruct (group_shown group) eqn:Hs; [|constructor].
    repeat constructor; [|by eauto]. by destruct group.
  - pose proof (ops_chain_tail _ _ _ _ _ _ _ _ _ Hc) as (Hi & Hj & Hrest).
    destruct (_ && _).
    + constructor.
      * split; [by destruct group|]. exists i0, j0.
        eapply ops_chain_snoc; [exact Hc|lia|lia].
      * apply (IH _ 0 0). simpl. split; [lia|done].
    + apply (IH _ i0 j0). by rewrite <- app_assoc.
Qed.

Lemma fix_first_chain n (codes : list opcode) :
  ops_chain 0 0 codes → ops_chain 0 0 (fix_first n codes).
Proof.
  destruct codes as [|[[[[[] i1] i2] j1] j2] codes]; simpl; try done.
  intros [? ?]. split; [lia|done].
Qed.

Lemma fix_last_chain n (codes : list opcode) : ∀ i0 j0,
  ops_chain i0 j0 codes → ops_chain i0 j0 (fix_last n codes).
Proof.
  induction codes as [|[[[[tag i1] i2] j1] j2] codes IH]; intros i0 j0; [done|].
  intros [? Hc]. destruct codes as [|c codes].
  - destruct tag; simpl; (split; [lia|done]).
  - destruct tag; (split; [done|]); by apply IH.
Qed.

(** Every group of [get_grouped_opcodes] is not empty and in increasing
    order. *)
Lemma get_grouped_opcodes_ok (a b : list A) n :
  Forall group_ok (get_grouped_opcodes a b n).
Proof.
  unfold get_grouped_opcodes. apply (group_loop_ok _ _ [] 0 0). simpl.
  apply fix_last_chain, fix_first_chain.
  pose proof (get_opcodes_chain a b) as Hc.
  destruct (get_opcodes a b); [simpl; lia|done].
Qed.

(** *** A sequence compared with itself *)

Section same.
Variable l : list A.

Lemma diag_unfold i :
  diag l i = if kept_at l i then diag_prev l i + 1 else 0.
Proof. by destruct i. Qed.

Lemma isbjunk_false (x : A) : isbjunk x = false.
Proof. unfold isbjunk, bjunk. apply bool_decide_false, not_elem_of_empty. Qed.

(** The positions [b2j] lists for a kept element. *)
Lemma b2j_get_kept i :
  kept_at l i = true →
  StronglySorted lt (b2j_get l l i)
  ∧ i ∈ b2j_get l l i
  ∧ ∀ j, j ∈ b2j_get l l i → j < length l ∧ kept_at l j = true.
Proof.
  unfold kept_at, b2j_get. destruct (l !! i) as [x|] eqn:Hx; [|done].
  intros [js Hjs]%bool_decide_eq_true. rewrite Hjs. simpl.
  pose proof (b2j_lookup_Some _ _ _ Hjs) as ->. split; [|split].
  - apply indices_from_sorted.
  - apply elem_of_indices_from. rewrite Nat.sub_0_r. split; [lia|done].
  - intros j [_ Hj]%elem_of_indices_from. rewrite Nat.sub_0_r in Hj.
    split; [by eapply lookup_lt_Some|]. rewrite Hj.
    apply bool_decide_eq_true. by eexists.
Qed.

Lemma b2j_get_not_kept i : kept_at l i = false → b2j_get l l i = [].
Proof.
  unfold kept_at, b2j_get. destruct (l !! i) as [x|]; [|done].
  intros Hk%bool_decide_eq_false. destruct (b2j l !! x); [|done].
  exfalso. apply Hk. by eexists.
Qed.

Lemma flm_inner_same i j2len :
  kept_at l i = true →
  (∀ j k, j2len !! j = Some k → k ≤ diag l j ∧ k ≤ diag_prev l i) →
  j2lenget j2len i = diag_prev l i →
  ∀ js newj2len best,
  StronglySorted lt js →
  (∀ j, j ∈ js → j < length l ∧ kept_at l j = true) →
  row_state l i js newj2len best →
  row_state l i []
    (flm_inner i 0 (length l) j2len js newj2len best).1
    (flm_inner i 0 (length l) j2len js newj2len best).2.
Proof.
  intros Hi Hprev Hdiag js.
  induction js as [|j js IH]; intros newj2len best Hs Hjs Hst; simpl; [done|].
  apply StronglySorted_inv in Hs as [Hs Hlt].
  destruct (Hjs j ltac:(left)) as [Hjn Hj].
  destruct (Nat.leb_spec (length l) j); [lia|].
  destruct Hst as (Hnew & Hdone & Hbd & Hbest).
  assert (j2lenget j2len j ≤ diag_prev l j ∧ j2lenget j2len j ≤ diag_prev l i)
    as [Hk1 Hk2].
  { unfold j2lenget. destruct j as [|j']; [simpl; lia|].
    destruct (j2len !! j') as [k'|] eqn:Hk'; simpl; [|lia]. by apply Hprev. }
  pose proof (diag_unfold i) as Hdi. rewrite Hi in Hdi.
  pose proof (diag_unfold j) as Hdj. rewrite Hj in Hdj.
  set (k := j2lenget j2len j + 1).
  apply IH; [done|by intros j0 ?; apply Hjs; right|].
  assert (∀ j0 k0, <[j:=k]> newj2len !! j0 = Some k0 → k0 ≤ diag l j0 ∧ k0 ≤ diag l i)
    as Hnew'.
  { intros j0 k0. destruct (decide (j = j0)) as [<-|Hne].
    - rewrite lookup_insert_eq. intros [= <-]. unfold k. lia.
    - rewrite lookup_insert_ne by done. apply Hnew. }
  destruct (decide (j = i)) as [->|Hji].
  - (* the diagonal *)
    assert (k = diag l i) as Hk by (unfold k; lia).
    split; [done|]. split; [|split].
    + intros _. rewrite lookup_insert_eq, Hk. split; [done|].
      destruct (Nat.ltb_spec best.2 (diag l i)); simpl; lia.
    + destruct (Nat.ltb_spec best.2 k); [done|done].
    + intros t Ht. specialize (Hbest t Ht).
      destruct (Nat.ltb_spec best.2 k); simpl; lia.
  - (* off the diagonal: no longer than what is known *)
    assert (k ≤ best.2) as Hle.
    { destruct (decide (j < i)) as [Hlt'|Hge].
      - specialize (Hbest j Hlt'). unfold k. lia.
      - destruct Hdone as [_ Hd].
        + intros [->|Hin]%elem_of_cons; [done|].
          rewrite Forall_forall in Hlt. specialize (Hlt i Hin). lia.
        + unfold k. lia. }
    destruct (Nat.ltb_spec best.2 k); [lia|].
    split; [done|]. split; [|done].
    intros Hin. rewrite lookup_insert_ne by done. apply Hdone.
    intros [->|?]%elem_of_cons; done.
Qed.

Lemma flm_outer_same n : ∀ i j2len best,
  i + n ≤ length l →
  (∀ j k, j2len !! j = Some k → k ≤ diag l j ∧ k ≤ diag_prev l i) →
  j2lenget j2len i = diag_prev l i →
  best.1.1 = best.1.2 →
  (∀ t, t < i → diag l t ≤ best.2) →
  (flm_outer l l 0 (length l) (seq i n) j2len best).1.1
  = (flm_outer l l 0 (length l) (seq i n) j2len best).1.2.
Proof.
  induction n as [|n IH]; intros i j2len best Hn Hprev Hdiag Hbd Hbest; simpl; [done|].
  destruct (kept_at l i) eqn:Hi.
  - destruct (b2j_get_kept i Hi) as (Hs & Hin & Hjs).
    pose proof (flm_inner_same i j2len Hi Hprev Hdiag (b2j_get l l i) ∅ best Hs Hjs)
      as Hrow.
    destruct (flm_inner i 0 (length l) j2len (b2j_get l l i) ∅ best) as [new best'].
    destruct Hrow as (Hnew & Hdone & Hbd' & Hbest').
    { split; [intros j k; by rewrite lookup_empty|]. split; [by intros ?|done]. }
    destruct Hdone as [Hni Hdi]; [apply not_elem_of_nil|]. simpl in *.
    apply IH; [lia| | |done|].
    + intros j k Hjk. by apply Hnew.
    + simpl. by rewrite Hni.
    + intros t Ht. destruct (decide (t = i)) as [->|]; [done|]. apply Hbest'. lia.
  - rewrite (b2j_get_not_kept i Hi). simpl.
    pose proof (diag_unfold i) as Hdi. rewrite Hi in Hdi.
    apply IH; [lia| | |done|].
    + intros j k. by rewrite lookup_empty.
    + simpl. by rewrite lookup_empty.
    + intros t Ht. destruct (decide (t = i)) as [->|]; [lia|]. apply Hbest. lia.
Qed.

Lemma extend_back_same junk : ∀ d s,
  d ≤ length l →
  extend_back l l junk 0 0 d d s = if junk then (d, d, s) else (0, 0, s + d).
Proof.
  induction d as [|d IH]; intros s Hd; simpl.
  - destruct junk; [done|]. by rewrite Nat.add_0_r.
  - destruct (lookup_lt_is_Some_2 l d ltac:(lia)) as [x Hx]. rewrite Hx. simpl.
    rewrite isbjunk_false. destruct junk; simpl.
    + done.
    + rewrite ?bool_decide_true by done. simpl.
      rewrite IH by lia. f_equal. lia.
Qed.

Lemma extend_fwd_same junk fuel : ∀ s,
  s + fuel = length l →
  extend_fwd l l junk fuel (length l) (length l) 0 0 s
  = if junk then (0, 0, s) else (0, 0, length l).
Proof.
  induction fuel as [|fuel IH]; intros s Hs; simpl.
  - rewrite Nat.add_0_r in Hs. subst. by destruct junk.
  - destruct (lookup_lt_is_Some_2 l s ltac:(lia)) as [x Hx]. rewrite Hx. simpl.
    rewrite isbjunk_false. destruct (Nat.ltb_spec s (length l)); [|lia]. simpl.
    destruct junk; simpl; [done|].
    rewrite ?bool_decide_true by done. simpl. apply IH. lia.
Qed.

(** The longest match of a sequence with itself is the whole sequence. *)
Lemma find_longest_match_same :
  find_longest_match l l 0 (length l) 0 (length l) = (0, 0, length l).
Proof.
  unfold find_longest_match. rewrite Nat.sub_0_r.
  assert (best_within 0 0 (0 + length l) (length l)
            (flm_outer l l 0 (length l) (seq 0 (length l)) ∅ (0, 0, 0))) as Hb.
  { apply flm_outer_bounds; [done| |].
    - intros j k. by rewrite lookup_empty.
    - unfold best_within. simpl. lia. }
  assert ((flm_outer l l 0 (length l) (seq 0 (length l)) ∅ (0, 0, 0)).1.1
          = (flm_outer l l 0 (length l) (seq 0 (length l)) ∅ (0, 0, 0)).1.2) as Hd.
  { apply flm_outer_same; simpl; try done; lia. }
  destruct (flm_outer l l 0 (length l) (seq 0 (length l)) ∅ (0, 0, 0)) as [[d d'] s].
  simpl in Hd. subst d'.
  unfold best_within in Hb. simpl in Hb. destruct Hb as (_ & _ & Hds & _).
  unfold extend. rewrite (extend_back_same false) by lia.
  rewrite (extend_fwd_same false) by lia.
  rewrite (extend_back_same true 0) by lia.
  by rewrite Nat.add_0_l, Nat.sub_diag.
Qed.

Lemma matching_loop_nil (a b : list A) fuel blocks :
  matching_loop a b fuel [] blocks = ([], blocks).
Proof. by destruct fuel. Qed.

Lemma get_matching_blocks_same :
  get_matching_blocks l l
  = (if length l =? 0 then [] else [(0, 0, length l)]) ++ [(length l, length l, 0)].
Proof.
  unfold get_matching_blocks.
  replace (length l + length l + 1) with (S (length l + length l)) by lia.
  simpl matching_loop. rewrite find_longest_match_same.
  destruct (Nat.eqb_spec (length l) 0) as [Hl|Hl].
  - by rewrite matching_loop_nil.
  - rewrite Nat.ltb_irrefl. simpl. rewrite matching_loop_nil. simpl.
    unfold merge_sort. simpl.
    destruct (Nat.eqb_spec (length l) 0); [done|]. done.
Qed.

Lemma get_opcodes_same :
  get_opcodes l l = if length l =? 0 then [] else [(Equal, 0, length l, 0, length l)].
Proof.
  unfold get_opcodes. rewrite get_matching_blocks_same.
  destruct (Nat.eqb_spec (length l) 0) as [Hl|Hl]; simpl.
  - by rewrite Hl.
  - destruct (Nat.eqb_spec (length l) 0); [done|]. simpl.
    by rewrite Nat.ltb_irrefl.
Qed.

(** A sequence compared with itself has no group of changes. *)
Lemma get_grouped_opcodes_same n : get_grouped_opcodes l l n = [].
Proof.
  unfold get_grouped_opcodes. rewrite get_opcodes_same.
  assert (∀ m, group_loop n (fix_last n (fix_first n [(Equal, 0, m, 0, m)])) [] = [])
    as Hm.
  { intros m. simpl. destruct (Nat.ltb_spec (n + n) (m `min` (m - n + n) - (m - n)));
      [lia|done]. }
  destruct (length l =? 0); apply Hm.
Qed.

Lemma ratio_same : (ratio l l == 1)%Q.
Proof.
  unfold ratio, _calculate_ratio. rewrite get_matching_blocks_same.
  destruct (Nat.eqb_spec (length l) 0) as [Hl|Hl]; simpl.
  - by rewrite Hl.
  - destruct (Nat.eqb_spec (length l + length l) 0); [lia|].
    rewrite Nat.add_0_r. unfold Qeq, Qdiv, Qmult, Qinv, inject_Z. simpl.
    destruct (Z.of_nat (length l + length l)) eqn:Hz; simpl; lia.
Qed.

End same.

End DifflibFacts.

Lemma unified_diff_same (l : list text) fromfile tofile fromfiledate tofiledate n lineterm :
  unified_diff l l fromfile tofile fromfiledate tofiledate n lineterm = [].
Proof. unfold unified_diff. by rewrite get_grouped_opcodes_same. Qed.

(** ** Decimal numerals *)

Lemma uint_digits_are_digits (d : Decimal.uint) : Forall (λ c, is_digit c = true) (uint_digits d).
Proof. induction d; simpl; constructor; done. Qed.

Lemma int_of_uint_digits (d : Decimal.uint) : ∀ acc : nat,
  foldl (λ acc c, 10 * acc + Z.of_N (c - 48)) (Z.of_nat acc) (uint_digits d)
  = Z.of_nat (Nat.of_uint_acc d acc).
Proof.
  induction d; intros acc; simpl; [done|..];
    rewrite <- IHd, Nat.tail_mul_spec; f_equal; unfold digit_char; simpl; lia.
Qed.

Lemma dec_nat_nonempty (n : nat) : dec_nat n ≠ [].
Proof.
  unfold dec_nat. pose proof (Unsigned.to_of (Nat.to_uint n)) as Hn.
  rewrite Unsigned.of_to in Hn. rewrite Hn.
  unfold Decimal.unorm. by destruct (Decimal.nzhead (Nat.to_uint n)).
Qed.

Lemma int_of_digits_dec (z : Z) : 0 ≤ z → int_of_digits (dec z) = z.
Proof.
  intros Hz. unfold dec, int_of_digits. destruct (Z.ltb_spec z 0); [lia|].
  unfold dec_nat. rewrite (int_of_uint_digits _ 0).
  fold (Nat.of_uint (Nat.to_uint (Z.to_nat z))). rewrite Unsigned.of_to. lia.
Qed.

Lemma dec_digits (z : Z) : 0 ≤ z → Forall (λ c, is_digit c = true) (dec z) ∧ dec z ≠ [].
Proof.
  intros Hz. unfold dec. destruct (Z.ltb_spec z 0); [lia|].
  split; [apply uint_digits_are_digits|apply dec_nat_nonempty].
Qed.

(** ** The range line of a group is read back *)

Lemma take_digits_app (ds : text) (c : char) (rest : text) :
  Forall (λ c, is_digit c = true) ds → is_digit c = false →
  take_digits (ds ++ c :: rest) = ds.
Proof.
  induction 1 as [|d ds Hd _ IH]; intros Hc; simpl; [by rewrite Hc|].
  rewrite Hd. by rewrite IH.
Qed.

Lemma re_digits_dec (z : Z) (c : char) (rest : text) :
  0 ≤ z → is_digit c = false →
  re_digits (dec z ++ c :: rest) = Some (dec z, c :: rest).
Proof.
  intros Hz Hc. destruct (dec_digits z Hz) as [Hd Hne].
  unfold re_digits. rewrite take_digits_app by done.
  destruct (dec z) eqn:E; [done|]. rewrite <- E.
  by rewrite drop_app_length.
Qed.

Lemma startswith_app (p s : text) : startswith p (p ++ s) = true.
Proof. induction p as [|c p IH]; simpl; [done|]. by rewrite bool_decide_true. Qed.

Lemma re_lit_app (p s : text) : re_lit p (p ++ s) = Some s.
Proof. unfold re_lit. by rewrite startswith_app, drop_app_length. Qed.

Lemma format_range_read (start stop : Z) (rest : text) :
  0 ≤ start ≤ stop →
  ∃ tail,
    re_digits (_format_range_unified start stop ++ 32%N :: rest)
    = Some (dec (range_begin start stop), tail)
    ∧ re_opt_count tail = 32%N :: rest.
Proof.
  intros Hs. unfold _format_range_unified, range_begin.
  destruct (Z.eqb_spec (stop - start) 1) as [H1|H1].
  - rewrite H1. simpl. eexists. split; [by apply re_digits_dec; [lia|]|done].
  - replace (start + 1 - 1) with start by lia. rewrite <- !app_assoc.
    change (str "," ++ dec (stop - start) ++ 32%N :: rest)
      with (44%N :: dec (stop - start) ++ 32%N :: rest).
    eexists. split.
    + apply re_digits_dec; [|done]. destruct (_ =? 0); lia.
    + unfold re_opt_count.
      change (44%N :: dec (stop - start) ++ 32%N :: rest)
        with (str "," ++ dec (stop - start) ++ 32%N :: rest).
      rewrite re_lit_app. simpl. by rewrite re_digits_dec by (try done; lia).
Qed.

Lemma match_range_line_format (s1 e1 s2 e2 : Z) :
  0 ≤ s1 ≤ e1 → 0 ≤ s2 ≤ e2 →
  match_range_line
    (str "@@ -" ++ _format_range_unified s1 e1 ++ str " +"
     ++ _format_range_unified s2 e2 ++ str " @@" ++ [])
  = Some (dec (range_begin s1 e1), dec (range_begin s2 e2)).
Proof.
  intros H1 H2. unfold match_range_line. rewrite re_lit_app.
  cbn [mbind option_bind].
  replace (str " +" ++ _format_range_unified s2 e2 ++ str " @@" ++ [])
    with (32%N :: (43%N :: _format_range_unified s2 e2 ++ 32%N :: [64%N; 64%N]))
    by reflexivity.
  destruct (format_range_read s1 e1
              (43%N :: _format_range_unified s2 e2 ++ 32%N :: [64%N; 64%N]) H1)
    as (tail1 & -> & Ht1).
  cbn [mbind option_bind]. rewrite Ht1.
  replace (re_lit (str " +")
             (32%N :: 43%N :: _format_range_unified s2 e2 ++ 32%N :: [64%N; 64%N]))
    with (Some (_format_range_unified s2 e2 ++ 32%N :: [64%N; 64%N]))
    by reflexivity.
  cbn [mbind option_bind].
  destruct (format_range_read s2 e2 [64%N; 64%N] H2) as (tail2 & -> & Ht2).
  cbn [mbind option_bind]. rewrite Ht2. reflexivity.
Qed.

(** ** The lines of a diff, one at a time *)

Section walk.
Variables lines1 lines2 pages1 pages2 : list text.

Local Abbreviation walk diff_lines c1 c2 :=
  (extract_loop diff_lines lines1 lines2 pages1 pages2 c1 c2) (only parsing).

Lemma extract_loop_context (x : text) rest c1 c2 :
  walk (prefix_line (str " ") x :: rest) c1 c2 = walk rest (c1 + 1) (c2 + 1).
Proof. reflexivity. Qed.

Lemma extract_loop_minus (x : text) rest c1 c2 :
  walk (prefix_line (str "-") x :: rest) c1 c2
  = if startswith (str "--") x then walk rest c1 c2
    else removed_entry lines1 pages1 x c1 :: walk rest (c1 + 1) c2.
Proof.
  change (walk (prefix_line (str "-") x :: rest) c1 c2)
    with (if startswith (str "--") x || false then walk rest c1 c2
          else let '(page_num, line_in_page) := _find_page_for_line c1 pages1 in
               {| d_type := removed; d_content := x; d_page := page_num;
                  d_line := c1 + 1; d_line_in_page := line_in_page; d_file := pdf1;
                  d_context := _get_context lines1 c1 2 |}
               :: walk rest (c1 + 1) c2).
  rewrite orb_false_r. unfold removed_entry.
  by destruct (startswith (str "--") x), (_find_page_for_line c1 pages1).
Qed.

Lemma extract_loop_plus (x : text) rest c1 c2 :
  walk (prefix_line (str "+") x :: rest) c1 c2
  = if startswith (str "++") x then walk rest c1 c2
    else added_entry lines2 pages2 x c2 :: walk rest c1 (c2 + 1).
Proof.
  change (walk (prefix_line (str "+") x :: rest) c1 c2)
    with (if false || startswith (str "++") x then walk rest c1 c2
          else let '(page_num, line_in_page) := _find_page_for_line c2 pages2 in
               {| d_type := added; d_content := x; d_page := page_num;
                  d_line := c2 + 1; d_line_in_page := line_in_page; d_file := pdf2;
                  d_context := _get_context lines2 c2 2 |}
               :: walk rest c1 (c2 + 1)).
  rewrite orb_false_l. unfold added_entry.
  by destruct (startswith (str "++") x), (_find_page_for_line c2 pages2).
Qed.

Lemma extract_loop_range_line (s1 e1 s2 e2 : Z) rest c1 c2 :
  0 ≤ s1 ≤ e1 → 0 ≤ s2 ≤ e2 →
  walk ((str "@@ -" ++ _format_range_unified s1 e1 ++ str " +"
         ++ _format_range_unified s2 e2 ++ str " @@" ++ []) :: rest) c1 c2
  = walk rest (range_begin s1 e1 - 1) (range_begin s2 e2 - 1).
Proof.
  intros H1 H2.
  set (line := str "@@ -" ++ _format_range_unified s1 e1 ++ str " +"
               ++ _format_range_unified s2 e2 ++ str " @@" ++ []).
  change (walk (line :: rest) c1 c2)
    with (match match_range_line line with
          | Some (g1, g3) => walk rest (int_of_digits g1 - 1) (int_of_digits g3 - 1)
          | None => walk rest c1 c2
          end).
  unfold line. rewrite match_range_line_format by done.
  rewrite !int_of_digits_dec; [done|..]; unfold range_begin; destruct (_ =? 0); lia.
Qed.

(** *** Runs of lines *)

Lemma walk_context_run (xs : list text) rest : ∀ c1 c2,
  walk ((prefix_line (str " ") <$> xs) ++ rest) c1 c2
  = walk rest (c1 + len xs) (c2 + len xs).
Proof.
  induction xs as [|x xs IH]; intros c1 c2.
  - unfold len. simpl. by rewrite !Z.add_0_r.
  - rewrite fmap_cons, <- app_comm_cons, extract_loop_context, IH.
    unfold len. simpl length. f_equal; lia.
Qed.

Lemma walk_minus_run (xs : list text) rest : ∀ c1 c2,
  0 ≤ c1 ∨ xs = [] →
  ∃ es c1',
    walk ((prefix_line (str "-") <$> xs) ++ rest) c1 c2 = es ++ walk rest c1' c2
    ∧ Forall positioned es ∧ c1 ≤ c1'.
Proof.
  induction xs as [|x xs IH]; intros c1 c2 Hc.
  - exists [], c1. by repeat split.
  - destruct Hc as [Hc|?]; [|done].
    rewrite fmap_cons, <- app_comm_cons, extract_loop_minus.
    destruct (startswith (str "--") x).
    + apply IH. by left.
    + destruct (IH (c1 + 1) c2) as (es & c1' & Heq & Hes & Hle); [left; lia|].
      exists (removed_entry lines1 pages1 x c1 :: es), c1'.
      split; [rewrite <- app_comm_cons; f_equal; exact Heq|]. split; [|lia].
      constructor; [|done]. unfold positioned. simpl. lia.
Qed.

Lemma walk_plus_run (xs : list text) rest : ∀ c1 c2,
  0 ≤ c2 ∨ xs = [] →
  ∃ es c2',
    walk ((prefix_line (str "+") <$> xs) ++ rest) c1 c2 = es ++ walk rest c1 c2'
    ∧ Forall positioned es ∧ c2 ≤ c2'.
Proof.
  induction xs as [|x xs IH]; intros c1 c2 Hc.
  - exists [], c2. by repeat split.
  - destruct Hc as [Hc|?]; [|done].
    rewrite fmap_cons, <- app_comm_cons, extract_loop_plus.
    destruct (startswith (str "++") x).
    + apply IH. by left.
    + destruct (IH c1 (c2 + 1)) as (es & c2' & Heq & Hes & Hle); [left; lia|].
      exists (added_entry lines2 pages2 x c2 :: es), c2'.
      split; [rewrite <- app_comm_cons; f_equal; exact Heq|]. split; [|lia].
      constructor; [|done]. unfold positioned. simpl. lia.
Qed.

(** *** The lines of an opcode, of a group, of the whole diff *)

Lemma slice_empty {X} (l : list X) (i j : nat) : (j ≤ i)%nat → slice l i j = [].
Proof. intros Hij. unfold slice. by replace (j - i)%nat with 0%nat by lia. Qed.

Lemma walk_opcode (a b : list text) (op : opcode) rest c1 c2 :
  0 ≤ c1 ∨ (op.1.1.2 ≤ op.1.1.1.2)%nat →
  0 ≤ c2 ∨ (op.2 ≤ op.1.2)%nat →
  ∃ es c1' c2',
    walk (dump_opcode a b op ++ rest) c1 c2 = es ++ walk rest c1' c2'
    ∧ Forall positioned es ∧ c1 ≤ c1' ∧ c2 ≤ c2'.
Proof.
  destruct op as [[[[tag i1] i2] j1] j2]. intros H1 H2. simpl in H1, H2.
  assert (0 ≤ c1 ∨ slice a i1 i2 = []) as H1'
    by (destruct H1; [by left|right; by apply slice_empty]).
  assert (0 ≤ c2 ∨ slice b j1 j2 = []) as H2'
    by (destruct H2; [by left|right; by apply slice_empty]).
  destruct tag.
  - (* replace *)
    change (dump_opcode a b (Replace, i1, i2, j1, j2))
      with ((prefix_line (str "-") <$> slice a i1 i2)
            ++ (prefix_line (str "+") <$> slice b j1 j2)).
    rewrite <- app_assoc.
    destruct (walk_minus_run (slice a i1 i2)
                ((prefix_line (str "+") <$> slice b j1 j2) ++ rest) c1 c2 H1')
      as (es1 & c1' & Heq1 & Hes1 & Hc1).
    destruct (walk_plus_run (slice b j1 j2) rest c1' c2 H2')
      as (es2 & c2' & Heq2 & Hes2 & Hc2).
    exists (es1 ++ es2), c1', c2'. rewrite Heq1, Heq2, <- app_assoc.
    repeat split; try done. by apply Forall_app.
  - (* delete *)
    change (dump_opcode a b (Delete, i1, i2, j1, j2))
      with ((prefix_line (str "-") <$> slice a i1 i2) ++ []).
    rewrite app_nil_r.
    destruct (walk_minus_run (slice a i1 i2) rest c1 c2 H1')
      as (es1 & c1' & Heq1 & Hes1 & Hc1).
    exists es1, c1', c2. by rewrite Heq1.
  - (* insert *)
    change (dump_opcode a b (Insert, i1, i2, j1, j2))
      with (prefix_line (str "+") <$> slice b j1 j2).
    destruct (walk_plus_run (slice b j1 j2) rest c1 c2 H2')
      as (es2 & c2' & Heq2 & Hes2 & Hc2).
    exists es2, c1, c2'. by rewrite Heq2.
  - (* equal *)
    change (dump_opcode a b (Equal, i1, i2, j1, j2))
      with (prefix_line (str " ") <$> slice a i1 i2).
    rewrite walk_context_run.
    exists [], (c1 + len (slice a i1 i2)), (c2 + len (slice a i1 i2)).
    unfold len. repeat split; try done; lia.
Qed.

Lemma walk_opcodes (a b : list text) (ops : list opcode) rest : ∀ c1 c2,
  0 ≤ c1 ∨ Forall (λ op : opcode, op.1.1.2 ≤ op.1.1.1.2)%nat ops →
  0 ≤ c2 ∨ Forall (λ op : opcode, op.2 ≤ op.1.2)%nat ops →
  ∃ es c1' c2',
    walk (concat (dump_opcode a b <$> ops) ++ rest) c1 c2 = es ++ walk rest c1' c2'
    ∧ Forall positioned es.
Proof.
  induction ops as [|op ops IH]; intros c1 c2 H1 H2.
  - by exists [], c1, c2.
  - rewrite fmap_cons, concat_cons, <- app_assoc.
    destruct (walk_opcode a b op (concat (dump_opcode a b <$> ops) ++ rest) c1 c2)
      as (es1 & c1' & c2' & Heq1 & Hes1 & Hc1 & Hc2).
    { destruct H1 as [?|[? _]%Forall_cons]; auto. }
    { destruct H2 as [?|[? _]%Forall_cons]; auto. }
    destruct (IH c1' c2') as (es2 & c1'' & c2'' & Heq2 & Hes2).
    { destruct H1 as [?|[_ ?]%Forall_cons]; [left; lia|by right]. }
    { destruct H2 as [?|[_ ?]%Forall_cons]; [left; lia|by right]. }
    exists (es1 ++ es2), c1'', c2''. rewrite Heq1, Heq2, <- app_assoc.
    split; [done|]. by apply Forall_app.
Qed.

(** In a chain that ends with [l'], every opcode starts at or after the
    start of the chain and ends at or before the end of [l']. *)
Lemma ops_chain_span (g : list opcode) : ∀ (i0 j0 : nat) (l' : opcode),
  ops_chain i0 j0 g → last g = Some l' →
  Forall (λ op : opcode,
            i0 ≤ op.1.1.1.2 ∧ op.1.1.1.2 ≤ op.1.1.2 ∧ op.1.1.2 ≤ l'.1.1.2
            ∧ j0 ≤ op.1.2 ∧ op.1.2 ≤ op.2 ∧ op.2 ≤ l'.2)%nat g.
Proof.
  induction g as [|[[[[tag i1] i2] j1] j2] g IH]; intros i0 j0 l' Hc Hl; [done|].
  destruct Hc as [Hop Hc]. destruct g as [|op' g].
  - injection Hl as <-. repeat constructor; simpl; lia.
  - rewrite last_cons_cons in Hl. specialize (IH i2 j2 l' Hc Hl).
    pose proof IH as [Hop' _]%Forall_cons.
    constructor; [simpl in *; lia|].
    eapply Forall_impl; [exact IH|]. simpl. intros op. lia.
Qed.

Lemma walk_group (a b : list text) (group : list opcode) rest c1 c2 :
  group_ok group →
  ∃ es c1' c2',
    walk (dump_group a b [] group ++ rest) c1 c2 = es ++ walk rest c1' c2'
    ∧ Forall positioned es.
Proof.
  intros [Hne (i0 & j0 & Hc)].
  destruct group as [|f g]; [done|]. clear Hne.
  destruct (proj2 (last_is_Some (f :: g)) ltac:(done)) as [l' Hl].
  assert (ops_chain f.1.1.1.2 f.1.2 (f :: g)) as Hc'.
  { destruct f as [[[[tag i1] i2] j1] j2]. destruct Hc as [? ?]. simpl. split; [lia|done]. }
  pose proof (ops_chain_span _ _ _ _ Hc' Hl) as Hspan.
  pose proof Hspan as [Hf _]%Forall_cons.
  unfold dump_group. rewrite Hl. simpl head. simpl default.
  rewrite <- app_comm_cons.
  rewrite extract_loop_range_line by lia.
  apply walk_opcodes.
  - unfold range_begin.
    destruct (Z.eqb_spec (Z.of_nat l'.1.1.2 - Z.of_nat f.1.1.1.2) 0) as [He|He];
      [right|left; lia].
    eapply Forall_impl; [exact Hspan|]. simpl. intros op. lia.
  - unfold range_begin.
    destruct (Z.eqb_spec (Z.of_nat l'.2 - Z.of_nat f.1.2) 0) as [He|He];
      [right|left; lia].
    eapply Forall_impl; [exact Hspan|]. simpl. intros op. lia.
Qed.

Lemma walk_groups (a b : list text) (groups : list (list opcode)) : ∀ c1 c2,
  Forall group_ok groups →
  Forall positioned (walk (concat (dump_group a b [] <$> groups)) c1 c2).
Proof.
  induction groups as [|g groups IH]; intros c1 c2 Hok; [constructor|].
  apply Forall_cons in Hok as [Hg Hok].
  rewrite fmap_cons, concat_cons.
  destruct (walk_group a b g (concat (dump_group a b [] <$> groups)) c1 c2 Hg)
    as (es & c1' & c2' & -> & Hes).
  apply Forall_app. split; [done|]. by apply IH.
Qed.

(** Every difference found in a unified diff is on a line of its document. *)
Lemma walk_unified_diff (a b : list text) fromfile tofile n :
  Forall positioned
    (_extract_detailed_positions (unified_diff a b fromfile tofile [] [] n [])
       lines1 lines2 pages1 pages2).
Proof.
  unfold _extract_detailed_positions, unified_diff.
  pose proof (get_grouped_opcodes_ok a b n) as Hok.
  destruct (get_grouped_opcodes a b n) as [|g groups]; [constructor|].
  set (all := g :: groups) in *.
  change (Forall positioned (walk (concat (dump_group a b [] <$> all)) 0 0)).
  by apply walk_groups.
Qed.

Lemma extract_loop_cons (line : text) rest c1 c2 :
  walk (line :: rest) c1 c2
  = if startswith (str "@@") line then
      match match_range_line line with
      | Some (g1, g3) => walk rest (int_of_digits g1 - 1) (int_of_digits g3 - 1)
      | None => walk rest c1 c2
      end
    else if startswith (str "---") line || startswith (str "+++") line then
      walk rest c1 c2
    else if startswith (str "-") line then
      removed_entry lines1 pages1 (drop 1 line) c1 :: walk rest (c1 + 1) c2
    else if startswith (str "+") line then
      added_entry lines2 pages2 (drop 1 line) c2 :: walk rest c1 (c2 + 1)
    else walk rest (c1 + 1) (c2 + 1).
Proof.
  unfold removed_entry, added_entry.
  change (walk (line :: rest) c1 c2)
    with (if startswith (str "@@") line then
            match match_range_line line with
            | Some (g1, g3) => walk rest (int_of_digits g1 - 1) (int_of_digits g3 - 1)
            | None => walk rest c1 c2
            end
          else if startswith (str "---") line || startswith (str "+++") line then
            walk rest c1 c2
          else if startswith (str "-") line then
            let '(page_num, line_in_page) := _find_page_for_line c1 pages1 in
            {| d_type := removed; d_content := drop 1 line; d_page := page_num;
               d_line := c1 + 1; d_line_in_page := line_in_page; d_file := pdf1;
               d_context := _get_context lines1 c1 2 |}
            :: walk rest (c1 + 1) c2
          else if startswith (str "+") line then
            let '(page_num, line_in_page) := _find_page_for_line c2 pages2 in
            {| d_type := added; d_content := drop 1 line; d_page := page_num;
               d_line := c2 + 1; d_line_in_page := line_in_page; d_file := pdf2;
               d_context := _get_context lines2 c2 2 |}
            :: walk rest c1 (c2 + 1)
          else walk rest (c1 + 1) (c2 + 1)).
  by destruct (_find_page_for_line c1 pages1), (_find_page_for_line c2 pages2).
Qed.

(** The page and the in-page line of a difference are those of its line. *)
Lemma extract_loop_resolved (diff_lines : list text) : ∀ c1 c2 e,
  e ∈ walk diff_lines c1 c2 →
  (d_page e, d_line_in_page e)
  = _find_page_for_line (d_line e - 1)
      (match d_file e with pdf1 => pages1 | pdf2 => pages2 end).
Proof.
  induction diff_lines as [|line rest IH]; intros c1 c2 e.
  - by intros ?%elem_of_nil.
  - rewrite extract_loop_cons.
    destruct (startswith (str "@@") line).
    { destruct (match_range_line line) as [[g1 g3]|]; apply IH. }
    destruct (startswith (str "---") line || startswith (str "+++") line); [apply IH|].
    destruct (startswith (str "-") line).
    { intros [->|He]%elem_of_cons; [|by eapply IH]. simpl.
      replace (c1 + 1 - 1) with c1 by lia. by destruct (_find_page_for_line c1 pages1). }
    destruct (startswith (str "+") line); [|apply IH].
    intros [->|He]%elem_of_cons; [|by eapply IH]. simpl.
    replace (c2 + 1 - 1) with c2 by lia. by destruct (_find_page_for_line c2 pages2).
Qed.

End walk.

(** ** Page and line of the differences *)

Lemma find_page_loop_None line_num pages : ∀ (idx : nat) (cur : Z),
  find_page_loop line_num pages idx cur = None →
  pages ≠ [] →
  cur + span_total pages < line_num.
Proof.
  induction pages as [|p pages IH]; intros idx cur Hf Hne; [done|].
  simpl in Hf. rewrite span_total_cons.
  destruct (Z.leb_spec line_num (cur + len (splitlines p))); [done|].
  destruct pages as [|p' pages].
  - unfold span_total. simpl. lia.
  - apply IH in Hf; [lia|done].
Qed.

(** What [_find_page_for_line] returns for a line number that is not
    negative: a page whose spans reach the line number, or the last page and
    line 0 for a line number beyond the last page. *)
Lemma find_page_for_line_nonneg (c : Z) (pages : list text) :
  0 ≤ c →
  0 ≤ (_find_page_for_line c pages).2
  ∧ ((∃ k : nat, (1 ≤ k ≤ length pages)%nat
                 ∧ (_find_page_for_line c pages).1 = Z.of_nat k
                 ∧ c ≤ span_upto pages k)
     ∨ ((span_total pages < c ∨ pages = [])
        ∧ (_find_page_for_line c pages).1 = len pages
        ∧ (_find_page_for_line c pages).2 = 0)).
Proof.
  intros Hc. unfold _find_page_for_line.
  destruct (find_page_loop c pages 0 0) as [[page lip]|] eqn:Hf; simpl.
  - apply find_page_loop_Some in Hf as (k & Hk & -> & -> & Hle & Hlt).
    split.
    + destruct k as [|k]; [rewrite span_upto_0; lia|].
      specialize (Hlt ltac:(done)). lia.
    + left. exists (S k). split; [lia|]. split; [lia|]. lia.
  - split; [done|]. right. split; [|done]. destruct pages as [|p pages].
    + by right.
    + left. apply find_page_loop_None in Hf; [lia|done].
Qed.

(** C4, as amended. Every difference of the detailed output has an in-page
    line that is not negative. And when the line of the difference is not
    one that comes right after the end of a page, the spans up to its page,
    that page included, reach its line, unless its line is beyond the last
    page, in which case the difference is on the last page with in-page
    line 0. *)
Theorem differences_resolved (pages1 pages2 : list text) (fromfile tofile : text)
    (detailed : bool) (e : difference) :
  e ∈ differences_of (text_result pages1 pages2 fromfile tofile detailed) →
  let pages := pages_of pages1 pages2 e in
  0 ≤ d_line_in_page e
  ∧ (d_line e ∉ lines_after_a_page pages →
     d_line e ≤ span_upto pages (Z.to_nat (d_page e))
     ∨ (span_total pages < d_line e
        ∧ d_page e = len pages
        ∧ d_line_in_page e = 0)).
Proof.
  unfold text_result, differences_of.
  destruct (detailed && _); [|by intros ?%elem_of_nil].
  intros He. set (pages := pages_of pages1 pages2 e).
  pose proof (walk_unified_diff (splitlines (join [NL] pages1))
                (splitlines (join [NL] pages2)) pages1 pages2
                (splitlines (join [NL] pages1)) (splitlines (join [NL] pages2))
                fromfile tofile 3) as Hpos.
  rewrite Forall_forall in Hpos. specialize (Hpos e He). unfold positioned in Hpos.
  apply extract_loop_resolved in He. fold (pages_of pages1 pages2 e) in He.
  fold pages in He.
  pose proof (find_page_for_line_nonneg (d_line e - 1) pages ltac:(lia)) as Hres.
  rewrite <- He in Hres. simpl in Hres. destruct Hres as [Hlip Hres].
  split; [exact Hlip|]. intros Hnot.
  destruct Hres as [(k & Hk & Hpage & Hle)|([Hlt|Hnil] & Hpage & Hzero)].
  - left. rewrite Hpage, Nat2Z.id.
    destruct (decide (d_line e = span_upto pages k + 1)) as [Heq|Hne]; [|lia].
    exfalso. apply Hnot. unfold lines_after_a_page.
    apply list_elem_of_fmap. exists k. split; [exact Heq|].
    apply elem_of_seq. lia.
  - right. split; [lia|done].
  - right. split; [|done]. rewrite Hnil. unfold span_total. simpl. lia.
Qed.

Lemma differences_resolved_witness :
  let pages1 := [lines_text ["A"; "B"; "C"]] in
  let pages2 := [lines_text ["A"; "X"; "C"]] in
  let e := removed_entry (str <$> ["A"; "B"; "C"]) pages1 (str "B") 1 in
  0 ≤ d_line_in_page e
  ∧ (d_line e ≤ span_upto pages1 (Z.to_nat (d_page e))
     ∨ (span_total pages1 < d_line e
        ∧ d_page e = len pages1
        ∧ d_line_in_page e = 0)).
Proof.
  intros pages1 pages2 e.
  destruct (differences_resolved pages1 pages2 (str "a.pdf") (str "b.pdf") true e)
    as [Hlip Hspan].
  - vm_compute. left.
  - split; [exact Hlip|]. apply Hspan. vm_compute.
    intros [[=]|[]%elem_of_nil]%elem_of_cons.
Defined.

(** C4, as the design document words it, fails: with three pages that end
    with a line break, the changed line of the third page is line 5 of the
    joined text, beyond the 3 lines the pages span; it is resolved to the
    last page with in-page line 0, and the spans up to that page do not
    reach the line. The line does not come right after the end of a page. *)
Lemma resolution_invariant_counterexample :
  let pages1 := three_pages "C" in
  let pages2 := three_pages "D" in
  ∃ e, e ∈ differences_of (text_result pages1 pages2 (str "a.pdf") (str "b.pdf") true)
       ∧ d_page e = 3 ∧ d_line e = 5 ∧ d_line_in_page e = 0
       ∧ span_upto (pages_of pages1 pages2 e) 3 = 3
       ∧ span_total (pages_of pages1 pages2 e) = 3
       ∧ (d_line e ∉ lines_after_a_page (pages_of pages1 pages2 e))
       ∧ ¬ resolution_invariant pages1 pages2 e.
Proof.
  intros pages1 pages2.
  exists (removed_entry (splitlines (join [NL] pages1)) pages1 (str "C") 4).
  split; [vm_compute; left|].
  repeat split; try reflexivity.
  - vm_compute. intros [[=]|[[=]|[[=]|[]%elem_of_nil]%elem_of_cons]%elem_of_cons]%elem_of_cons.
  - intros [_ H]. vm_compute in H. by apply H.
Qed.

(** The differences the amended statement says nothing about. The cursor
    that is resolved counts the lines from 0 (see C2), so that a line that
    comes right after the end of a page is put on that page: here line 3,
    the first line of page 2, is put on page 1 with in-page line 2, and the
    2 lines of page 1 do not reach it, while [_find_page_for_line] resolves
    the line number 3 to page 2 and in-page line 1. *)
Lemma line_after_a_page_is_put_on_that_page :
  let pages1 := two_pages "C" in
  let pages2 := two_pages "D" in
  let e := removed_entry (lines_of pages1) pages1 (str "C") 2 in
  e ∈ differences_of (text_result pages1 pages2 (str "a.pdf") (str "b.pdf") true)
  ∧ d_line e = 3 ∧ d_page e = 1 ∧ d_line_in_page e = 2
  ∧ d_line e ∈ lines_after_a_page pages1
  ∧ span_upto pages1 1 = 2
  ∧ span_total pages1 = 4
  ∧ _find_page_for_line 3 pages1 = (2, 1).
Proof.
  intros pages1 pages2 e.
  split; [vm_compute; left|].
  repeat split; try reflexivity.
  vm_compute. left.
Qed.

(** ** The text comparison *)

(** The text comparison of two documents with the same text. *)
Lemma text_result_same_text (pages1 pages2 : list text) fromfile tofile detailed :
  join [NL] pages1 = join [NL] pages2 →
  ∃ similarity stats,
    text_result pages1 pages2 fromfile tofile detailed
    = TextResult true similarity stats (diff_preview [])
    ∧ (similarity == 1)%Q
    ∧ total_changes stats = 0%nat.
Proof.
  intros Heq. unfold text_result. rewrite <- Heq.
  rewrite unified_diff_same. simpl.
  rewrite bool_decide_true by done. rewrite andb_false_r.
  eexists _, _. split; [reflexivity|]. split; [apply ratio_same|done].
Qed.

Lemma compare_text_run {image array : Type} basename (sys : @backend image array)
    self p1 p2 detailed tr doc1 doc2 :
  text_comparison (self_capabilities self) = true →
  HAS_PYMUPDF sys = true →
  fitz_open sys p1 = inr doc1 →
  fitz_open sys p2 = inr doc2 →
  compare_text basename sys self p1 p2 detailed tr
  = (inr (text_result (doc_pages doc1) (doc_pages doc2)
            (basename p1) (basename p2) detailed),
     tr ++ [call_fitz_open p1; call_fitz_open p2]).
Proof.
  intros Hcap Hlib H1 H2.
  unfold compare_text, _extract_text_by_page, use_fitz_open, try_except, invoke,
    mbind, M_bind, mret, M_ret.
  rewrite Hcap, Hlib, H1, H2. simpl. by rewrite <- app_assoc.
Qed.

(** C1. When the text comparison extracts the pages of both documents, its
    [identical] flag is true if and only if the two joined texts are equal
    and the result lists no difference; and when the pages of the two
    documents are the same, the diff is empty, the result lists no
    difference, [identical] is true and the similarity is 1. *)
Theorem text_identical_iff_equal_texts {image array : Type} basename
    (sys : @backend image array) self p1 p2 detailed tr doc1 doc2 :
  text_comparison (self_capabilities self) = true →
  HAS_PYMUPDF sys = true →
  fitz_open sys p1 = inr doc1 →
  fitz_open sys p2 = inr doc2 →
  ∃ identical similarity stats detail,
    let r := TextResult identical similarity stats detail in
    compare_text basename sys self p1 p2 detailed tr
    = (inr r, tr ++ [call_fitz_open p1; call_fitz_open p2])
    ∧ (identical = true
       ↔ join [NL] (doc_pages doc1) = join [NL] (doc_pages doc2)
         ∧ differences_of r = [])
    ∧ (doc_pages doc1 = doc_pages doc2 →
       unified_diff (splitlines (join [NL] (doc_pages doc1)))
         (splitlines (join [NL] (doc_pages doc2)))
         (basename p1) (basename p2) [] [] 3 [] = []
       ∧ differences_of r = []
       ∧ identical = true
       ∧ (similarity == 1)%Q).
Proof.
  intros Hcap Hlib H1 H2.
  rewrite (compare_text_run basename sys self p1 p2 detailed tr doc1 doc2) by done.
  destruct (decide (join [NL] (doc_pages doc1) = join [NL] (doc_pages doc2)))
    as [Heq|Hne].
  - destruct (text_result_same_text (doc_pages doc1) (doc_pages doc2)
                (basename p1) (basename p2) detailed Heq) as (sim & stats & -> & Hsim & _).
    exists true, sim, stats, (diff_preview []). simpl.
    split; [done|]. split; [done|]. intros _.
    rewrite Heq. by rewrite unified_diff_same.
  - unfold text_result. rewrite bool_decide_false by done.
    eexists false, _, _, _. simpl. split; [reflexivity|]. split.
    + split; [done|]. by intros [? _].
    + intros Hp. by rewrite Hp in Hne.
Qed.

Lemma text_identical_iff_equal_texts_witness :
  ∃ identical similarity stats detail,
    let r := TextResult identical similarity stats detail in
    compare_text demo_basename (demo true true true) (comparer true true true true)
      "a.pdf" "a.pdf" true []
    = (inr r, [call_fitz_open "a.pdf"; call_fitz_open "a.pdf"])
    ∧ (identical = true
       ↔ join [NL] (doc_pages (demo_document "a.pdf"))
         = join [NL] (doc_pages (demo_document "a.pdf"))
         ∧ differences_of r = [])
    ∧ (doc_pages (demo_document "a.pdf") = doc_pages (demo_document "a.pdf") →
       unified_diff (splitlines (join [NL] (doc_pages (demo_document "a.pdf"))))
         (splitlines (join [NL] (doc_pages (demo_document "a.pdf"))))
         (demo_basename "a.pdf") (demo_basename "a.pdf") [] [] 3 [] = []
       ∧ differences_of r = []
       ∧ identical = true
       ∧ (similarity == 1)%Q).
Proof.
  apply (text_identical_iff_equal_texts demo_basename (demo true true true)
           (comparer true true true true) "a.pdf" "a.pdf" true []
           (demo_document "a.pdf") (demo_document "a.pdf")); reflexivity.
Defined.

(** C2. The scenario of the design document, as the code computes it: the
    pages [A B C] and [A X C] give one removed [B] and one added [X], both
    on page 1 and on line 2 of the document, with [identical] false and a
    similarity of 0.8; but the in-page line number of both is 1, not 2,
    because the cursor that is resolved counts from 0. *)
Theorem scenario_line_in_page_is_one (fromfile tofile : text) :
  let ctx := {| before := [str "A"]; after := [str "C"] |} in
  text_result [lines_text ["A"; "B"; "C"]] [lines_text ["A"; "X"; "C"]]
    fromfile tofile true
  = TextResult false (8 # 10)
      {| lines_added := 1; lines_removed := 1; total_changes := 2;
         char_count1 := 5; char_count2 := 5; line_count1 := 3; line_count2 := 3 |}
      (detailed_differences
         [ {| d_type := removed; d_content := str "B"; d_page := 1; d_line := 2;
              d_line_in_page := 1; d_file := pdf1; d_context := ctx |};
           {| d_type := added; d_content := str "X"; d_page := 1; d_line := 2;
              d_line_in_page := 1; d_file := pdf2; d_context := ctx |} ])
  ∧ (0 < 8 # 10)%Q ∧ (8 # 10 < 1)%Q.
Proof. intros ctx. split; [vm_compute; reflexivity|]. split; reflexivity. Qed.

(** * The two documents exchanged *)

(** ** Sequences without a common element *)

Section disjoint.
Local Open Scope nat_scope.
Context {A : Type} `{Countable A}.
Variables a b : list A.
Hypothesis Hdisjoint : ∀ x, x ∈ a → x ∉ b.

Lemma b2j_get_disjoint i : b2j_get a b i = [].
Proof.
  unfold b2j_get. destruct (a !! i) as [x|] eqn:Hx; [|done].
  rewrite b2j_lookup_not_elem; [done|].
  eapply Hdisjoint, list_elem_of_lookup_2, Hx.
Qed.

Lemma flm_outer_disjoint blo bhi range : ∀ j2len best,
  flm_outer a b blo bhi range j2len best = best.
Proof.
  induction range as [|i range IH]; intros j2len best; simpl; [done|].
  rewrite b2j_get_disjoint. simpl. apply IH.
Qed.

Lemma elem_eqb_disjoint i j : elem_eqb (a !! i) (b !! j) = false.
Proof.
  unfold elem_eqb. destruct (a !! i) as [x|] eqn:Hx, (b !! j) as [y|] eqn:Hy; try done.
  apply bool_decide_false. intros ->.
  eapply Hdisjoint; eapply list_elem_of_lookup_2; eauto.
Qed.

Lemma extend_disjoint junk alo ahi blo bhi :
  extend a b junk alo ahi blo bhi (alo, blo, 0) = (alo, blo, 0).
Proof.
  unfold extend.
  assert (extend_back a b junk alo blo alo blo 0 = (alo, blo, 0)) as ->.
  { destruct alo as [|i']; [done|]. destruct blo as [|j']; [done|].
    simpl. by rewrite Nat.ltb_irrefl. }
  destruct (ahi - (alo + 0)); [done|]. simpl.
  by rewrite elem_eqb_disjoint, andb_false_r.
Qed.

Lemma find_longest_match_disjoint alo ahi blo bhi :
  find_longest_match a b alo ahi blo bhi = (alo, blo, 0).
Proof.
  unfold find_longest_match. by rewrite flm_outer_disjoint, !extend_disjoint.
Qed.

Lemma get_matching_blocks_disjoint :
  get_matching_blocks a b = [(length a, length b, 0)].
Proof.
  unfold get_matching_blocks.
  replace (length a + length b + 1) with (S (length a + length b)) by lia.
  simpl matching_loop. rewrite find_longest_match_disjoint. simpl.
  by rewrite matching_loop_nil.
Qed.

(** Without a common element, one opcode turns all of [a] into all of [b]. *)
Lemma get_grouped_opcodes_disjoint n :
  get_grouped_opcodes a b n
  = if (0 <? length a) && (0 <? length b)
    then [[(Replace, 0, length a, 0, length b)]]
    else if 0 <? length a then [[(Delete, 0, length a, 0, length b)]]
    else if 0 <? length b then [[(Insert, 0, length a, 0, length b)]]
    else [].
Proof.
  unfold get_grouped_opcodes, get_opcodes. rewrite get_matching_blocks_disjoint.
  simpl. destruct (0 <? length a), (0 <? length b); simpl; try done.
  destruct (_ <? _) eqn:E; [|done].
  apply Nat.ltb_lt in E. destruct (1 - n + n) eqn:E'; simpl in E; lia.
Qed.

End disjoint.

Lemma slice_all {X} (l : list X) : slice l 0 (length l) = l.
Proof. unfold slice. by rewrite Nat.sub_0_r, drop_0, firstn_all. Qed.

Lemma dump_group_single (a b : list text) (op : opcode) :
  dump_group a b [] [op]
  = (str "@@ -" ++ _format_range_unified (Z.of_nat op.1.1.1.2) (Z.of_nat op.1.1.2)
     ++ str " +" ++ _format_range_unified (Z.of_nat op.1.2) (Z.of_nat op.2)
     ++ str " @@" ++ [])
    :: dump_opcode a b op.
Proof. unfold dump_group. simpl. by rewrite app_nil_r. Qed.

Lemma dump_opcode_change (a b : list text) (tag : tag) (i1 i2 j1 j2 : nat) :
  tag ≠ Equal →
  (tag = Delete → slice b j1 j2 = []) →
  (tag = Insert → slice a i1 i2 = []) →
  dump_opcode a b (tag, i1, i2, j1, j2)
  = (prefix_line (str "-") <$> slice a i1 i2)
    ++ (prefix_line (str "+") <$> slice b j1 j2).
Proof.
  intros Hne Hdel Hins. destruct tag; [done| | |done].
  - by rewrite Hdel.
  - by rewrite Hins.
Qed.

(** The unified diff of two sequences of lines without a common line: all
    the lines of the first are removed and all the lines of the second are
    added, in one group. *)
Lemma unified_diff_disjoint (a b : list text) (fromfile tofile : text) (n : nat) :
  (∀ x, x ∈ a → x ∉ b) →
  unified_diff a b fromfile tofile [] [] n []
  = if bool_decide (a = [] ∧ b = []) then []
    else (str "--- " ++ fromfile ++ [] ++ [])
         :: (str "+++ " ++ tofile ++ [] ++ [])
         :: (str "@@ -" ++ _format_range_unified 0 (len a) ++ str " +"
             ++ _format_range_unified 0 (len b) ++ str " @@" ++ [])
         :: (prefix_line (str "-") <$> a) ++ (prefix_line (str "+") <$> b).
Proof.
  intros Hd. unfold unified_diff. rewrite get_grouped_opcodes_disjoint by done.
  assert (∀ tag, tag ≠ Equal →
            (tag = Delete → b = []) → (tag = Insert → a = []) →
            concat (dump_group a b [] <$> [[(tag, 0, length a, 0, length b)%nat]])
            = (str "@@ -" ++ _format_range_unified 0 (len a) ++ str " +"
               ++ _format_range_unified 0 (len b) ++ str " @@" ++ [])
              :: (prefix_line (str "-") <$> a) ++ (prefix_line (str "+") <$> b))
    as Hone.
  { intros tag Hne Hdel Hins.
    change (concat (dump_group a b [] <$> [[(tag, 0, length a, 0, length b)%nat]]))
      with (dump_group a b [] [(tag, 0, length a, 0, length b)%nat] ++ []).
    rewrite app_nil_r, dump_group_single. cbn [fst snd].
    rewrite dump_opcode_change, !slice_all; [done|done|..].
    - intros ->%Hdel. done.
    - intros ->%Hins. done. }
  destruct a as [|x a], b as [|y b].
  - done.
  - rewrite bool_decide_false by (by intros [_ ?]).
    cbn [length Nat.ltb Nat.leb andb] in *. do 2 f_equal. by apply (Hone Insert).
  - rewrite bool_decide_false by (by intros [? _]).
    cbn [length Nat.ltb Nat.leb andb] in *. do 2 f_equal. by apply (Hone Delete).
  - rewrite bool_decide_false by (by intros [? _]).
    cbn [length Nat.ltb Nat.leb andb] in *. do 2 f_equal. by apply (Hone Replace).
Qed.

(** ** Where the differences come from *)

Lemma elem_of_slice {X} (l : list X) (i j : nat) (x : X) : x ∈ slice l i j → x ∈ l.
Proof. unfold slice. intros Hx. by eapply subseteq_drop, subseteq_take. Qed.

Lemma dump_opcode_lines (a b : list text) (op : opcode) :
  Forall (diff_line_of a b) (dump_opcode a b op).
Proof.
  destruct op as [[[[tag i1] i2] j1] j2].
  assert (Forall (diff_line_of a b) (prefix_line (str "-") <$> slice a i1 i2)) as Hminus.
  { apply Forall_fmap, Forall_forall. intros x Hx%elem_of_slice.
    do 4 right. left. by exists x. }
  assert (Forall (diff_line_of a b) (prefix_line (str "+") <$> slice b j1 j2)) as Hplus.
  { apply Forall_fmap, Forall_forall. intros x Hx%elem_of_slice.
    do 5 right. by exists x. }
  destruct tag.
  - by apply Forall_app.
  - apply Forall_app. by split.
  - done.
  - apply Forall_fmap, Forall_forall. intros x _. do 3 right. left. by exists x.
Qed.

Lemma unified_diff_lines (a b : list text) fromfile tofile n :
  Forall (diff_line_of a b) (unified_diff a b fromfile tofile [] [] n []).
Proof.
  unfold unified_diff. destruct (get_grouped_opcodes a b n) as [|g groups]; [done|].
  constructor; [by left|]. constructor; [by right; left|].
  apply Forall_concat, Forall_fmap, Forall_forall. intros group _.
  unfold dump_group. constructor; [by do 2 right; left|].
  apply Forall_concat, Forall_fmap, Forall_forall. intros op _.
  apply dump_opcode_lines.
Qed.

Lemma extract_loop_drawn_from (a b lines1 lines2 pages1 pages2 : list text)
    (diff_lines : list text) : ∀ c1 c2 e,
  Forall (diff_line_of a b) diff_lines →
  e ∈ extract_loop diff_lines lines1 lines2 pages1 pages2 c1 c2 →
  drawn_from a b e.
Proof.
  induction diff_lines as [|line rest IH]; intros c1 c2 e Hall.
  - by intros ?%elem_of_nil.
  - apply Forall_cons in Hall as [Hline Hall]. rewrite extract_loop_cons.
    destruct (startswith (str "@@") line) eqn:Hat.
    { destruct (match_range_line line) as [[g1 g3]|]; by apply IH. }
    destruct (startswith (str "---") line) eqn:Hm3; [by apply IH|].
    destruct (startswith (str "+++") line) eqn:Hp3; [by apply IH|].
    simpl orb. cbv iota.
    destruct Hline as [?|[?|[?|[[x ->]|[(x & Hx & ->)|(x & Hx & ->)]]]]];
      try congruence.
    + by apply IH.
    + change (startswith (str "-") (prefix_line (str "-") x)) with true. cbv iota.
      intros [->|?]%elem_of_cons; [|by eapply IH]. left. by repeat split.
    + change (startswith (str "-") (prefix_line (str "+") x)) with false.
      change (startswith (str "+") (prefix_line (str "+") x)) with true. cbv iota.
      intros [->|?]%elem_of_cons; [|by eapply IH]. right. by repeat split.
Qed.

(** Every difference of two documents holds a line of the document of its
    side. *)
Lemma detailed_diff_drawn_from (pages1 pages2 : list text) (fromfile tofile : text) e :
  e ∈ detailed_diff pages1 pages2 fromfile tofile →
  drawn_from (lines_of pages1) (lines_of pages2) e.
Proof.
  unfold detailed_diff, text_result, differences_of.
  destruct (true && _); [|by intros ?%elem_of_nil].
  apply extract_loop_drawn_from, unified_diff_lines.
Qed.

(** ** Runs of removed and of added lines, entry by entry *)

Lemma removed_run_cons lines1 pages1 c (x : text) xs :
  removed_run lines1 pages1 c (x :: xs)
  = removed_entry lines1 pages1 x c :: removed_run lines1 pages1 (c + 1) xs.
Proof.
  unfold removed_run. rewrite imap_cons, Z.add_0_r. f_equal.
  apply imap_ext. intros i y _. simpl. f_equal. lia.
Qed.

Lemma added_run_cons lines2 pages2 c (x : text) xs :
  added_run lines2 pages2 c (x :: xs)
  = added_entry lines2 pages2 x c :: added_run lines2 pages2 (c + 1) xs.
Proof.
  unfold added_run. rewrite imap_cons, Z.add_0_r. f_equal.
  apply imap_ext. intros i y _. simpl. f_equal. lia.
Qed.

Lemma walk_minus_exact lines1 lines2 pages1 pages2 (xs : list text) rest : ∀ c1 c2,
  Forall (λ x, startswith (str "--") x = false) xs →
  extract_loop ((prefix_line (str "-") <$> xs) ++ rest) lines1 lines2 pages1 pages2 c1 c2
  = removed_run lines1 pages1 c1 xs
    ++ extract_loop rest lines1 lines2 pages1 pages2 (c1 + len xs) c2.
Proof.
  induction xs as [|x xs IH]; intros c1 c2 Hxs.
  - unfold len. simpl. by rewrite Z.add_0_r.
  - apply Forall_cons in Hxs as [Hx Hxs].
    rewrite fmap_cons, <- app_comm_cons, extract_loop_minus, Hx, IH by done.
    rewrite removed_run_cons, <- app_comm_cons. do 3 f_equal.
    unfold len. simpl length. lia.
Qed.

Lemma walk_plus_exact lines1 lines2 pages1 pages2 (xs : list text) rest : ∀ c1 c2,
  Forall (λ x, startswith (str "++") x = false) xs →
  extract_loop ((prefix_line (str "+") <$> xs) ++ rest) lines1 lines2 pages1 pages2 c1 c2
  = added_run lines2 pages2 c2 xs
    ++ extract_loop rest lines1 lines2 pages1 pages2 c1 (c2 + len xs).
Proof.
  induction xs as [|x xs IH]; intros c1 c2 Hxs.
  - unfold len. simpl. by rewrite Z.add_0_r.
  - apply Forall_cons in Hxs as [Hx Hxs].
    rewrite fmap_cons, <- app_comm_cons, extract_loop_plus, Hx, IH by done.
    rewrite added_run_cons, <- app_comm_cons. do 3 f_equal.
    unfold len. simpl length. lia.
Qed.

(** The two lines of the file names are passed over. *)
Lemma extract_loop_file_names lines1 lines2 pages1 pages2 (fromfile tofile : text)
    rest c1 c2 :
  extract_loop ((str "--- " ++ fromfile ++ [] ++ []) :: (str "+++ " ++ tofile ++ [] ++ [])
                :: rest) lines1 lines2 pages1 pages2 c1 c2
  = extract_loop rest lines1 lines2 pages1 pages2 c1 c2.
Proof. reflexivity. Qed.

Lemma removed_run_begin lines1 pages1 (xs : list text) :
  removed_run lines1 pages1 (range_begin 0 (len xs) - 1) xs = removed_run lines1 pages1 0 xs.
Proof. by destruct xs. Qed.

Lemma added_run_begin lines2 pages2 (xs : list text) :
  added_run lines2 pages2 (range_begin 0 (len xs) - 1) xs = added_run lines2 pages2 0 xs.
Proof. by destruct xs. Qed.

(** The differences of two documents without a common line: every line of
    the first as a removed entry, then every line of the second as an added
    entry, each at its own line number. *)
Lemma detailed_diff_disjoint (pages1 pages2 : list text) (fromfile tofile : text) :
  (∀ x, x ∈ lines_of pages1 → x ∉ lines_of pages2) →
  Forall (λ x, startswith (str "--") x = false) (lines_of pages1) →
  Forall (λ x, startswith (str "++") x = false) (lines_of pages2) →
  detailed_diff pages1 pages2 fromfile tofile
  = removed_run (lines_of pages1) pages1 0 (lines_of pages1)
    ++ added_run (lines_of pages2) pages2 0 (lines_of pages2).
Proof.
  intros Hd H1 H2. unfold detailed_diff, text_result, differences_of.
  fold (lines_of pages1) (lines_of pages2).
  rewrite unified_diff_disjoint by done.
  destruct (bool_decide_reflect (lines_of pages1 = [] ∧ lines_of pages2 = []))
    as [[-> ->]|Hne]; [done|].
  rewrite bool_decide_true by done. cbn [andb].
  unfold _extract_detailed_positions.
  rewrite extract_loop_file_names, extract_loop_range_line by (unfold len; lia).
  rewrite walk_minus_exact by done.
  rewrite <- (app_nil_r (prefix_line (str "+") <$> lines_of pages2)).
  rewrite walk_plus_exact by done.
  rewrite removed_run_begin, added_run_begin. by rewrite app_nil_r.
Qed.

(** ** The two documents exchanged *)

Lemma mirrored_removed_run lines pages c (xs : list text) :
  mirrored <$> removed_run lines pages c xs = added_run lines pages c xs.
Proof. unfold removed_run, added_run. rewrite fmap_imap. by apply imap_ext. Qed.

Lemma mirrored_added_run lines pages c (xs : list text) :
  mirrored <$> added_run lines pages c xs = removed_run lines pages c xs.
Proof. unfold removed_run, added_run. rewrite fmap_imap. by apply imap_ext. Qed.

Lemma exchange_exchange k : exchange (exchange k) = k.
Proof. by destruct k. Qed.

(** Entries that are the mirrored ones up to their order have the same
    kinds and contents, with the kinds exchanged. *)
Lemma swap_mirrors_of_mirrored (pages1 pages2 : list text) (fromfile tofile : text) :
  detailed_diff pages2 pages1 tofile fromfile
  ≡ₚ mirrored <$> detailed_diff pages1 pages2 fromfile tofile →
  swap_mirrors pages1 pages2 fromfile tofile.
Proof.
  intros Hp k c. split.
  - intros (e & He & <- & <-). rewrite Hp in He.
    apply list_elem_of_fmap in He as (e' & -> & He').
    exists e'. split; [done|]. simpl. by rewrite exchange_exchange.
  - intros (e & He & Hk & <-). exists (mirrored e).
    split; [rewrite Hp; by apply list_elem_of_fmap_2|].
    simpl. by rewrite Hk, exchange_exchange.
Qed.

(** C5, as the design document words it, fails: with two documents of the
    same two lines in the other order, the run lists the line [b] as added
    and as removed, and the exchanged run the line [a]. *)
Lemma swap_mirrors_counterexample :
  let pages1 := [lines_text ["a"; "b"]] in
  let pages2 := [lines_text ["b"; "a"]] in
  (d_type <$> detailed_diff pages1 pages2 (str "a.pdf") (str "b.pdf")) = [added; removed]
  ∧ (d_content <$> detailed_diff pages1 pages2 (str "a.pdf") (str "b.pdf"))
    = [str "b"; str "b"]
  ∧ (d_type <$> detailed_diff pages2 pages1 (str "b.pdf") (str "a.pdf")) = [added; removed]
  ∧ (d_content <$> detailed_diff pages2 pages1 (str "b.pdf") (str "a.pdf"))
    = [str "a"; str "a"]
  ∧ ¬ swap_mirrors pages1 pages2 (str "a.pdf") (str "b.pdf").
Proof.
  intros pages1 pages2.
  split; [by vm_compute|]. split; [by vm_compute|].
  split; [by vm_compute|]. split; [by vm_compute|].
  intros H. destruct (H added (str "a")) as [H1 _].
  destruct H1 as (e & He & Hk & Hc).
  - exists (added_entry (lines_of pages1) pages1 (str "a") 0).
    split; [vm_compute; left|]. by split.
  - apply list_elem_of_In in He. vm_compute in He.
    destruct He as [<-|[<-|[]]]; vm_compute in Hk, Hc; discriminate.
Qed.

(** ** More on page and line resolution *)

Lemma span_upto_S (pages : list text) (k : nat) (p : text) :
  pages !! k = Some p →
  span_upto pages (S k) = span_upto pages k + len (splitlines p).
Proof.
  revert k. induction pages as [|q pages IH]; intros k Hk; [done|].
  destruct k as [|k].
  - injection Hk as ->. rewrite span_upto_cons, !span_upto_0. lia.
  - rewrite !span_upto_cons, (IH k) by done. lia.
Qed.

(** X1. The page [_find_page_for_line] returns for a document with pages is
    a page of the document, whatever the line number, and the in-page line
    is at most the number of lines of that page. *)
Theorem find_page_for_line_in_document (line_num : Z) (pages : list text) :
  pages ≠ [] →
  1 ≤ (_find_page_for_line line_num pages).1 ≤ len pages
  ∧ ∃ p, pages !! Z.to_nat ((_find_page_for_line line_num pages).1 - 1) = Some p
         ∧ (_find_page_for_line line_num pages).2 ≤ len (splitlines p).
Proof.
  intros Hne. unfold _find_page_for_line.
  destruct (find_page_loop line_num pages 0 0) as [[page lip]|] eqn:Hf; simpl.
  - apply find_page_loop_Some in Hf as (k & Hk & -> & -> & Hle & _).
    split; [unfold len; lia|].
    destruct (lookup_lt_is_Some_2 pages k Hk) as [p Hp].
    exists p. replace (Z.to_nat (Z.of_nat 0 + Z.of_nat k + 1 - 1)) with k by lia.
    split; [done|]. rewrite (span_upto_S _ _ _ Hp) in Hle. lia.
  - assert (0 < length pages)%nat by (destruct pages; [done|simpl; lia]).
    split; [unfold len; lia|].
    destruct (lookup_lt_is_Some_2 pages (Z.to_nat (len pages - 1))) as [p Hp];
      [unfold len; lia|].
    exists p. split; [done|]. unfold len. lia.
Qed.

Lemma find_page_for_line_in_document_witness :
  let pages := [str "a" ++ [NL] ++ str "b"; str "c"] in
  1 ≤ (_find_page_for_line (-4) pages).1 ≤ 2
  ∧ ∃ p, pages !! Z.to_nat ((_find_page_for_line (-4) pages).1 - 1) = Some p
         ∧ (_find_page_for_line (-4) pages).2 ≤ len (splitlines p).
Proof.
  intros pages. exact (find_page_for_line_in_document (-4) pages ltac:(done)).
Defined.

Lemma find_page_loop_monotone (n n' : Z) (pages : list text) :
  n ≤ n' → ∀ (idx : nat) (cur : Z) page' lip',
  find_page_loop n' pages idx cur = Some (page', lip') →
  ∃ page lip, find_page_loop n pages idx cur = Some (page, lip) ∧ page ≤ page'.
Proof.
  intros Hn. induction pages as [|p pages IH]; intros idx cur page' lip' Hf; [done|].
  simpl in *.
  destruct (Z.leb_spec n' (cur + len (splitlines p))).
  - injection Hf as <- <-.
    destruct (Z.leb_spec n (cur + len (splitlines p))); [|lia]. eauto with lia.
  - destruct (Z.leb_spec n (cur + len (splitlines p))).
    + apply find_page_loop_Some in Hf as (k & _ & -> & _). eexists _, _. split; [done|]. lia.
    + by eapply IH.
Qed.

(** X2. [_find_page_for_line] is monotone: a later line is never resolved to
    an earlier page. *)
Theorem find_page_for_line_monotone (n n' : Z) (pages : list text) :
  n ≤ n' →
  (_find_page_for_line n pages).1 ≤ (_find_page_for_line n' pages).1.
Proof.
  intros Hn. unfold _find_page_for_line.
  destruct (find_page_loop n' pages 0 0) as [[page' lip']|] eqn:Hf'.
  - destruct (find_page_loop_monotone n n' pages Hn _ _ _ _ Hf') as (page & lip & -> & Hle).
    done.
  - destruct (find_page_loop n pages 0 0) as [[page lip]|] eqn:Hf; simpl; [|done].
    apply find_page_loop_Some in Hf as (k & Hk & -> & _). unfold len. lia.
Qed.

Lemma find_page_for_line_monotone_witness :
  let pages := [str "a" ++ [NL] ++ str "b"; str "c"] in
  (_find_page_for_line 2 pages).1 ≤ (_find_page_for_line 3 pages).1.
Proof. intros pages. apply (find_page_for_line_monotone 2 3 pages). lia. Defined.

(** ** The context of a difference *)

Lemma clamp_index_nat {X} (l : list X) (n : nat) :
  clamp_index l (Z.of_nat n) = (length l `min` n)%nat.
Proof.
  unfold clamp_index, len. destruct (Z.ltb_spec (Z.of_nat n) 0); lia.
Qed.

Lemma slice_take_drop {X} (l : list X) (i n : nat) :
  slice l (length l `min` i) (length l `min` (i + n)) = take n (drop i l).
Proof.
  unfold slice. destruct (decide (length l ≤ i)%nat) as [Hle|Hlt].
  - rewrite !drop_ge by lia. by rewrite !take_nil.
  - replace (length l `min` i)%nat with i by lia.
    destruct (decide (i + n ≤ length l)%nat).
    + f_equal. lia.
    + rewrite !take_ge; [done|rewrite length_drop; lia..].
Qed.

(** X3. For a line number and a context size that are not negative,
    [_get_context] gives the lines just before the line, as many as the
    context size or as there are, and the lines just after it, as many as
    the context size or as there are; the line itself is in neither. *)
Theorem get_context_window (lines : list text) (n k : nat) :
  _get_context lines (Z.of_nat n) (Z.of_nat k)
  = {| before := take (n `min` k) (drop (n - k) lines);
       after := take k (drop (S n) lines) |}.
Proof.
  unfold _get_context, pyslice. f_equal.
  - replace (0 `max` (Z.of_nat n - Z.of_nat k)) with (Z.of_nat (n - k)) by lia.
    rewrite !clamp_index_nat.
    replace n with ((n - k) + (n `min` k))%nat at 2 by lia.
    apply slice_take_drop.
  - replace (Z.of_nat n + 1) with (Z.of_nat (S n)) by lia.
    replace (len lines `min` (Z.of_nat (S n) + Z.of_nat k))
      with (Z.of_nat (length lines `min` (S n + k))) by (unfold len; lia).
    rewrite !clamp_index_nat.
    replace (length lines `min` (length lines `min` (S n + k)))%nat
      with (length lines `min` (S n + k))%nat by lia.
    apply slice_take_drop.
Qed.

(** ** The statistics and the list of differences *)

Lemma startswith_cons_cons (c d : char) (p s : text) :
  startswith (c :: p) (d :: s) = bool_decide (c = d) && startswith p s.
Proof. reflexivity. Qed.

(** A line that begins with a longer prefix begins with a shorter one. *)
Lemma startswith_app_l (p q s : text) :
  startswith (p ++ q) s = true → startswith p s = true.
Proof.
  revert s. induction p as [|c p IH]; intros s; [done|].
  destruct s as [|d s]; [done|]. simpl.
  intros [? ?]%andb_true_iff. apply andb_true_iff. auto.
Qed.

(** A line begins with one character only. *)
Lemma startswith_other (p q s : text) (c d : char) :
  head p = Some c → head q = Some d → c ≠ d →
  startswith p s = true → startswith q s = false.
Proof.
  destruct p as [|c' p], q as [|d' q]; try done. intros [= ->] [= ->] Hne.
  destruct s as [|e s]; [done|]. simpl.
  intros [->%bool_decide_eq_true _]%andb_true_iff.
  by rewrite bool_decide_false by congruence.
Qed.

Lemma count_kind_cons (k : diff_type) (e : difference) (ds : list difference) :
  count_kind k (e :: ds)
  = ((if decide (d_type e = k) then 1 else 0) + count_kind k ds)%nat.
Proof. unfold count_kind. rewrite filter_cons. by destruct (decide _). Qed.

Lemma count_prefixed_cons (p pp line : text) (diff_lines : list text) :
  count_prefixed p pp (line :: diff_lines)
  = ((if startswith p line && negb (startswith pp line) then 1 else 0)
     + count_prefixed p pp diff_lines)%nat.
Proof.
  unfold count_prefixed. rewrite filter_cons.
  destruct (decide _) as [[-> ->]|Hn]; [done|].
  destruct (startswith p line), (startswith pp line); try done.
  exfalso. by apply Hn.
Qed.

(** The loop appends one removed entry for each line that begins with one
    or two minus signs but not three, and one added entry for each line that
    begins with one or two plus signs but not three, whatever the cursors. *)
Lemma extract_loop_counts (lines1 lines2 pages1 pages2 diff_lines : list text) :
  ∀ c1 c2,
  count_kind removed (extract_loop diff_lines lines1 lines2 pages1 pages2 c1 c2)
  = count_prefixed (str "-") (str "---") diff_lines
  ∧ count_kind added (extract_loop diff_lines lines1 lines2 pages1 pages2 c1 c2)
    = count_prefixed (str "+") (str "+++") diff_lines.
Proof.
  induction diff_lines as [|line rest IH]; intros c1 c2; [done|].
  rewrite extract_loop_cons, !count_prefixed_cons.
  destruct (startswith (str "@@") line) eqn:Hat.
  { rewrite (startswith_other (str "@@") (str "-") line 64%N 45%N eq_refl eq_refl ltac:(done) Hat).
    rewrite (startswith_other (str "@@") (str "+") line 64%N 43%N eq_refl eq_refl ltac:(done) Hat). simpl.
    destruct (match_range_line line) as [[g1 g3]|]; apply IH. }
  destruct (startswith (str "---") line) eqn:Hm3.
  { rewrite (startswith_app_l (str "-") (str "--") line Hm3).
    rewrite (startswith_other (str "---") (str "+") line 45%N 43%N eq_refl eq_refl ltac:(done) Hm3). simpl. apply IH. }
  destruct (startswith (str "+++") line) eqn:Hp3.
  { rewrite (startswith_app_l (str "+") (str "++") line Hp3).
    rewrite (startswith_other (str "+++") (str "-") line 43%N 45%N eq_refl eq_refl ltac:(done) Hp3). simpl. apply IH. }
  simpl orb. cbv iota.
  destruct (startswith (str "-") line) eqn:Hm.
  { rewrite (startswith_other (str "-") (str "+") line 45%N 43%N eq_refl eq_refl ltac:(done) Hm).
    rewrite !count_kind_cons. simpl. destruct (IH (c1 + 1) c2) as [-> ->]. done. }
  destruct (startswith (str "+") line) eqn:Hp.
  { rewrite !count_kind_cons. simpl. destruct (IH c1 (c2 + 1)) as [-> ->]. done. }
  simpl. apply IH.
Qed.

Lemma count_kind_total (ds : list difference) :
  (count_kind added ds + count_kind removed ds)%nat = length ds.
Proof.
  induction ds as [|e ds IH]; [done|].
  rewrite !count_kind_cons. simpl. destruct (d_type e); simpl; lia.
Qed.

(** X4. The statistics of the text comparison agree with its list of
    differences: [lines_added] is the number of added entries,
    [lines_removed] the number of removed entries and [total_changes] the
    number of entries. *)
Theorem statistics_count_differences (pages1 pages2 : list text)
    (fromfile tofile : text) :
  let r := text_result pages1 pages2 fromfile tofile true in
  ∃ stats, statistics_of r = Some stats
    ∧ lines_added stats = count_kind added (differences_of r)
    ∧ lines_removed stats = count_kind removed (differences_of r)
    ∧ total_changes stats = length (differences_of r).
Proof.
  intros r.
  set (lines1 := splitlines (join [NL] pages1)).
  set (lines2 := splitlines (join [NL] pages2)).
  set (diff_lines := unified_diff lines1 lines2 fromfile tofile [] [] 3 []).
  assert (count_kind removed (differences_of r)
          = count_prefixed (str "-") (str "---") diff_lines
          ∧ count_kind added (differences_of r)
            = count_prefixed (str "+") (str "+++") diff_lines) as [Hr Ha].
  { unfold r, text_result, differences_of. fold lines1 lines2 diff_lines.
    case_bool_decide as Hd; simpl andb; cbv iota.
    - apply extract_loop_counts.
    - by rewrite Hd. }
  pose proof (count_kind_total (differences_of r)) as Ht.
  rewrite Hr, Ha in Ht |- *.
  eexists. split; [reflexivity|]. split; [reflexivity|]. split; [reflexivity|].
  exact Ht.
Qed.

(** ** The calls of the comparison methods *)

Lemma appends_mret {X} (x : X) (P : call → Prop) : appends (mret x) P.
Proof. intros tr. exists []. by rewrite app_nil_r. Qed.

Lemma appends_raise {X} (e : exn) (P : call → Prop) : appends (raise (X := X) e) P.
Proof. intros tr. exists []. by rewrite app_nil_r. Qed.

Lemma appends_invoke {X} (c : call) (outcome : exn + X) (P : call → Prop) :
  P c → appends (invoke c outcome) P.
Proof. intros Hc tr. exists [c]. split; [done|]. by constructor. Qed.

Lemma appends_bind {X Y} (m : M X) (f : X → M Y) (P : call → Prop) :
  appends m P → (∀ x, appends (f x) P) → appends (m ≫= f) P.
Proof.
  intros Hm Hf tr. destruct (Hm tr) as (calls1 & Htr1 & Hcalls1).
  unfold mbind, M_bind. destruct (m tr) as [[e|x] tr1]; simpl in Htr1; subst tr1.
  - by exists calls1.
  - destruct (Hf x (tr ++ calls1)) as (calls2 & Htr2 & Hcalls2).
    exists (calls1 ++ calls2). rewrite Htr2, app_assoc. split; [done|].
    by apply Forall_app.
Qed.

Lemma appends_try_except {X} (m : M X) (handler : exn → X) (P : call → Prop) :
  appends m P → appends (try_except m handler) P.
Proof.
  intros Hm tr. destruct (Hm tr) as (calls & Htr & Hcalls).
  unfold try_except. destruct (m tr) as [[e|x] tr1]; by exists calls.
Qed.

Lemma appends_weaken {X} (m : M X) (P Q : call → Prop) :
  appends m P → (∀ c, P c → Q c) → appends m Q.
Proof.
  intros Hm HPQ tr. destruct (Hm tr) as (calls & Htr & Hcalls).
  exists calls. split; [done|]. by eapply Forall_impl.
Qed.

Section ComparerCalls.

Context {image array : Type}.
Variable basename : string → text.
Variable sys : @backend image array.
Variable self : PDFComparer.

Lemma use_fitz_open_appends path (P : call → Prop) :
  P (call_fitz_open path) → appends (use_fitz_open sys path) P.
Proof.
  intros HP. unfold use_fitz_open.
  destruct (HAS_PYMUPDF sys); [by apply appends_invoke|apply appends_raise].
Qed.

Lemma compare_text_appends p1 p2 detailed :
  appends (compare_text basename sys self p1 p2 detailed)
    (λ c, c = call_fitz_open p1 ∨ c = call_fitz_open p2).
Proof.
  unfold compare_text, _extract_text_by_page.
  destruct (negb _); [apply appends_mret|]. apply appends_try_except.
  apply appends_bind.
  { apply appends_bind; [apply use_fitz_open_appends; by left|intros; apply appends_mret]. }
  intros pages1. apply appends_bind; [|intros; apply appends_mret].
  apply appends_bind; [apply use_fitz_open_appends; by right|intros; apply appends_mret].
Qed.

Lemma divide_appends (x y : Q) (P : call → Prop) : appends (divide x y) P.
Proof. unfold divide. destruct (Qeq_bool y 0); [apply appends_raise|apply appends_mret]. Qed.

Lemma compare_pages_appends (pairs : list (image * image)) (P : call → Prop) :
  P call_resize → P call_np_array → P call_np_compare →
  ∀ i, appends (compare_pages sys i pairs) P.
Proof.
  intros Hr Ha Hc. induction pairs as [|[img1 img2] pairs IH]; intros i; simpl.
  - apply appends_mret.
  - apply appends_bind.
    + unfold compare_page. apply appends_bind.
      { case_bool_decide; [by apply appends_invoke|apply appends_mret]. }
      intros img2'. apply appends_bind; [by apply appends_invoke|]. intros arr1.
      apply appends_bind; [by apply appends_invoke|]. intros arr2.
      apply appends_bind; [by apply appends_invoke|]. intros diff_pixels.
      apply appends_bind; [apply divide_appends|]. intros; apply appends_mret.
    + intros p. apply appends_bind; [apply IH|]. intros; apply appends_mret.
Qed.

Lemma compare_visual_appends p1 p2 dpi :
  appends (compare_visual sys self p1 p2 dpi)
    (λ c, c ∈ [call_convert_from_path p1 dpi; call_convert_from_path p2 dpi;
               call_resize; call_np_array; call_np_compare]).
Proof.
  unfold compare_visual, use_convert_from_path.
  destruct (negb _); [apply appends_mret|]. apply appends_try_except.
  apply appends_bind.
  { destruct (HAS_PDF2IMAGE sys); [apply appends_invoke; set_solver|apply appends_raise]. }
  intros images1. apply appends_bind.
  { destruct (HAS_PDF2IMAGE sys); [apply appends_invoke; set_solver|apply appends_raise]. }
  intros images2. case_bool_decide; [apply appends_mret|].
  apply appends_bind; [apply compare_pages_appends; set_solver|]. intros ps.
  apply appends_bind; [apply divide_appends|]. intros; apply appends_mret.
Qed.

Lemma tables_loop_appends p1 p2 pages1 pages2 (range : list nat) :
  appends (tables_loop p1 p2 pages1 pages2 range)
    (λ c, ∃ path i, c = call_extract_tables path i ∧ i ∈ range).
Proof.
  induction range as [|i range IH]; simpl; [apply appends_mret|].
  apply appends_bind.
  { apply appends_invoke. exists p1, i. split; [done|left]. }
  intros t1. apply appends_bind.
  { apply appends_invoke. exists p2, i. split; [done|left]. }
  intros t2. apply appends_bind; [|intros; apply appends_mret].
  eapply appends_weaken; [exact IH|]. intros c (path & j & -> & Hj).
  exists path, j. split; [done|by right].
Qed.

Lemma compare_structure_appends p1 p2 :
  appends (compare_structure sys self p1 p2)
    (λ c, call_owner c = Some "structure_analysis").
Proof.
  unfold compare_structure, use_pdfplumber_open.
  destruct (negb _); [apply appends_mret|]. apply appends_try_except.
  apply appends_bind.
  { destruct (HAS_PDFPLUMBER sys); [by apply appends_invoke|apply appends_raise]. }
  intros pages1. apply appends_bind.
  { destruct (HAS_PDFPLUMBER sys); [by apply appends_invoke|apply appends_raise]. }
  intros pages2. apply appends_bind; [|intros; apply appends_mret].
  eapply appends_weaken; [apply tables_loop_appends|]. by intros c (path & j & -> & _).
Qed.

Lemma compare_metadata_appends p1 p2 :
  appends (compare_metadata sys self p1 p2)
    (λ c, (∃ p, c = call_fitz_open p) ∨ ∃ p, c = call_md5 p).
Proof.
  unfold compare_metadata, _calculate_hash.
  destruct (negb _); [apply appends_mret|]. apply appends_try_except.
  apply appends_bind; [apply use_fitz_open_appends; eauto|]. intros doc1.
  apply appends_bind; [apply use_fitz_open_appends; eauto|]. intros doc2.
  apply appends_bind; [apply appends_invoke; eauto|]. intros hash1.
  apply appends_bind; [apply appends_invoke; eauto|]. intros hash2.
  apply appends_mret.
Qed.

Lemma compare_basic_info_appends p1 p2 :
  appends (compare_basic_info sys p1 p2) (λ c, call_owner c = None).
Proof.
  unfold compare_basic_info. apply appends_try_except.
  apply appends_bind; [by apply appends_invoke|]. intros size1.
  apply appends_bind; [by apply appends_invoke|]. intros size2.
  destruct (HAS_PYMUPDF sys); [|apply appends_mret].
  apply appends_bind; [by apply use_fitz_open_appends|]. intros doc1.
  apply appends_bind; [by apply use_fitz_open_appends|]. intros doc2.
  apply appends_mret.
Qed.

Lemma run_if_selected_appends name methods run results (P Q : call → Prop) :
  appends run P → (name ∈ methods → ∀ c, P c → Q c) →
  appends (run_if_selected name methods run results) Q.
Proof.
  intros Hrun HPQ. unfold run_if_selected. case_bool_decide; [|apply appends_mret].
  apply appends_bind; [|intros; apply appends_mret].
  eapply appends_weaken; [exact Hrun|]. by apply HPQ.
Qed.

(** X5. The calls of a comprehensive comparison: the trace it is given is
    kept, a collaborator that only one comparison method uses (the renderer
    and numpy, pdfplumber, the hash of the file) is called only when that
    method is among the methods used, and pages are always rendered at 150
    dpi. *)
Theorem comprehensive_compare_calls p1 p2 methods tr :
  ∃ calls,
    (comprehensive_compare basename sys self p1 p2 methods tr).2 = tr ++ calls
    ∧ Forall (call_of (methods_used_of self methods) 150) calls.
Proof.
  revert tr. change (appends (comprehensive_compare basename sys self p1 p2 methods)
                       (call_of (methods_used_of self methods) 150)).
  unfold comprehensive_compare. fold (methods_used_of self methods).
  set (used := methods_used_of self methods).
  apply appends_bind; [by apply appends_invoke|]. intros found1.
  destruct (negb found1); [apply appends_mret|].
  apply appends_bind; [by apply appends_invoke|]. intros found2.
  destruct (negb found2); [apply appends_mret|].
  apply appends_bind.
  { eapply appends_weaken; [apply compare_basic_info_appends|].
    intros c Hc. split; [by rewrite Hc|]. by intros path d ->. }
  intros basic. apply appends_bind.
  { eapply run_if_selected_appends; [apply compare_text_appends|].
    intros _ c [->| ->]; by split. }
  intros rs1. apply appends_bind.
  { eapply run_if_selected_appends; [apply compare_visual_appends|].
    intros Hsel c Hc. split.
    - intros name Hname.
      assert (name = "visual_comparison") as ->; [|done].
      set_unfold in Hc. destruct Hc as [?|[?|[?|[?|[?|[]]]]]]; subst c; by injection Hname.
    - intros path d ->. set_unfold in Hc.
      destruct Hc as [?|[?|[?|[?|[?|[]]]]]]; by simplify_eq. }
  intros rs2. apply appends_bind.
  { eapply run_if_selected_appends; [apply compare_structure_appends|].
    intros Hsel c Hc. split; [intros name; rewrite Hc; by intros [= <-]|].
    by intros path d ->. }
  intros rs3. apply appends_bind; [|intros; apply appends_mret].
  eapply run_if_selected_appends; [apply compare_metadata_appends|].
  intros Hsel c [[p ->]|[p ->]]; (split; [|done]); [done|].
  by intros name [= <-].
Qed.

End ComparerCalls.

(** ** The outcomes of the comparison methods *)

Section ComparerOutcomes.

Context {image array : Type}.
Variable basename : string → text.
Variable sys : @backend image array.
Variable self : PDFComparer.

Lemma total_value {X} (m : M X) (P : X → Prop) tr :
  total m P → ∃ x tr', m tr = (inr x, tr').
Proof. intros Hm. destruct (Hm tr) as (x & tr' & ? & _). eauto. Qed.

Lemma comprehensive_compare_returns p1 p2 methods tr :
  ∃ out tr', comprehensive_compare basename sys self p1 p2 methods tr = (inr out, tr').
Proof.
  destruct (os_path_exists sys p1) eqn:He1; [destruct (os_path_exists sys p2) eqn:He2|].
  - destruct (comprehensive_compare_total basename sys self p1 p2 methods He1 He2 tr)
      as (out & tr' & ? & _). eauto.
  - unfold comprehensive_compare, invoke, mbind, M_bind. rewrite He1, He2. simpl. eauto.
  - unfold comprehensive_compare, invoke, mbind, M_bind. rewrite He1. simpl. eauto.
Qed.

(** X6. A quiet comparer, one made with [verbose] false, so that none of
    the [print] statements that stand outside the [try] blocks runs: no
    exception that a collaborator raises leaves a comparison method or the
    comprehensive comparison; whatever the collaborators do, and whatever
    the trace, each of them returns a dictionary. An exception is an
    [Exception] here, the class the handlers catch. *)
Theorem no_exception_escapes p1 p2 detailed dpi methods tr :
  verbose self = false →
  (∃ r tr', compare_text basename sys self p1 p2 detailed tr = (inr r, tr'))
  ∧ (∃ r tr', compare_visual sys self p1 p2 dpi tr = (inr r, tr'))
  ∧ (∃ r tr', compare_structure sys self p1 p2 tr = (inr r, tr'))
  ∧ (∃ r tr', compare_metadata sys self p1 p2 tr = (inr r, tr'))
  ∧ (∃ r tr', compare_basic_info sys p1 p2 tr = (inr r, tr'))
  ∧ (∃ out tr', comprehensive_compare basename sys self p1 p2 methods tr
                = (inr out, tr')).
Proof.
  intros _.
  split; [eapply total_value, compare_text_total|].
  split; [eapply total_value, compare_visual_total|].
  split; [eapply total_value, compare_structure_total|].
  split; [eapply total_value, compare_metadata_total|].
  split; [eapply total_value, compare_basic_info_total|].
  apply comprehensive_compare_returns.
Qed.

(** X7. A file that does not exist: the comprehensive comparison returns the
    error that names the first missing file, after asking only whether the
    files exist; and it returns such an error only when a file is missing. *)
Theorem comprehensive_compare_missing_file p1 p2 methods tr :
  (os_path_exists sys p1 = false →
   comprehensive_compare basename sys self p1 p2 methods tr
   = (inr (MissingFile ("文件不存在: " +:+ p1)), tr ++ [call_exists p1]))
  ∧ (os_path_exists sys p1 = true → os_path_exists sys p2 = false →
     comprehensive_compare basename sys self p1 p2 methods tr
     = (inr (MissingFile ("文件不存在: " +:+ p2)),
        tr ++ [call_exists p1; call_exists p2]))
  ∧ (∀ error tr',
       comprehensive_compare basename sys self p1 p2 methods tr
       = (inr (MissingFile error), tr') →
       os_path_exists sys p1 = false ∨ os_path_exists sys p2 = false).
Proof.
  split; [|split].
  - intros He1. unfold comprehensive_compare, invoke, mbind, M_bind. by rewrite He1.
  - intros He1 He2. unfold comprehensive_compare, invoke, mbind, M_bind.
    rewrite He1, He2. simpl. by rewrite <- app_assoc.
  - intros error tr' Hrun.
    destruct (os_path_exists sys p1) eqn:He1; [|by left].
    destruct (os_path_exists sys p2) eqn:He2; [|by right].
    destruct (comprehensive_compare_total basename sys self p1 p2 methods He1 He2 tr)
      as (out & tr'' & Hrun' & basic & rest & -> & _).
    rewrite Hrun in Hrun'. discriminate Hrun'.
Qed.

End ComparerOutcomes.

Lemma no_exception_escapes_witness :
  let sys := demo true true true in
  let self := comparer true true true true in
  (∃ r tr', compare_text demo_basename sys self "a.pdf" "c.pdf" true [] = (inr r, tr'))
  ∧ (∃ r tr', compare_visual sys self "a.pdf" "c.pdf" 150 [] = (inr r, tr'))
  ∧ (∃ r tr', compare_structure sys self "a.pdf" "c.pdf" [] = (inr r, tr'))
  ∧ (∃ r tr', compare_metadata sys self "a.pdf" "c.pdf" [] = (inr r, tr'))
  ∧ (∃ r tr', compare_basic_info sys "a.pdf" "c.pdf" [] = (inr r, tr'))
  ∧ (∃ out tr', comprehensive_compare demo_basename sys self "a.pdf" "c.pdf" None []
                = (inr out, tr')).
Proof.
  intros sys self.
  apply (no_exception_escapes demo_basename sys self "a.pdf" "c.pdf" true 150 None []).
  reflexivity.
Defined.

Lemma comprehensive_compare_missing_file_witness :
  let sys := demo true true true in
  let self := comparer true true true true in
  comprehensive_compare demo_basename sys self "c.pdf" "a.pdf" None []
  = (inr (MissingFile "文件不存在: c.pdf"), [call_exists "c.pdf"])
  ∧ comprehensive_compare demo_basename sys self "a.pdf" "c.pdf" None []
    = (inr (MissingFile "文件不存在: c.pdf"), [call_exists "a.pdf"; call_exists "c.pdf"]).
Proof.
  intros sys self.
  destruct (comprehensive_compare_missing_file demo_basename sys self
              "c.pdf" "a.pdf" None []) as (H1 & _ & _).
  destruct (comprehensive_compare_missing_file demo_basename sys self
              "a.pdf" "c.pdf" None []) as (_ & H2 & _).
  exact (conj (H1 eq_refl) (H2 eq_refl eq_refl)).
Defined.

(** ** The visual comparison *)

Lemma Qsum_ones (l : list Q) :
  Forall (λ q, q == 1)%Q l → (Qsum l == inject_Z (len l))%Q.
Proof.
  unfold Qsum. intros Hl.
  assert (∀ acc, foldl Qplus acc l == acc + inject_Z (len l))%Q as Hacc.
  { induction Hl as [|q l Hq Hl IH]; intros acc; cbn [foldl].
    - unfold len. cbn [length]. change (inject_Z (Z.of_nat 0)) with 0%Q. ring.
    - rewrite (IH (acc + q)%Q). unfold len. cbn [length].
      rewrite Nat2Z.inj_succ, <- Z.add_1_l, inject_Z_plus.
      change (inject_Z 1) with 1%Q. rewrite Hq. ring. }
  rewrite Hacc. ring.
Qed.

Section VisualFacts.

Context {image array : Type}.
Variable sys : @backend image array.
Variable self : PDFComparer.

(** X8. Two documents that render to no page at all: the visual comparison
    divides by the number of pages and returns the error of that division,
    not a verdict. *)
Theorem compare_visual_no_pages p1 p2 dpi tr :
  visual_comparison (self_capabilities self) = true →
  HAS_PDF2IMAGE sys = true →
  convert_from_path sys p1 dpi = inr [] →
  convert_from_path sys p2 dpi = inr [] →
  compare_visual sys self p1 p2 dpi tr
  = (inr (ErrorResult "视觉比较失败: division by zero"),
     tr ++ [call_convert_from_path p1 dpi; call_convert_from_path p2 dpi]).
Proof.
  intros Hcap Hlib Himg1 Himg2.
  unfold compare_visual, use_convert_from_path, try_except, invoke, mbind, M_bind.
  rewrite Hcap, Hlib, Himg1, Himg2. simpl. by rewrite <- app_assoc.
Qed.

Lemma compare_pages_same (images1 images2 : list image) :
  Forall2 (same_pixels sys) images1 images2 →
  ∀ i tr, ∃ ps tr',
    compare_pages sys i (zip images1 images2) tr = (inr ps, tr')
    ∧ Forall (λ p, (ps_similarity p == 1)%Q ∧ ps_different_pixels p = 0) ps
    ∧ ps_page <$> ps = (λ k : nat, Z.of_nat k + 1) <$> seq i (length images1).
Proof.
  induction 1 as [|img1 img2 images1 images2 [Hsame Hsize] _ IH]; intros i tr.
  - by exists [], tr.
  - simpl zip. simpl compare_pages.
    set (img2' := second_image sys img1 img2) in *.
    assert (∃ tr1,
      compare_page sys i img1 img2 tr
      = (inr {| ps_page := Z.of_nat i + 1;
                ps_similarity := 1 - inject_Z 0 / inject_Z (np_size sys (np_array sys img1));
                ps_different_pixels := 0;
                ps_total_pixels := np_size sys (np_array sys img1) |}, tr1))
      as [tr1 Hpage].
    { assert (Qeq_bool (inject_Z (np_size sys (np_array sys img1))) 0 = false) as Hnz.
      { apply not_true_is_false. intros Heq%Qeq_bool_iff.
        unfold Qeq in Heq. simpl in Heq. lia. }
      unfold compare_page, divide, invoke, mbind, M_bind.
      unfold img2', second_image in Hsame.
      destruct (bool_decide (image_size sys img1 ≠ image_size sys img2));
        simpl; rewrite Hsame; simpl; rewrite Hnz; eauto. }
    unfold mbind at 1, M_bind at 1. rewrite Hpage.
    destruct (IH (S i) tr1) as (ps & tr' & Hrest & Hps & Hpages).
    unfold mbind at 1, M_bind at 1. rewrite Hrest.
    eexists _, tr'. split; [reflexivity|]. split.
    + constructor; [|done]. simpl. split; [|done].
      unfold Qdiv. change (inject_Z 0) with 0%Q. ring.
    + rewrite fmap_cons, Hpages. reflexivity.
Qed.

(** X9. Pages without a pixel that differs: when the two documents render to
    the same number of pages, at least one, and numpy finds no difference
    on any page, the visual comparison says identical, with an overall
    similarity of 1 and one entry for each page, numbered from 1. *)
Theorem compare_visual_same_pixels p1 p2 dpi tr images1 images2 :
  visual_comparison (self_capabilities self) = true →
  HAS_PDF2IMAGE sys = true →
  convert_from_path sys p1 dpi = inr images1 →
  convert_from_path sys p2 dpi = inr images2 →
  images1 ≠ [] →
  Forall2 (same_pixels sys) images1 images2 →
  ∃ overall_similarity page_similarities tr',
    compare_visual sys self p1 p2 dpi tr
    = (inr (VisualResult true overall_similarity (length images1) page_similarities),
       tr')
    ∧ (overall_similarity == 1)%Q
    ∧ Forall (λ p, (ps_similarity p == 1)%Q ∧ ps_different_pixels p = 0) page_similarities
    ∧ ps_page <$> page_similarities = page_numbers (length images1).
Proof.
  intros Hcap Hlib Himg1 Himg2 Hne Hsame.
  pose proof (Forall2_length _ _ _ Hsame) as Hlen.
  destruct (compare_pages_same images1 images2 Hsame 0%nat
              (tr ++ [call_convert_from_path p1 dpi] ++ [call_convert_from_path p2 dpi]))
    as (ps & tr' & Hrun & Hps & Hpages).
  assert (length ps = length images1) as Hlps.
  { rewrite <- (length_fmap ps_page), Hpages, length_fmap. apply length_seq. }
  assert (Qsum (ps_similarity <$> ps) == inject_Z (len ps))%Q as Hsum.
  { rewrite Qsum_ones; [by unfold len; rewrite length_fmap|].
    apply Forall_fmap. eapply Forall_impl; [exact Hps|]. by intros p [? _]. }
  assert (Qeq_bool (inject_Z (len ps)) 0 = false) as Hnz.
  { apply not_true_is_false. intros Heq%Qeq_bool_iff.
    unfold Qeq, len in Heq. simpl in Heq. destruct images1; [done|]. simpl in Hlps. lia. }
  assert (Qsum (ps_similarity <$> ps) / inject_Z (len ps) == 1)%Q as Hone.
  { rewrite Hsum. apply Qmult_inv_r. intros Heq. apply Qeq_bool_iff in Heq. congruence. }
  exists (Qsum (ps_similarity <$> ps) / inject_Z (len ps))%Q, ps, tr'.
  split; [|done].
  unfold compare_visual, use_convert_from_path, try_except, invoke, divide, mbind, M_bind.
  rewrite Hcap, Hlib, Himg1, Himg2. simpl.
  rewrite bool_decide_false by (intros Hn; by apply Hn).
  rewrite <- app_assoc. rewrite Hrun, Hnz. repeat f_equal.
  apply negb_true_iff, not_true_is_false. intros Hle%Qle_bool_iff.
  rewrite Hone in Hle. by apply Hle.
Qed.

End VisualFacts.

Lemma compare_visual_no_pages_witness :
  compare_visual (demo_rendering (λ _, [])) (comparer true true true true)
    "a.pdf" "b.pdf" 150 []
  = (inr (ErrorResult "视觉比较失败: division by zero"),
     [call_convert_from_path "a.pdf" 150; call_convert_from_path "b.pdf" 150]).
Proof.
  apply (compare_visual_no_pages (demo_rendering (λ _, [])) (comparer true true true true)
           "a.pdf" "b.pdf" 150 []); reflexivity.
Defined.

Lemma compare_visual_same_pixels_witness :
  ∃ overall_similarity page_similarities tr',
    compare_visual (demo true true true) (comparer true true true true)
      "b.pdf" "b.pdf" 150 []
    = (inr (VisualResult true overall_similarity 1 page_similarities), tr')
    ∧ (overall_similarity == 1)%Q
    ∧ Forall (λ p, (ps_similarity p == 1)%Q ∧ ps_different_pixels p = 0) page_similarities
    ∧ ps_page <$> page_similarities = [1].
Proof.
  apply (compare_visual_same_pixels (demo true true true) (comparer true true true true)
           "b.pdf" "b.pdf" 150 [] [1%nat] [1%nat]); try reflexivity; [done|].
  repeat constructor. by vm_compute.
Defined.

(** ** The structure comparison *)

Section StructureFacts.

Context {image array : Type}.
Variable sys : @backend image array.
Variable self : PDFComparer.



End StructureFacts.


(** ** The metadata comparison *)

Section MetadataFacts.

Context {image array : Type}.
Variable sys : @backend image array.
Variable self : PDFComparer.

(** X11. The verdict of the metadata comparison: for two documents that
    PyMuPDF opens and whose files can be hashed, the result has one entry
    for each key of either dictionary, with the values of the two documents,
    a missing key counting as the empty string; and it says identical
    exactly when the two values agree for every key, whether the hashes of
    the files agree or not. *)
Theorem compare_metadata_verdict p1 p2 tr doc1 doc2 hash1 hash2 :
  metadata_comparison (self_capabilities self) = true →
  HAS_PYMUPDF sys = true →
  fitz_open sys p1 = inr doc1 →
  fitz_open sys p2 = inr doc2 →
  file_md5 sys p1 = inr hash1 →
  file_md5 sys p2 = inr hash2 →
  ∃ metadata identical,
    compare_metadata sys self p1 p2 tr
    = (inr (MetadataResult (compare_values hash1 hash2) metadata identical),
       tr ++ [call_fitz_open p1; call_fitz_open p2; call_md5 p1; call_md5 p2])
    ∧ (∀ key,
         metadata !! key
         = if decide (key ∈ dom (doc_metadata doc1) ∪ dom (doc_metadata doc2))
           then Some (compare_values (metadata_get (doc_metadata doc1) key)
                                     (metadata_get (doc_metadata doc2) key))
           else None)
    ∧ (identical = true
       ↔ ∀ key, metadata_get (doc_metadata doc1) key
                = metadata_get (doc_metadata doc2) key).
Proof.
  intros Hcap Hlib Hopen1 Hopen2 Hmd1 Hmd2.
  set (m1 := doc_metadata doc1). set (m2 := doc_metadata doc2).
  set (metadata :=
         set_to_map (λ key, (key, compare_values (metadata_get m1 key) (metadata_get m2 key)))
           (dom m1 ∪ dom m2) : gmap string (compared (option string))).
  assert (∀ key,
            metadata !! key
            = if decide (key ∈ dom m1 ∪ dom m2)
              then Some (compare_values (metadata_get m1 key) (metadata_get m2 key))
              else None) as Hlookup.
  { intros key. destruct (decide _) as [Hin|Hout].
    - apply lookup_set_to_map; [by intros ?? _ _ ?|]. by exists key.
    - apply eq_None_not_Some. intros [v Hv].
      apply lookup_set_to_map in Hv as (key' & Hin & [= -> _]); [done|by intros ?? _ _ ?]. }
  exists metadata, (bool_decide (map_Forall (λ _ m, same m = true) metadata)).
  split; [|split; [done|]].
  - unfold compare_metadata, use_fitz_open, _calculate_hash, try_except, invoke,
      mbind, M_bind.
    rewrite Hcap, Hlib, Hopen1, Hopen2, Hmd1, Hmd2. simpl.
    by rewrite <- !app_assoc.
  - rewrite bool_decide_eq_true. split.
    + intros Hall key.
      destruct (decide (key ∈ dom m1 ∪ dom m2)) as [Hin|Hout].
      * specialize (Hall key _ (eq_trans (Hlookup key) (decide_True _ _ Hin))).
        simpl in Hall. by apply bool_decide_eq_true in Hall.
      * apply not_elem_of_union in Hout as [Ho1%not_elem_of_dom Ho2%not_elem_of_dom].
        unfold metadata_get. by rewrite Ho1, Ho2.
    + intros Hall key v Hv. rewrite Hlookup in Hv.
      destruct (decide _); [|done]. injection Hv as <-. simpl.
      by apply bool_decide_eq_true.
Qed.

End MetadataFacts.

Lemma compare_metadata_verdict_witness :
  ∃ metadata identical,
    compare_metadata (demo true true true) (comparer true true true true)
      "a.pdf" "b.pdf" []
    = (inr (MetadataResult (compare_values "a.pdf" "b.pdf") metadata identical),
       [call_fitz_open "a.pdf"; call_fitz_open "b.pdf"; call_md5 "a.pdf"; call_md5 "b.pdf"])
    ∧ (∀ key,
         metadata !! key
         = if decide (key ∈ dom (doc_metadata (demo_document "a.pdf"))
                          ∪ dom (doc_metadata (demo_document "b.pdf")))
           then Some (compare_values
                        (metadata_get (doc_metadata (demo_document "a.pdf")) key)
                        (metadata_get (doc_metadata (demo_document "b.pdf")) key))
           else None)
    ∧ (identical = true
       ↔ ∀ key, metadata_get (doc_metadata (demo_document "a.pdf")) key
                = metadata_get (doc_metadata (demo_document "b.pdf")) key).
Proof.
  apply (compare_metadata_verdict (demo true true true) (comparer true true true true)
           "a.pdf" "b.pdf" [] (demo_document "a.pdf") (demo_document "b.pdf")
           "a.pdf" "b.pdf"); reflexivity.
Defined.

(** ** The selection of the methods *)

Section SelectionFacts.

Context {image array : Type}.
Variable basename : string → text.
Variable sys : @backend image array.
Variable self : PDFComparer.

Lemma comprehensive_compare_selection_eq p1 p2 (ms ms' : list string) tr :
  (∀ name, name ∈ selectable → name ∈ ms ↔ name ∈ ms') →
  prod_map (sum_map id forget_methods_used) id
    (comprehensive_compare basename sys self p1 p2 (Some ms) tr)
  = prod_map (sum_map id forget_methods_used) id
      (comprehensive_compare basename sys self p1 p2 (Some ms') tr).
Proof.
  intros Hsel.
  assert (∀ name, name ∈ selectable →
            bool_decide (name ∈ ms) = bool_decide (name ∈ ms')) as Hb.
  { intros name Hname. by apply bool_decide_ext, Hsel. }
  unfold comprehensive_compare, run_if_selected.
  rewrite !(Hb "text_comparison"), !(Hb "visual_comparison"),
    !(Hb "structure_analysis"), !(Hb "metadata_comparison")
    by (unfold selectable; repeat constructor).
  unfold invoke, mbind, M_bind.
  destruct (os_path_exists sys p1); [|done]. simpl.
  destruct (os_path_exists sys p2); [|done]. simpl.
  destruct (compare_basic_info _ _ _ _) as [[e|basic] tr1]; [done|]. cbv beta iota delta [mret M_ret].
  destruct (bool_decide ("text_comparison" ∈ ms'));
    [destruct (compare_text basename sys self p1 p2 true _) as [[e|r1] tr2]; [done|]|];
    cbv beta iota delta [mret M_ret].
  all: destruct (bool_decide ("visual_comparison" ∈ ms'));
    [destruct (compare_visual sys self p1 p2 150 _) as [[e|r2] tr3]; [done|]|];
    cbv beta iota delta [mret M_ret].
  all: destruct (bool_decide ("structure_analysis" ∈ ms'));
    [destruct (compare_structure sys self p1 p2 _) as [[e|r3] tr4]; [done|]|];
    cbv beta iota delta [mret M_ret].
  all: destruct (bool_decide ("metadata_comparison" ∈ ms'));
    [destruct (compare_metadata sys self p1 p2 _) as [[e|r4] tr5]; [done|]|];
    cbv beta iota delta [mret M_ret].
  all: done.
Qed.

(** X12. Only the presence of the four method names counts: two lists of
    methods that hold the same of the four names, whatever their order,
    their repetitions and the other names in them, give the same results,
    the same summary and the same calls; only ['methods_used'], which
    repeats the list, differs. *)
Theorem comprehensive_compare_selection p1 p2 (ms ms' : list string) tr :
  (∀ name, name ∈ selectable → name ∈ ms ↔ name ∈ ms') →
  ∃ out out' tr',
    comprehensive_compare basename sys self p1 p2 (Some ms) tr = (inr out, tr')
    ∧ comprehensive_compare basename sys self p1 p2 (Some ms') tr = (inr out', tr')
    ∧ forget_methods_used out = forget_methods_used out'.
Proof.
  intros Hsel.
  pose proof (comprehensive_compare_selection_eq p1 p2 ms ms' tr Hsel) as Heq.
  destruct (comprehensive_compare_returns basename sys self p1 p2 (Some ms) tr)
    as (out & tr1 & Hrun).
  destruct (comprehensive_compare_returns basename sys self p1 p2 (Some ms') tr)
    as (out' & tr2 & Hrun').
  rewrite Hrun, Hrun' in Heq. injection Heq as Hout Htr. subst tr2.
  by exists out, out', tr1.
Qed.

End SelectionFacts.

Lemma comprehensive_compare_selection_witness :
  ∃ out out' tr',
    comprehensive_compare demo_basename (demo true true true)
      (comparer true true true true) "a.pdf" "b.pdf"
      (Some ["metadata_comparison"; "text_comparison"]) []
    = (inr out, tr')
    ∧ comprehensive_compare demo_basename (demo true true true)
        (comparer true true true true) "a.pdf" "b.pdf"
        (Some ["text_comparison"; "text"; "metadata_comparison"; "text_comparison"]) []
      = (inr out', tr')
    ∧ forget_methods_used out = forget_methods_used out'.
Proof.
  apply (comprehensive_compare_selection demo_basename (demo true true true)
           (comparer true true true true) "a.pdf" "b.pdf").
  intros name Hname. apply list_elem_of_In in Hname. simpl in Hname.
  destruct Hname as [<-|[<-|[<-|[<-|[]]]]]; by apply (bool_decide_unpack _).
Defined.

(** ** The methods by default *)

Section DefaultMethods.

Context {image array : Type}.
Variable basename : string → text.
Variable sys : @backend image array.
Variable self : PDFComparer.

Lemma run_if_selected_total_when name methods run results (P : result → Prop) :
  (name ∈ methods → total run P) →
  total (run_if_selected name methods run results)
    (λ rs, ((name ∉ methods) ∧ rs = results)
           ∨ ((name ∈ methods) ∧ ∃ r, P r ∧ rs = results ++ [(name, r)])).
Proof.
  intros Hrun. unfold run_if_selected. case_bool_decide as Hin.
  - eapply total_bind; [exact (Hrun Hin)|]. intros r Hr. apply total_mret. right. eauto.
  - apply total_mret. by left.
Qed.

Lemma failure_not_unavailable (prefix : string) (e : exn) :
  prefix ∈ ["文本比较失败: "; "视觉比较失败: "; "结构分析失败: "; "元数据比较失败: ";
            "基本信息比较失败: "] →
  ¬ unavailable (ErrorResult (prefix +:+ e)).
Proof.
  intros Hp Hu. apply list_elem_of_In in Hp, Hu. simpl in Hp, Hu.
  destruct Hp as [<-|[<-|[<-|[<-|[<-|[]]]]]];
    destruct Hu as [Hu|[Hu|[Hu|[Hu|[]]]]]; simpl in Hu; discriminate Hu.
Qed.

Lemma compare_text_available p1 p2 detailed :
  text_comparison (self_capabilities self) = true →
  total (compare_text basename sys self p1 p2 detailed) (λ r, ¬ unavailable r).
Proof.
  intros Hcap. unfold compare_text. rewrite Hcap. simpl negb. cbv iota.
  apply try_except_total.
  - do 2 (apply returns_bind; intros ?). apply returns_mret.
    intros Hu. apply list_elem_of_In in Hu. simpl in Hu.
    destruct Hu as [Hu|[Hu|[Hu|[Hu|[]]]]]; discriminate Hu.
  - intros e. apply failure_not_unavailable. repeat constructor.
Qed.

Lemma compare_visual_available p1 p2 dpi :
  visual_comparison (self_capabilities self) = true →
  total (compare_visual sys self p1 p2 dpi) (λ r, ¬ unavailable r).
Proof.
  intros Hcap. unfold compare_visual. rewrite Hcap. simpl negb. cbv iota.
  apply try_except_total.
  - do 2 (apply returns_bind; intros ?). case_bool_decide.
    + apply returns_mret.
      intros Hu. apply list_elem_of_In in Hu. simpl in Hu.
      destruct Hu as [Hu|[Hu|[Hu|[Hu|[]]]]]; discriminate Hu.
    + do 2 (apply returns_bind; intros ?). apply returns_mret.
      intros Hu. apply list_elem_of_In in Hu. simpl in Hu.
      destruct Hu as [Hu|[Hu|[Hu|[Hu|[]]]]]; discriminate Hu.
  - intros e. apply failure_not_unavailable. repeat constructor.
Qed.

Lemma compare_structure_available p1 p2 :
  structure_analysis (self_capabilities self) = true →
  total (compare_structure sys self p1 p2) (λ r, ¬ unavailable r).
Proof.
  intros Hcap. unfold compare_structure. rewrite Hcap. simpl negb. cbv iota.
  apply try_except_total.
  - do 3 (apply returns_bind; intros ?). apply returns_mret.
    intros Hu. apply list_elem_of_In in Hu. simpl in Hu.
    destruct Hu as [Hu|[Hu|[Hu|[Hu|[]]]]]; discriminate Hu.
  - intros e. apply failure_not_unavailable. repeat constructor.
Qed.

Lemma compare_metadata_available p1 p2 :
  metadata_comparison (self_capabilities self) = true →
  total (compare_metadata sys self p1 p2) (λ r, ¬ unavailable r).
Proof.
  intros Hcap. unfold compare_metadata. rewrite Hcap. simpl negb. cbv iota.
  apply try_except_total.
  - do 4 (apply returns_bind; intros ?). apply returns_mret.
    intros Hu. apply list_elem_of_In in Hu. simpl in Hu.
    destruct Hu as [Hu|[Hu|[Hu|[Hu|[]]]]]; discriminate Hu.
  - intros e. apply failure_not_unavailable. repeat constructor.
Qed.

Lemma compare_basic_info_available p1 p2 :
  total (compare_basic_info sys p1 p2) (λ r, ¬ unavailable r).
Proof.
  unfold compare_basic_info. apply try_except_total.
  - do 2 (apply returns_bind; intros ?).
    assert (∀ fs pc, ¬ unavailable (BasicInfoResult fs pc)) as Hb.
    { intros fs pc Hu. apply list_elem_of_In in Hu. simpl in Hu.
      destruct Hu as [Hu|[Hu|[Hu|[Hu|[]]]]]; discriminate Hu. }
    destruct (HAS_PYMUPDF sys).
    + do 2 (apply returns_bind; intros ?). apply returns_mret, Hb.
    + apply returns_mret, Hb.
  - intros e. apply failure_not_unavailable. repeat constructor.
Qed.

Lemma available_methods_spec (caps : capabilities) :
  ("text_comparison" ∈ available_methods caps → text_comparison caps = true)
  ∧ ("visual_comparison" ∈ available_methods caps → visual_comparison caps = true)
  ∧ ("structure_analysis" ∈ available_methods caps → structure_analysis caps = true)
  ∧ ("metadata_comparison" ∈ available_methods caps → metadata_comparison caps = true)
  ∧ filter (λ name, name ∈ available_methods caps) selectable = available_methods caps.
Proof.
  destruct caps as [[] [] [] []]; repeat split; try done;
    intros Hin; apply list_elem_of_In in Hin; vm_compute in Hin;
    repeat (destruct Hin as [Hin|Hin]; [discriminate Hin|]); done.
Qed.

(** X13. The methods by default: when no list of methods is given, the
    methods used are the capabilities that are available; the results are
    the basic information followed by one result for each of them, in the
    order of the capabilities; and none of these results is the error of a
    method that is not available. *)
Theorem comprehensive_compare_default_methods p1 p2 tr :
  os_path_exists sys p1 = true →
  os_path_exists sys p2 = true →
  ∃ results s tr',
    comprehensive_compare basename sys self p1 p2 None tr
    = (inr (Report (p1, p2) (available_methods (self_capabilities self)) results s), tr')
    ∧ results.*1 = "basic_info" :: available_methods (self_capabilities self)
    ∧ Forall (λ nr : string * result, ¬ unavailable nr.2) results.
Proof.
  intros He1 He2.
  destruct (available_methods_spec (self_capabilities self))
    as (Ht & Hv & Hs & Hm & Horder).
  set (used := available_methods (self_capabilities self)) in *.
  assert (total (comprehensive_compare basename sys self p1 p2 None)
            (λ out, ∃ results,
               out = Report (p1, p2) used results (summarize results)
               ∧ results.*1 = "basic_info" :: filter (λ name, name ∈ used) selectable
               ∧ Forall (λ nr : string * result, ¬ unavailable nr.2) results)) as Htotal.
  { unfold comprehensive_compare. fold (available_methods (self_capabilities self)).
    fold used.
    eapply total_bind; [apply total_invoke_inr|]. intros ? ->. rewrite He1. simpl negb. cbv iota.
    eapply total_bind; [apply total_invoke_inr|]. intros ? ->. rewrite He2. simpl negb. cbv iota.
    eapply total_bind; [apply compare_basic_info_available|].
    intros basic Hbasic.
    eapply total_bind.
    { apply run_if_selected_total_when. intros Hin. apply compare_text_available; auto. }
    intros rs1 H1. eapply total_bind.
    { apply run_if_selected_total_when. intros Hin. apply compare_visual_available; auto. }
    intros rs2 H2. eapply total_bind.
    { apply run_if_selected_total_when. intros Hin. apply compare_structure_available; auto. }
    intros rs3 H3. eapply total_bind.
    { apply run_if_selected_total_when. intros Hin. apply compare_metadata_available; auto. }
    intros rs4 H4. apply total_mret. exists rs4. split; [done|].
    unfold selectable. rewrite !filter_cons, filter_nil.
    destruct H1 as [[Hn1 ->]|(Hy1 & r1 & Hr1 & ->)];
    destruct H2 as [[Hn2 ->]|(Hy2 & r2 & Hr2 & ->)];
    destruct H3 as [[Hn3 ->]|(Hy3 & r3 & Hr3 & ->)];
    destruct H4 as [[Hn4 ->]|(Hy4 & r4 & Hr4 & ->)];
    repeat first [rewrite decide_True by done | rewrite decide_False by done];
    (split; [done|]); simpl; repeat constructor; done. }
  destruct (Htotal tr) as (out & tr' & Hrun & results & -> & Hnames & Hres).
  exists results, (summarize results), tr'. rewrite Horder in Hnames. done.
Qed.

End DefaultMethods.

Lemma comprehensive_compare_default_methods_witness :
  ∃ results s tr',
    comprehensive_compare demo_basename (demo true false true)
      (comparer true false true true) "a.pdf" "b.pdf" None []
    = (inr (Report ("a.pdf", "b.pdf")
              ["text_comparison"; "structure_analysis"; "metadata_comparison"]
              results s), tr')
    ∧ results.*1 = ["basic_info"; "text_comparison"; "structure_analysis";
                    "metadata_comparison"]
    ∧ Forall (λ nr : string * result, ¬ unavailable nr.2) results.
Proof.
  apply (comprehensive_compare_default_methods demo_basename (demo true false true)
           (comparer true false true true) "a.pdf" "b.pdf" []); reflexivity.
Defined.

(** ** What the list of differences leaves out *)

Lemma startswith_cons_drop (c : char) (p line : text) :
  startswith (c :: p) line = startswith [c] line && startswith p (drop 1 line).
Proof.
  destruct line as [|d line]; [done|]. simpl.
  by rewrite andb_true_r, drop_0.
Qed.

(** X14. A removed line that begins with two minus signs, and an added line
    that begins with two plus signs, are never listed: no removed entry has
    a content that begins with two minus signs, and no added entry one that
    begins with two plus signs, whatever the lines of the diff. *)
Theorem differences_never_begin_with_two_signs
    (diff_lines lines1 lines2 pages1 pages2 : list text) (e : difference) :
  e ∈ _extract_detailed_positions diff_lines lines1 lines2 pages1 pages2 →
  match d_type e with
  | removed => startswith (str "--") (d_content e) = false
  | added => startswith (str "++") (d_content e) = false
  end.
Proof.
  unfold _extract_detailed_positions. generalize 0 at 1. generalize 0.
  induction diff_lines as [|line rest IH]; intros c2 c1.
  - by intros ?%elem_of_nil.
  - rewrite extract_loop_cons.
    destruct (startswith (str "@@") line).
    { destruct (match_range_line line) as [[g1 g3]|]; apply IH. }
    destruct (startswith (str "---") line) eqn:Hm3; [apply IH|].
    destruct (startswith (str "+++") line) eqn:Hp3; [apply IH|].
    simpl orb. cbv iota.
    destruct (startswith (str "-") line) eqn:Hm.
    { intros [->|He]%elem_of_cons; [|by eapply IH]. simpl.
      change (str "---") with (45%N :: str "--") in Hm3.
      rewrite startswith_cons_drop in Hm3.
      change [45%N] with (str "-") in Hm3. by rewrite Hm in Hm3. }
    destruct (startswith (str "+") line) eqn:Hp; [|apply IH].
    intros [->|He]%elem_of_cons; [|by eapply IH]. simpl.
    change (str "+++") with (43%N :: str "++") in Hp3.
    rewrite startswith_cons_drop in Hp3.
    change [43%N] with (str "+") in Hp3. by rewrite Hp in Hp3.
Qed.

Lemma differences_never_begin_with_two_signs_witness :
  let diff_lines := [str "--- a.pdf"; str "+++ b.pdf"; str "@@ -1,2 +1 @@";
                     str "--- x"; str "-y"; str "+z"] in
  let e := removed_entry [] [] (str "y") 0 in
  e ∈ _extract_detailed_positions diff_lines [] [] [] []
  ∧ startswith (str "--") (d_content e) = false.
Proof.
  intros diff_lines e.
  assert (e ∈ _extract_detailed_positions diff_lines [] [] [] []) as He
    by (vm_compute; left).
  exact (conj He (differences_never_begin_with_two_signs diff_lines [] [] [] [] e He)).
Defined.

(** ** The similarity *)

Section Similarity.
Local Open Scope nat_scope.
Context {A : Type} `{Countable A}.

(** The sizes of blocks in increasing order add up to no more than what is
    left of either sequence. *)
Lemma chain_sizes la lb (blocks : list Match) : ∀ i0 j0,
  chain i0 j0 la lb blocks →
  i0 + sum_list ((λ m : Match, m.2) <$> blocks) ≤ la
  ∧ j0 + sum_list ((λ m : Match, m.2) <$> blocks) ≤ lb.
Proof.
  induction blocks as [|[[i j] k] blocks IH]; intros i0 j0 Hc.
  - simpl in *. lia.
  - destruct Hc as [[Hi Hj] Hc]. apply IH in Hc.
    assert (∀ x l, sum_list (x :: l) = x + sum_list l) as Hs by done.
    rewrite fmap_cons, Hs. cbn [snd]. lia.
Qed.

Lemma ratio_bounds (a b : list A) : (0 <= ratio a b <= 1)%Q.
Proof.
  unfold ratio, _calculate_ratio.
  pose proof (chain_sizes _ _ _ _ _ (get_matching_blocks_chain a b)) as [Ha Hb].
  set (M := sum_list _) in *.
  destruct (Nat.eqb_spec (length a + length b) 0) as [|Hne]; [done|].
  assert (0 < inject_Z (Z.of_nat (length a + length b)))%Q as Hpos.
  { unfold Qlt. simpl. lia. }
  split.
  - apply Qle_shift_div_l; [done|]. unfold Qle. simpl. lia.
  - apply Qle_shift_div_r; [done|]. unfold Qle. simpl. lia.
Qed.

End Similarity.

(** X15. The similarity the text comparison reports is between 0 and 1. *)
Theorem similarity_between_0_and_1 (pages1 pages2 : list text) (fromfile tofile : text)
    (detailed : bool) :
  ∃ similarity,
    similarity_of (text_result pages1 pages2 fromfile tofile detailed) = Some similarity
    ∧ (0 <= similarity <= 1)%Q.
Proof. eexists. split; [reflexivity|]. apply ratio_bounds. Qed.

(** ** Texts with the same lines *)

(** X16. Two texts with the same lines, which may still differ in their line
    breaks: the text comparison counts no added and no removed line and
    lists no difference, whether it says identical or not. *)
Theorem same_lines_no_changes (pages1 pages2 : list text) (fromfile tofile : text)
    (detailed : bool) :
  splitlines (join [NL] pages1) = splitlines (join [NL] pages2) →
  let r := text_result pages1 pages2 fromfile tofile detailed in
  ∃ identical similarity stats,
    r = TextResult identical similarity stats (diff_preview [])
    ∧ lines_added stats = 0%nat
    ∧ lines_removed stats = 0%nat
    ∧ total_changes stats = 0%nat.
Proof.
  intros Hlines r. unfold r, text_result. rewrite Hlines, unified_diff_same.
  rewrite andb_false_r. by eexists _, _, _.
Qed.

Lemma same_lines_no_changes_witness :
  let pages1 := [str "a" ++ [NL]] in
  let pages2 := [str "a"] in
  join [NL] pages1 ≠ join [NL] pages2
  ∧ ∃ identical similarity stats,
      text_result pages1 pages2 (str "a.pdf") (str "b.pdf") true
      = TextResult identical similarity stats (diff_preview [])
      ∧ lines_added stats = 0%nat
      ∧ lines_removed stats = 0%nat
      ∧ total_changes stats = 0%nat.
Proof.
  intros pages1 pages2. split; [by vm_compute|].
  apply (same_lines_no_changes pages1 pages2 (str "a.pdf") (str "b.pdf") true).
  reflexivity.
Defined.

(** ** The opcodes tile the two sequences *)

Section Tiling.
Local Open Scope nat_scope.

Lemma ops_tile_le (ops : list opcode) : ∀ i0 j0 i9 j9,
  ops_tile i0 j0 i9 j9 ops → i0 ≤ i9 ∧ j0 ≤ j9.
Proof.
  induction ops as [|[[[[tag i1] i2] j1] j2] ops IH]; intros i0 j0 i9 j9; simpl.
  - lia.
  - intros ((-> & -> & ? & ?) & _ & Hrest). apply IH in Hrest. lia.
Qed.

Lemma ops_tile_app (xs ys : list opcode) : ∀ i0 j0 i9 j9,
  ops_tile i0 j0 i9 j9 (xs ++ ys)
  ↔ ∃ i j, ops_tile i0 j0 i j xs ∧ ops_tile i j i9 j9 ys.
Proof.
  induction xs as [|[[[[tag i1] i2] j1] j2] xs IH]; intros i0 j0 i9 j9; simpl.
  - split; [intros ?; by exists i0, j0|by intros (i & j & [-> ->] & ?)].
  - rewrite IH. split.
    + intros (? & ? & i & j & ? & ?). by exists i, j.
    + intros (i & j & (? & ? & ?) & ?). eauto 10.
Qed.

Lemma opcodes_loop_tile la lb (blocks : list Match) : ∀ i j,
  chain i j la lb (blocks ++ [(la, lb, 0)]) →
  ops_tile i j la lb (opcodes_loop (blocks ++ [(la, lb, 0)]) i j).
Proof.
  induction blocks as [|[[ai bj] size] blocks IH]; intros i j Hc.
  - simpl in *. destruct Hc as [[Hi Hj] _].
    destruct (Nat.ltb_spec i la), (Nat.ltb_spec j lb); simpl; repeat split; lia.
  - rewrite <- app_comm_cons in *. cbn [chain opcodes_loop] in *.
    destruct Hc as [[Hi Hj] Hc]. apply IH in Hc.
    destruct (Nat.ltb_spec i ai), (Nat.ltb_spec j bj), (Nat.eqb_spec size 0);
      simpl; repeat split; try lia; try done.
    all: try (replace ai with i in * by lia); try (replace bj with j in * by lia).
    all: subst; rewrite ?Nat.add_0_r in *; done.
Qed.

Lemma get_opcodes_tile {A} `{Countable A} (a b : list A) :
  ops_tile 0 0 (length a) (length b) (get_opcodes a b).
Proof.
  unfold get_opcodes. pose proof (get_matching_blocks_chain a b) as Hc.
  unfold get_matching_blocks in *. by apply opcodes_loop_tile.
Qed.

Lemma fix_first_tile n (codes : list opcode) i9 j9 :
  ops_tile 0 0 i9 j9 codes → ∃ i0 j0, ops_tile i0 j0 i9 j9 (fix_first n codes).
Proof.
  destruct codes as [|[[[[tag i1] i2] j1] j2] codes]; [by exists 0, 0|].
  intros Ht. destruct tag; try by exists 0, 0.
  destruct Ht as ((-> & -> & ? & ?) & ? & Hrest).
  exists (0 `max` (i2 - n)), (0 `max` (j2 - n)). simpl. repeat split; try lia. done.
Qed.

Lemma fix_last_tile n (codes : list opcode) : ∀ i0 j0 i9 j9,
  ops_tile i0 j0 i9 j9 codes →
  ∃ i9' j9', ops_tile i0 j0 i9' j9' (fix_last n codes) ∧ i9' ≤ i9 ∧ j9' ≤ j9.
Proof.
  induction codes as [|[[[[tag i1] i2] j1] j2] codes IH]; intros i0 j0 i9 j9 Ht.
  - by exists i9, j9.
  - destruct Ht as (Hop & Htag & Hrest). destruct codes as [|c codes].
    + destruct Hrest as [<- <-]. destruct Hop as (-> & -> & ? & ?).
      destruct tag; try (exists i2, j2; simpl; repeat split; try lia; done).
      exists (i2 `min` (i0 + n)), (j2 `min` (j0 + n)). simpl. repeat split; lia.
    + destruct (IH _ _ _ _ Hrest) as (i9' & j9' & Hrest' & ? & ?).
      exists i9', j9'. split; [|done].
      destruct tag; (split; [exact Hop|split; [exact Htag|exact Hrest']]).
Qed.

Lemma group_shown_ne (group : list opcode) : group_shown group = true → group ≠ [].
Proof. by destruct group. Qed.

Lemma group_loop_tiles n la lb (codes : list opcode) : ∀ group i0 j0 i9 j9,
  ops_tile i0 j0 i9 j9 (group ++ codes) → i9 ≤ la → j9 ≤ lb →
  Forall (group_tiles la lb) (group_loop n codes group).
Proof.
  induction codes as [|[[[[tag i1] i2] j1] j2] codes IH];
    intros group i0 j0 i9 j9 Ht Hi Hj; simpl.
  - destruct (group_shown group) eqn:Hs; [|constructor].
    repeat constructor; [by apply group_shown_ne|].
    rewrite app_nil_r in Ht. eauto 10.
  - destruct (bool_decide (tag = Equal) && (n + n <? i2 - i1)) eqn:Hbig.
    + apply andb_true_iff in Hbig as [->%bool_decide_eq_true _].
      apply ops_tile_app in Ht as (i & j & Hg & Hop).
      destruct Hop as ((-> & -> & ? & ?) & Htag & Hrest).
      pose proof (ops_tile_le _ _ _ _ _ Hrest) as [? ?].
      constructor.
      * split; [by destruct group|].
        exists i0, j0, (i2 `min` (i + n)), (j2 `min` (j + n)).
        split; [|lia]. apply ops_tile_app. exists i, j. split; [done|].
        simpl. repeat split; lia.
      * apply (IH [(Equal, i `max` (i2 - n), i2, j `max` (j2 - n), j2)]
                 (i `max` (i2 - n)) (j `max` (j2 - n)) i9 j9); [|done|done].
        simpl. repeat split; try lia. done.
    + apply (IH _ i0 j0 i9 j9); [|done|done]. by rewrite <- app_assoc.
Qed.

(** The groups of [unified_diff] tile parts of the two sequences, unless
    both sequences are empty. *)
Lemma get_grouped_opcodes_tiles {A} `{Countable A} (a b : list A) n :
  a ≠ [] ∨ b ≠ [] →
  Forall (group_tiles (length a) (length b)) (get_grouped_opcodes a b n).
Proof.
  intros Hne. unfold get_grouped_opcodes.
  pose proof (get_opcodes_tile a b) as Ht.
  destruct (get_opcodes a b) as [|c codes] eqn:Hcodes.
  { destruct Ht as [Ha Hb]. destruct a, b; try done. by destruct Hne. }
  destruct (fix_first_tile n _ _ _ Ht) as (i0 & j0 & Ht1).
  destruct (fix_last_tile n _ _ _ _ _ Ht1) as (i9 & j9 & Ht2 & ? & ?).
  by apply (group_loop_tiles n _ _ _ [] i0 j0 i9 j9).
Qed.

End Tiling.

(** ** Where the differences are *)

Section Located.

Variables a b : list text.
Variables lines1 lines2 pages1 pages2 : list text.

Lemma slice_lookup {X} (l : list X) (i i2 t : nat) (x : X) :
  slice l i i2 !! t = Some x → l !! (i + t)%nat = Some x.
Proof.
  unfold slice. intros [Hl _]%lookup_take_Some. by rewrite lookup_drop in Hl.
Qed.

Lemma slice_length {X} (l : list X) (i i2 : nat) :
  (i ≤ i2 ≤ length l)%nat → len (slice l i i2) = Z.of_nat i2 - Z.of_nat i.
Proof.
  intros Hi. unfold len, slice. rewrite length_take, length_drop. lia.
Qed.

Lemma removed_run_located (i i2 : nat) :
  Forall (located a b) (removed_run lines1 pages1 (Z.of_nat i) (slice a i i2)).
Proof.
  apply Forall_lookup. intros t e. unfold removed_run.
  rewrite list_lookup_imap. destruct (slice a i i2 !! t) as [x|] eqn:Hx; [|done].
  intros [= <-]. apply slice_lookup in Hx. split; simpl; [lia|].
  by replace (Z.to_nat (Z.of_nat i + Z.of_nat t + 1 - 1)) with (i + t)%nat by lia.
Qed.

Lemma added_run_located (j j2 : nat) :
  Forall (located a b) (added_run lines2 pages2 (Z.of_nat j) (slice b j j2)).
Proof.
  apply Forall_lookup. intros t e. unfold added_run.
  rewrite list_lookup_imap. destruct (slice b j j2 !! t) as [x|] eqn:Hx; [|done].
  intros [= <-]. apply slice_lookup in Hx. split; simpl; [lia|].
  by replace (Z.to_nat (Z.of_nat j + Z.of_nat t + 1 - 1)) with (j + t)%nat by lia.
Qed.

Lemma no_prefix_slice (p : text) (l : list text) (i i2 : nat) :
  no_prefix p l → no_prefix p (slice l i i2).
Proof.
  unfold no_prefix. rewrite !Forall_forall. intros Hl x Hx. by eapply Hl, elem_of_slice.
Qed.

Hypothesis Ha : no_prefix (str "--") a.
Hypothesis Hb : no_prefix (str "++") b.

(** The lines of the opcodes of a group, walked with the cursors on the
    lines of the opcodes or, when no line of a sequence is left in the
    group, anywhere. *)
Lemma walk_tile (ops : list opcode) rest : ∀ (i j i9 j9 : nat) (c1 c2 : Z),
  ops_tile i j i9 j9 ops →
  (i9 ≤ length a)%nat → (j9 ≤ length b)%nat →
  c1 = Z.of_nat i ∨ i = i9 →
  c2 = Z.of_nat j ∨ j = j9 →
  ∃ es c1' c2',
    extract_loop (concat (dump_opcode a b <$> ops) ++ rest)
      lines1 lines2 pages1 pages2 c1 c2
    = es ++ extract_loop rest lines1 lines2 pages1 pages2 c1' c2'
    ∧ Forall (located a b) es.
Proof.
  induction ops as [|[[[[tag i1] i2] j1] j2] ops IH]; intros i j i9 j9 c1 c2 Ht Hi9 Hj9 Hc1 Hc2.
  - by exists [], c1, c2.
  - destruct Ht as ((-> & -> & Hi & Hj) & Htag & Hrest).
    pose proof (ops_tile_le _ _ _ _ _ Hrest) as [Hi2 Hj2].
    rewrite fmap_cons, concat_cons, <- app_assoc.
    set (rest' := concat (dump_opcode a b <$> ops) ++ rest).
    assert (slice a i i2 = [] ∨ c1 = Z.of_nat i) as Hxs.
    { destruct Hc1 as [?|?]; [by right|left]. apply slice_empty. lia. }
    assert (slice b j j2 = [] ∨ c2 = Z.of_nat j) as Hys.
    { destruct Hc2 as [?|?]; [by right|left]. apply slice_empty. lia. }
    assert (∀ c, c = c1 + len (slice a i i2) → c = Z.of_nat i2 ∨ i2 = i9) as Hnext1.
    { intros c ->. destruct Hc1 as [->|?]; [left|right; lia].
      rewrite slice_length by lia. lia. }
    assert (∀ c, c = c2 + len (slice b j j2) → c = Z.of_nat j2 ∨ j2 = j9) as Hnext2.
    { intros c ->. destruct Hc2 as [->|?]; [left|right; lia].
      rewrite slice_length by lia. lia. }
    assert (Forall (located a b) (removed_run lines1 pages1 c1 (slice a i i2))) as Hrem.
    { destruct Hxs as [->| ->]; [constructor|apply removed_run_located]. }
    assert (Forall (located a b) (added_run lines2 pages2 c2 (slice b j j2))) as Hadd.
    { destruct Hys as [->| ->]; [constructor|apply added_run_located]. }
    destruct tag.
    + (* replace *)
      change (dump_opcode a b (Replace, i, i2, j, j2))
        with ((prefix_line (str "-") <$> slice a i i2)
              ++ (prefix_line (str "+") <$> slice b j j2)).
      rewrite <- app_assoc, walk_minus_exact by by apply no_prefix_slice.
      rewrite walk_plus_exact by by apply no_prefix_slice.
      destruct (IH i2 j2 i9 j9 (c1 + len (slice a i i2)) (c2 + len (slice b j j2)))
        as (es & c1' & c2' & Heq & Hes); auto.
      exists (removed_run lines1 pages1 c1 (slice a i i2)
              ++ added_run lines2 pages2 c2 (slice b j j2) ++ es), c1', c2'.
      subst rest'. rewrite Heq, <- !app_assoc. split; [done|].
      by rewrite !Forall_app.
    + (* delete *)
      change (dump_opcode a b (Delete, i, i2, j, j2))
        with ((prefix_line (str "-") <$> slice a i i2) ++ []).
      rewrite app_nil_r, walk_minus_exact by by apply no_prefix_slice.
      destruct (IH i2 j2 i9 j9 (c1 + len (slice a i i2)) c2)
        as (es & c1' & c2' & Heq & Hes); auto.
      { subst j2. done. }
      exists (removed_run lines1 pages1 c1 (slice a i i2) ++ es), c1', c2'.
      subst rest'. rewrite Heq, <- !app_assoc. split; [done|].
      by rewrite !Forall_app.
    + (* insert *)
      change (dump_opcode a b (Insert, i, i2, j, j2))
        with (prefix_line (str "+") <$> slice b j j2).
      rewrite walk_plus_exact by by apply no_prefix_slice.
      destruct (IH i2 j2 i9 j9 c1 (c2 + len (slice b j j2)))
        as (es & c1' & c2' & Heq & Hes); auto.
      { subst i2. done. }
      exists (added_run lines2 pages2 c2 (slice b j j2) ++ es), c1', c2'.
      subst rest'. rewrite Heq, <- !app_assoc. split; [done|].
      by rewrite !Forall_app.
    + (* equal *)
      change (dump_opcode a b (Equal, i, i2, j, j2))
        with (prefix_line (str " ") <$> slice a i i2).
      rewrite walk_context_run.
      apply (IH i2 j2 i9 j9); auto.
      apply Hnext2.
      destruct (decide (i2 ≤ length a ∧ j2 ≤ length b)%nat) as [[? ?]|];
        [|lia].
      unfold len at 1 2. unfold len in *. unfold slice.
      rewrite !length_take, !length_drop. lia.
Qed.

Lemma ops_tile_first_last (g : list opcode) : ∀ i0 j0 i9 j9 f l,
  ops_tile i0 j0 i9 j9 g → head g = Some f → last g = Some l →
  f.1.1.1.2 = i0 ∧ f.1.2 = j0 ∧ l.1.1.2 = i9 ∧ l.2 = j9.
Proof.
  induction g as [|[[[[tag i1] i2] j1] j2] g IH]; intros i0 j0 i9 j9 f l Ht Hf Hl; [done|].
  destruct Ht as ((-> & -> & ? & ?) & _ & Hrest). injection Hf as <-. simpl.
  destruct g as [|op g].
  - injection Hl as <-. destruct Hrest as [<- <-]. done.
  - rewrite last_cons_cons in Hl. destruct op as [[[[tag' i1'] i2'] j1'] j2'].
    destruct (IH i2 j2 i9 j9 _ l Hrest eq_refl Hl) as (_ & _ & ? & ?). done.
Qed.

Lemma walk_group_located (group : list opcode) rest c1 c2 :
  group_tiles (length a) (length b) group →
  ∃ es c1' c2',
    extract_loop (dump_group a b [] group ++ rest) lines1 lines2 pages1 pages2 c1 c2
    = es ++ extract_loop rest lines1 lines2 pages1 pages2 c1' c2'
    ∧ Forall (located a b) es.
Proof.
  intros [Hne (i0 & j0 & i9 & j9 & Ht & Hi9 & Hj9)].
  destruct group as [|f g]; [done|]. clear Hne.
  destruct (proj2 (last_is_Some (f :: g)) ltac:(done)) as [l Hl].
  destruct (ops_tile_first_last _ _ _ _ _ f l Ht eq_refl Hl) as (Hf1 & Hf2 & Hl1 & Hl2).
  pose proof (ops_tile_le _ _ _ _ _ Ht) as [? ?].
  unfold dump_group. rewrite Hl. simpl head. simpl default.
  rewrite <- app_comm_cons.
  rewrite extract_loop_range_line by lia.
  rewrite Hf1, Hf2, Hl1, Hl2.
  apply (walk_tile (f :: g) rest i0 j0 i9 j9); try done.
  - unfold range_begin. destruct (Z.eqb_spec (Z.of_nat i9 - Z.of_nat i0) 0); [right|left]; lia.
  - unfold range_begin. destruct (Z.eqb_spec (Z.of_nat j9 - Z.of_nat j0) 0); [right|left]; lia.
Qed.

Lemma walk_groups_located (groups : list (list opcode)) : ∀ c1 c2,
  Forall (group_tiles (length a) (length b)) groups →
  Forall (located a b)
    (extract_loop (concat (dump_group a b [] <$> groups))
       lines1 lines2 pages1 pages2 c1 c2).
Proof.
  induction groups as [|g groups IH]; intros c1 c2 Hok; [constructor|].
  apply Forall_cons in Hok as [Hg Hok].
  rewrite fmap_cons, concat_cons.
  destruct (walk_group_located g (concat (dump_group a b [] <$> groups)) c1 c2 Hg)
    as (es & c1' & c2' & -> & Hes).
  apply Forall_app. split; [done|]. by apply IH.
Qed.

Lemma unified_diff_located fromfile tofile n :
  Forall (located a b)
    (_extract_detailed_positions (unified_diff a b fromfile tofile [] [] n [])
       lines1 lines2 pages1 pages2).
Proof.
  destruct (decide (a = [] ∧ b = [])) as [[-> ->]|Hne].
  { rewrite unified_diff_same. constructor. }
  assert (a ≠ [] ∨ b ≠ []) as Hne'.
  { destruct a, b; try (by left); try (by right). by destruct Hne. }
  pose proof (get_grouped_opcodes_tiles a b n Hne') as Hok.
  unfold _extract_detailed_positions, unified_diff.
  destruct (get_grouped_opcodes a b n) as [|g groups]; [constructor|].
  rewrite extract_loop_file_names. by apply walk_groups_located.
Qed.

End Located.

(** X17. The differences are where they say: when no line of the first text
    begins with two minus signs and no line of the second with two plus
    signs, every removed entry of a detailed text comparison has the number
    and the content of a line of the first text, and every added entry
    those of a line of the second. *)
Theorem differences_located (pages1 pages2 : list text) (fromfile tofile : text) :
  no_prefix (str "--") (lines_of pages1) →
  no_prefix (str "++") (lines_of pages2) →
  Forall (located (lines_of pages1) (lines_of pages2))
    (detailed_diff pages1 pages2 fromfile tofile).
Proof.
  intros H1 H2. unfold detailed_diff, text_result, differences_of.
  fold (lines_of pages1) (lines_of pages2).
  destruct (true && _); [|constructor].
  by apply unified_diff_located.
Qed.

Lemma differences_located_witness :
  let pages1 := [lines_text ["A"; "B"; "C"]] in
  let pages2 := [lines_text ["A"; "X"; "C"]] in
  detailed_diff pages1 pages2 (str "a.pdf") (str "b.pdf") ≠ []
  ∧ Forall (located (lines_of pages1) (lines_of pages2))
      (detailed_diff pages1 pages2 (str "a.pdf") (str "b.pdf")).
Proof.
  intros pages1 pages2. split; [by vm_compute|].
  apply (differences_located pages1 pages2 (str "a.pdf") (str "b.pdf"));
    vm_compute; repeat constructor.
Defined.

(** ** The matching blocks are matches *)

Section Genuine.
Local Open Scope nat_scope.
Context {A : Type} `{Countable A}.
Variables a b : list A.

Lemma genuine_nil i j : genuine a b (i, j, 0).
Proof. intros t Ht. simpl in Ht. lia. Qed.

Lemma genuine_snoc i j k x :
  genuine a b (i, j, k) → a !! (i + k) = Some x → b !! (j + k) = Some x →
  genuine a b (i, j, k + 1).
Proof.
  intros Hg Hx Hy t Ht. simpl in *.
  destruct (decide (t = k)) as [->|]; [by exists x|]. apply Hg. simpl. lia.
Qed.

Lemma genuine_cons i j k x :
  genuine a b (S i, S j, k) → a !! i = Some x → b !! j = Some x →
  genuine a b (i, j, k + 1).
Proof.
  intros Hg Hx Hy t Ht. simpl in *.
  destruct t as [|t]; [rewrite !Nat.add_0_r; by exists x|].
  destruct (Hg t) as (y & ? & ?); [simpl; lia|]. simpl in *.
  exists y. by rewrite <- !Nat.add_succ_comm.
Qed.

Lemma genuine_app i j k1 k2 :
  genuine a b (i, j, k1) → genuine a b (i + k1, j + k1, k2) →
  genuine a b (i, j, k1 + k2).
Proof.
  intros H1 H2 t Ht. simpl in *.
  destruct (decide (t < k1)) as [?|?]; [by apply H1|].
  destruct (H2 (t - k1)) as (x & ? & ?); [simpl; lia|]. simpl in *.
  exists x. by replace (i + t) with (i + k1 + (t - k1)) by lia;
              replace (j + t) with (j + k1 + (t - k1)) by lia.
Qed.

Lemma b2j_get_equal i j :
  j ∈ b2j_get a b i → ∃ x, a !! i = Some x ∧ b !! j = Some x.
Proof.
  unfold b2j_get. destruct (a !! i) as [x|]; [|by intros ?%elem_of_nil].
  destruct (b2j b !! x) as [js|] eqn:Hjs; [|by intros ?%elem_of_nil]. simpl.
  rewrite (b2j_lookup_Some _ _ _ Hjs). intros [_ Hj]%elem_of_indices_from.
  rewrite Nat.sub_0_r in Hj. by exists x.
Qed.

Lemma flm_inner_genuine i blo bhi j2len js : ∀ newj2len best,
  (∀ j k, j2len !! j = Some k → k ≤ i ∧ k ≤ j + 1 ∧ genuine a b (i - k, j + 1 - k, k)) →
  (∀ j, j ∈ js → ∃ x, a !! i = Some x ∧ b !! j = Some x) →
  row_genuine a b i newj2len →
  genuine a b best →
  row_genuine a b i (flm_inner i blo bhi j2len js newj2len best).1
  ∧ genuine a b (flm_inner i blo bhi j2len js newj2len best).2.
Proof.
  induction js as [|j js IH]; intros newj2len best Hprev Hjs Hnew Hbest; simpl; [done|].
  assert (∀ j', j' ∈ js → ∃ x, a !! i = Some x ∧ b !! j' = Some x) as Hjs'
    by (intros j' ?; apply Hjs; by right).
  destruct (Nat.ltb_spec j blo); [by apply IH|].
  destruct (Nat.leb_spec bhi j); [done|].
  assert (j2lenget j2len j ≤ i ∧ j2lenget j2len j ≤ j
          ∧ genuine a b (i - j2lenget j2len j, j - j2lenget j2len j, j2lenget j2len j))
    as (Hk1 & Hk2 & Hk).
  { unfold j2lenget. destruct j as [|j'].
    - repeat split; [lia..|apply genuine_nil].
    - destruct (j2len !! j') as [k'|] eqn:Hk'; simpl.
      + apply Hprev in Hk' as (? & ? & Hg). repeat split; [lia..|].
        by replace (j' + 1 - k') with (S j' - k') in Hg by lia.
      + repeat split; [lia..|apply genuine_nil]. }
  set (k0 := j2lenget j2len j) in *.
  destruct (Hjs j ltac:(left)) as (x & Hx & Hy).
  assert (genuine a b (i + 1 - (k0 + 1), j + 1 - (k0 + 1), k0 + 1)) as Hg.
  { replace (i + 1 - (k0 + 1)) with (i - k0) by lia.
    replace (j + 1 - (k0 + 1)) with (j - k0) by lia.
    apply (genuine_snoc _ _ _ x); [done|..].
    - by replace (i - k0 + k0) with i by lia.
    - by replace (j - k0 + k0) with j by lia. }
  apply IH; [done|done| |].
  - intros j0 k. destruct (decide (j = j0)) as [<-|Hne].
    + rewrite lookup_insert_eq. intros [= <-]. split; [lia|done].
    + rewrite lookup_insert_ne by done. apply Hnew.
  - by destruct (best.2 <? k0 + 1).
Qed.

Lemma flm_outer_genuine blo bhi n : ∀ i j2len best,
  (∀ j k, j2len !! j = Some k → k ≤ i ∧ k ≤ j + 1 ∧ genuine a b (i - k, j + 1 - k, k)) →
  genuine a b best →
  genuine a b (flm_outer a b blo bhi (seq i n) j2len best).
Proof.
  induction n as [|n IH]; intros i j2len best Hprev Hbest; simpl; [done|].
  pose proof (flm_inner_genuine i blo bhi j2len (b2j_get a b i) ∅ best Hprev) as Hin.
  destruct (flm_inner i blo bhi j2len (b2j_get a b i) ∅ best) as [new best'].
  destruct Hin as [Hnew Hbest']; [apply b2j_get_equal| |done|].
  { intros j k. by rewrite lookup_empty. }
  apply IH; [|done].
  intros j k Hjk. apply Hnew in Hjk as ([? ?] & Hg). simpl in *.
  repeat split; [lia..|]. by replace (i + 1 - k) with (S i - k) in Hg by lia.
Qed.

Lemma elem_eqb_true (x y : option A) :
  elem_eqb x y = true → ∃ z, x = Some z ∧ y = Some z.
Proof.
  destruct x as [x|], y as [y|]; try done. simpl.
  intros ->%bool_decide_eq_true. by exists y.
Qed.

Lemma extend_back_genuine junk alo blo : ∀ besti bestj bestsize,
  genuine a b (besti, bestj, bestsize) →
  genuine a b (extend_back a b junk alo blo besti bestj bestsize).
Proof.
  induction besti as [|i' IH]; intros bestj bestsize Hbest; simpl; [done|].
  destruct bestj as [|j']; [done|].
  destruct (_ && _) eqn:Hc; [|done].
  apply andb_true_iff in Hc as [_ (x & Hx & Hy)%elem_eqb_true].
  apply IH. by apply (genuine_cons _ _ _ x).
Qed.

Lemma extend_fwd_genuine junk ahi bhi fuel : ∀ besti bestj bestsize,
  genuine a b (besti, bestj, bestsize) →
  genuine a b (extend_fwd a b junk fuel ahi bhi besti bestj bestsize).
Proof.
  induction fuel as [|fuel IH]; intros besti bestj bestsize Hbest; simpl; [done|].
  destruct (_ && _) eqn:Hc; [|done].
  apply andb_true_iff in Hc as [_ (x & Hx & Hy)%elem_eqb_true].
  apply IH. by apply (genuine_snoc _ _ _ x).
Qed.

Lemma extend_genuine junk alo ahi blo bhi best :
  genuine a b best → genuine a b (extend a b junk alo ahi blo bhi best).
Proof.
  intros Hbest. unfold extend. destruct best as [[besti bestj] bestsize].
  pose proof (extend_back_genuine junk alo blo besti bestj bestsize Hbest) as Hback.
  destruct (extend_back a b junk alo blo besti bestj bestsize) as [[i j] k].
  by apply extend_fwd_genuine.
Qed.

(** What [find_longest_match] returns is a match. *)
Lemma find_longest_match_genuine alo ahi blo bhi :
  genuine a b (find_longest_match a b alo ahi blo bhi).
Proof.
  unfold find_longest_match. do 2 apply extend_genuine.
  apply flm_outer_genuine; [|apply genuine_nil].
  intros j k. by rewrite lookup_empty.
Qed.

Lemma matching_loop_genuine fuel : ∀ queue blocks,
  Forall (genuine a b) blocks →
  Forall (genuine a b) (matching_loop a b fuel queue blocks).2.
Proof.
  induction fuel as [|fuel IH]; intros queue blocks Hblocks; simpl; [done|].
  destruct queue as [|[[[alo ahi] blo] bhi] queue]; [done|].
  pose proof (find_longest_match_genuine alo ahi blo bhi) as Hm.
  destruct (find_longest_match a b alo ahi blo bhi) as [[i j] k].
  destruct (Nat.eqb k 0); [by apply IH|].
  apply IH. apply Forall_app. split; [done|]. by constructor.
Qed.

Lemma collapse_genuine (blocks : list Match) : ∀ i1 j1 k1,
  Forall (genuine a b) blocks → genuine a b (i1, j1, k1) →
  Forall (genuine a b) (collapse blocks i1 j1 k1).
Proof.
  induction blocks as [|[[i2 j2] k2] blocks IH]; intros i1 j1 k1 Hblocks Hm; simpl.
  - destruct (k1 =? 0); by repeat constructor.
  - apply Forall_cons in Hblocks as [Hm2 Hblocks].
    destruct (Nat.eqb_spec (i1 + k1) i2) as [<-|]; simpl.
    + destruct (Nat.eqb_spec (j1 + k1) j2) as [<-|]; simpl.
      * apply IH; [done|]. by apply genuine_app.
      * apply Forall_app. split; [destruct (k1 =? 0); by repeat constructor|by apply IH].
    + apply Forall_app. split; [destruct (k1 =? 0); by repeat constructor|by apply IH].
Qed.

(** Every matching block pairs equal elements. *)
Lemma get_matching_blocks_genuine : Forall (genuine a b) (get_matching_blocks a b).
Proof.
  unfold get_matching_blocks. apply Forall_app. split.
  - apply collapse_genuine; [|apply genuine_nil].
    rewrite merge_sort_Permutation. by apply matching_loop_genuine.
  - repeat constructor. apply genuine_nil.
Qed.

(** Blocks in increasing order whose sizes add up to the lengths of both
    sequences pair every element of the one with the element at the same
    place of the other. *)
Lemma chain_full (blocks : list Match) : ∀ i0,
  chain i0 i0 (length a) (length b) blocks →
  Forall (genuine a b) blocks →
  i0 + sum_list ((λ m : Match, m.2) <$> blocks) = length a →
  i0 + sum_list ((λ m : Match, m.2) <$> blocks) = length b →
  ∀ t, i0 ≤ t → a !! t = b !! t.
Proof.
  assert (∀ x l, sum_list (x :: l) = x + sum_list l) as Hs by done.
  induction blocks as [|[[i j] k] blocks IH]; intros i0 Hc Hg Ha Hb t Ht.
  - simpl in *. rewrite !lookup_ge_None_2; [done|lia..].
  - destruct Hc as [[Hi Hj] Hc]. apply Forall_cons in Hg as [Hm Hg].
    rewrite fmap_cons, Hs in Ha, Hb. cbn [snd] in Ha, Hb.
    pose proof (chain_sizes _ _ _ _ _ Hc) as [Hla Hlb].
    assert (i = i0) as -> by lia. assert (j = i0) as -> by lia.
    destruct (decide (t < i0 + k)) as [Hlt|Hge].
    + destruct (Hm (t - i0)) as (x & Hx & Hy); [simpl; lia|]. simpl in *.
      replace (i0 + (t - i0)) with t in * by lia. by rewrite Hx, Hy.
    + apply (IH (i0 + k)); [done|done|lia..].
Qed.

(** Two sequences with a ratio of 1 are equal. *)
Lemma ratio_1_eq : (ratio a b == 1)%Q → a = b.
Proof.
  unfold ratio, _calculate_ratio.
  pose proof (get_matching_blocks_chain a b) as Hc.
  pose proof (chain_sizes _ _ _ _ _ Hc) as [Hla Hlb].
  pose proof get_matching_blocks_genuine as Hg.
  set (M := sum_list _) in *.
  destruct (Nat.eqb_spec (length a + length b) 0) as [Hz|Hne].
  { intros _. destruct a, b; simpl in *; try lia. done. }
  intros Hr.
  assert (2 * M = length a + length b) as HM.
  { pose proof (Qmult_div_r (2 * inject_Z (Z.of_nat M))
                  (inject_Z (Z.of_nat (length a + length b)))) as Hd.
    rewrite Hr in Hd. unfold Qeq in Hd. simpl in Hd.
    specialize (Hd ltac:(lia)). lia. }
  assert (length a = M ∧ length b = M) as [Hea Heb] by lia.
  apply list_eq. intros t.
  apply (chain_full _ 0 Hc Hg); subst M; lia.
Qed.

End Genuine.

(** X18. The similarity of the text comparison is 1 exactly when the result
    says identical, that is, when the two texts are equal. *)
Theorem similarity_1_iff_identical (pages1 pages2 : list text) (fromfile tofile : text)
    (detailed : bool) :
  let r := text_result pages1 pages2 fromfile tofile detailed in
  ∃ identical similarity,
    text_identical_of r = Some identical
    ∧ similarity_of r = Some similarity
    ∧ ((similarity == 1)%Q ↔ identical = true)
    ∧ (identical = true ↔ join [NL] pages1 = join [NL] pages2).
Proof.
  intros r. eexists _, _. split; [reflexivity|]. split; [reflexivity|].
  rewrite bool_decide_eq_true. split; [|done]. split.
  - apply ratio_1_eq.
  - intros ->. apply ratio_same.
Qed.

(** ** No line that differs is missed *)

Section Coverage.
Local Open Scope nat_scope.

(** The opcodes that tile a range cover each of its positions. *)
Lemma ops_tile_cover_a (ops : list opcode) : ∀ i0 j0 i9 j9 t,
  ops_tile i0 j0 i9 j9 ops → i0 ≤ t < i9 →
  ∃ tag i1 i2 j1 j2, (tag, i1, i2, j1, j2) ∈ ops ∧ i1 ≤ t < i2.
Proof.
  induction ops as [|[[[[tag i1] i2] j1] j2] ops IH]; intros i0 j0 i9 j9 t; simpl.
  - lia.
  - intros ((-> & -> & ? & ?) & _ & Hrest) Ht.
    destruct (decide (t < i2)) as [?|?].
    + exists tag, i0, i2, j0, j2. split; [left|lia].
    + destruct (IH _ _ _ _ t Hrest ltac:(lia)) as (tag' & i1' & i2' & j1' & j2' & ? & ?).
      exists tag', i1', i2', j1', j2'. split; [by right|done].
Qed.

Lemma ops_tile_cover_b (ops : list opcode) : ∀ i0 j0 i9 j9 t,
  ops_tile i0 j0 i9 j9 ops → j0 ≤ t < j9 →
  ∃ tag i1 i2 j1 j2, (tag, i1, i2, j1, j2) ∈ ops ∧ j1 ≤ t < j2.
Proof.
  induction ops as [|[[[[tag i1] i2] j1] j2] ops IH]; intros i0 j0 i9 j9 t; simpl.
  - lia.
  - intros ((-> & -> & ? & ?) & _ & Hrest) Ht.
    destruct (decide (t < j2)) as [?|?].
    + exists tag, i0, i2, j0, j2. split; [left|lia].
    + destruct (IH _ _ _ _ t Hrest ltac:(lia)) as (tag' & i1' & i2' & j1' & j2' & ? & ?).
      exists tag', i1', i2', j1', j2'. split; [by right|done].
Qed.

(** The shape of each opcode of a tiling. *)
Lemma ops_tile_shape (ops : list opcode) : ∀ i0 j0 i9 j9 tag i1 i2 j1 j2,
  ops_tile i0 j0 i9 j9 ops → (tag, i1, i2, j1, j2) ∈ ops →
  match tag with
  | Equal => i2 - i1 = j2 - j1
  | Delete => j1 = j2
  | Insert => i1 = i2
  | Replace => True
  end.
Proof.
  induction ops as [|[[[[tag' i1'] i2'] j1'] j2'] ops IH];
    intros i0 j0 i9 j9 tag i1 i2 j1 j2; simpl.
  - by intros _ ?%elem_of_nil.
  - intros (_ & Htag & Hrest) [[= -> -> -> -> ->]|Hin]%elem_of_cons; [done|].
    by eapply IH.
Qed.

Section Opcodes.
Context {A : Type} `{Countable A}.
Variables a b : list A.

Lemma opcodes_loop_genuine (blocks : list Match) : ∀ i j i1 i2 j1 j2,
  Forall (genuine a b) blocks →
  (Equal, i1, i2, j1, j2) ∈ opcodes_loop blocks i j →
  genuine a b (i1, j1, i2 - i1).
Proof.
  induction blocks as [|[[ai bj] size] blocks IH]; intros i j i1 i2 j1 j2 Hg; simpl.
  - by intros ?%elem_of_nil.
  - apply Forall_cons in Hg as [Hm Hg].
    rewrite !elem_of_app. intros [Hin|[Hin|Hin]].
    + destruct (_ && _); [by apply list_elem_of_singleton in Hin|].
      destruct (i <? ai); [by apply list_elem_of_singleton in Hin|].
      destruct (j <? bj); [by apply list_elem_of_singleton in Hin|].
      by apply elem_of_nil in Hin.
    + destruct (size =? 0); [by apply elem_of_nil in Hin|].
      apply list_elem_of_singleton in Hin. injection Hin as -> -> -> ->.
      by replace (ai + size - ai) with size by lia.
    + by eapply IH.
Qed.

(** An element of the first sequence that is not in the second lies in a
    [replace] or a [delete]; one of the second that is not in the first, in
    a [replace] or an [insert]. *)
Lemma get_opcodes_only_in_a (t : nat) (x : A) :
  a !! t = Some x → x ∉ b →
  ∃ tag i1 i2 j1 j2,
    (tag, i1, i2, j1, j2) ∈ get_opcodes a b ∧ i1 ≤ t < i2 ∧ tag ∈ [Replace; Delete].
Proof.
  intros Hx Hnb. pose proof (get_opcodes_tile a b) as Ht.
  destruct (ops_tile_cover_a _ _ _ _ _ t Ht) as (tag & i1 & i2 & j1 & j2 & Hin & Hr).
  { apply lookup_lt_Some in Hx. lia. }
  exists tag, i1, i2, j1, j2. split; [done|]. split; [done|].
  pose proof (ops_tile_shape _ _ _ _ _ _ _ _ _ _ Ht Hin) as Hshape.
  destruct tag; [repeat constructor..| |].
  - lia.
  - exfalso. apply Hnb.
    pose proof (opcodes_loop_genuine _ _ _ _ _ _ _ (get_matching_blocks_genuine a b) Hin)
      as Hg.
    destruct (Hg (t - i1)) as (y & Hy1 & Hy2); [simpl; lia|]. simpl in *.
    replace (i1 + (t - i1)) with t in Hy1 by lia.
    assert (y = x) as -> by congruence. by eapply list_elem_of_lookup_2.
Qed.

Lemma get_opcodes_only_in_b (t : nat) (x : A) :
  b !! t = Some x → x ∉ a →
  ∃ tag i1 i2 j1 j2,
    (tag, i1, i2, j1, j2) ∈ get_opcodes a b ∧ j1 ≤ t < j2 ∧ tag ∈ [Replace; Insert].
Proof.
  intros Hx Hna. pose proof (get_opcodes_tile a b) as Ht.
  destruct (ops_tile_cover_b _ _ _ _ _ t Ht) as (tag & i1 & i2 & j1 & j2 & Hin & Hr).
  { apply lookup_lt_Some in Hx. lia. }
  exists tag, i1, i2, j1, j2. split; [done|]. split; [done|].
  pose proof (ops_tile_shape _ _ _ _ _ _ _ _ _ _ Ht Hin) as Hshape.
  destruct tag; [repeat constructor|lia|repeat constructor|].
  exfalso. apply Hna.
  pose proof (opcodes_loop_genuine _ _ _ _ _ _ _ (get_matching_blocks_genuine a b) Hin)
    as Hg.
  destruct (Hg (t - j1)) as (y & Hy1 & Hy2); [simpl; lia|]. simpl in *.
  replace (j1 + (t - j1)) with t in Hy2 by lia.
  assert (y = x) as -> by congruence. by eapply list_elem_of_lookup_2.
Qed.

End Opcodes.

(** An opcode that is not an [equal] is in one of the groups. *)
Lemma fix_first_keeps n (codes : list opcode) (op : opcode) :
  op ∈ codes → op.1.1.1.1 ≠ Equal → op ∈ fix_first n codes.
Proof.
  destruct codes as [|[[[[tag i1] i2] j1] j2] codes]; [done|].
  intros [->|Hin]%elem_of_cons Hne; simpl in *.
  - destruct tag; try done; left.
  - destruct tag; by right.
Qed.

Lemma fix_last_keeps n (codes : list opcode) (op : opcode) :
  op ∈ codes → op.1.1.1.1 ≠ Equal → op ∈ fix_last n codes.
Proof.
  induction codes as [|[[[[tag i1] i2] j1] j2] codes IH]; [done|].
  intros [->|Hin]%elem_of_cons Hne.
  - destruct codes; simpl in *; destruct tag; try done; left.
  - specialize (IH Hin Hne). destruct codes as [|c codes]; [by apply elem_of_nil in Hin|].
    destruct tag; exact (list_elem_of_further _ _ _ IH).
Qed.

Lemma group_shown_with (group : list opcode) (op : opcode) :
  op ∈ group → op.1.1.1.1 ≠ Equal → group_shown group = true.
Proof.
  destruct group as [|[[[[tag i1] i2] j1] j2] group]; [by intros ?%elem_of_nil|].
  intros Hin Hne. destruct group; [|by destruct tag].
  apply list_elem_of_singleton in Hin as ->. by destruct tag.
Qed.

Lemma group_loop_keeps n (codes : list opcode) (op : opcode) : ∀ group,
  op ∈ group ++ codes → op.1.1.1.1 ≠ Equal →
  ∃ g, g ∈ group_loop n codes group ∧ op ∈ g.
Proof.
  induction codes as [|[[[[tag i1] i2] j1] j2] codes IH]; intros group Hin Hne; simpl.
  - rewrite app_nil_r in Hin. rewrite (group_shown_with _ _ Hin Hne).
    exists group. split; [left|done].
  - destruct (bool_decide (tag = Equal) && (n + n <? i2 - i1)) eqn:Hbig.
    + apply andb_true_iff in Hbig as [->%bool_decide_eq_true _].
      apply elem_of_app in Hin as [Hin|[->|Hin]%elem_of_cons]; [| done |].
      * eexists. split; [left|]. apply elem_of_app. by left.
      * destruct (IH [(Equal, i1 `max` (i2 - n), i2, j1 `max` (j2 - n), j2)])
          as (g & Hg & Hop); [by right|done|].
        exists g. split; [by right|done].
    + apply IH; [|done]. by rewrite <- app_assoc.
Qed.

Lemma get_grouped_opcodes_keeps {A} `{Countable A} (a b : list A) n (op : opcode) :
  op ∈ get_opcodes a b → op.1.1.1.1 ≠ Equal →
  ∃ g, g ∈ get_grouped_opcodes a b n ∧ op ∈ g.
Proof.
  intros Hin Hne. unfold get_grouped_opcodes.
  destruct (get_opcodes a b) as [|c codes]; [by apply elem_of_nil in Hin|].
  apply group_loop_keeps; [|done].
  apply fix_last_keeps; [|done]. by apply fix_first_keeps.
Qed.

End Coverage.

Lemma elem_of_concat {X} (x : X) (ls : list (list X)) :
  x ∈ concat ls ↔ ∃ l, l ∈ ls ∧ x ∈ l.
Proof.
  induction ls as [|l ls IH]; simpl.
  - split; [by intros ?%elem_of_nil|by intros (? & ?%elem_of_nil & _)].
  - rewrite elem_of_app, IH. split.
    + intros [?|(l' & ? & ?)]; [exists l; split; [left|done]|exists l'; split; [by right|done]].
    + intros (l' & [->|?]%elem_of_cons & ?); [by left|right; by exists l'].
Qed.

Lemma elem_of_slice_lookup {X} (l : list X) (i1 i2 t : nat) (x : X) :
  l !! t = Some x → (i1 ≤ t < i2)%nat → x ∈ slice l i1 i2.
Proof.
  intros Hx Ht. unfold slice. apply elem_of_take. exists (t - i1)%nat.
  split; [|lia]. rewrite lookup_drop. by replace (i1 + (t - i1))%nat with t by lia.
Qed.

(** The line of an opcode of a group is a line of the diff. *)
Lemma unified_diff_has_line (a b : list text) fromfile tofile n
    (g : list opcode) (op : opcode) (line : text) :
  g ∈ get_grouped_opcodes a b n → op ∈ g → line ∈ dump_opcode a b op →
  line ∈ unified_diff a b fromfile tofile [] [] n [].
Proof.
  intros Hg Hop Hline. unfold unified_diff.
  destruct (get_grouped_opcodes a b n) as [|g0 groups] eqn:Hgroups;
    [by apply elem_of_nil in Hg|].
  do 2 right. apply elem_of_concat. exists (dump_group a b [] g).
  split; [by apply list_elem_of_fmap_2|].
  unfold dump_group. right. apply elem_of_concat. exists (dump_opcode a b op).
  split; [by apply list_elem_of_fmap_2|done].
Qed.

(** A line of the first sequence that is not in the second is in the diff
    with a minus sign, and one of the second that is not in the first with
    a plus sign. *)
Lemma unified_diff_has_minus (a b : list text) fromfile tofile n (x : text) :
  x ∈ a → x ∉ b →
  prefix_line (str "-") x ∈ unified_diff a b fromfile tofile [] [] n [].
Proof.
  intros [t Ht]%list_elem_of_lookup Hnb.
  destruct (get_opcodes_only_in_a a b t x Ht Hnb)
    as (tag & i1 & i2 & j1 & j2 & Hin & Hr & Htag).
  destruct (get_grouped_opcodes_keeps a b n _ Hin) as (g & Hg & Hop).
  { simpl. intros ->. apply list_elem_of_In in Htag. simpl in Htag.
    by destruct Htag as [?|[?|[]]]. }
  eapply unified_diff_has_line; [exact Hg|exact Hop|].
  assert (prefix_line (str "-") x ∈ prefix_line (str "-") <$> slice a i1 i2) as Hx.
  { apply list_elem_of_fmap_2. by eapply elem_of_slice_lookup. }
  apply list_elem_of_In in Htag. simpl in Htag.
  destruct Htag as [<-|[<-|[]]]; simpl; apply elem_of_app; by left.
Qed.

Lemma unified_diff_has_plus (a b : list text) fromfile tofile n (x : text) :
  x ∈ b → x ∉ a →
  prefix_line (str "+") x ∈ unified_diff a b fromfile tofile [] [] n [].
Proof.
  intros [t Ht]%list_elem_of_lookup Hna.
  destruct (get_opcodes_only_in_b a b t x Ht Hna)
    as (tag & i1 & i2 & j1 & j2 & Hin & Hr & Htag).
  destruct (get_grouped_opcodes_keeps a b n _ Hin) as (g & Hg & Hop).
  { simpl. intros ->. apply list_elem_of_In in Htag. simpl in Htag.
    by destruct Htag as [?|[?|[]]]. }
  eapply unified_diff_has_line; [exact Hg|exact Hop|].
  assert (prefix_line (str "+") x ∈ prefix_line (str "+") <$> slice b j1 j2) as Hx.
  { apply list_elem_of_fmap_2. by eapply elem_of_slice_lookup. }
  apply list_elem_of_In in Htag. simpl in Htag.
  destruct Htag as [<-|[<-|[]]]; simpl; [apply elem_of_app; by right|done].
Qed.

(** The loop lists every line with a minus sign whose text does not begin
    with two minus signs, and every line with a plus sign whose text does
    not begin with two plus signs. *)
Lemma extract_loop_lists (lines1 lines2 pages1 pages2 diff_lines : list text) (x : text) :
  ∀ c1 c2,
  (prefix_line (str "-") x ∈ diff_lines → startswith (str "--") x = false →
   ∃ e, e ∈ extract_loop diff_lines lines1 lines2 pages1 pages2 c1 c2
        ∧ d_type e = removed ∧ d_content e = x)
  ∧ (prefix_line (str "+") x ∈ diff_lines → startswith (str "++") x = false →
     ∃ e, e ∈ extract_loop diff_lines lines1 lines2 pages1 pages2 c1 c2
          ∧ d_type e = added ∧ d_content e = x).
Proof.
  induction diff_lines as [|line rest IH]; intros c1 c2.
  { split; by intros ?%elem_of_nil. }
  assert (∀ (P : difference → Prop) c1' c2' (more : list difference),
            (∃ e, e ∈ extract_loop rest lines1 lines2 pages1 pages2 c1' c2' ∧ P e) →
            ∃ e, e ∈ more ++ extract_loop rest lines1 lines2 pages1 pages2 c1' c2' ∧ P e)
    as Hlater.
  { intros P c1' c2' more (e & He & HP). exists e. split; [|done].
    apply elem_of_app. by right. }
  split.
  - intros [Heq|Hin]%elem_of_cons Hx.
    + subst line. rewrite extract_loop_minus, Hx. eexists. split; [left|done].
    + rewrite extract_loop_cons.
      destruct (startswith (str "@@") line).
      { destruct (match_range_line line) as [[g1 g3]|]; by apply IH. }
      destruct (startswith (str "---") line || startswith (str "+++") line);
        [by apply IH|].
      destruct (startswith (str "-") line); [apply (Hlater _ _ _ [_]); by apply IH|].
      destruct (startswith (str "+") line); [apply (Hlater _ _ _ [_]); by apply IH|].
      by apply IH.
  - intros [Heq|Hin]%elem_of_cons Hx.
    + subst line. rewrite extract_loop_plus, Hx. eexists. split; [left|done].
    + rewrite extract_loop_cons.
      destruct (startswith (str "@@") line).
      { destruct (match_range_line line) as [[g1 g3]|]; by apply IH. }
      destruct (startswith (str "---") line || startswith (str "+++") line);
        [by apply IH|].
      destruct (startswith (str "-") line); [apply (Hlater _ _ _ [_]); by apply IH|].
      destruct (startswith (str "+") line); [apply (Hlater _ _ _ [_]); by apply IH|].
      by apply IH.
Qed.

(** X19. No line that differs is missed: every line of the first text that
    is not a line of the second is listed as removed, unless it begins with
    two minus signs, and every line of the second text that is not a line of
    the first is listed as added, unless it begins with two plus signs. *)
Theorem differing_lines_are_listed (pages1 pages2 : list text) (fromfile tofile : text)
    (x : text) :
  (x ∈ lines_of pages1 → x ∉ lines_of pages2 → startswith (str "--") x = false →
   ∃ e, e ∈ detailed_diff pages1 pages2 fromfile tofile
        ∧ d_type e = removed ∧ d_content e = x)
  ∧ (x ∈ lines_of pages2 → x ∉ lines_of pages1 → startswith (str "++") x = false →
     ∃ e, e ∈ detailed_diff pages1 pages2 fromfile tofile
          ∧ d_type e = added ∧ d_content e = x).
Proof.
  unfold detailed_diff, text_result, differences_of.
  fold (lines_of pages1) (lines_of pages2).
  set (diff_lines := unified_diff (lines_of pages1) (lines_of pages2) fromfile tofile [] [] 3 []).
  split.
  - intros H1 H2 Hx.
    pose proof (unified_diff_has_minus _ _ fromfile tofile 3 x H1 H2) as Hline.
    fold diff_lines in Hline.
    rewrite bool_decide_true by (intros Hnil; rewrite Hnil in Hline; by apply elem_of_nil in Hline).
    simpl andb. cbv iota. by apply extract_loop_lists.
  - intros H2 H1 Hx.
    pose proof (unified_diff_has_plus _ _ fromfile tofile 3 x H2 H1) as Hline.
    fold diff_lines in Hline.
    rewrite bool_decide_true by (intros Hnil; rewrite Hnil in Hline; by apply elem_of_nil in Hline).
    simpl andb. cbv iota. by apply extract_loop_lists.
Qed.

Lemma differing_lines_are_listed_witness :
  let pages1 := [lines_text ["A"; "B"; "C"]] in
  let pages2 := [lines_text ["A"; "X"; "C"]] in
  (∃ e, e ∈ detailed_diff pages1 pages2 (str "a.pdf") (str "b.pdf")
        ∧ d_type e = removed ∧ d_content e = str "B")
  ∧ (∃ e, e ∈ detailed_diff pages1 pages2 (str "a.pdf") (str "b.pdf")
          ∧ d_type e = added ∧ d_content e = str "X").
Proof.
  intros pages1 pages2.
  destruct (differing_lines_are_listed pages1 pages2 (str "a.pdf") (str "b.pdf") (str "B"))
    as [Hrem _].
  destruct (differing_lines_are_listed pages1 pages2 (str "a.pdf") (str "b.pdf") (str "X"))
    as [_ Hadd].
  split.
  - apply Hrem; [apply list_elem_of_In; vm_compute; tauto| |reflexivity].
    intros Hin. apply list_elem_of_In in Hin. vm_compute in Hin.
    destruct Hin as [Hin|[Hin|[Hin|[]]]]; discriminate Hin.
  - apply Hadd; [apply list_elem_of_In; vm_compute; tauto| |reflexivity].
    intros Hin. apply list_elem_of_In in Hin. vm_compute in Hin.
    destruct Hin as [Hin|[Hin|[Hin|[]]]]; discriminate Hin.
Defined.

(** ** No difference means the same lines *)

Section NoDifference.
Local Open Scope nat_scope.

(** A [replace] and a [delete] take lines of the first sequence, a
    [replace] and an [insert] lines of the second. *)
Lemma opcodes_loop_nonempty (blocks : list Match) : ∀ i j tag i1 i2 j1 j2,
  (tag, i1, i2, j1, j2) ∈ opcodes_loop blocks i j →
  (tag ∈ [Replace; Delete] → i1 < i2) ∧ (tag ∈ [Replace; Insert] → j1 < j2).
Proof.
  induction blocks as [|[[ai bj] size] blocks IH]; intros i j tag i1 i2 j1 j2; simpl.
  - by intros ?%elem_of_nil.
  - rewrite !elem_of_app. intros [Hin|[Hin|Hin]].
    + destruct (Nat.ltb_spec i ai), (Nat.ltb_spec j bj); simpl in Hin;
        try (by apply elem_of_nil in Hin);
        apply list_elem_of_singleton in Hin; injection Hin as -> -> -> -> ->;
        split; intros Htag; try lia;
        apply list_elem_of_In in Htag; simpl in Htag; by destruct Htag as [?|[?|[]]].
    + destruct (size =? 0); [by apply elem_of_nil in Hin|].
      apply list_elem_of_singleton in Hin. injection Hin as -> -> -> -> ->.
      split; intros Htag; apply list_elem_of_In in Htag; simpl in Htag;
        by destruct Htag as [?|[?|[]]].
    + by eapply IH.
Qed.

(** Opcodes that are all [equal] and tile two sequences from the same
    place pair every element of the one with the element at the same place
    of the other. *)
Lemma all_equal_same {A} (a b : list A) (ops : list opcode) : ∀ i0,
  ops_tile i0 i0 (length a) (length b) ops →
  Forall (λ op : opcode, op.1.1.1.1 = Equal
                         ∧ genuine a b (op.1.1.1.2, op.1.2, op.1.1.2 - op.1.1.1.2)) ops →
  ∀ t, i0 ≤ t → a !! t = b !! t.
Proof.
  induction ops as [|[[[[tag i1] i2] j1] j2] ops IH]; intros i0 Ht Hall t Hle.
  - destruct Ht as [Ha Hb]. rewrite !lookup_ge_None_2; [done|lia..].
  - destruct Ht as ((-> & -> & ? & ?) & Htag & Hrest).
    apply Forall_cons in Hall as [[Heq Hg] Hall]. simpl in *. subst tag.
    assert (j2 = i2) as -> by lia.
    destruct (decide (t < i2)) as [Hlt|Hge].
    + destruct (Hg (t - i0)) as (x & Hx & Hy); [simpl; lia|]. simpl in *.
      replace (i0 + (t - i0)) with t in * by lia. by rewrite Hx, Hy.
    + apply (IH i2); [done|done|lia].
Qed.

(** Two sequences that differ have an opcode that is not an [equal]. *)
Lemma get_opcodes_differ {A} `{Countable A} (a b : list A) :
  a ≠ b →
  ∃ tag i1 i2 j1 j2, (tag, i1, i2, j1, j2) ∈ get_opcodes a b ∧ tag ≠ Equal.
Proof.
  intros Hne.
  destruct (decide (Forall (λ op : opcode, op.1.1.1.1 = Equal) (get_opcodes a b)))
    as [Hall|Hex].
  - exfalso. apply Hne. apply list_eq. intros t.
    apply (all_equal_same a b (get_opcodes a b) 0); [apply get_opcodes_tile| |lia].
    apply Forall_forall. intros [[[[tag i1] i2] j1] j2] Hin.
    rewrite Forall_forall in Hall. pose proof (Hall _ Hin) as Htag. simpl in Htag.
    subst tag. split; [done|]. simpl.
    exact (opcodes_loop_genuine a b _ _ _ _ _ _ _ (get_matching_blocks_genuine a b) Hin).
  - apply not_Forall_Exists in Hex; [|apply _].
    apply Exists_exists in Hex as ([[[[tag i1] i2] j1] j2] & Hin & Htag).
    by exists tag, i1, i2, j1, j2.
Qed.

End NoDifference.

(** The diff of two sequences of lines that differ has a line with a sign. *)
Lemma unified_diff_differ (a b : list text) fromfile tofile n :
  a ≠ b →
  ∃ x, (x ∈ a ∧ prefix_line (str "-") x ∈ unified_diff a b fromfile tofile [] [] n [])
       ∨ (x ∈ b ∧ prefix_line (str "+") x ∈ unified_diff a b fromfile tofile [] [] n []).
Proof.
  intros Hne.
  destruct (get_opcodes_differ a b Hne) as (tag & i1 & i2 & j1 & j2 & Hin & Htag).
  destruct (get_grouped_opcodes_keeps a b n _ Hin Htag) as (g & Hg & Hop).
  pose proof (opcodes_loop_nonempty _ _ _ _ _ _ _ _ Hin) as [Hi Hj].
  pose proof (get_opcodes_tile a b) as Ht.
  assert (tag ∈ [Replace; Delete] ∨ tag = Insert) as [Hrd| ->].
  { destruct tag; [left; repeat constructor..|by right|done]. }
  - specialize (Hi Hrd).
    assert (i2 ≤ length a)%nat as Hi2.
    { apply list_elem_of_split in Hin as (ops1 & ops2 & Heq). rewrite Heq in Ht.
      apply ops_tile_app in Ht as (i & j & _ & (_ & _ & Hrest)).
      apply ops_tile_le in Hrest. lia. }
    destruct (lookup_lt_is_Some_2 a i1 ltac:(lia)) as [x Hx].
    exists x. left. split; [by eapply list_elem_of_lookup_2|].
    eapply unified_diff_has_line; [exact Hg|exact Hop|].
    assert (prefix_line (str "-") x ∈ prefix_line (str "-") <$> slice a i1 i2) as Hl.
    { apply list_elem_of_fmap_2. apply (elem_of_slice_lookup _ _ _ i1); [done|lia]. }
    apply list_elem_of_In in Hrd. simpl in Hrd.
    destruct Hrd as [<-|[<-|[]]]; simpl; apply elem_of_app; by left.
  - specialize (Hj ltac:(repeat constructor)).
    assert (j2 ≤ length b)%nat as Hj2.
    { apply list_elem_of_split in Hin as (ops1 & ops2 & Heq). rewrite Heq in Ht.
      apply ops_tile_app in Ht as (i & j & _ & (_ & _ & Hrest)).
      apply ops_tile_le in Hrest. lia. }
    destruct (lookup_lt_is_Some_2 b j1 ltac:(lia)) as [x Hx].
    exists x. right. split; [by eapply list_elem_of_lookup_2|].
    eapply unified_diff_has_line; [exact Hg|exact Hop|].
    simpl. apply list_elem_of_fmap_2. apply (elem_of_slice_lookup _ _ _ j1); [done|lia].
Qed.

(** X20. No difference means the same lines: when no line of the first text
    begins with two minus signs and no line of the second with two plus
    signs, a detailed text comparison lists no difference exactly when the
    two texts have the same lines. *)
Theorem no_difference_iff_same_lines (pages1 pages2 : list text) (fromfile tofile : text) :
  no_prefix (str "--") (lines_of pages1) →
  no_prefix (str "++") (lines_of pages2) →
  detailed_diff pages1 pages2 fromfile tofile = [] ↔ lines_of pages1 = lines_of pages2.
Proof.
  intros H1 H2. split.
  - intros Hnone. destruct (decide (lines_of pages1 = lines_of pages2)) as [|Hne]; [done|].
    exfalso. revert Hnone. unfold detailed_diff, text_result, differences_of.
    fold (lines_of pages1) (lines_of pages2).
    set (diff_lines := unified_diff (lines_of pages1) (lines_of pages2)
                         fromfile tofile [] [] 3 []).
    destruct (unified_diff_differ _ _ fromfile tofile 3 Hne) as [x [[Hx Hl]|[Hx Hl]]];
      fold diff_lines in Hl.
    + rewrite bool_decide_true
        by (intros Hnil; rewrite Hnil in Hl; by apply elem_of_nil in Hl).
      simpl andb. cbv iota. unfold no_prefix in H1. rewrite Forall_forall in H1.
      destruct (proj1 (extract_loop_lists (lines_of pages1) (lines_of pages2)
                         pages1 pages2 diff_lines x 0 0) Hl (H1 x Hx))
        as (e & He & _).
      unfold _extract_detailed_positions. intros Hnil. rewrite Hnil in He.
      by apply elem_of_nil in He.
    + rewrite bool_decide_true
        by (intros Hnil; rewrite Hnil in Hl; by apply elem_of_nil in Hl).
      simpl andb. cbv iota. unfold no_prefix in H2. rewrite Forall_forall in H2.
      destruct (proj2 (extract_loop_lists (lines_of pages1) (lines_of pages2)
                         pages1 pages2 diff_lines x 0 0) Hl (H2 x Hx))
        as (e & He & _).
      unfold _extract_detailed_positions. intros Hnil. rewrite Hnil in He.
      by apply elem_of_nil in He.
  - intros Heq. unfold detailed_diff, text_result, differences_of.
    fold (lines_of pages1) (lines_of pages2). by rewrite Heq, unified_diff_same.
Qed.

Lemma no_difference_iff_same_lines_witness :
  let pages1 := [lines_text ["A"; "B"]] in
  let pages2 := [lines_text ["B"; "A"]] in
  detailed_diff pages1 pages2 (str "a.pdf") (str "b.pdf") = []
  ↔ lines_of pages1 = lines_of pages2.
Proof.
  intros pages1 pages2.
  apply (no_difference_iff_same_lines pages1 pages2 (str "a.pdf") (str "b.pdf"));
    vm_compute; repeat constructor.
Defined.

(** ** The table of the differences *)

Lemma replace_app (old : char) (new x y : text) :
  replace old new (x ++ y) = replace old new x ++ replace old new y.
Proof. apply bind_app. Qed.

Lemma replace_cons (old : char) (new : text) (c : char) (s : text) :
  replace old new (c :: s) = (if bool_decide (c = old) then new else [c]) ++ replace old new s.
Proof. apply bind_cons. Qed.

(** The three replacements, one after the other, put the entity of each
    character in its place: no entity is escaped again. *)
Lemma replace_escape (s : text) :
  replace 62%N (str "&gt;") (replace 60%N (str "&lt;") (replace 38%N (str "&amp;") s))
  = s ≫= escape_char.
Proof.
  induction s as [|c s IH]; [done|].
  rewrite replace_cons, !replace_app, IH, bind_cons. f_equal.
  unfold escape_char.
  destruct (bool_decide_reflect (c = 38%N)) as [->|H38]; [done|].
  rewrite replace_cons, replace_app.
  destruct (bool_decide_reflect (c = 60%N)) as [->|H60]; [done|].
  rewrite replace_cons.
  destruct (bool_decide_reflect (c = 62%N)) as [->|H62]; done.
Qed.

Lemma escape_char_safe (c d : char) : d ∈ escape_char c → d ≠ 60%N ∧ d ≠ 62%N.
Proof.
  unfold escape_char. repeat case_bool_decide.
  - intros Hd. apply list_elem_of_In in Hd. vm_compute in Hd.
    repeat (destruct Hd as [<-|Hd]; [done|]). done.
  - intros Hd. apply list_elem_of_In in Hd. vm_compute in Hd.
    repeat (destruct Hd as [<-|Hd]; [done|]). done.
  - intros Hd. apply list_elem_of_In in Hd. vm_compute in Hd.
    repeat (destruct Hd as [<-|Hd]; [done|]). done.
  - intros ->%list_elem_of_singleton. done.
Qed.

Lemma row_content_escape (diff : difference) :
  row_content diff
  = ((take 100 (d_content diff)
      ++ (if (100 <? length (d_content diff))%nat then str "..." else []))
     ≫= escape_char).
Proof.
  unfold row_content. rewrite replace_escape.
  destruct (100 <? length (d_content diff))%nat; [done|by rewrite app_nil_r].
Qed.

Lemma row_content_escaped_aux (diff : difference) :
  (60%N ∉ row_content diff) ∧ (62%N ∉ row_content diff).
Proof.
  rewrite row_content_escape.
  split; intros (c & Hd & _)%list_elem_of_bind; by apply escape_char_safe in Hd as [? ?].
Qed.

(** X21. The content of a row of the table of differences is made safe for
    HTML: it is the first 100 characters of the content of the difference,
    with three dots when there are more, in which each [&], [<] and [>] is
    replaced once by its entity; so that no [<] and no [>] is left in it. *)
Theorem row_content_escaped (diff : difference) :
  row_content diff
  = ((take 100 (d_content diff)
      ++ (if (100 <? length (d_content diff))%nat then str "..." else []))
     ≫= escape_char)
  ∧ (60%N ∉ row_content diff)
  ∧ (62%N ∉ row_content diff).
Proof. split; [apply row_content_escape|apply row_content_escaped_aux]. Qed.

Lemma count_char_app (c : char) (x y : text) :
  count_char c (x ++ y) = (count_char c x + count_char c y)%nat.
Proof.
  unfold count_char. induction x as [|d x IH]; [done|].
  rewrite <- app_comm_cons, !filter_cons. destruct (decide (d = c)); simpl; by rewrite IH.
Qed.

Lemma count_char_absent (c : char) (s : text) : c ∉ s → count_char c s = 0%nat.
Proof.
  unfold count_char. induction s as [|d s IH]; [done|].
  intros Hc. apply not_elem_of_cons in Hc as [Hne Hc].
  rewrite filter_cons, decide_False by done. auto.
Qed.

Lemma dec_no_tag (c : char) (z : Z) : c ∈ [60; 62]%N → count_char c (dec z) = 0%nat.
Proof.
  intros Hc. apply count_char_absent. intros Hin.
  assert (∀ n, c ∉ dec_nat n) as Hnat.
  { intros n Hn. pose proof (uint_digits_are_digits (Nat.to_uint n)) as Hd.
    rewrite Forall_forall in Hd. apply Hd in Hn.
    apply list_elem_of_In in Hc. simpl in Hc. by destruct Hc as [<-|[<-|[]]]. }
  unfold dec in Hin. destruct (z <? 0).
  - apply elem_of_app in Hin as [Hin|Hin]; [|by eapply Hnat].
    apply list_elem_of_In in Hin, Hc. vm_compute in Hin. simpl in Hc.
    destruct Hin as [<-|[]]. by destruct Hc as [?|[?|[]]].
  - by eapply Hnat.
Qed.

Lemma table_row_tags (c : char) (idx : nat) (diff : difference) :
  c ∈ [60; 62]%N → count_char c (table_row idx diff) = 16%nat.
Proof.
  intros Hc. unfold table_row, literal. cbn [join].
  rewrite !count_char_app, !dec_no_tag by done.
  rewrite (count_char_absent c (row_content diff)).
  2: { pose proof (row_content_escaped_aux diff) as [? ?].
       apply list_elem_of_In in Hc. simpl in Hc. by destruct Hc as [<-|[<-|[]]]. }
  apply list_elem_of_In in Hc. simpl in Hc.
  destruct Hc as [<-|[<-|[]]]; destruct (d_type diff), (d_file diff); reflexivity.
Qed.

Lemma count_char_rows (c : char) (k : nat) (ds : list difference) :
  ∀ row : nat → difference → text,
  (∀ i diff, count_char c (row i diff) = k) →
  count_char c (concat (imap row ds)) = (k * length ds)%nat.
Proof.
  induction ds as [|d ds IH]; intros row Hrow; [unfold count_char; simpl; lia|].
  rewrite imap_cons, concat_cons, count_char_app, Hrow.
  rewrite (IH (row ∘ S)) by (intros i diff; apply Hrow). simpl length. lia.
Qed.

(** X22. The tags of the table of differences are those of its template,
    whatever the differences hold: the table has as many [<] as [>], 18 for
    the frame of the table, 16 for each difference shown, of which there are
    at most 50, and 4 for the row that tells how many are not shown. *)
Theorem table_tags_only_from_template (differences : list difference) (c : char) :
  c ∈ [60; 62]%N →
  count_char c (_format_differences_table differences)
  = (18 + 16 * (50 `min` length differences)
     + (if 50 <? length differences then 4 else 0))%nat.
Proof.
  intros Hc. unfold _format_differences_table.
  rewrite !count_char_app.
  rewrite (count_char_rows c 16) by (intros i diff; by apply table_row_tags).
  rewrite length_take.
  assert (count_char c
            (if (50 <? length differences)%nat
             then literal
                    [ [];
                      str "                <tr>";
                      str "                    <td colspan=" ++ [DQ] ++ str "6" ++ [DQ]
                        ++ str " style=" ++ [DQ] ++ str "text-align: center; color: #999;"
                        ++ [DQ] ++ str ">";
                      ustr "                        还有 "
                        ++ dec (len differences - 50) ++ ustr " 处差异未显示";
                      str "                    </td>";
                      str "                </tr>";
                      [] ]
             else [])
          = (if 50 <? length differences then 4 else 0)%nat) as ->.
  { destruct (50 <? length differences)%nat; [|done].
    unfold literal. cbn [join]. rewrite !count_char_app, dec_no_tag by done.
    apply list_elem_of_In in Hc. simpl in Hc. by destruct Hc as [<-|[<-|[]]]. }
  apply list_elem_of_In in Hc. simpl in Hc.
  destruct Hc as [<-|[<-|[]]].
  - change (count_char 60%N (literal _)) with 17%nat at 1.
    change (count_char 60%N (literal _)) with 1%nat. lia.
  - change (count_char 62%N (literal _)) with 17%nat at 1.
    change (count_char 62%N (literal _)) with 1%nat. lia.
Qed.

Lemma table_tags_only_from_template_witness :
  count_char 60%N
    (_format_differences_table [removed_entry [] [] (str "<b>x</b> & <i>y</i>") 0])
  = 34%nat.
Proof.
  exact (table_tags_only_from_template
           [removed_entry [] [] (str "<b>x</b> & <i>y</i>") 0] 60%N ltac:(repeat constructor)).
Defined.

(** ** The exit code *)

Section MainFacts.

Context {image array : Type}.
Variable basename : string → text.
Variable sys : @backend image array.
Variable print_results : PDFComparer → comparison → bool → M ().
Variable generate_html_report : PDFComparer → comparison → string → M ().
Variable save_json : PDFComparer → comparison → string → M ().

Hypothesis print_results_succeeds : ∀ c r d, succeeds (print_results c r d).
Hypothesis generate_html_report_succeeds : ∀ c r p, succeeds (generate_html_report c r p).
Hypothesis save_json_succeeds : ∀ c r p, succeeds (save_json c r p).

Lemma init_run verbose tr :
  ∃ tr', init sys verbose tr
         = (inr {| verbose := verbose;
                   self_capabilities :=
                     {| text_comparison := HAS_PYMUPDF sys;
                        visual_comparison := HAS_PDF2IMAGE sys && pdftoppm_runs sys;
                        structure_analysis := HAS_PDFPLUMBER sys;
                        metadata_comparison := HAS_PYMUPDF sys |} |}, tr').
Proof.
  unfold init, _check_capabilities, _check_poppler, invoke, mbind, M_bind, mret, M_ret.
  destruct (HAS_PDF2IMAGE sys); simpl; eauto.
Qed.

(** The comprehensive comparison returns a report when both files exist,
    and the error of a missing file when one does not. *)
Lemma comprehensive_compare_missing_file_cases comparer p1 p2 methods tr :
  (os_path_exists sys p1 = true ∧ os_path_exists sys p2 = true
   ∧ ∃ used results summary tr',
       comprehensive_compare basename sys comparer p1 p2 methods tr
       = (inr (Report (p1, p2) used results summary), tr'))
  ∨ ((os_path_exists sys p1 = false ∨ os_path_exists sys p2 = false)
     ∧ ∃ error tr',
         comprehensive_compare basename sys comparer p1 p2 methods tr
         = (inr (MissingFile error), tr')).
Proof.
  destruct (os_path_exists sys p1) eqn:He1; [destruct (os_path_exists sys p2) eqn:He2|].
  - left. split; [done|]. split; [done|].
    destruct (comprehensive_compare_total basename sys comparer p1 p2 methods He1 He2 tr)
      as (out & tr' & Hrun & basic & rest & -> & _). eauto 10.
  - right. split; [by right|].
    unfold comprehensive_compare, invoke, mbind, M_bind. rewrite He1, He2. simpl. eauto.
  - right. split; [by left|].
    unfold comprehensive_compare, invoke, mbind, M_bind. rewrite He1. simpl. eauto.
Qed.

(** What [main] returns is the exit code of the comparison it runs. *)
Lemma main_run (args : arguments) tr :
  ∃ comparer tr1 results tr2 tr3,
    init sys (negb (args_quiet args)) tr = (inr comparer, tr1)
    ∧ comprehensive_compare basename sys comparer (args_pdf1 args) (args_pdf2 args)
        (main_methods args comparer) tr1 = (inr results, tr2)
    ∧ main basename sys print_results generate_html_report save_json args tr
      = (inr (exit_code results), tr3).
Proof.
  destruct (init_run (negb (args_quiet args)) tr) as [tr1 Hinit].
  set (comparer := {| verbose := negb (args_quiet args); self_capabilities := _ |}) in *.
  destruct (comprehensive_compare_returns basename sys comparer (args_pdf1 args)
              (args_pdf2 args) (main_methods args comparer) tr1)
    as (results & tr2 & Hrun).
  destruct (print_results_succeeds comparer results (args_detailed args) tr2)
    as ([] & tr2a & Hprint).
  assert (∃ tr2b, match given (args_html args) with
                  | Some path => generate_html_report comparer results path
                  | None => mret ()
                  end tr2a = (inr (), tr2b)) as [tr2b Hhtml].
  { destruct (given (args_html args)) as [path|]; [|by eexists].
    destruct (generate_html_report_succeeds comparer results path tr2a) as ([] & ? & ?).
    eauto. }
  assert (∃ tr3, match given (args_json args) with
                 | Some path => save_json comparer results path
                 | None => mret ()
                 end tr2b = (inr (), tr3)) as [tr3 Hjson].
  { destruct (given (args_json args)) as [path|]; [|by eexists].
    destruct (save_json_succeeds comparer results path tr2b) as ([] & ? & ?).
    eauto. }
  exists comparer, tr1, results, tr2, tr3. split; [done|]. split; [done|].
  unfold main, mbind, M_bind. rewrite Hinit, Hrun, Hprint, Hhtml, Hjson. done.
Qed.

(** X23. The exit code of [main], when the methods that write the results
    out return: it is 1 when one of the two files does not exist; otherwise
    it is 0 when the summary of the comparison that [main] runs says that
    all the checks with a verdict passed, and 2 when it does not. *)
Theorem main_exit_code (args : arguments) tr :
  ∃ code tr',
    main basename sys print_results generate_html_report save_json args tr
    = (inr code, tr')
    ∧ (((os_path_exists sys (args_pdf1 args) = false
         ∨ os_path_exists sys (args_pdf2 args) = false)
        ∧ code = 1)
       ∨ (os_path_exists sys (args_pdf1 args) = true
          ∧ os_path_exists sys (args_pdf2 args) = true
          ∧ ∃ comparer tr1 tr2 used results summary,
              init sys (negb (args_quiet args)) tr = (inr comparer, tr1)
              ∧ comprehensive_compare basename sys comparer
                  (args_pdf1 args) (args_pdf2 args) (main_methods args comparer) tr1
                = (inr (Report (args_pdf1 args, args_pdf2 args) used results summary),
                   tr2)
              ∧ code = if overall_identical summary then 0 else 2)).
Proof.
  destruct (main_run args tr) as (comparer & tr1 & results & tr2 & tr3 & Hinit & Hrun & Hmain).
  exists (exit_code results), tr3. split; [done|].
  destruct (comprehensive_compare_missing_file_cases comparer
              (args_pdf1 args) (args_pdf2 args) (main_methods args comparer) tr1)
    as [(He1 & He2 & used & rs & s & tr2' & Hrep)|(Hmiss & e & tr2' & Herr)].
  - right. split; [done|]. split; [done|].
    rewrite Hrep in Hrun. injection Hrun as <- <-.
    by exists comparer, tr1, tr2', used, rs, s.
  - left. split; [done|]. rewrite Herr in Hrun. by injection Hrun as <- <-.
Qed.

(** The comparison of the text alone, for two documents that open. *)
Lemma comprehensive_compare_text_only comparer p1 p2 tr doc1 doc2 :
  os_path_exists sys p1 = true →
  os_path_exists sys p2 = true →
  text_comparison (self_capabilities comparer) = true →
  HAS_PYMUPDF sys = true →
  fitz_open sys p1 = inr doc1 →
  fitz_open sys p2 = inr doc2 →
  ∃ used results summary tr',
    comprehensive_compare basename sys comparer p1 p2 (Some ["text_comparison"]) tr
    = (inr (Report (p1, p2) used results summary), tr')
    ∧ overall_identical summary
      = bool_decide (join [NL] (doc_pages doc1) = join [NL] (doc_pages doc2)).
Proof.
  intros He1 He2 Hcap Hlib Hopen1 Hopen2.
  unfold comprehensive_compare, run_if_selected, invoke, mbind, M_bind, mret, M_ret.
  rewrite He1, He2. cbn [negb]. cbv beta iota.
  match goal with
  | |- context [compare_basic_info sys p1 p2 ?t] =>
      destruct (compare_basic_info_total sys p1 p2 t) as (basic & tr1 & Hb & Hbasic);
      rewrite Hb
  end.
  rewrite (bool_decide_true ("text_comparison" ∈ ["text_comparison"])) by left.
  rewrite !bool_decide_false
    by (intros Hin; apply list_elem_of_In in Hin; simpl in Hin;
        by destruct Hin as [Hin|[]]).
  cbv beta iota.
  rewrite (compare_text_run basename sys comparer p1 p2 true tr1 doc1 doc2) by done.
  eexists _, _, _, _. split; [reflexivity|].
  unfold summarize, text_result. simpl. unfold no_verdict in Hbasic. rewrite Hbasic.
  destruct (has_error basic); simpl; by rewrite andb_true_r.
Qed.

(** X24. The tool as it is run without [-m] and without [--all] on two files
    that exist, when PyMuPDF is there and opens both: it compares the text
    only, and its exit code is 0 when the texts of the two documents are
    equal and 2 when they are not. *)
Theorem main_default_exit_code (args : arguments) tr doc1 doc2 :
  args_methods args = None →
  args_all args = false →
  os_path_exists sys (args_pdf1 args) = true →
  os_path_exists sys (args_pdf2 args) = true →
  HAS_PYMUPDF sys = true →
  fitz_open sys (args_pdf1 args) = inr doc1 →
  fitz_open sys (args_pdf2 args) = inr doc2 →
  ∃ tr',
    main basename sys print_results generate_html_report save_json args tr
    = (inr (if bool_decide (join [NL] (doc_pages doc1) = join [NL] (doc_pages doc2))
            then 0 else 2), tr').
Proof.
  intros Hm Hall He1 He2 Hlib Hopen1 Hopen2.
  destruct (main_run args tr)
    as (comparer & tr1 & results & tr2 & tr3 & Hinit & Hrun & Hmain).
  destruct (init_run (negb (args_quiet args)) tr) as [tr1' Hinit'].
  rewrite Hinit' in Hinit. injection Hinit as <- <-.
  unfold main_methods in Hrun. rewrite Hm, Hall in Hrun. simpl in Hrun.
  rewrite Hlib in Hrun.
  destruct (comprehensive_compare_text_only
              {| verbose := negb (args_quiet args);
                 self_capabilities :=
                   {| text_comparison := true;
                      visual_comparison := HAS_PDF2IMAGE sys && pdftoppm_runs sys;
                      structure_analysis := HAS_PDFPLUMBER sys;
                      metadata_comparison := true |} |}
              (args_pdf1 args) (args_pdf2 args) tr1' doc1 doc2
              He1 He2 eq_refl Hlib Hopen1 Hopen2)
    as (used & rs & s & tr2' & Hrep & Hs).
  rewrite Hrep in Hrun. injection Hrun as <- <-.
  exists tr3. rewrite Hmain. simpl. by rewrite Hs.
Qed.

(** The comparison does not look at [self.verbose]. *)
Lemma comprehensive_compare_verbose v1 v2 caps p1 p2 methods :
  comprehensive_compare basename sys {| verbose := v1; self_capabilities := caps |}
    p1 p2 methods
  = comprehensive_compare basename sys {| verbose := v2; self_capabilities := caps |}
      p1 p2 methods.
Proof. reflexivity. Qed.

(** X25. The exit code of [main] depends on the command line only through the
    two paths, [-m] and [--all]: [--dpi] (which [main] never passes on),
    [--detailed], [--html], [--json] and [--quiet] do not change it, when
    the methods that write the results out return. *)
Theorem main_exit_code_ignores_output_options (args args' : arguments) tr :
  args_pdf1 args' = args_pdf1 args →
  args_pdf2 args' = args_pdf2 args →
  args_methods args' = args_methods args →
  args_all args' = args_all args →
  ∃ code tr1 tr2,
    main basename sys print_results generate_html_report save_json args tr
    = (inr code, tr1)
    ∧ main basename sys print_results generate_html_report save_json args' tr
      = (inr code, tr2).
Proof.
  intros Hp1 Hp2 Hm Hall.
  destruct (main_run args tr)
    as (comparer & tr1 & results & tr2 & tr3 & Hinit & Hrun & Hmain).
  destruct (main_run args' tr)
    as (comparer' & tr1' & results' & tr2' & tr3' & Hinit' & Hrun' & Hmain').
  destruct (init_run (negb (args_quiet args)) tr) as [t Ht].
  rewrite Ht in Hinit. injection Hinit as <- <-.
  destruct (init_run (negb (args_quiet args')) tr) as [t' Ht'].
  rewrite Ht' in Hinit'. injection Hinit' as <- <-.
  assert (t' = t) as ->.
  { revert Ht Ht'.
    unfold init, _check_capabilities, _check_poppler, invoke, mbind, M_bind, mret, M_ret.
    destruct (HAS_PDF2IMAGE sys); simpl; congruence. }
  unfold main_methods in Hrun, Hrun'. simpl in Hrun, Hrun'.
  rewrite Hp1, Hp2, Hm, Hall in Hrun'.
  rewrite (comprehensive_compare_verbose _ (negb (args_quiet args))) in Hrun'.
  unfold main_methods in Hrun. simpl in Hrun.
  rewrite Hrun in Hrun'. injection Hrun' as <- <-.
  exists (exit_code results), tr3, tr3'. by split.
Qed.

End MainFacts.

Lemma main_exit_code_witness :
  ∃ code tr',
    main demo_basename (demo true true true)
      (λ _ _ _, mret ()) (λ _ _ _, mret ()) (λ _ _ _, mret ())
      (plain_arguments "a.pdf" "c.pdf") []
    = (inr code, tr')
    ∧ code = 1.
Proof.
  destruct (main_exit_code demo_basename (demo true true true)
              (λ _ _ _, mret ()) (λ _ _ _, mret ()) (λ _ _ _, mret ())
              ltac:(by eexists _, _) ltac:(by eexists _, _) ltac:(by eexists _, _)
              (plain_arguments "a.pdf" "c.pdf") [])
    as (code & tr' & Hmain & [[_ Hcode]|(_ & He2 & _)]).
  - by exists code, tr'.
  - discriminate He2.
Defined.

Lemma main_default_exit_code_witness :
  ∃ tr',
    main demo_basename (demo true true true)
      (λ _ _ _, mret ()) (λ _ _ _, mret ()) (λ _ _ _, mret ())
      (plain_arguments "a.pdf" "b.pdf") []
    = (inr 2, tr').
Proof.
  apply (main_default_exit_code demo_basename (demo true true true)
           (λ _ _ _, mret ()) (λ _ _ _, mret ()) (λ _ _ _, mret ())
           ltac:(by eexists _, _) ltac:(by eexists _, _) ltac:(by eexists _, _)
           (plain_arguments "a.pdf" "b.pdf") []
           (demo_document "a.pdf") (demo_document "b.pdf"));
    reflexivity.
Defined.

Lemma main_exit_code_ignores_output_options_witness :
  ∃ code tr1 tr2,
    main demo_basename (demo true true true)
      (λ _ _ _, mret ()) (λ _ _ _, mret ()) (λ _ _ _, mret ())
      (plain_arguments "a.pdf" "b.pdf") []
    = (inr code, tr1)
    ∧ main demo_basename (demo true true true)
        (λ _ _ _, mret ()) (λ _ _ _, mret ()) (λ _ _ _, mret ())
        {| args_pdf1 := "a.pdf"; args_pdf2 := "b.pdf"; args_methods := None;
           args_all := false; args_detailed := true; args_html := Some "report.html";
           args_json := Some "result.json"; args_dpi := 300; args_quiet := true |} []
      = (inr code, tr2).
Proof.
  apply (main_exit_code_ignores_output_options demo_basename (demo true true true)
           (λ _ _ _, mret ()) (λ _ _ _, mret ()) (λ _ _ _, mret ())
           ltac:(by eexists _, _) ltac:(by eexists _, _) ltac:(by eexists _, _)
           (plain_arguments "a.pdf" "b.pdf"));
    reflexivity.
Defined.

(** ** Methods that are not available *)

Lemma collect_identical_no_verdicts (rs : list result) :
  Forall (λ r, has_error r = true ∨ get_identical r = None) rs →
  collect_identical rs = [].
Proof.
  induction 1 as [|r rs [Hr|Hr] _ IH]; simpl; [done| |].
  - by rewrite Hr.
  - rewrite Hr. by destruct (has_error r).
Qed.

Lemma method_map_elem_of (m : method_choice) (ms : list method_choice) :
  method_map m ∈ method_map <$> ms → m ∈ ms.
Proof.
  intros (m' & Heq & Hin)%list_elem_of_fmap.
  by destruct m, m'; try discriminate Heq.
Qed.

Section UnavailableFacts.

Context {image array : Type}.
Variable basename : string → text.
Variable sys : @backend image array.
Variable print_results : PDFComparer → comparison → bool → M ().
Variable generate_html_report : PDFComparer → comparison → string → M ().
Variable save_json : PDFComparer → comparison → string → M ().

Hypothesis print_results_succeeds : ∀ c r d, succeeds (print_results c r d).
Hypothesis generate_html_report_succeeds : ∀ c r p, succeeds (generate_html_report c r p).
Hypothesis save_json_succeeds : ∀ c r p, succeeds (save_json c r p).

(** When none of the methods asked for is available, no result has a
    verdict. *)
Lemma comprehensive_compare_unavailable self p1 p2 m (ms : list method_choice) :
  os_path_exists sys p1 = true →
  os_path_exists sys p2 = true →
  text_comparison (self_capabilities self) = HAS_PYMUPDF sys →
  visual_comparison (self_capabilities self) = HAS_PDF2IMAGE sys && pdftoppm_runs sys →
  structure_analysis (self_capabilities self) = HAS_PDFPLUMBER sys →
  metadata_comparison (self_capabilities self) = HAS_PYMUPDF sys →
  Forall (λ m', installed sys m' = false) (m :: ms) →
  total (comprehensive_compare basename sys self p1 p2 (Some (method_map <$> m :: ms)))
    (λ out, ∃ used results summary,
       out = Report (p1, p2) used results summary
       ∧ overall_identical summary = false
       ∧ has_errors summary = true).
Proof.
  intros He1 He2 Ht Hv Hs Hm Hms. rewrite Forall_forall in Hms.
  unfold comprehensive_compare.
  eapply total_bind; [apply total_invoke_inr|]. intros ? ->. rewrite He1. simpl negb. cbv iota.
  eapply total_bind; [apply total_invoke_inr|]. intros ? ->. rewrite He2. simpl negb. cbv iota.
  eapply total_bind; [apply compare_basic_info_total|]. intros basic Hbasic.
  eapply total_bind.
  { apply (run_if_selected_total_when _ _ _ _ failed).
    intros Hin%(method_map_elem_of choice_text)%Hms. simpl in Hin.
    unfold compare_text. rewrite Ht, Hin. by apply total_mret. }
  intros rs1 H1.
  eapply total_bind.
  { apply (run_if_selected_total_when _ _ _ _ failed).
    intros Hin%(method_map_elem_of choice_visual)%Hms. simpl in Hin.
    unfold compare_visual. rewrite Hv, Hin. by apply total_mret. }
  intros rs2 H2.
  eapply total_bind.
  { apply (run_if_selected_total_when _ _ _ _ failed).
    intros Hin%(method_map_elem_of choice_structure)%Hms. simpl in Hin.
    unfold compare_structure. rewrite Hs, Hin. by apply total_mret. }
  intros rs3 H3.
  eapply total_bind.
  { apply (run_if_selected_total_when _ _ _ _ failed).
    intros Hin%(method_map_elem_of choice_metadata)%Hms. simpl in Hin.
    unfold compare_metadata. rewrite Hm, Hin. by apply total_mret. }
  intros rs4 H4.
  apply total_mret. eexists _, _, _. split; [reflexivity|].
  assert (Forall (λ r, has_error r = true ∨ get_identical r = None) (rs4.*2)) as Hall.
  { destruct H1 as [[_ ->]|(_ & r1 & Hr1 & ->)];
    destruct H2 as [[_ ->]|(_ & r2 & Hr2 & ->)];
    destruct H3 as [[_ ->]|(_ & r3 & Hr3 & ->)];
    destruct H4 as [[_ ->]|(_ & r4 & Hr4 & ->)];
    simpl; repeat first [apply Forall_nil_2 | apply Forall_cons_2]; auto. }
  assert (∃ r, In r (rs4.*2) ∧ has_error r = true) as Hsome.
  { assert (method_map m ∈ method_map <$> m :: ms) as Hin by (rewrite fmap_cons; left).
    destruct H1 as [[Hn1 ->]|(_ & r1 & Hr1 & ->)];
    destruct H2 as [[Hn2 ->]|(_ & r2 & Hr2 & ->)];
    destruct H3 as [[Hn3 ->]|(_ & r3 & Hr3 & ->)];
    destruct H4 as [[Hn4 ->]|(_ & r4 & Hr4 & ->)];
    try (by destruct m);
    simpl; eauto 10. }
  unfold summarize. cbn [overall_identical has_errors].
  rewrite (collect_identical_no_verdicts _ Hall). split; [done|].
  by apply existsb_exists.
Qed.

(** X26. When every method named with [-m] is unavailable (its library is
    not installed), [main] on two files that exist returns the exit code 2,
    the code of two documents that differ. *)
Theorem main_unavailable_methods_exit_code (args : arguments) tr m ms :
  args_methods args = Some (m :: ms) →
  os_path_exists sys (args_pdf1 args) = true →
  os_path_exists sys (args_pdf2 args) = true →
  Forall (λ m', installed sys m' = false) (m :: ms) →
  ∃ tr',
    main basename sys print_results generate_html_report save_json args tr
    = (inr 2, tr').
Proof.
  intros Hargs He1 He2 Hms.
  destruct (main_run basename sys print_results generate_html_report save_json
              print_results_succeeds generate_html_report_succeeds save_json_succeeds
              args tr)
    as (comparer & tr1 & results & tr2 & tr3 & Hinit & Hrun & Hmain).
  destruct (init_run sys (negb (args_quiet args)) tr) as [tr1' Hinit'].
  rewrite Hinit' in Hinit. injection Hinit as <- <-.
  unfold main_methods in Hrun. rewrite Hargs in Hrun.
  destruct (comprehensive_compare_unavailable
              {| verbose := negb (args_quiet args);
                 self_capabilities :=
                   {| text_comparison := HAS_PYMUPDF sys;
                      visual_comparison := HAS_PDF2IMAGE sys && pdftoppm_runs sys;
                      structure_analysis := HAS_PDFPLUMBER sys;
                      metadata_comparison := HAS_PYMUPDF sys |} |}
              (args_pdf1 args) (args_pdf2 args) m ms
              He1 He2 eq_refl eq_refl eq_refl eq_refl Hms tr1')
    as (out & tr2' & Hrun' & used & rs & s & -> & Hs & _).
  rewrite Hrun' in Hrun. injection Hrun as <- <-.
  exists tr3. rewrite Hmain. simpl. by rewrite Hs.
Qed.

End UnavailableFacts.

Lemma main_unavailable_methods_exit_code_witness :
  ∃ tr',
    main demo_basename (demo true false true)
      (λ _ _ _, mret ()) (λ _ _ _, mret ()) (λ _ _ _, mret ())
      {| args_pdf1 := "a.pdf"; args_pdf2 := "a.pdf";
         args_methods := Some [choice_visual]; args_all := false;
         args_detailed := false; args_html := None; args_json := None;
         args_dpi := 150; args_quiet := false |} []
    = (inr 2, tr').
Proof.
  apply (main_unavailable_methods_exit_code demo_basename (demo true false true)
           (λ _ _ _, mret ()) (λ _ _ _, mret ()) (λ _ _ _, mret ())
           ltac:(by eexists _, _) ltac:(by eexists _, _) ltac:(by eexists _, _)
           _ [] choice_visual []).
  - reflexivity.
  - reflexivity.
  - reflexivity.
  - repeat constructor.
Defined.

(** * The two orders of a comparison *)

(** ** The opcodes and the groups of the other order *)

Section Flip.
Local Open Scope nat_scope.

Lemma opcodes_loop_flip (blocks : list Match) : ∀ i j,
  opcodes_loop (flip_match <$> blocks) j i = flip_opcode <$> opcodes_loop blocks i j.
Proof.
  induction blocks as [|[[ai bj] size] blocks IH]; intros i j; [done|].
  rewrite fmap_cons. cbn [flip_match fst snd opcodes_loop].
  rewrite !fmap_app, IH. f_equal; [|f_equal].
  - destruct (Nat.ltb_spec i ai), (Nat.ltb_spec j bj); done.
  - by destruct (size =? 0).
Qed.

Lemma get_opcodes_flip {A} `{Countable A} (a b : list A) :
  same_matching a b → get_opcodes b a = flip_opcode <$> get_opcodes a b.
Proof. intros Hs. unfold get_opcodes. rewrite Hs. apply opcodes_loop_flip. Qed.

Lemma fix_first_flip n (codes : list opcode) :
  fix_first n (flip_opcode <$> codes) = flip_opcode <$> fix_first n codes.
Proof. destruct codes as [|[[[[[] i1] i2] j1] j2] codes]; done. Qed.

Lemma fix_last_cons_cons n (op c : opcode) (codes : list opcode) :
  fix_last n (op :: c :: codes) = op :: fix_last n (c :: codes).
Proof. by destruct op as [[[[[] i1] i2] j1] j2]. Qed.

Lemma fix_last_flip n (codes : list opcode) :
  fix_last n (flip_opcode <$> codes) = flip_opcode <$> fix_last n codes.
Proof.
  induction codes as [|op codes IH]; [done|].
  destruct codes as [|c codes]; [by destruct op as [[[[[] i1] i2] j1] j2]|].
  rewrite !fmap_cons in *. by rewrite !fix_last_cons_cons, fmap_cons, <- IH.
Qed.

Lemma group_shown_flip (group : list opcode) :
  group_shown (flip_opcode <$> group) = group_shown group.
Proof. destruct group as [|[[[[[] i1] i2] j1] j2] [|c group]]; done. Qed.

Lemma group_loop_flip n (codes : list opcode) : ∀ group : list opcode,
  Forall equal_sized codes →
  group_loop n (flip_opcode <$> codes) (flip_opcode <$> group)
  = flip_group <$> group_loop n codes group.
Proof.
  induction codes as [|[[[[tag i1] i2] j1] j2] codes IH]; intros group Hall.
  - simpl. rewrite group_shown_flip. by destruct (group_shown group).
  - apply Forall_cons in Hall as [Hop Hall].
    rewrite fmap_cons. cbn [flip_opcode group_loop].
    assert (bool_decide (flip_tag tag = Equal) && (n + n <? j2 - j1)
            = bool_decide (tag = Equal) && (n + n <? i2 - i1)) as ->.
    { destruct tag; try done. cbn [flip_tag]. by rewrite (Hop eq_refl). }
    destruct (bool_decide (tag = Equal) && (n + n <? i2 - i1)).
    + rewrite fmap_cons. f_equal.
      * unfold flip_group. by rewrite fmap_app.
      * exact (IH [(tag, i1 `max` (i2 - n), i2, j1 `max` (j2 - n), j2)] Hall).
    + rewrite <- IH by done. by rewrite fmap_app.
Qed.

Lemma ops_tile_equal_sized (ops : list opcode) : ∀ i0 j0 i9 j9,
  ops_tile i0 j0 i9 j9 ops → Forall equal_sized ops.
Proof.
  induction ops as [|[[[[tag i1] i2] j1] j2] ops IH]; intros i0 j0 i9 j9; [constructor|].
  intros (_ & Htag & Hrest). constructor; [|by eapply IH].
  by intros ->.
Qed.

Lemma get_grouped_opcodes_flip {A} `{Countable A} (a b : list A) n :
  same_matching a b →
  get_grouped_opcodes b a n = flip_group <$> get_grouped_opcodes a b n.
Proof.
  intros Hs. unfold get_grouped_opcodes. rewrite (get_opcodes_flip a b Hs).
  pose proof (get_opcodes_tile a b) as Ht.
  destruct (get_opcodes a b) as [|c codes] eqn:Hcodes.
  - simpl. by destruct (n + n <? _).
  - change (group_loop n (fix_last n (fix_first n (flip_opcode <$> c :: codes))) []
            = flip_group <$> group_loop n (fix_last n (fix_first n (c :: codes))) []).
    rewrite fix_first_flip, fix_last_flip.
    apply (group_loop_flip n _ []).
    destruct (fix_first_tile n _ _ _ Ht) as (i0 & j0 & Ht1).
    destruct (fix_last_tile n _ _ _ _ _ Ht1) as (i9 & j9 & Ht2 & _).
    by eapply ops_tile_equal_sized.
Qed.

End Flip.

(** ** The entries, opcode by opcode *)

Section Entries.

Variables a b : list text.
Variables lines1 lines2 pages1 pages2 : list text.
Hypothesis Ha : no_prefix (str "--") a.
Hypothesis Hb : no_prefix (str "++") b.

Local Abbreviation entries := (opcode_entries a b lines1 lines2 pages1 pages2) (only parsing).

Lemma opcode_entries_tag (tag : tag) (i1 i2 j1 j2 : nat) :
  entries (tag, i1, i2, j1, j2)
  = match tag with
    | Replace => removed_run lines1 pages1 (Z.of_nat i1) (slice a i1 i2)
                 ++ added_run lines2 pages2 (Z.of_nat j1) (slice b j1 j2)
    | Delete => removed_run lines1 pages1 (Z.of_nat i1) (slice a i1 i2)
    | Insert => added_run lines2 pages2 (Z.of_nat j1) (slice b j1 j2)
    | Equal => []
    end.
Proof. destruct tag; try reflexivity. apply app_nil_r. Qed.

(** The lines of the opcodes of a group give the entries of the opcodes. *)
Lemma walk_tile_entries (ops : list opcode) rest : ∀ (i j i9 j9 : nat) (c1 c2 : Z),
  ops_tile i j i9 j9 ops →
  (i9 ≤ length a)%nat → (j9 ≤ length b)%nat →
  c1 = Z.of_nat i ∨ i = i9 →
  c2 = Z.of_nat j ∨ j = j9 →
  ∃ c1' c2',
    extract_loop (concat (dump_opcode a b <$> ops) ++ rest)
      lines1 lines2 pages1 pages2 c1 c2
    = (ops ≫= entries) ++ extract_loop rest lines1 lines2 pages1 pages2 c1' c2'.
Proof.
  induction ops as [|[[[[tag i1] i2] j1] j2] ops IH]; intros i j i9 j9 c1 c2 Ht Hi9 Hj9 Hc1 Hc2.
  - by exists c1, c2.
  - destruct Ht as ((-> & -> & Hi & Hj) & Htag & Hrest).
    pose proof (ops_tile_le _ _ _ _ _ Hrest) as [Hi2 Hj2].
    rewrite fmap_cons, concat_cons, <- app_assoc.
    set (rest' := concat (dump_opcode a b <$> ops) ++ rest).
    assert (removed_run lines1 pages1 c1 (slice a i i2)
            = removed_run lines1 pages1 (Z.of_nat i) (slice a i i2)) as Hxs.
    { destruct Hc1 as [->|?]; [done|]. rewrite slice_empty by lia. done. }
    assert (added_run lines2 pages2 c2 (slice b j j2)
            = added_run lines2 pages2 (Z.of_nat j) (slice b j j2)) as Hys.
    { destruct Hc2 as [->|?]; [done|]. rewrite slice_empty by lia. done. }
    assert (∀ c, c = c1 + len (slice a i i2) → c = Z.of_nat i2 ∨ i2 = i9) as Hnext1.
    { intros c ->. destruct Hc1 as [->|?]; [left|right; lia].
      rewrite slice_length by lia. lia. }
    assert (∀ c, c = c2 + len (slice b j j2) → c = Z.of_nat j2 ∨ j2 = j9) as Hnext2.
    { intros c ->. destruct Hc2 as [->|?]; [left|right; lia].
      rewrite slice_length by lia. lia. }
    destruct tag.
    + (* replace *)
      change (dump_opcode a b (Replace, i, i2, j, j2))
        with ((prefix_line (str "-") <$> slice a i i2)
              ++ (prefix_line (str "+") <$> slice b j j2)).
      rewrite <- app_assoc, walk_minus_exact by by apply no_prefix_slice.
      rewrite walk_plus_exact by by apply no_prefix_slice.
      destruct (IH i2 j2 i9 j9 (c1 + len (slice a i i2)) (c2 + len (slice b j j2)))
        as (c1' & c2' & Heq); auto.
      exists c1', c2'. subst rest'.
      by rewrite Heq, Hxs, Hys, bind_cons, opcode_entries_tag, <- !app_assoc.
    + (* delete *)
      change (dump_opcode a b (Delete, i, i2, j, j2))
        with ((prefix_line (str "-") <$> slice a i i2) ++ []).
      rewrite app_nil_r, walk_minus_exact by by apply no_prefix_slice.
      destruct (IH i2 j2 i9 j9 (c1 + len (slice a i i2)) c2)
        as (c1' & c2' & Heq); auto.
      { subst j2. done. }
      exists c1', c2'. subst rest'.
      by rewrite Heq, Hxs, bind_cons, opcode_entries_tag, <- !app_assoc.
    + (* insert *)
      change (dump_opcode a b (Insert, i, i2, j, j2))
        with (prefix_line (str "+") <$> slice b j j2).
      rewrite walk_plus_exact by by apply no_prefix_slice.
      destruct (IH i2 j2 i9 j9 c1 (c2 + len (slice b j j2)))
        as (c1' & c2' & Heq); auto.
      { subst i2. done. }
      exists c1', c2'. subst rest'.
      by rewrite Heq, Hys, bind_cons, opcode_entries_tag, <- !app_assoc.
    + (* equal *)
      change (dump_opcode a b (Equal, i, i2, j, j2))
        with (prefix_line (str " ") <$> slice a i i2).
      rewrite walk_context_run.
      destruct (IH i2 j2 i9 j9 (c1 + len (slice a i i2)) (c2 + len (slice a i i2)))
        as (c1' & c2' & Heq); auto.
      2:{ exists c1', c2'. subst rest'.
          by rewrite Heq, bind_cons, opcode_entries_tag. }
      apply Hnext2.
      destruct (decide (i2 ≤ length a ∧ j2 ≤ length b)%nat) as [[? ?]|];
        [|lia].
      unfold len at 1 2. unfold len in *. unfold slice.
      rewrite !length_take, !length_drop. lia.
Qed.

Lemma walk_group_entries (group : list opcode) rest c1 c2 :
  group_tiles (length a) (length b) group →
  ∃ c1' c2',
    extract_loop (dump_group a b [] group ++ rest) lines1 lines2 pages1 pages2 c1 c2
    = (group ≫= entries) ++ extract_loop rest lines1 lines2 pages1 pages2 c1' c2'.
Proof.
  intros [Hne (i0 & j0 & i9 & j9 & Ht & Hi9 & Hj9)].
  destruct group as [|f g]; [done|]. clear Hne.
  destruct (proj2 (last_is_Some (f :: g)) ltac:(done)) as [l Hl].
  destruct (ops_tile_first_last _ _ _ _ _ f l Ht eq_refl Hl) as (Hf1 & Hf2 & Hl1 & Hl2).
  pose proof (ops_tile_le _ _ _ _ _ Ht) as [? ?].
  unfold dump_group. rewrite Hl. simpl head. simpl default.
  rewrite <- app_comm_cons.
  rewrite extract_loop_range_line by lia.
  rewrite Hf1, Hf2, Hl1, Hl2.
  apply (walk_tile_entries (f :: g) rest i0 j0 i9 j9); try done.
  - unfold range_begin. destruct (Z.eqb_spec (Z.of_nat i9 - Z.of_nat i0) 0); [right|left]; lia.
  - unfold range_begin. destruct (Z.eqb_spec (Z.of_nat j9 - Z.of_nat j0) 0); [right|left]; lia.
Qed.

Lemma walk_groups_entries (groups : list (list opcode)) : ∀ c1 c2,
  Forall (group_tiles (length a) (length b)) groups →
  extract_loop (concat (dump_group a b [] <$> groups)) lines1 lines2 pages1 pages2 c1 c2
  = groups ≫= (λ group, group ≫= entries).
Proof.
  induction groups as [|g groups IH]; intros c1 c2 Hok; [done|].
  apply Forall_cons in Hok as [Hg Hok].
  rewrite fmap_cons, concat_cons, bind_cons.
  destruct (walk_group_entries g (concat (dump_group a b [] <$> groups)) c1 c2 Hg)
    as (c1' & c2' & ->).
  by rewrite IH.
Qed.

(** The entries of a unified diff are those of the opcodes of its groups. *)
Lemma unified_diff_entries fromfile tofile n :
  _extract_detailed_positions (unified_diff a b fromfile tofile [] [] n [])
    lines1 lines2 pages1 pages2
  = get_grouped_opcodes a b n ≫= (λ group, group ≫= entries).
Proof.
  destruct (decide (a = [] ∧ b = [])) as [[-> ->]|Hne].
  { by rewrite unified_diff_same, get_grouped_opcodes_same. }
  assert (a ≠ [] ∨ b ≠ []) as Hne'.
  { destruct a, b; try (by left); try (by right). by destruct Hne. }
  pose proof (get_grouped_opcodes_tiles a b n Hne') as Hok.
  unfold _extract_detailed_positions, unified_diff.
  destruct (get_grouped_opcodes a b n) as [|g groups]; [done|].
  rewrite extract_loop_file_names. by apply walk_groups_entries.
Qed.

End Entries.

(** The differences of two documents are the entries of the opcodes of the
    groups of their lines. *)
Lemma detailed_diff_entries (pages1 pages2 : list text) (fromfile tofile : text) :
  no_prefix (str "--") (lines_of pages1) →
  no_prefix (str "++") (lines_of pages2) →
  detailed_diff pages1 pages2 fromfile tofile
  = get_grouped_opcodes (lines_of pages1) (lines_of pages2) 3
    ≫= (λ group, group ≫= opcode_entries (lines_of pages1) (lines_of pages2)
                           (lines_of pages1) (lines_of pages2) pages1 pages2).
Proof.
  intros H1 H2.
  rewrite <- (unified_diff_entries _ _ _ _ _ _ H1 H2 fromfile tofile).
  unfold detailed_diff, text_result, differences_of.
  fold (lines_of pages1) (lines_of pages2). cbn [andb].
  case_bool_decide as Hd; [done|]. by rewrite Hd.
Qed.

(** ** The entries of the other order *)

Lemma mirrored_opcode_entries (a b lines1 lines2 pages1 pages2 : list text) (op : opcode) :
  opcode_entries b a lines2 lines1 pages2 pages1 (flip_opcode op)
  ≡ₚ mirrored <$> opcode_entries a b lines1 lines2 pages1 pages2 op.
Proof.
  destruct op as [[[[tag i1] i2] j1] j2]. cbn [flip_opcode].
  rewrite !opcode_entries_tag. destruct tag; cbn [flip_tag].
  - rewrite fmap_app, mirrored_removed_run, mirrored_added_run.
    apply Permutation_app_comm.
  - by rewrite mirrored_removed_run.
  - by rewrite mirrored_added_run.
  - done.
Qed.

Lemma mirrored_group_entries (a b lines1 lines2 pages1 pages2 : list text)
    (group : list opcode) :
  flip_group group ≫= opcode_entries b a lines2 lines1 pages2 pages1
  ≡ₚ mirrored <$> (group ≫= opcode_entries a b lines1 lines2 pages1 pages2).
Proof.
  induction group as [|op group IH]; [done|].
  unfold flip_group in *. rewrite fmap_cons, !bind_cons, fmap_app.
  by rewrite mirrored_opcode_entries, IH.
Qed.

Lemma mirrored_groups_entries (a b lines1 lines2 pages1 pages2 : list text)
    (groups : list (list opcode)) :
  (flip_group <$> groups)
    ≫= (λ group, group ≫= opcode_entries b a lines2 lines1 pages2 pages1)
  ≡ₚ mirrored <$> (groups ≫= (λ group, group ≫= opcode_entries a b lines1 lines2
                                                   pages1 pages2)).
Proof.
  induction groups as [|g groups IH]; [done|].
  rewrite fmap_cons, !bind_cons, fmap_app.
  by rewrite mirrored_group_entries, IH.
Qed.

(** When [SequenceMatcher] pairs the same lines in both orders, the
    differences of the other order are the mirrored differences. *)
Lemma detailed_diff_mirrored (pages1 pages2 : list text) (fromfile tofile : text) :
  plain_lines (lines_of pages1) → plain_lines (lines_of pages2) →
  same_matching (lines_of pages1) (lines_of pages2) →
  detailed_diff pages2 pages1 tofile fromfile
  ≡ₚ mirrored <$> detailed_diff pages1 pages2 fromfile tofile.
Proof.
  intros H1 H2 Hs.
  rewrite !detailed_diff_entries.
  - rewrite (get_grouped_opcodes_flip _ _ 3 Hs). apply mirrored_groups_entries.
  - eapply Forall_impl; [exact H1|]. by intros x [? _].
  - eapply Forall_impl; [exact H2|]. by intros x [_ ?].
  - eapply Forall_impl; [exact H2|]. by intros x [? _].
  - eapply Forall_impl; [exact H1|]. by intros x [_ ?].
Qed.

(** ** The lines that only one of the two documents has *)

Lemma mirrored_mirrored (e : difference) : mirrored (mirrored e) = e.
Proof. by destruct e as [[] ? ? ? ? [] ?]. Qed.

Lemma slice_lookup_range {X} (l : list X) (i1 i2 t : nat) (x : X) :
  l !! t = Some x → (i1 ≤ t < i2)%nat → slice l i1 i2 !! (t - i1)%nat = Some x.
Proof.
  intros Hx Ht. unfold slice. rewrite lookup_take_lt by lia.
  rewrite lookup_drop. by replace (i1 + (t - i1))%nat with t by lia.
Qed.

Section OneSide.

Variables a b : list text.
Variables lines1 lines2 pages1 pages2 : list text.

Local Abbreviation all_entries :=
  (get_grouped_opcodes a b 3
   ≫= (λ group, group ≫= opcode_entries a b lines1 lines2 pages1 pages2))
  (only parsing).

Lemma removed_run_elem (c : nat) (xs : list text) (e : difference) :
  e ∈ removed_run lines1 pages1 (Z.of_nat c) xs
  ↔ ∃ (t : nat) x, xs !! t = Some x ∧ e = removed_entry lines1 pages1 x (Z.of_nat (c + t)).
Proof.
  unfold removed_run. rewrite list_elem_of_lookup. split.
  - intros [t Ht]. rewrite list_lookup_imap in Ht.
    destruct (xs !! t) as [x|] eqn:Hx; [|done]. injection Ht as <-.
    exists t, x. split; [done|]. f_equal. lia.
  - intros (t & x & Hx & ->). exists t. rewrite list_lookup_imap, Hx. simpl.
    do 2 f_equal. lia.
Qed.

Lemma added_run_elem (c : nat) (xs : list text) (e : difference) :
  e ∈ added_run lines2 pages2 (Z.of_nat c) xs
  ↔ ∃ (t : nat) x, xs !! t = Some x ∧ e = added_entry lines2 pages2 x (Z.of_nat (c + t)).
Proof.
  unfold added_run. rewrite list_elem_of_lookup. split.
  - intros [t Ht]. rewrite list_lookup_imap in Ht.
    destruct (xs !! t) as [x|] eqn:Hx; [|done]. injection Ht as <-.
    exists t, x. split; [done|]. f_equal. lia.
  - intros (t & x & Hx & ->). exists t. rewrite list_lookup_imap, Hx. simpl.
    do 2 f_equal. lia.
Qed.

(** An entry of an opcode is the removed entry of a line of the first
    sequence or the added entry of a line of the second. *)
Lemma opcode_entries_inv (op : opcode) (e : difference) :
  e ∈ opcode_entries a b lines1 lines2 pages1 pages2 op →
  (∃ (t : nat) x, a !! t = Some x ∧ e = removed_entry lines1 pages1 x (Z.of_nat t))
  ∨ (∃ (t : nat) x, b !! t = Some x ∧ e = added_entry lines2 pages2 x (Z.of_nat t)).
Proof.
  destruct op as [[[[tag i1] i2] j1] j2]. unfold opcode_entries.
  intros [Hin|Hin]%elem_of_app.
  - destruct (bool_decide _); [|by apply elem_of_nil in Hin].
    apply removed_run_elem in Hin as (t & x & Hx%slice_lookup & ->). left. eauto.
  - destruct (bool_decide _); [|by apply elem_of_nil in Hin].
    apply added_run_elem in Hin as (t & x & Hx%slice_lookup & ->). right. eauto.
Qed.

Lemma all_entries_inv (e : difference) :
  e ∈ all_entries →
  (∃ (t : nat) x, a !! t = Some x ∧ e = removed_entry lines1 pages1 x (Z.of_nat t))
  ∨ (∃ (t : nat) x, b !! t = Some x ∧ e = added_entry lines2 pages2 x (Z.of_nat t)).
Proof.
  intros (g & (op & He & _)%list_elem_of_bind & _)%list_elem_of_bind.
  by eapply opcode_entries_inv.
Qed.

(** A line that only the first sequence has gives its removed entry, and a
    line that only the second has its added entry. *)
Lemma removed_only_in_first (t : nat) (x : text) :
  a !! t = Some x → x ∉ b →
  removed_entry lines1 pages1 x (Z.of_nat t) ∈ all_entries.
Proof.
  intros Hx Hnb.
  destruct (get_opcodes_only_in_a a b t x Hx Hnb)
    as (tag & i1 & i2 & j1 & j2 & Hin & Hr & Htag).
  destruct (get_grouped_opcodes_keeps a b 3 _ Hin) as (g & Hg & Hop).
  { simpl. intros ->. apply list_elem_of_In in Htag. simpl in Htag.
    by destruct Htag as [?|[?|[]]]. }
  apply list_elem_of_bind. exists g. split; [|done].
  apply list_elem_of_bind. eexists. split; [|exact Hop].
  unfold opcode_entries. apply elem_of_app. left.
  rewrite bool_decide_true by done.
  apply removed_run_elem. exists (t - i1)%nat, x.
  split; [by apply slice_lookup_range|]. do 2 f_equal. lia.
Qed.

Lemma added_only_in_second (t : nat) (x : text) :
  b !! t = Some x → x ∉ a →
  added_entry lines2 pages2 x (Z.of_nat t) ∈ all_entries.
Proof.
  intros Hx Hna.
  destruct (get_opcodes_only_in_b a b t x Hx Hna)
    as (tag & i1 & i2 & j1 & j2 & Hin & Hr & Htag).
  destruct (get_grouped_opcodes_keeps a b 3 _ Hin) as (g & Hg & Hop).
  { simpl. intros ->. apply list_elem_of_In in Htag. simpl in Htag.
    by destruct Htag as [?|[?|[]]]. }
  apply list_elem_of_bind. exists g. split; [|done].
  apply list_elem_of_bind. eexists. split; [|exact Hop].
  unfold opcode_entries. apply elem_of_app. right.
  rewrite bool_decide_true by done.
  apply added_run_elem. exists (t - j1)%nat, x.
  split; [by apply slice_lookup_range|]. do 2 f_equal. lia.
Qed.

End OneSide.

(** The differences on lines that only one of the two documents has are
    mirrored in the other order, whatever the lines they have in common. *)
Lemma detailed_diff_one_side (pages1 pages2 : list text) (fromfile tofile : text)
    (e : difference) :
  plain_lines (lines_of pages1) → plain_lines (lines_of pages2) →
  on_one_side (lines_of pages1) (lines_of pages2) e →
  e ∈ detailed_diff pages1 pages2 fromfile tofile
  ↔ mirrored e ∈ detailed_diff pages2 pages1 tofile fromfile.
Proof.
  intros H1 H2 Hside.
  rewrite !detailed_diff_entries;
    try (eapply Forall_impl; [eassumption|]; by intros x [? ?]).
  unfold on_one_side in Hside. split.
  - intros [(t & x & Hx & ->)|(t & x & Hx & ->)]%all_entries_inv; simpl in Hside.
    + by apply (added_only_in_second (lines_of pages2) (lines_of pages1)).
    + by apply (removed_only_in_first (lines_of pages2) (lines_of pages1)).
  - intros [(t & x & Hx & Heq)|(t & x & Hx & Heq)]%all_entries_inv;
      apply (f_equal mirrored) in Heq; rewrite mirrored_mirrored in Heq; subst e;
      simpl in Hside.
    + by apply (added_only_in_second (lines_of pages1) (lines_of pages2)).
    + by apply (removed_only_in_first (lines_of pages1) (lines_of pages2)).
Qed.

(** ** Common elements in the same order *)

Section FilterOrder.
Context {A : Type} (P : A → Prop) `{∀ x, Decision (P x)}.

Lemma filter_lookup_order (l : list A) : ∀ (i i' : nat) (x y : A),
  l !! i = Some x → l !! i' = Some y → (i < i')%nat → P x → P y →
  ∃ k k' : nat, (k < k')%nat ∧ filter P l !! k = Some x ∧ filter P l !! k' = Some y.
Proof.
  induction l as [|z l IH]; intros i i' x y Hx Hy Hlt Px Py; [done|].
  destruct i' as [|i']; [lia|]. destruct i as [|i].
  - injection Hx as ->. rewrite filter_cons_True by done.
    assert (y ∈ filter P l) as [k' Hk']%list_elem_of_lookup.
    { apply list_elem_of_filter. split; [done|]. by eapply list_elem_of_lookup_2. }
    exists 0%nat, (S k'). split; [lia|done].
  - destruct (IH i i' x y Hx Hy ltac:(lia) Px Py) as (k & k' & Hk & Hkx & Hky).
    destruct (decide (P z)).
    + rewrite filter_cons_True by done. exists (S k), (S k'). split; [lia|done].
    + rewrite filter_cons_False by done. by exists k, k'.
Qed.

End FilterOrder.

Lemma common_lines_alike_sym {A} `{EqDecision A} (a b : list A) :
  common_lines_alike a b → common_lines_alike b a.
Proof. intros [Hnd Heq]. split; [by rewrite <- Heq|done]. Qed.

Lemma common_lines_alike_lt {A} `{EqDecision A} (a b : list A) (i j i' j' : nat) :
  common_lines_alike a b →
  common_at a b i j → common_at a b i' j' → (i < i')%nat → (j < j')%nat.
Proof.
  intros [Hnd Heq] (x & Hxa & Hxb) (y & Hya & Hyb) Hlt.
  assert (x ∈ b ∧ y ∈ b ∧ x ∈ a ∧ y ∈ a) as (? & ? & ? & ?)
    by (repeat split; by eapply list_elem_of_lookup_2).
  destruct (filter_lookup_order (λ x, x ∈ b) a i i' x y) as (k & k' & Hk & Hkx & Hky);
    try done.
  destruct (decide (j < j')%nat) as [|Hge]; [done|]. exfalso.
  destruct (decide (j = j')) as [->|Hne].
  - assert (x = y) as -> by congruence.
    pose proof (NoDup_lookup _ _ _ _ Hnd Hkx Hky). lia.
  - destruct (filter_lookup_order (λ x, x ∈ a) b j' j y x) as (m & m' & Hm & Hmy & Hmx);
      try done; [lia|].
    rewrite <- Heq in Hmy, Hmx.
    pose proof (NoDup_lookup _ _ _ _ Hnd Hkx Hmx).
    pose proof (NoDup_lookup _ _ _ _ Hnd Hky Hmy). lia.
Qed.

(** The test on the two sequences says what it is meant to. *)
Lemma common_lines_alike_order {A} `{EqDecision A} (a b : list A) :
  common_lines_alike a b → order_alike a b.
Proof.
  intros Hc i j i' j' H1 H2. split.
  - by apply (common_lines_alike_lt a b).
  - apply (common_lines_alike_lt b a); [by apply common_lines_alike_sym|..].
    + destruct H1 as (x & ? & ?). by exists x.
    + destruct H2 as (x & ? & ?). by exists x.
Qed.

Lemma order_alike_sym {A} (a b : list A) : order_alike a b → order_alike b a.
Proof.
  intros Ho j i j' i' (x & ? & ?) (y & ? & ?). symmetry. apply Ho; [by exists x|by exists y].
Qed.

(** ** What [find_longest_match] finds *)

Section Finds.
Local Open Scope nat_scope.
Context {A : Type} `{Countable A}.

Lemma indices_from_not_elem (l : list A) (x : A) : ∀ s,
  x ∉ l → indices_from s l x = [].
Proof.
  induction l as [|y l IH]; intros s Hx; simpl; [done|].
  apply not_elem_of_cons in Hx as [Hne Hx]. rewrite decide_False by done. by apply IH.
Qed.

(** An element that occurs once is in [b2j] with its position. *)
Lemma indices_from_once (l : list A) (x : A) : ∀ s t,
  l !! t = Some x → (∀ t', l !! t' = Some x → t' = t) →
  indices_from s l x = [s + t].
Proof.
  induction l as [|y l IH]; intros s t Ht Hu; [done|]. simpl.
  destruct t as [|t].
  - injection Ht as ->. rewrite decide_True by done.
    rewrite indices_from_not_elem, Nat.add_0_r; [done|].
    intros [t' Ht']%list_elem_of_lookup. by specialize (Hu (S t') Ht').
  - rewrite decide_False.
    2:{ intros ->. by specialize (Hu 0 eq_refl). }
    rewrite (IH (S s) t Ht).
    + f_equal. lia.
    + intros t' Ht'. specialize (Hu (S t') Ht'). lia.
Qed.

Lemma b2j_once (b : list A) (x : A) (j : nat) :
  b !! j = Some x → (∀ j', b !! j' = Some x → j' = j) → b2j b !! x = Some [j].
Proof.
  intros Hj Hu. pose proof (indices_from_once b x 0 j Hj Hu) as Hi. simpl in Hi.
  assert (chain_loop 0 b ∅ !! x = Some [j]) as Hc.
  { by rewrite chain_loop_lookup, Hi, lookup_empty. }
  unfold b2j. apply map_lookup_filter_Some. split; [done|]. simpl.
  unfold bpopular. case_bool_decide; [|apply not_elem_of_empty].
  intros [js Hjs]%elem_of_dom. apply map_lookup_filter_Some in Hjs as [Hjs Hlen].
  rewrite Hc in Hjs. injection Hjs as <-. simpl in Hlen. lia.
Qed.

Variables a b : list A.
Hypothesis Ho : order_alike a b.

Lemma common_at_unique_b (i j j' : nat) :
  common_at a b i j → common_at a b i j' → j = j'.
Proof.
  intros H1 H2. pose proof (Ho i j i j' H1 H2). pose proof (Ho i j' i j H2 H1). lia.
Qed.

Lemma common_at_unique_a (i i' j : nat) :
  common_at a b i j → common_at a b i' j → i = i'.
Proof.
  intros H1 H2. pose proof (Ho i j i' j H1 H2). pose proof (Ho i' j i j H2 H1). lia.
Qed.

Lemma b2j_get_common (i j : nat) : common_at a b i j → b2j_get a b i = [j].
Proof.
  intros (x & Hx & Hy). unfold b2j_get. rewrite Hx.
  rewrite (b2j_once b x j); [done|done|].
  intros j' Hj'. apply (common_at_unique_b i); by exists x.
Qed.

Lemma flm_inner_size i blo bhi j2len js : ∀ newj2len best,
  best.2 ≤ (flm_inner i blo bhi j2len js newj2len best).2.2.
Proof.
  induction js as [|j js IH]; intros newj2len best; simpl; [done|].
  destruct (j <? blo); [apply IH|]. destruct (bhi <=? j); [done|].
  etransitivity; [|apply IH]. destruct (Nat.ltb_spec best.2 (j2lenget j2len j + 1));
    simpl; lia.
Qed.

Lemma flm_outer_size blo bhi range : ∀ j2len best,
  best.2 ≤ (flm_outer a b blo bhi range j2len best).2.
Proof.
  induction range as [|i range IH]; intros j2len best; simpl; [done|].
  pose proof (flm_inner_size i blo bhi j2len (b2j_get a b i) ∅ best) as Hin.
  destruct (flm_inner i blo bhi j2len (b2j_get a b i) ∅ best) as [new best'].
  etransitivity; [exact Hin|apply IH].
Qed.

Lemma flm_outer_finds blo bhi range : ∀ j2len best i j,
  i ∈ range → common_at a b i j → blo ≤ j < bhi →
  1 ≤ (flm_outer a b blo bhi range j2len best).2.
Proof.
  induction range as [|i0 range IH]; intros j2len best i j Hi Hc Hj.
  { by apply elem_of_nil in Hi. }
  simpl. apply elem_of_cons in Hi as [<-|Hi].
  - rewrite (b2j_get_common i j Hc). simpl.
    destruct (Nat.ltb_spec j blo); [lia|]. destruct (Nat.leb_spec bhi j); [lia|].
    etransitivity; [|apply flm_outer_size].
    destruct (Nat.ltb_spec best.2 (j2lenget j2len j + 1)); simpl; lia.
  - destruct (flm_inner i0 blo bhi j2len (b2j_get a b i0) ∅ best) as [new best'].
    by eapply IH.
Qed.

Lemma extend_back_size junk alo blo : ∀ besti bestj bestsize,
  bestsize ≤ (extend_back a b junk alo blo besti bestj bestsize).2.
Proof.
  induction besti as [|i' IH]; intros bestj bestsize; simpl; [done|].
  destruct bestj as [|j']; [done|].
  destruct (_ && _); [|done]. etransitivity; [|apply IH]. lia.
Qed.

Lemma extend_fwd_size junk ahi bhi fuel : ∀ besti bestj bestsize,
  bestsize ≤ (extend_fwd a b junk fuel ahi bhi besti bestj bestsize).2.
Proof.
  induction fuel as [|fuel IH]; intros besti bestj bestsize; simpl; [done|].
  destruct (_ && _); [|done]. etransitivity; [|apply IH]. lia.
Qed.

Lemma extend_size junk alo ahi blo bhi (best : Match) :
  best.2 ≤ (extend a b junk alo ahi blo bhi best).2.
Proof.
  unfold extend. destruct best as [[besti bestj] bestsize].
  pose proof (extend_back_size junk alo blo besti bestj bestsize) as Hback.
  destruct (extend_back a b junk alo blo besti bestj bestsize) as [[i j] k].
  etransitivity; [exact Hback|apply extend_fwd_size].
Qed.

(** In ranges that hold a pair of equal elements, the match that
    [find_longest_match] finds is not empty. *)
Lemma find_longest_match_finds (alo ahi blo bhi i j : nat) :
  common_at a b i j → alo ≤ i < ahi → blo ≤ j < bhi →
  1 ≤ (find_longest_match a b alo ahi blo bhi).2.
Proof.
  intros Hc Hi Hj. unfold find_longest_match.
  etransitivity; [|apply extend_size]. etransitivity; [|apply extend_size].
  apply (flm_outer_finds _ _ _ _ _ i j); [|done|done].
  apply elem_of_seq. lia.
Qed.

End Finds.

(** ** The blocks the loop finds hold every pair of equal elements *)

Section Covers.
Local Open Scope nat_scope.
Context {A : Type} `{Countable A}.
Variables a b : list A.
Hypothesis Ho : order_alike a b.

Lemma covered_app (xs ys : list Match) (i j : nat) :
  covered (xs ++ ys) i j ↔ covered xs i j ∨ covered ys i j.
Proof.
  unfold covered. split.
  - intros (m & t & [?|?]%elem_of_app & ?); [left|right]; eauto.
  - intros [(m & t & ? & ?)|(m & t & ? & ?)]; exists m, t; rewrite elem_of_app; auto.
Qed.

Lemma covered_singleton (m : Match) (i j : nat) :
  covered [m] i j ↔ ∃ t, t < m.2 ∧ i = m.1.1 + t ∧ j = m.1.2 + t.
Proof.
  unfold covered. split.
  - intros (m' & t & ->%list_elem_of_singleton & ?). eauto.
  - intros (t & ?). exists m, t. split; [left|done].
Qed.

Lemma covered_nil (i j : nat) : ¬ covered [] i j.
Proof. by intros (m & t & ?%elem_of_nil & _). Qed.

Lemma genuine_common (m : Match) (t : nat) :
  genuine a b m → t < m.2 → common_at a b (m.1.1 + t) (m.1.2 + t).
Proof. intros Hg Ht. exact (Hg t Ht). Qed.

Lemma covers_step (alo ahi blo bhi : nat) queue blocks :
  alo ≤ ahi → blo ≤ bhi →
  covers a b ((alo, ahi, blo, bhi) :: queue) blocks →
  match find_longest_match a b alo ahi blo bhi with
  | (i, j, k) =>
      if k =? 0 then covers a b queue blocks
      else
        let q1 := if (alo <? i) && (blo <? j) then (alo, i, blo, j) :: queue else queue in
        let q2 := if (i + k <? ahi) && (j + k <? bhi)
                  then (i + k, ahi, j + k, bhi) :: q1 else q1 in
        covers a b q2 (blocks ++ [(i, j, k)])
  end.
Proof.
  intros Ha Hb Hc.
  pose proof (find_longest_match_bounds a b alo blo bhi ahi Ha Hb) as Hin.
  pose proof (find_longest_match_genuine a b alo ahi blo bhi) as Hg.
  pose proof (find_longest_match_finds a b Ho alo ahi blo bhi) as Hfinds.
  destruct (find_longest_match a b alo ahi blo bhi) as [[i j] k].
  unfold best_within in Hin. simpl in Hin, Hfinds.
  destruct Hin as (Hi & Hj & Hik & Hjk).
  destruct (Nat.eqb_spec k 0) as [->|Hk].
  - intros i' j' Hcp.
    destruct (Hc i' j' Hcp) as [?|(q & [->|Hq]%elem_of_cons & Hbox)]; [by left| |by eauto].
    destruct Hbox as [? ?]. simpl in *.
    specialize (Hfinds i' j' Hcp ltac:(lia) ltac:(lia)). lia.
  - cbv zeta. intros i' j' Hcp. rewrite covered_app.
    destruct (Hc i' j' Hcp) as [?|(q & [->|Hq]%elem_of_cons & Hbox)]; [by left; left| |].
    2:{ right. exists q. split; [|done].
        destruct (_ && _), (_ && _); repeat (apply elem_of_cons; right); exact Hq. }
    destruct Hbox as [Hbi Hbj]. simpl in Hbi, Hbj.
    pose proof (genuine_common (i, j, k) 0 Hg ltac:(simpl; lia)) as Hfirst.
    pose proof (genuine_common (i, j, k) (k - 1) Hg ltac:(simpl; lia)) as Hlast.
    simpl in Hfirst, Hlast. rewrite !Nat.add_0_r in Hfirst.
    destruct (decide (i' < i)) as [Hlt|Hge].
    + pose proof (proj1 (Ho i' j' i j Hcp Hfirst) Hlt) as Hjlt.
      right. exists (alo, i, blo, j). split; [|unfold in_box; simpl; lia].
      destruct (Nat.ltb_spec alo i); [|lia]. destruct (Nat.ltb_spec blo j); [|lia].
      cbn [andb].
      destruct (_ && _); [apply elem_of_cons; right|]; apply elem_of_cons; by left.
    + destruct (decide (i' < i + k)) as [Hin|Hout].
      * left. right. apply covered_singleton. exists (i' - i). simpl.
        pose proof (genuine_common (i, j, k) (i' - i) Hg ltac:(simpl; lia)) as Hmid.
        simpl in Hmid. replace (i + (i' - i)) with i' in Hmid by lia.
        pose proof (common_at_unique_b a b Ho i' j' _ Hcp Hmid). lia.
      * pose proof (proj1 (Ho (i + (k - 1)) (j + (k - 1)) i' j' Hlast Hcp) ltac:(lia)) as Hjgt.
        right. exists (i + k, ahi, j + k, bhi). split; [|unfold in_box; simpl; lia].
        destruct (Nat.ltb_spec (i + k) ahi); [|lia].
        destruct (Nat.ltb_spec (j + k) bhi); [|lia]. cbn [andb].
        apply elem_of_cons. by left.
Qed.

Lemma matching_loop_covers fuel : ∀ queue blocks,
  loop_inv (length a) (length b) queue blocks →
  covers a b queue blocks →
  covers a b (matching_loop a b fuel queue blocks).1 (matching_loop a b fuel queue blocks).2.
Proof.
  induction fuel as [|fuel IH]; intros queue blocks Hinv Hc; simpl; [done|].
  destruct queue as [|[[[alo ahi] blo] bhi] queue]; [done|].
  pose proof (loop_inv_step _ _ _ _ _ _ _ _ Hinv) as Hstep.
  destruct Hinv as ([(Ha & Hb & _) _]%Forall_cons & _). simpl in Ha, Hb.
  pose proof (covers_step alo ahi blo bhi queue blocks Ha Hb Hc) as Hcstep.
  destruct (find_longest_match a b alo ahi blo bhi) as [[i j] k].
  destruct (Nat.eqb k 0); by apply IH.
Qed.

(** The blocks of the loop hold exactly the pairs of equal elements. *)
Lemma matching_loop_blocks (i j : nat) :
  covered (matching_loop a b (length a + length b + 1) [(0, length a, 0, length b)] []).2 i j
  ↔ common_at a b i j.
Proof.
  split.
  - intros (m & t & Hm & Ht & -> & ->).
    pose proof (matching_loop_genuine a b (length a + length b + 1)
                  [(0, length a, 0, length b)] [] ltac:(constructor)) as Hg.
    rewrite Forall_forall in Hg. by apply genuine_common; [apply Hg|].
  - intros Hcp.
    pose proof (matching_loop_covers (length a + length b + 1)
                  [(0, length a, 0, length b)] [] (loop_inv_init a b)) as Hc.
    rewrite get_matching_blocks_queue_empty in Hc.
    destruct (Hc) with (i := i) (j := j) as [?|(q & ?%elem_of_nil & _)]; try done.
    intros i' j' (x & Hx & Hy). right. exists (0, length a, 0, length b).
    split; [left|]. apply lookup_lt_Some in Hx, Hy. unfold in_box. simpl. lia.
Qed.

End Covers.

(** ** The blocks once sorted and collapsed *)

Section Separated.
Local Open Scope nat_scope.

Lemma covered_nil' (i j : nat) : ¬ covered [] i j.
Proof. by intros (m & t & ?%elem_of_nil & _). Qed.

Lemma covered_cons (m : Match) (blocks : list Match) (i j : nat) :
  covered (m :: blocks) i j
  ↔ (∃ t, t < m.2 ∧ i = m.1.1 + t ∧ j = m.1.2 + t) ∨ covered blocks i j.
Proof.
  unfold covered. split.
  - intros (m' & t & [->|?]%elem_of_cons & ?); [left|right]; eauto.
  - intros [(t & ?)|(m' & t & ? & ?)].
    + exists m, t. split; [left|done].
    + exists m', t. split; [by right|done].
Qed.

Lemma covered_Permutation (xs ys : list Match) (i j : nat) :
  xs ≡ₚ ys → covered xs i j → covered ys i j.
Proof. intros Hp (m & t & Hm & ?). exists m, t. by rewrite <- Hp. Qed.

(** Collapsing keeps the pairs of the blocks. *)
Lemma covered_collapse (blocks : list Match) : ∀ i1 j1 k1 i j,
  covered (collapse blocks i1 j1 k1) i j ↔ covered ((i1, j1, k1) :: blocks) i j.
Proof.
  induction blocks as [|[[i2 j2] k2] blocks IH]; intros i1 j1 k1 i j; simpl.
  - rewrite covered_cons. simpl. destruct (Nat.eqb_spec k1 0) as [->|Hk].
    + split; [by intros ?%covered_nil'|]. intros [(t & ? & _)|?%covered_nil']; [lia|done].
    + rewrite covered_cons. simpl. done.
  - destruct (Nat.eqb_spec (i1 + k1) i2) as [<-|Hi]; simpl.
    + destruct (Nat.eqb_spec (j1 + k1) j2) as [<-|Hj]; simpl.
      * rewrite IH, !covered_cons. simpl. split.
        -- intros [(t & Ht & -> & ->)|?]; [|by auto].
           destruct (decide (t < k1)); [left; exists t; lia|].
           right. left. exists (t - k1). lia.
        -- intros [(t & Ht & -> & ->)|[(t & Ht & -> & ->)|?]]; [| |by auto].
           ++ left. exists t. lia.
           ++ left. exists (k1 + t). lia.
      * rewrite covered_app, IH, !covered_cons. simpl.
        destruct (Nat.eqb_spec k1 0) as [->|Hk].
        -- split; [intros [?%covered_nil'|?]; [done|by right]|].
           intros [(t & ? & _)|?]; [lia|by right].
        -- rewrite covered_cons. simpl. split.
           ++ intros [[?|?%covered_nil']|?]; [by left|done|by right].
           ++ intros [?|?]; [left; by left|by right].
    + rewrite covered_app, IH, !covered_cons. simpl.
      destruct (Nat.eqb_spec k1 0) as [->|Hk].
      * split; [intros [?%covered_nil'|?]; [done|by right]|].
        intros [(t & ? & _)|?]; [lia|by right].
      * rewrite covered_cons. simpl. split.
        -- intros [[?|?%covered_nil']|?]; [by left|done|by right].
        -- intros [?|?]; [left; by left|by right].
Qed.

(** Collapsing blocks that are in increasing order leaves no block that
    starts where the block before it ends. *)
Lemma collapse_separated la lb (blocks : list Match) : ∀ i1 j1 k1,
  0 < k1 →
  chain (i1 + k1) (j1 + k1) la lb blocks →
  Forall (λ m : Match, 0 < m.2) blocks →
  ∃ k rest, collapse blocks i1 j1 k1 = (i1, j1, k) :: rest
            ∧ separated ((i1, j1, k) :: rest).
Proof.
  induction blocks as [|[[i2 j2] k2] blocks IH]; intros i1 j1 k1 Hk Hc Hpos; simpl.
  - destruct (Nat.eqb_spec k1 0); [lia|]. exists k1, []. by repeat split.
  - destruct Hc as [[Hi Hj] Hc]. apply Forall_cons in Hpos as [Hk2 Hpos]. simpl in Hk2.
    destruct (Nat.eqb_spec (i1 + k1) i2) as [Hei|Hni]; simpl.
    + destruct (Nat.eqb_spec (j1 + k1) j2) as [Hej|Hnj]; simpl.
      * apply IH; [lia| |done].
        by replace (i1 + (k1 + k2)) with (i2 + k2) by lia;
           replace (j1 + (k1 + k2)) with (j2 + k2) by lia.
      * destruct (Nat.eqb_spec k1 0); [lia|].
        destruct (IH i2 j2 k2 Hk2 Hc Hpos) as (k & rest & -> & Hsep).
        exists k1, ((i2, j2, k) :: rest). split; [done|].
        split; [done|]. split; [lia|done].
    + destruct (Nat.eqb_spec k1 0); [lia|].
      destruct (IH i2 j2 k2 Hk2 Hc Hpos) as (k & rest & -> & Hsep).
      exists k1, ((i2, j2, k) :: rest). split; [done|].
      split; [done|]. split; [lia|done].
Qed.

Lemma collapse_separated_top la lb (blocks : list Match) :
  chain 0 0 la lb blocks →
  Forall (λ m : Match, 0 < m.2) blocks →
  separated (collapse blocks 0 0 0).
Proof.
  destruct blocks as [|[[i2 j2] k2] blocks]; intros Hc Hpos; [done|].
  destruct Hc as [_ Hc]. apply Forall_cons in Hpos as [Hk2 Hpos]. simpl in Hk2.
  cbn [collapse]. change (0 + 0) with 0.
  destruct (Nat.eqb_spec 0 i2) as [<-|Hi]; [destruct (Nat.eqb_spec 0 j2) as [<-|Hj]|];
    cbn [andb Nat.eqb app].
  - destruct (collapse_separated la lb blocks 0 0 k2 Hk2 Hc Hpos) as (k & rest & Heq & ?).
    change (0 + k2) with k2. by rewrite Heq.
  - destruct (collapse_separated la lb blocks 0 j2 k2 Hk2 Hc Hpos) as (k & rest & -> & ?).
    done.
  - destruct (collapse_separated la lb blocks i2 j2 k2 Hk2 Hc Hpos) as (k & rest & -> & ?).
    done.
Qed.

(** In separated blocks, the blocks after the first start at or after its
    end. *)
Lemma separated_after (i j k : nat) (rest : list Match) (m : Match) :
  separated ((i, j, k) :: rest) → m ∈ rest → i + k ≤ m.1.1 ∧ j + k ≤ m.1.2.
Proof.
  revert i j k. induction rest as [|[[i2 j2] k2] rest IH]; intros i j k Hsep Hm.
  { by apply elem_of_nil in Hm. }
  destruct Hsep as (Hk & (Hi & Hj & _) & Hrest).
  apply elem_of_cons in Hm as [->|Hm]; [simpl; lia|].
  pose proof Hrest as (Hk2 & _).
  specialize (IH i2 j2 k2 Hrest Hm). lia.
Qed.

Lemma covered_after (i j k : nat) (rest : list Match) (x y : nat) :
  separated ((i, j, k) :: rest) → covered rest x y → i + k ≤ x ∧ j + k ≤ y.
Proof.
  intros Hsep (m & t & Hm & Ht & -> & ->).
  pose proof (separated_after i j k rest m Hsep Hm). lia.
Qed.

(** Separated blocks are determined by the pairs they hold. *)
Lemma separated_unique (xs : list Match) : ∀ ys,
  separated xs → separated ys →
  (∀ i j, covered xs i j ↔ covered ys i j) →
  xs = ys.
Proof.
  induction xs as [|[[i j] k] xs IH]; intros [|[[i' j'] k'] ys] Hx Hy Hcov.
  - done.
  - exfalso. apply (covered_nil' i' j'). apply Hcov, covered_cons. left.
    destruct Hy as (? & _). exists 0. simpl. lia.
  - exfalso. apply (covered_nil' i j). apply Hcov, covered_cons. left.
    destruct Hx as (? & _). exists 0. simpl. lia.
  - pose proof Hx as (Hk & Hnext & Hxs). pose proof Hy as (Hk' & Hnext' & Hys).
    assert (covered ((i, j, k) :: xs) i j) as Hfirst.
    { apply covered_cons. left. exists 0. simpl. lia. }
    assert (covered ((i', j', k') :: ys) i' j') as Hfirst'.
    { apply covered_cons. left. exists 0. simpl. lia. }
    assert (i' ≤ i ∧ j' ≤ j) as [? ?].
    { apply Hcov, covered_cons in Hfirst as [(t & _ & ? & ?)|Hc]; simpl in *; [lia|].
      pose proof (covered_after _ _ _ _ _ _ Hy Hc). lia. }
    assert (i ≤ i' ∧ j ≤ j') as [? ?].
    { apply Hcov, covered_cons in Hfirst' as [(t & _ & ? & ?)|Hc]; simpl in *; [lia|].
      pose proof (covered_after _ _ _ _ _ _ Hx Hc). lia. }
    assert (i' = i) as -> by lia. assert (j' = j) as -> by lia.
    assert (∀ (k1 k2 : nat) (r1 r2 : list Match),
              separated ((i, j, k1) :: r1) →
              (∀ x y, covered ((i, j, k2) :: r2) x y → covered ((i, j, k1) :: r1) x y) →
              ¬ k1 < k2) as Hsize.
    { intros k1 k2 r1 r2 Hs1 Hsub Hlt.
      assert (covered ((i, j, k1) :: r1) (i + k1) (j + k1)) as Hc.
      { apply Hsub, covered_cons. left. exists k1. simpl. lia. }
      apply covered_cons in Hc as [(t & ? & ? & ?)|(m & t & Hm & Ht & Hi & Hj)];
        simpl in *; [lia|].
      pose proof (separated_after _ _ _ _ _ Hs1 Hm) as [? ?].
      destruct r1 as [|[[i2 j2] k2'] r1]; [by apply elem_of_nil in Hm|].
      destruct Hs1 as (_ & (? & ? & Hadj) & Hs1).
      apply elem_of_cons in Hm as [->|Hm]; simpl in *; [apply Hadj; lia|].
      pose proof (separated_after _ _ _ _ _ Hs1 Hm) as [? ?].
      destruct Hs1 as (? & _). lia. }
    assert (k' = k) as ->.
    { pose proof (Hsize k k' xs ys Hx ltac:(intros x y; apply Hcov)).
      pose proof (Hsize k' k ys xs Hy ltac:(intros x y; apply Hcov)). lia. }
    f_equal. apply IH; [done|done|].
    intros x y. split; intros Hc.
    + pose proof (covered_after _ _ _ _ _ _ Hx Hc) as [? ?].
      assert (covered ((i, j, k) :: ys) x y) as [(t & ? & ? & ?)|?]%covered_cons;
        [|simpl in *; lia|done].
      apply Hcov, covered_cons. by right.
    + pose proof (covered_after _ _ _ _ _ _ Hy Hc) as [? ?].
      assert (covered ((i, j, k) :: xs) x y) as [(t & ? & ? & ?)|?]%covered_cons;
        [|simpl in *; lia|done].
      apply Hcov, covered_cons. by right.
Qed.

Lemma separated_flip (blocks : list Match) :
  separated blocks → separated (flip_match <$> blocks).
Proof.
  induction blocks as [|[[i j] k] blocks IH]; [done|].
  intros (Hk & Hnext & Hrest). rewrite fmap_cons. split; [done|]. split; [|by apply IH].
  destruct blocks as [|[[i2 j2] k2] blocks]; [done|]. simpl. simpl in Hnext. lia.
Qed.

Lemma covered_flip (blocks : list Match) (i j : nat) :
  covered (flip_match <$> blocks) j i ↔ covered blocks i j.
Proof.
  unfold covered. split.
  - intros (m & t & (m' & -> & Hm)%list_elem_of_fmap & Ht). exists m', t.
    split; [done|]. destruct m' as [[? ?] ?]. simpl in *. lia.
  - intros (m & t & Hm & Ht). exists (flip_match m), t.
    split; [by apply list_elem_of_fmap_2|]. destruct m as [[? ?] ?]. simpl in *. lia.
Qed.

End Separated.

(** ** The same matching in both orders *)

Section SameMatching.
Local Open Scope nat_scope.
Context {A : Type} `{Countable A}.

Lemma sorted_blocks_chain (a b : list A) :
  let blocks := (matching_loop a b (length a + length b + 1)
                   [(0, length a, 0, length b)] []).2 in
  chain 0 0 (length a) (length b) (merge_sort Match_le blocks)
  ∧ Forall (λ m : Match, 0 < m.2) (merge_sort Match_le blocks).
Proof.
  intros blocks.
  pose proof (matching_loop_inv a b (length a + length b + 1) _ _ (loop_inv_init a b))
    as (_ & Hblocks & Hp).
  fold blocks in Hblocks, Hp.
  apply pairwise_app_r in Hp.
  pose proof (merge_sort_Permutation Match_le blocks) as Hperm.
  assert (Forall (λ m : Match, 0 < m.2) (merge_sort Match_le blocks)) as Hpos.
  { rewrite Hperm. eapply Forall_impl; [exact Hblocks|]. by intros m (? & _). }
  split; [|done].
  apply chain_of_sorted; [| |lia|lia].
  - apply sorted_blocks_before; [|done|].
    + apply StronglySorted_merge_sort; apply _.
    + eapply (pairwise_Permutation box_apart); [|exact Hp]. by rewrite Hperm.
  - rewrite Hperm. eapply Forall_impl; [exact Hblocks|]. intros m (? & ? & ?). lia.
Qed.

(** The matching blocks without the last, empty one, and the pairs they
    hold. *)
Lemma collapsed_blocks (a b : list A) :
  order_alike a b →
  let blocks := (matching_loop a b (length a + length b + 1)
                   [(0, length a, 0, length b)] []).2 in
  separated (collapse (merge_sort Match_le blocks) 0 0 0)
  ∧ ∀ i j, covered (collapse (merge_sort Match_le blocks) 0 0 0) i j ↔ common_at a b i j.
Proof.
  intros Ho blocks. destruct (sorted_blocks_chain a b) as [Hc Hpos]. fold blocks in Hc, Hpos.
  split; [by eapply collapse_separated_top|].
  intros i j. rewrite covered_collapse, covered_cons. simpl.
  rewrite <- (matching_loop_blocks a b Ho i j). fold blocks.
  pose proof (merge_sort_Permutation Match_le blocks) as Hperm.
  split.
  - intros [(t & ? & _)|Hcov]; [lia|]. by eapply covered_Permutation.
  - intros Hcov. right. eapply covered_Permutation; [|exact Hcov]. done.
Qed.

(** When the elements the two sequences have in common come in the same
    order in both, [SequenceMatcher] pairs the same elements in both
    orders of the sequences. *)
Lemma order_alike_same_matching (a b : list A) :
  order_alike a b → same_matching a b.
Proof.
  intros Ho. unfold same_matching, get_matching_blocks. rewrite fmap_app. f_equal.
  destruct (collapsed_blocks a b Ho) as [Hsep Hcov].
  destruct (collapsed_blocks b a (order_alike_sym a b Ho)) as [Hsep' Hcov'].
  apply separated_unique; [done|by apply separated_flip|].
  intros j i. rewrite covered_flip, Hcov, Hcov'.
  split; intros (x & ? & ?); by exists x.
Qed.

End SameMatching.

Lemma common_lines_alike_same_matching {A} `{Countable A} (a b : list A) :
  common_lines_alike a b → same_matching a b.
Proof. intros Hc. by apply order_alike_same_matching, common_lines_alike_order. Qed.

(** ** The two documents exchanged, whatever their lines *)

(** C5, as amended. For two documents none of whose lines begins with two
    minus or two plus signs:
    - the differences on lines that only one of the two documents has are
      the same in both orders of the documents, with removed and added (and
      the file) exchanged and the content, the page, the line, the line in
      the page and the context kept;
    - when the lines the documents have in common are no line twice and
      come in the same order in both documents, as they do when there is
      none, [SequenceMatcher] pairs the same lines in both orders;
    - and whenever it pairs the same lines in both orders, the exchanged
      run lists exactly the entries of the run, up to their order, with
      removed and added (and the file) exchanged and all else kept. *)
Theorem swapped_diff_mirrors (pages1 pages2 : list text) (fromfile tofile : text) :
  plain_lines (lines_of pages1) →
  plain_lines (lines_of pages2) →
  (∀ e, on_one_side (lines_of pages1) (lines_of pages2) e →
        e ∈ detailed_diff pages1 pages2 fromfile tofile
        ↔ mirrored e ∈ detailed_diff pages2 pages1 tofile fromfile)
  ∧ (common_lines_alike (lines_of pages1) (lines_of pages2) →
     same_matching (lines_of pages1) (lines_of pages2))
  ∧ (same_matching (lines_of pages1) (lines_of pages2) →
     detailed_diff pages2 pages1 tofile fromfile
     ≡ₚ mirrored <$> detailed_diff pages1 pages2 fromfile tofile
     ∧ swap_mirrors pages1 pages2 fromfile tofile).
Proof.
  intros H1 H2. split; [|split].
  - intros e. by apply detailed_diff_one_side.
  - apply common_lines_alike_same_matching.
  - intros Hs.
    pose proof (detailed_diff_mirrored pages1 pages2 fromfile tofile H1 H2 Hs) as Hp.
    split; [done|]. by apply swap_mirrors_of_mirrored.
Qed.

Lemma swapped_diff_mirrors_witness :
  let pages1 := [lines_text ["A"; "B"; "C"]] in
  let pages2 := [lines_text ["A"; "X"; "C"]] in
  common_lines_alike (lines_of pages1) (lines_of pages2)
  ∧ detailed_diff pages1 pages2 (str "a.pdf") (str "b.pdf") ≠ []
  ∧ detailed_diff pages2 pages1 (str "b.pdf") (str "a.pdf")
    ≡ₚ mirrored <$> detailed_diff pages1 pages2 (str "a.pdf") (str "b.pdf")
  ∧ swap_mirrors pages1 pages2 (str "a.pdf") (str "b.pdf").
Proof.
  intros pages1 pages2.
  assert (common_lines_alike (lines_of pages1) (lines_of pages2)) as Hc.
  { split; [apply (bool_decide_unpack _); vm_compute; exact I|vm_compute; reflexivity]. }
  destruct (swapped_diff_mirrors pages1 pages2 (str "a.pdf") (str "b.pdf"))
    as (_ & Halike & Hmirror).
  - vm_compute. repeat constructor.
  - vm_compute. repeat constructor.
  - split; [exact Hc|]. split; [by vm_compute|]. apply Hmirror, Halike, Hc.
Defined.

(** Why the lines must not begin with two minus or two plus signs: a
    removed line [--x] is taken for the line of a file name and is not
    listed, while the exchanged run lists it as added. *)
Lemma swapped_diff_of_a_line_with_two_signs :
  let pages1 := [str "--x"] in
  let pages2 := [str "y"] in
  (d_type <$> detailed_diff pages1 pages2 (str "a.pdf") (str "b.pdf")) = [added]
  ∧ (d_content <$> detailed_diff pages1 pages2 (str "a.pdf") (str "b.pdf")) = [str "y"]
  ∧ (d_type <$> detailed_diff pages2 pages1 (str "b.pdf") (str "a.pdf"))
    = [removed; added]
  ∧ (d_content <$> detailed_diff pages2 pages1 (str "b.pdf") (str "a.pdf"))
    = [str "y"; str "--x"].
Proof. intros pages1 pages2. repeat split; by vm_compute. Qed.
